(** * Array-Generator: the row-construction engine of [array.cpp] and
    [heuristics.cpp], embedded in Rocq.

    Objects that the C++ code reaches through pointers live in arenas and
    a pointer is the place of its object in the arena:
    - a [Single*] is the pair [(col, level)] of [factors[col]->singles[level]];
    - an [Interaction*] is an index into the [interactions] vector;
    - a [T*] is an index into the [sets] vector.
    Every pointer the program stores was obtained from one of these three
    places, so reads through an index outside its arena (which no C++ state
    exhibits) are reported as [BadIndex] and writes through it do nothing.

    [array.h] is not part of the sources.  The integer widths it declares are
    therefore not modelled: the counters range over [Z], the integers "wide
    enough to avoid wraparound" that section 9 of the specification asks
    for, and sizes and indices over [nat].  The one place where unsigned
    arithmetic decides control flow, the loop bound
    [num_factors - t_cur + 1], is written out with its wrap-around.

    A [std::set] of pointers is a [gset nat]; the program iterates such a
    set in address order, which the model takes to be allocation order
    (ascending index). *)

From stdpp Require Import gmap list sorting.

Set Default Proof Using "Type".
Set Warnings "-clear-no-such-hyp".
Open Scope Z_scope.

(** ** Failures *)

Inductive error :=
  | OutOfRange    (* std::out_of_range thrown by at() *)
  | BadIndex      (* operator[] or raw array access past the end *)
  | NullDeref     (* access through a null pointer *)
  | DivByZero     (* x % 0 *)
  | ExitFailure.  (* exit(-1) after "ERROR: Unexpected behavior here" *)

Inductive result (A : Type) :=
  | Ok (a : A)
  | Err (e : error).
Arguments Ok {A} a.
Arguments Err {A} e.

#[global] Instance result_ret : MRet result := λ A a, Ok a.
#[global] Instance result_bind : MBind result := λ A B f m,
  match m with Ok a => f a | Err e => Err e end.
#[global] Instance result_fmap : FMap result := λ A B f m,
  match m with Ok a => Ok (f a) | Err e => Err e end.

Definition or_fail {A} (e : error) (o : option A) : result A :=
  match o with Some a => Ok a | None => Err e end.

(** [for (x : l) body], where the body may throw *)
Fixpoint foldM {A S : Type} (f : A → S → result S) (l : list A) (s : S) : result S :=
  match l with
  | [] => Ok s
  | x :: l' => s' ← f x s; foldM f l' s'
  end.

(** [for (x : l) body], where the body cannot fail *)
Definition for_each {A S : Type} (f : A → S → S) (l : list A) (s : S) : S :=
  foldl (λ s x, f x s) s l.

(** iteration over a [std::set] of pointers *)
Definition iter (s : gset nat) : list nat := merge_sort (≤)%nat (elements s).

(** [std::map::insert]: an existing key keeps its value *)
Definition map_insert_new `{Countable K} {V} (k : K) (v : V) (m : gmap K V) : gmap K V :=
  match m !! k with Some _ => m | None => <[k:=v]> m end.

(** ** Data model *)

Inductive prop_mode :=
  | none | c_only | l_only | d_only | c_and_l | c_and_d | l_and_d | all.

#[global] Instance prop_mode_eq_dec : EqDecision prop_mode.
Proof. solve_decision. Defined.

(** a [Single*]: [factors[col]->singles[level]] *)
Abbreviation SingleP := (nat * nat)%type (only parsing).

(** A fingerprint is the string [f<c1>,<v1>f<c2>,<v2>...]; it is kept as the
    list of its [(c, v)] items, and [+=] on strings is [++]. *)
Abbreviation fingerprint := (list (nat * nat)) (only parsing).

Record Single := {
  factor : nat;
  value : nat;
  s_rows : gset nat;
  c_issues : Z;
  l_issues : Z;
  d_issues : Z;
}.

Record Factor := {
  id : nat;
  level : nat;
  f_singles : list Single;
}.

Record Interaction := {
  i_singles : list SingleP;
  i_rows : gset nat;
  is_covered : bool;
  is_detectable : bool;
  i_sets : gset nat;
  deltas : gmap nat Z;
}.

Record T := {
  t_interactions : list nat;
  t_singles : list SingleP;
  t_rows : gset nat;
  location_conflicts : gset nat;
  is_locatable : bool;
}.

Record Array := {
  total_problems : Z;
  coverage_problems : Z;
  location_problems : Z;
  detection_problems : Z;
  score : Z;
  d : nat;
  t : nat;
  delta : Z;
  num_tests : nat;
  num_factors : nat;
  factors : list Factor;
  singles : list SingleP;
  interactions : list Interaction;
  sets : list T;
  single_map : gmap fingerprint SingleP;
  interaction_map : gmap fingerprint nat;
  t_set_map : gmap fingerprint nat;
  rows : list (list nat);
  p : prop_mode;
  is_covering : bool;
  is_locating : bool;
  is_detecting : bool;
  dont_cares : option (list prop_mode);
  permutation : option (list nat);
}.

(** What the parsing collaborator hands to the constructor. *)
Record Parser := {
  in_d : nat;
  in_t : nat;
  in_delta : Z;
  in_num_rows : nat;
  in_num_cols : nat;
  in_levels : list nat;
  in_p : prop_mode;
}.

(** *** Field updates *)

Definition s_set_rows (f : gset nat → gset nat) (s : Single) : Single :=
  {| factor := factor s; value := value s; s_rows := f (s_rows s);
     c_issues := c_issues s; l_issues := l_issues s; d_issues := d_issues s |}.
Definition s_set_c_issues (f : Z → Z) (s : Single) : Single :=
  {| factor := factor s; value := value s; s_rows := s_rows s;
     c_issues := f (c_issues s); l_issues := l_issues s; d_issues := d_issues s |}.
Definition s_set_l_issues (f : Z → Z) (s : Single) : Single :=
  {| factor := factor s; value := value s; s_rows := s_rows s;
     c_issues := c_issues s; l_issues := f (l_issues s); d_issues := d_issues s |}.
Definition s_set_d_issues (f : Z → Z) (s : Single) : Single :=
  {| factor := factor s; value := value s; s_rows := s_rows s;
     c_issues := c_issues s; l_issues := l_issues s; d_issues := f (d_issues s) |}.

Definition f_set_singles (f : list Single → list Single) (F : Factor) : Factor :=
  {| id := id F; level := level F; f_singles := f (f_singles F) |}.

Definition i_set_rows (f : gset nat → gset nat) (I : Interaction) : Interaction :=
  {| i_singles := i_singles I; i_rows := f (i_rows I); is_covered := is_covered I;
     is_detectable := is_detectable I; i_sets := i_sets I; deltas := deltas I |}.
Definition i_set_is_covered (b : bool) (I : Interaction) : Interaction :=
  {| i_singles := i_singles I; i_rows := i_rows I; is_covered := b;
     is_detectable := is_detectable I; i_sets := i_sets I; deltas := deltas I |}.
Definition i_set_is_detectable (b : bool) (I : Interaction) : Interaction :=
  {| i_singles := i_singles I; i_rows := i_rows I; is_covered := is_covered I;
     is_detectable := b; i_sets := i_sets I; deltas := deltas I |}.
Definition i_set_sets (f : gset nat → gset nat) (I : Interaction) : Interaction :=
  {| i_singles := i_singles I; i_rows := i_rows I; is_covered := is_covered I;
     is_detectable := is_detectable I; i_sets := f (i_sets I); deltas := deltas I |}.
Definition i_set_deltas (f : gmap nat Z → gmap nat Z) (I : Interaction) : Interaction :=
  {| i_singles := i_singles I; i_rows := i_rows I; is_covered := is_covered I;
     is_detectable := is_detectable I; i_sets := i_sets I; deltas := f (deltas I) |}.

Definition t_set_rows (f : gset nat → gset nat) (X : T) : T :=
  {| t_interactions := t_interactions X; t_singles := t_singles X; t_rows := f (t_rows X);
     location_conflicts := location_conflicts X; is_locatable := is_locatable X |}.
Definition t_set_location_conflicts (f : gset nat → gset nat) (X : T) : T :=
  {| t_interactions := t_interactions X; t_singles := t_singles X; t_rows := t_rows X;
     location_conflicts := f (location_conflicts X); is_locatable := is_locatable X |}.
Definition t_set_is_locatable (b : bool) (X : T) : T :=
  {| t_interactions := t_interactions X; t_singles := t_singles X; t_rows := t_rows X;
     location_conflicts := location_conflicts X; is_locatable := b |}.

(** The fields of an [Array] that some method assigns, gathered so that one
    update function serves them all. *)
Inductive field : Type → Type :=
  | F_total_problems : field Z
  | F_coverage_problems : field Z
  | F_location_problems : field Z
  | F_detection_problems : field Z
  | F_score : field Z
  | F_num_tests : field nat
  | F_factors : field (list Factor)
  | F_singles : field (list SingleP)
  | F_interactions : field (list Interaction)
  | F_sets : field (list T)
  | F_single_map : field (gmap fingerprint SingleP)
  | F_interaction_map : field (gmap fingerprint nat)
  | F_t_set_map : field (gmap fingerprint nat)
  | F_rows : field (list (list nat))
  | F_is_covering : field bool
  | F_is_locating : field bool
  | F_is_detecting : field bool
  | F_dont_cares : field (option (list prop_mode))
  | F_permutation : field (option (list nat)).

Definition upd {X} (fd : field X) : (X → X) → Array → Array :=
  match fd in field X return (X → X) → Array → Array with
  | F_total_problems => λ f a,
    {| total_problems := f (total_problems a); coverage_problems := coverage_problems a;
       location_problems := location_problems a; detection_problems := detection_problems a;
       score := score a; d := d a; t := t a; delta := delta a; num_tests := num_tests a;
       num_factors := num_factors a; factors := factors a; singles := singles a;
       interactions := interactions a; sets := sets a; single_map := single_map a;
       interaction_map := interaction_map a; t_set_map := t_set_map a; rows := rows a;
       p := p a; is_covering := is_covering a; is_locating := is_locating a;
       is_detecting := is_detecting a; dont_cares := dont_cares a;
       permutation := permutation a |}
  | F_coverage_problems => λ f a,
    {| total_problems := total_problems a; coverage_problems := f (coverage_problems a);
       location_problems := location_problems a; detection_problems := detection_problems a;
       score := score a; d := d a; t := t a; delta := delta a; num_tests := num_tests a;
       num_factors := num_factors a; factors := factors a; singles := singles a;
       interactions := interactions a; sets := sets a; single_map := single_map a;
       interaction_map := interaction_map a; t_set_map := t_set_map a; rows := rows a;
       p := p a; is_covering := is_covering a; is_locating := is_locating a;
       is_detecting := is_detecting a; dont_cares := dont_cares a;
       permutation := permutation a |}
  | F_location_problems => λ f a,
    {| total_problems := total_problems a; coverage_problems := coverage_problems a;
       location_problems := f (location_problems a); detection_problems := detection_problems a;
       score := score a; d := d a; t := t a; delta := delta a; num_tests := num_tests a;
       num_factors := num_factors a; factors := factors a; singles := singles a;
       interactions := interactions a; sets := sets a; single_map := single_map a;
       interaction_map := interaction_map a; t_set_map := t_set_map a; rows := rows a;
       p := p a; is_covering := is_covering a; is_locating := is_locating a;
       is_detecting := is_detecting a; dont_cares := dont_cares a;
       permutation := permutation a |}
  | F_detection_problems => λ f a,
    {| total_problems := total_problems a; coverage_problems := coverage_problems a;
       location_problems := location_problems a; detection_problems := f (detection_problems a);
       score := score a; d := d a; t := t a; delta := delta a; num_tests := num_tests a;
       num_factors := num_factors a; factors := factors a; singles := singles a;
       interactions := interactions a; sets := sets a; single_map := single_map a;
       interaction_map := interaction_map a; t_set_map := t_set_map a; rows := rows a;
       p := p a; is_covering := is_covering a; is_locating := is_locating a;
       is_detecting := is_detecting a; dont_cares := dont_cares a;
       permutation := permutation a |}
  | F_score => λ f a,
    {| total_problems := total_problems a; coverage_problems := coverage_problems a;
       location_problems := location_problems a; detection_problems := detection_problems a;
       score := f (score a); d := d a; t := t a; delta := delta a; num_tests := num_tests a;
       num_factors := num_factors a; factors := factors a; singles := singles a;
       interactions := interactions a; sets := sets a; single_map := single_map a;
       interaction_map := interaction_map a; t_set_map := t_set_map a; rows := rows a;
       p := p a; is_covering := is_covering a; is_locating := is_locating a;
       is_detecting := is_detecting a; dont_cares := dont_cares a;
       permutation := permutation a |}
  | F_num_tests => λ f a,
    {| total_problems := total_problems a; coverage_problems := coverage_problems a;
       location_problems := location_problems a; detection_problems := detection_problems a;
       score := score a; d := d a; t := t a; delta := delta a; num_tests := f (num_tests a);
       num_factors := num_factors a; factors := factors a; singles := singles a;
       interactions := interactions a; sets := sets a; single_map := single_map a;
       interaction_map := interaction_map a; t_set_map := t_set_map a; rows := rows a;
       p := p a; is_covering := is_covering a; is_locating := is_locating a;
       is_detecting := is_detecting a; dont_cares := dont_cares a;
       permutation := permutation a |}
  | F_factors => λ f a,
    {| total_problems := total_problems a; coverage_problems := coverage_problems a;
       location_problems := location_problems a; detection_problems := detection_problems a;
       score := score a; d := d a; t := t a; delta := delta a; num_tests := num_tests a;
       num_factors := num_factors a; factors := f (factors a); singles := singles a;
       interactions := interactions a; sets := sets a; single_map := single_map a;
       interaction_map := interaction_map a; t_set_map := t_set_map a; rows := rows a;
       p := p a; is_covering := is_covering a; is_locating := is_locating a;
       is_detecting := is_detecting a; dont_cares := dont_cares a;
       permutation := permutation a |}
  | F_singles => λ f a,
    {| total_problems := total_problems a; coverage_problems := coverage_problems a;
       location_problems := location_problems a; detection_problems := detection_problems a;
       score := score a; d := d a; t := t a; delta := delta a; num_tests := num_tests a;
       num_factors := num_factors a; factors := factors a; singles := f (singles a);
       interactions := interactions a; sets := sets a; single_map := single_map a;
       interaction_map := interaction_map a; t_set_map := t_set_map a; rows := rows a;
       p := p a; is_covering := is_covering a; is_locating := is_locating a;
       is_detecting := is_detecting a; dont_cares := dont_cares a;
       permutation := permutation a |}
  | F_interactions => λ f a,
    {| total_problems := total_problems a; coverage_problems := coverage_problems a;
       location_problems := location_problems a; detection_problems := detection_problems a;
       score := score a; d := d a; t := t a; delta := delta a; num_tests := num_tests a;
       num_factors := num_factors a; factors := factors a; singles := singles a;
       interactions := f (interactions a); sets := sets a; single_map := single_map a;
       interaction_map := interaction_map a; t_set_map := t_set_map a; rows := rows a;
       p := p a; is_covering := is_covering a; is_locating := is_locating a;
       is_detecting := is_detecting a; dont_cares := dont_cares a;
       permutation := permutation a |}
  | F_sets => λ f a,
    {| total_problems := total_problems a; coverage_problems := coverage_problems a;
       location_problems := location_problems a; detection_problems := detection_problems a;
       score := score a; d := d a; t := t a; delta := delta a; num_tests := num_tests a;
       num_factors := num_factors a; factors := factors a; singles := singles a;
       interactions := interactions a; sets := f (sets a); single_map := single_map a;
       interaction_map := interaction_map a; t_set_map := t_set_map a; rows := rows a;
       p := p a; is_covering := is_covering a; is_locating := is_locating a;
       is_detecting := is_detecting a; dont_cares := dont_cares a;
       permutation := permutation a |}
  | F_single_map => λ f a,
    {| total_problems := total_problems a; coverage_problems := coverage_problems a;
       location_problems := location_problems a; detection_problems := detection_problems a;
       score := score a; d := d a; t := t a; delta := delta a; num_tests := num_tests a;
       num_factors := num_factors a; factors := factors a; singles := singles a;
       interactions := interactions a; sets := sets a; single_map := f (single_map a);
       interaction_map := interaction_map a; t_set_map := t_set_map a; rows := rows a;
       p := p a; is_covering := is_covering a; is_locating := is_locating a;
       is_detecting := is_detecting a; dont_cares := dont_cares a;
       permutation := permutation a |}
  | F_interaction_map => λ f a,
    {| total_problems := total_problems a; coverage_problems := coverage_problems a;
       location_problems := location_problems a; detection_problems := detection_problems a;
       score := score a; d := d a; t := t a; delta := delta a; num_tests := num_tests a;
       num_factors := num_factors a; factors := factors a; singles := singles a;
       interactions := interactions a; sets := sets a; single_map := single_map a;
       interaction_map := f (interaction_map a); t_set_map := t_set_map a; rows := rows a;
       p := p a; is_covering := is_covering a; is_locating := is_locating a;
       is_detecting := is_detecting a; dont_cares := dont_cares a;
       permutation := permutation a |}
  | F_t_set_map => λ f a,
    {| total_problems := total_problems a; coverage_problems := coverage_problems a;
       location_problems := location_problems a; detection_problems := detection_problems a;
       score := score a; d := d a; t := t a; delta := delta a; num_tests := num_tests a;
       num_factors := num_factors a; factors := factors a; singles := singles a;
       interactions := interactions a; sets := sets a; single_map := single_map a;
       interaction_map := interaction_map a; t_set_map := f (t_set_map a); rows := rows a;
       p := p a; is_covering := is_covering a; is_locating := is_locating a;
       is_detecting := is_detecting a; dont_cares := dont_cares a;
       permutation := permutation a |}
  | F_rows => λ f a,
    {| total_problems := total_problems a; coverage_problems := coverage_problems a;
       location_problems := location_problems a; detection_problems := detection_problems a;
       score := score a; d := d a; t := t a; delta := delta a; num_tests := num_tests a;
       num_factors := num_factors a; factors := factors a; singles := singles a;
       interactions := interactions a; sets := sets a; single_map := single_map a;
       interaction_map := interaction_map a; t_set_map := t_set_map a; rows := f (rows a);
       p := p a; is_covering := is_covering a; is_locating := is_locating a;
       is_detecting := is_detecting a; dont_cares := dont_cares a;
       permutation := permutation a |}
  | F_is_covering => λ f a,
    {| total_problems := total_problems a; coverage_problems := coverage_problems a;
       location_problems := location_problems a; detection_problems := detection_problems a;
       score := score a; d := d a; t := t a; delta := delta a; num_tests := num_tests a;
       num_factors := num_factors a; factors := factors a; singles := singles a;
       interactions := interactions a; sets := sets a; single_map := single_map a;
       interaction_map := interaction_map a; t_set_map := t_set_map a; rows := rows a;
       p := p a; is_covering := f (is_covering a); is_locating := is_locating a;
       is_detecting := is_detecting a; dont_cares := dont_cares a;
       permutation := permutation a |}
  | F_is_locating => λ f a,
    {| total_problems := total_problems a; coverage_problems := coverage_problems a;
       location_problems := location_problems a; detection_problems := detection_problems a;
       score := score a; d := d a; t := t a; delta := delta a; num_tests := num_tests a;
       num_factors := num_factors a; factors := factors a; singles := singles a;
       interactions := interactions a; sets := sets a; single_map := single_map a;
       interaction_map := interaction_map a; t_set_map := t_set_map a; rows := rows a;
       p := p a; is_covering := is_covering a; is_locating := f (is_locating a);
       is_detecting := is_detecting a; dont_cares := dont_cares a;
       permutation := permutation a |}
  | F_is_detecting => λ f a,
    {| total_problems := total_problems a; coverage_problems := coverage_problems a;
       location_problems := location_problems a; detection_problems := detection_problems a;
       score := score a; d := d a; t := t a; delta := delta a; num_tests := num_tests a;
       num_factors := num_factors a; factors := factors a; singles := singles a;
       interactions := interactions a; sets := sets a; single_map := single_map a;
       interaction_map := interaction_map a; t_set_map := t_set_map a; rows := rows a;
       p := p a; is_covering := is_covering a; is_locating := is_locating a;
       is_detecting := f (is_detecting a); dont_cares := dont_cares a;
       permutation := permutation a |}
  | F_dont_cares => λ f a,
    {| total_problems := total_problems a; coverage_problems := coverage_problems a;
       location_problems := location_problems a; detection_problems := detection_problems a;
       score := score a; d := d a; t := t a; delta := delta a; num_tests := num_tests a;
       num_factors := num_factors a; factors := factors a; singles := singles a;
       interactions := interactions a; sets := sets a; single_map := single_map a;
       interaction_map := interaction_map a; t_set_map := t_set_map a; rows := rows a;
       p := p a; is_covering := is_covering a; is_locating := is_locating a;
       is_detecting := is_detecting a; dont_cares := f (dont_cares a);
       permutation := permutation a |}
  | F_permutation => λ f a,
    {| total_problems := total_problems a; coverage_problems := coverage_problems a;
       location_problems := location_problems a; detection_problems := detection_problems a;
       score := score a; d := d a; t := t a; delta := delta a; num_tests := num_tests a;
       num_factors := num_factors a; factors := factors a; singles := singles a;
       interactions := interactions a; sets := sets a; single_map := single_map a;
       interaction_map := interaction_map a; t_set_map := t_set_map a; rows := rows a;
       p := p a; is_covering := is_covering a; is_locating := is_locating a;
       is_detecting := is_detecting a; dont_cares := dont_cares a;
       permutation := f (permutation a) |}
  end.

(** ** Reading and writing through pointers *)

Definition get_single (a : Array) (s : SingleP) : option Single :=
  F ← factors a !! s.1; f_singles F !! s.2.
Definition get_interaction (a : Array) (i : nat) : option Interaction :=
  interactions a !! i.
Definition get_T (a : Array) (k : nat) : option T := sets a !! k.

Definition single_at (a : Array) (s : SingleP) : result Single :=
  or_fail BadIndex (get_single a s).
Definition interaction_at (a : Array) (i : nat) : result Interaction :=
  or_fail BadIndex (get_interaction a i).
Definition T_at (a : Array) (k : nat) : result T := or_fail BadIndex (get_T a k).

Definition upd_single (f : Single → Single) (s : SingleP) : Array → Array :=
  upd F_factors (alter (f_set_singles (alter f s.2)) s.1).
Definition upd_interaction (f : Interaction → Interaction) (i : nat) : Array → Array :=
  upd F_interactions (alter f i).
Definition upd_T (f : T → T) (k : nat) : Array → Array :=
  upd F_sets (alter f k).

(** ** Construction *)

(** Modelled from the spec: [Single::Single(i, j)] is defined in [array.h],
    which is missing.  Section 4.1: a new Single has all three counters at
    zero and no rows. *)
Definition new_Single (i j : nat) : Single :=
  {| factor := i; value := j; s_rows := ∅; c_issues := 0; l_issues := 0; d_issues := 0 |}.

(** Modelled from the spec: [Single::to_string] is defined in [array.h],
    which is missing.  Section 3: the fingerprint of a Single is
    [f<factor>,<value>]; it is the key that [heuristic_l_only] builds for a
    column and a level before it looks a Single up by [to_string]. *)
Definition Single_to_string (s : Single) : fingerprint := [(factor s, value s)].

(** [Interaction::Interaction(std::vector<Single*> *temp)] *)
Definition new_Interaction (a : Array) (temp : list SingleP) : result Interaction :=
  match temp with
  | [] => Err OutOfRange
  | s0 :: rest =>
    S0 ← single_at a s0;
    rws ← foldM (λ s rws, S ← single_at a s; Ok (rws ∩ s_rows S)) rest (s_rows S0);
    Ok {| i_singles := temp; i_rows := rws; is_covered := false; is_detectable := false;
          i_sets := ∅; deltas := ∅ |}
  end.

Definition Interaction_to_string (a : Array) (I : Interaction) : result fingerprint :=
  foldM (λ s ret, S ← single_at a s; Ok (ret ++ Single_to_string S)) (i_singles I) [].

(** [T::T(std::vector<Interaction*> *temp)]; [this] is the place the new set
    is about to take in [sets]. *)
Definition new_T (this : nat) (temp : list nat) (a : Array) : result (T * Array) :=
  match temp with
  | [] => Err OutOfRange
  | i0 :: rest =>
    I0 ← interaction_at a i0;
    rws ← foldM (λ i rws, I ← interaction_at a i; Ok (rws ∪ i_rows I)) rest (i_rows I0);
    '(a', ss) ← foldM (λ i '(a', ss),
        I ← interaction_at a' i;
        Ok (upd_interaction (i_set_sets (union {[this]})) i a', ss ++ i_singles I))
      temp (a, []);
    Ok ({| t_interactions := temp; t_singles := ss; t_rows := rws;
           location_conflicts := ∅; is_locatable := false |}, a')
  end.

Definition T_to_string (a : Array) (X : T) : result fingerprint :=
  foldM (λ i ret, I ← interaction_at a i; key ← Interaction_to_string a I; Ok (ret ++ key))
    (t_interactions X) [].

(** [static_cast<int64_t>(x)], and the conversion of a 64-bit value to [int]:
    the value modulo [2^64] (modulo [2^32]), read as a signed number *)
Definition to_int64 (x : Z) : Z := (x + 2 ^ 63) `mod` 2 ^ 64 - 2 ^ 63.
Definition to_int (x : Z) : Z := (x + 2 ^ 31) `mod` 2 ^ 32 - 2 ^ 31.

(** the bound [n - k + 1] of the enumeration loops, computed on [uint64_t]:
    it wraps around when [k] exceeds [n + 1] *)
Definition loop_bound (n k : nat) : nat :=
  if decide (k ≤ n + 1)%nat then (n + 1 - k)%nat
  else Z.to_nat (2 ^ 64 - (Z.of_nat k - Z.of_nat n - 1)).

(** the values [start, start+1, ..., bound-1] of a loop counter *)
Definition range (start bound : nat) : list nat := seq start (bound - start).

Fixpoint build_t_way_interactions (t_cur : nat) (start : nat)
    (singles_so_far : list SingleP) (a : Array) : result Array :=
  match t_cur with
  | O =>
    new_interaction ← new_Interaction a singles_so_far;
    key ← Interaction_to_string a new_interaction;
    let this := length (interactions a) in
    let a := upd F_interactions (λ l, l ++ [new_interaction]) a in
    let a := upd F_interaction_map (map_insert_new key this) a in
    Ok (for_each (λ single a,
          upd F_score Z.succ
            (upd F_total_problems Z.succ
              (upd_single (s_set_c_issues Z.succ) single a)))
        (i_singles new_interaction) a)
  | S t' =>
    foldM (λ col a,
        F ← or_fail BadIndex (factors a !! col);
        foldM (λ lv a,
            build_t_way_interactions t' (col + 1) (singles_so_far ++ [(col, lv)]) a)
          (seq 0 (level F)) a)
      (range start (loop_bound (num_factors a) (S t'))) a
  end.

Fixpoint build_size_d_sets (d_cur : nat) (start : nat)
    (interactions_so_far : list nat) (a : Array) : result Array :=
  match d_cur with
  | O =>
    let this := length (sets a) in
    '(new_set, a) ← new_T this interactions_so_far a;
    let a := upd F_sets (λ l, l ++ [new_set]) a in
    key ← T_to_string a new_set;
    Ok (upd F_t_set_map (map_insert_new key this) a)
  | S d' =>
    foldM (λ i a,
        _ ← interaction_at a i;
        build_size_d_sets d' (i + 1) (interactions_so_far ++ [i]) a)
      (range start (loop_bound (length (interactions a)) (S d'))) a
  end.

(** [Array::Array()] *)
Definition Array_default : Array :=
  {| total_problems := 0; coverage_problems := 0; location_problems := 0;
     detection_problems := 0; score := 0; d := 0; t := 0; delta := 0;
     num_tests := 0; num_factors := 0; factors := []; singles := [];
     interactions := []; sets := []; single_map := ∅; interaction_map := ∅;
     t_set_map := ∅; rows := []; p := all; is_covering := false;
     is_locating := false; is_detecting := false; dont_cares := None;
     permutation := None |}.

(** the loop that allocates the Factors and their Singles, shared by the
    two constructors; [level_of i] reads the level of factor [i] *)
Definition build_factors (level_of : nat → result nat) (a : Array) : result Array :=
  foldM (λ i a,
      lv ← level_of i;
      let a := upd F_factors (λ l, l ++ [{| id := i; level := lv; f_singles := [] |}]) a in
      Ok (for_each (λ j a,
            let a := upd F_factors
                       (alter (f_set_singles (λ l, l ++ [new_Single i j])) i) a in
            let a := upd F_singles (λ l, l ++ [(i, j)]) a in
            upd F_single_map (map_insert_new (Single_to_string (new_Single i j)) (i, j)) a)
          (seq 0 lv) a))
    (seq 0 (num_factors a)) a.

Definition add_to (fd : field Z) (k : Z) : Array → Array := upd fd (λ x, x + k).

(** the members as [Array::Array(Parser *in)] has them before its first loop *)
Definition Array_init (inp : Parser) : Array :=
  {| total_problems := 0; coverage_problems := 0; location_problems := 0;
     detection_problems := 0; score := 0;
     d := in_d inp; t := in_t inp; delta := in_delta inp;
     num_tests := in_num_rows inp; num_factors := in_num_cols inp;
     factors := []; singles := []; interactions := []; sets := [];
     single_map := ∅; interaction_map := ∅; t_set_map := ∅; rows := [];
     p := in_p inp; is_covering := false; is_locating := false;
     is_detecting := false;
     dont_cares := Some (replicate (in_num_cols inp) none);
     permutation := Some (seq 0 (in_num_cols inp)) |}.

(** [Array::Array(Parser *in)] *)
Definition Array_of_Parser (inp : Parser) : result Array :=
  let a := Array_init inp in
  a ← build_factors (λ i, or_fail OutOfRange (in_levels inp !! i)) a;
  (* build all Interactions *)
  a ← build_t_way_interactions (t a) 0 [] a;
  let a := add_to F_total_problems (Z.of_nat (length (interactions a))) a in
  let a := add_to F_coverage_problems (Z.of_nat (length (interactions a))) a in
  let a := add_to F_score (total_problems a) a in
  if decide (p a = c_only) then Ok a else
  (* build all Ts *)
  a ← build_size_d_sets (d a) 0 [] a;
  let a := for_each (λ X a,
      for_each (λ s a,
          let a := add_to F_total_problems (Z.of_nat (length (sets a))) a in
          upd_single (s_set_l_issues (λ x, x + Z.of_nat (length (sets a)))) s a)
        (t_singles X) a) (sets a) a in
  let a := add_to F_total_problems (Z.of_nat (length (sets a))) a in
  let a := add_to F_location_problems (Z.of_nat (length (sets a))) a in
  let a := upd F_score (λ _, total_problems a) a in
  if decide (p a ≠ all) then Ok a else
  (* the Interactions' maps of detection issues *)
  a ← foldM (λ i a,
      foldM (λ k a,
          I ← interaction_at a i;
          if decide (k ∈ i_sets I) then Ok a else
          let a := upd_interaction (i_set_deltas (map_insert_new k 0)) i a in
          Ok (for_each (λ s a,
                let a := add_to F_total_problems (delta a) a in
                let a := upd_single (s_set_d_issues (λ x, x + delta a)) s a in
                add_to F_score (delta a) a)
              (i_singles I) a))
        (seq 0 (length (sets a))) a)
    (seq 0 (length (interactions a))) a;
  let a := add_to F_total_problems (Z.of_nat (length (interactions a))) a in
  let a := add_to F_detection_problems (Z.of_nat (length (interactions a))) a in
  Ok (add_to F_score (Z.of_nat (length (interactions a))) a).

(** ** Recovering the Interactions of a row *)

Fixpoint build_row_interactions (a : Array) (row : list nat) (t_cur : nat) (start : nat)
    (key : fingerprint) (row_interactions : gset nat) : result (gset nat) :=
  match t_cur with
  | O =>
    i ← or_fail OutOfRange (interaction_map a !! key);
    Ok ({[i]} ∪ row_interactions)
  | S t' =>
    foldM (λ col row_interactions,
        v ← or_fail BadIndex (row !! col);
        build_row_interactions a row t' (col + 1) (key ++ [(col, v)]) row_interactions)
      (range start (loop_bound (num_factors a) (S t'))) row_interactions
  end.

(** ** Committing a row: [Array::update_array] *)

(** [for (Single *s : ss) { s->counter += k; score += k; }] *)
Definition bump (set_counter : (Z → Z) → Single → Single) (k : Z)
    (ss : list SingleP) : Array → Array :=
  for_each (λ s a, add_to F_score k (upd_single (set_counter (λ x, x + k)) s a)) ss.

(** first loop: the new row index [n] enters the row-sets of every Single,
    Interaction and T set of the row, and [row_sets] is collected *)
Definition insert_row (n : nat) (i : nat) (st : Array * gset nat)
    : result (Array * gset nat) :=
  let '(a, row_sets) := st in
  I ← interaction_at a i;
  let a := for_each (upd_single (s_set_rows (union {[n]}))) (i_singles I) a in
  let a := upd_interaction (i_set_rows (union {[n]})) i a in
  let a := for_each (upd_T (t_set_rows (union {[n]}))) (iter (i_sets I)) a in
  Ok (a, i_sets I ∪ row_sets).

(** second loop, coverage part *)
Definition coverage_update (i : nat) (a : Array) : result Array :=
  I ← interaction_at a i;
  if is_covered I then Ok a else
  let a := upd_interaction (i_set_is_covered true) i a in
  let a := bump s_set_c_issues (-1) (i_singles I) a in
  let a := add_to F_score (-1) a in
  let a := add_to F_coverage_problems (-1) a in
  Ok (if decide (coverage_problems a = 0) then upd F_is_covering (λ _, true) a else a).

(** second loop, detection part (entered when [p == all]) *)
Definition detection_update (row_sets : gset nat) (i : nat) (a : Array) : result Array :=
  I ← interaction_at a i;
  if is_detectable I then Ok a else
  let a := upd_interaction (i_set_is_detectable true) i a in
  let other_sets := row_sets ∖ i_sets I in
  a ← foldM (λ k a,
      I ← interaction_at a i;
      dl ← or_fail OutOfRange (deltas I !! k);
      let a := if decide (dl ≤ to_int64 (delta a))
               then bump s_set_d_issues 1 (i_singles I) a else a in
      Ok (upd_interaction (i_set_deltas (<[k := dl - 1]>)) i a))
    (iter other_sets) a;
  I ← interaction_at a i;
  let a := for_each (λ kv a,
      let v := kv.2 + 1 in
      let a := upd_interaction (i_set_deltas (<[kv.1 := v]>)) i a in
      let a := if decide (v < to_int64 (delta a))
               then upd_interaction (i_set_is_detectable false) i a else a in
      if decide (v ≤ to_int64 (delta a))
      then bump s_set_d_issues (-1) (i_singles I) a else a)
    (map_to_list (deltas I)) a in
  I ← interaction_at a i;
  if is_detectable I then
    let a := add_to F_score (-1) a in
    let a := add_to F_detection_problems (-1) a in
    Ok (if decide (detection_problems a = 0) then upd F_is_detecting (λ _, true) a else a)
  else Ok a.

(** third loop, first branch: the set appears for the first time *)
Definition location_first (row_sets : gset nat) (t1 : nat) (a : Array) : result Array :=
  T1 ← T_at a t1;
  let a := bump s_set_l_issues (- Z.of_nat (length (sets a))) (t_singles T1) a in
  foldM (λ t2 a,
      T2 ← T_at a t2;
      if decide (t1 = t2 ∨ (1 < size (t_rows T2))%nat) then Ok a else
      let a := upd_T (t_set_location_conflicts (union {[t2]})) t1 a in
      Ok (bump s_set_l_issues 1 (t_singles T1) a))
    (iter row_sets) a.

(** third loop, second branch: conflicts with sets outside this row are solved *)
Definition location_solved (row_sets : gset nat) (t1 : nat) (a : Array) : result Array :=
  T1 ← T_at a t1;
  '(a, temp, solved) ← foldM (λ t2 '(a, temp, solved),
      if decide (t2 ∈ row_sets) then Ok (a, temp, solved) else
      let temp := temp ∖ {[t2]} in
      let solved := solved + 1 in
      T2 ← T_at a t2;
      if decide (t1 ∈ location_conflicts T2) then
        let a := upd_T (t_set_location_conflicts (λ c, c ∖ {[t1]})) t2 a in
        let a := bump s_set_l_issues (-1) (t_singles T2) a in
        T2 ← T_at a t2;
        if decide (size (location_conflicts T2) = 0%nat) then
          let a := upd_T (t_set_is_locatable true) t2 a in
          let a := add_to F_score (-1) a in
          let a := add_to F_location_problems (-1) a in
          if decide (location_problems a = 0) then Err ExitFailure
          else Ok (a, temp, solved)
        else Ok (a, temp, solved)
      else Err ExitFailure)
    (iter (location_conflicts T1)) (a, location_conflicts T1, 0);
  let a := bump s_set_l_issues (- solved) (t_singles T1) a in
  Ok (upd_T (t_set_location_conflicts (λ _, temp)) t1 a).

Definition location_update (row_sets : gset nat) (t1 : nat) (a : Array) : result Array :=
  T1 ← T_at a t1;
  if is_locatable T1 then Ok a else
  a ← (if decide (size (t_rows T1) = 1%nat)
       then location_first row_sets t1 a
       else location_solved row_sets t1 a);
  T1 ← T_at a t1;
  if decide (size (location_conflicts T1) = 0%nat) then
    let a := upd_T (t_set_is_locatable true) t1 a in
    let a := add_to F_score (-1) a in
    let a := add_to F_location_problems (-1) a in
    Ok (if decide (location_problems a = 0) then upd F_is_locating (λ _, true) a else a)
  else Ok a.

(** the [if (!keep)] block *)
Definition roll_back (row_interactions row_sets : gset nat) (a : Array) : result Array :=
  let n := num_tests a in
  a ← foldM (λ i a,
      I ← interaction_at a i;
      let a := for_each (upd_single (s_set_rows (λ r, r ∖ {[n]}))) (i_singles I) a in
      Ok (upd_interaction (i_set_rows (λ r, r ∖ {[n]})) i a))
    (iter row_interactions) a;
  let a := for_each (upd_T (t_set_rows (λ r, r ∖ {[n]}))) (iter row_sets) a in
  let a := upd F_num_tests Nat.pred a in
  Ok (upd F_rows (λ l, removelast l) a).

(** everything [update_array] does before the [if (!keep)] block; the T sets
    of the row are returned with the state *)
Definition update_array_body (row : list nat) (row_interactions : gset nat) (a : Array)
    : result (Array * gset nat) :=
  let a := upd F_rows (λ l, l ++ [row]) a in
  let a := upd F_num_tests S a in
  '(a, row_sets) ← foldM (insert_row (num_tests a)) (iter row_interactions) (a, ∅);
  a ← foldM (λ i a,
      a ← coverage_update i a;
      if decide (p a = all) then detection_update row_sets i a else Ok a)
    (iter row_interactions) a;
  a ← (if decide (p a ≠ c_only ∧ is_locating a = false)
       then foldM (location_update row_sets) (iter row_sets) a
       else Ok a);
  Ok (a, row_sets).

Definition update_array (row : list nat) (row_interactions : gset nat) (keep : bool)
    (a : Array) : result Array :=
  '(a, row_sets) ← update_array_body row row_interactions a;
  if keep then Ok a else roll_back row_interactions row_sets a.

(** [update_array(row)] as [heuristics.cpp] calls it: the Interactions of the
    row are recovered first, as [add_random_row] does *)
Definition update_array_row (row : list nat) (keep : bool) (a : Array) : result Array :=
  row_interactions ← build_row_interactions a row (t a) 0 [] ∅;
  update_array row row_interactions keep a.

(** ** Cloning *)

(** [Array::Array(total_problems_o, ..., delta_o)], used only by [clone] *)
Definition Array_for_clone (total_problems_o coverage_problems_o location_problems_o
    detection_problems_o : Z) (rows_o : list (list nat)) (num_tests_o num_factors_o : nat)
    (factors_o : list Factor) (p_o : prop_mode) (d_o t_o : nat) (delta_o : Z)
    : result Array :=
  let a :=
    {| total_problems := total_problems_o; coverage_problems := coverage_problems_o;
       location_problems := location_problems_o;
       detection_problems := detection_problems_o; score := 0;
       d := d_o; t := t_o; delta := delta_o;
       num_tests := num_tests_o; num_factors := num_factors_o;
       factors := []; singles := []; interactions := []; sets := [];
       single_map := ∅; interaction_map := ∅; t_set_map := ∅; rows := [];
       p := p_o; is_covering := false; is_locating := false; is_detecting := false;
       dont_cares := None; permutation := None |} in
  a ← build_factors (λ i, F ← or_fail BadIndex (factors_o !! i); Ok (level F)) a;
  a ← build_t_way_interactions (t a) 0 [] a;
  if decide (p a = c_only) then Ok a else
  a ← build_size_d_sets (d a) 0 [] a;
  foldM (λ row_o a,
      row ← foldM (λ col row, v ← or_fail BadIndex (row_o !! col); Ok (row ++ [v]))
              (seq 0 (num_factors a)) [];
      Ok (upd F_rows (λ l, l ++ [row]) a))
    rows_o a.

(** [Array::clone] *)
Definition clone (a : Array) : result Array :=
  c ← Array_for_clone (total_problems a) (coverage_problems a) (location_problems a)
        (detection_problems a) (rows a) (num_tests a) (num_factors a) (factors a)
        (p a) (d a) (t a) (delta a);
  let c := upd F_score (λ _, score a) c in
  let c := upd F_is_covering (λ _, is_covering a) c in
  let c := upd F_is_locating (λ _, is_locating a) c in
  let c := upd F_is_detecting (λ _, is_detecting a) c in
  c ← foldM (λ this_s c,
      S ← single_at a this_s;
      clone_s ← or_fail OutOfRange (single_map c !! Single_to_string S);
      let c := upd_single (s_set_rows (λ _, s_rows S)) clone_s c in
      let c := upd_single (s_set_c_issues (λ _, c_issues S)) clone_s c in
      let c := upd_single (s_set_l_issues (λ _, l_issues S)) clone_s c in
      Ok (upd_single (s_set_d_issues (λ _, d_issues S)) clone_s c))
    (singles a) c;
  c ← foldM (λ this_i c,
      I ← interaction_at a this_i;
      key ← Interaction_to_string a I;
      clone_i ← or_fail OutOfRange (interaction_map c !! key);
      let c := upd_interaction (i_set_rows (λ _, i_rows I)) clone_i c in
      let c := upd_interaction (i_set_is_covered (is_covered I)) clone_i c in
      let c := upd_interaction (i_set_is_detectable (is_detectable I)) clone_i c in
      foldM (λ kv c,
          X ← T_at a kv.1;
          key ← T_to_string a X;
          clone_t ← or_fail OutOfRange (t_set_map c !! key);
          Ok (upd_interaction (i_set_deltas (map_insert_new clone_t kv.2)) clone_i c))
        (map_to_list (deltas I)) c)
    (seq 0 (length (interactions a))) c;
  foldM (λ this_t c,
      X ← T_at a this_t;
      key ← T_to_string a X;
      clone_t ← or_fail OutOfRange (t_set_map c !! key);
      let c := upd_T (t_set_rows (λ _, t_rows X)) clone_t c in
      let c := upd_T (t_set_is_locatable (is_locatable X)) clone_t c in
      foldM (λ other_t c,
          Y ← T_at a other_t;
          key ← T_to_string a Y;
          clone_other_t ← or_fail OutOfRange (t_set_map c !! key);
          Ok (upd_T (t_set_location_conflicts (union {[clone_other_t]})) clone_t c))
        (iter (location_conflicts X)) c)
    (seq 0 (length (sets a))) c.

(** ** Methods that choose a row

    These are member functions of [Array] that also draw from [rand()]; they
    run in a state monad over the Array and the generator.  The generator is
    an arbitrary tape of draws. *)

Record Rng := { tape : nat → nat; pos : nat }.

Definition M (A : Type) : Type := Array → Rng → result (A * Array * Rng).

#[global] Instance M_ret : MRet M := λ A x a g, Ok (x, a, g).
#[global] Instance M_bind : MBind M := λ A B f m a g,
  match m a g with
  | Ok (x, a', g') => f x a' g'
  | Err e => Err e
  end.

Definition lift {A} (r : result A) : M A := λ a g,
  match r with Ok x => Ok (x, a, g) | Err e => Err e end.
Definition reads {A} (f : Array → result A) : M A := λ a g,
  match f a with Ok x => Ok (x, a, g) | Err e => Err e end.
Definition modify (f : Array → Array) : M unit := λ a g, Ok ((), f a, g).
Definition rand : M nat := λ a g,
  Ok (tape g (pos g), a, {| tape := tape g; pos := S (pos g) |}).

(** [rand() % n] *)
Definition rand_mod (n : nat) : M nat :=
  if decide (n = 0%nat) then lift (Err DivByZero)
  else r ← rand; mret (r `mod` n)%nat.

(** loops whose body may [return] or [break] *)
Inductive ctl (R S : Type) :=
  | Return (r : R)
  | Next (s : S).
Arguments Return {R S} r.
Arguments Next {R S} s.

Fixpoint loopM {A R S : Type} (f : A → S → M (ctl R S)) (l : list A) (s : S)
    : M (ctl R S) :=
  match l with
  | [] => mret (Next s)
  | x :: l' =>
    c ← f x s;
    match c with
    | Return r => mret (Return r)
    | Next s' => loopM f l' s'
    end
  end.

Fixpoint forM {A S : Type} (f : A → S → M S) (l : list A) (s : S) : M S :=
  match l with
  | [] => mret s
  | x :: l' => s' ← f x s; forM f l' s'
  end.

(** checked accesses to the local buffers *)
Definition read_at {A} (l : list A) (i : nat) : result A := or_fail BadIndex (l !! i).
Definition write_at {A} (l : list A) (i : nat) (x : A) : result (list A) :=
  if decide (i < length l)%nat then Ok (<[i := x]> l) else Err BadIndex.
Definition add_at (k : Z) (l : list Z) (i : nat) : result (list Z) :=
  x ← read_at l i; write_at l i (x + k).

(** accesses to the members *)
Definition factor_at (col : nat) : M Factor :=
  reads (λ a, or_fail BadIndex (factors a !! col)).
Definition permutation_at (col : nat) : M nat :=
  reads (λ a, perm ← or_fail NullDeref (permutation a); read_at perm col).
Definition dont_cares_at (col : nat) : M prop_mode :=
  reads (λ a, dc ← or_fail NullDeref (dont_cares a); read_at dc col).
Definition columns : M (list nat) := reads (λ a, Ok (seq 0 (num_factors a))).
Definition row_interactions_of (row : list nat) : M (list nat) :=
  reads (λ a, iter <$> build_row_interactions a row (t a) 0 [] ∅).

(** [row[col] = (row[col] + k) % m] *)
Definition cycle (row : list nat) (col : nat) (k : nat) (m : nat) : M (list nat) :=
  v ← lift (read_at row col);
  if decide (m = 0%nat) then lift (Err DivByZero)
  else lift (write_at row col ((v + k) `mod` m)%nat).

(** the shuffle that opens [add_row] *)
Definition shuffle : M unit :=
  n ← reads (λ a, Ok (num_factors a));
  forM (λ size _,
      rand_idx ← rand_mod size;
      perm ← reads (λ a, or_fail NullDeref (permutation a));
      temp ← lift (read_at perm (size - 1));
      x ← lift (read_at perm rand_idx);
      perm ← lift (write_at perm (size - 1) x);
      perm ← lift (write_at perm rand_idx temp);
      modify (upd F_permutation (λ _, Some perm)))
    (reverse (seq 1 n)) ().

Definition initialize_row_R : M (list nat) :=
  cols ← columns;
  forM (λ i new_row,
      F ← factor_at i;
      v ← rand_mod (level F);
      mret (new_row ++ [v]))
    cols [].

(** [int worst_score = static_cast<int64_t>(c_issues) + l_issues
    + 3*static_cast<int64_t>(d_issues)]: the sum is stored in an [int] *)
Definition single_score (s : Single) : Z :=
  to_int (c_issues s + l_issues s + 3 * d_issues s).

Definition initialize_row_S : M (list nat) :=
  cols ← columns;
  forM (λ col new_row,
      pc ← permutation_at col;
      phase ← reads (λ a, Ok (p a));
      (* check if column is don't care *)
      dont_care ←
        (if decide (phase = all ∨ phase = c_and_l ∨ phase = c_only)
         then dc ← dont_cares_at pc; mret (bool_decide (dc = phase))
         else mret false);
      if (dont_care : bool) then
        F ← factor_at pc;
        v ← rand_mod (level F);
        lift (write_at new_row pc v)
      else
        worst_single ← reads (λ a, single_at a (pc, 0%nat));
        F ← factor_at pc;
        worst_single ← forM (λ val worst_single,
            cur_single ← reads (λ a, single_at a (pc, val));
            if decide (single_score worst_single < single_score cur_single)
            then mret cur_single
            else if decide (single_score cur_single = single_score worst_single) then
              coin ← rand_mod 2;
              mret (if decide (coin = 0%nat) then cur_single else worst_single)
            else mret worst_single)
          (seq 1 (level F - 1)) worst_single;
        lift (write_at new_row pc (value worst_single)))
    cols (replicate (length cols) 0%nat).

(** returns the row and the locked T set *)
Definition initialize_row_T : M (list nat * nat) :=
  new_row ← initialize_row_R;
  ts ← reads (λ a, Ok (seq 0 (length (sets a))));
  '(worst_count, worst_sets) ← forM (λ k '(worst_count, worst_sets),
      X ← reads (λ a, T_at a k);
      let n := Z.of_nat (size (location_conflicts X)) in
      if decide (worst_count ≤ n) then
        if decide (worst_count < n) then mret (n, [k])
        else mret (worst_count, worst_sets ++ [k])
      else mret (worst_count, worst_sets))
    ts (- 2 ^ 63, []);
  choice ← rand_mod (length worst_sets);
  locked ← lift (or_fail OutOfRange (worst_sets !! choice));
  L ← reads (λ a, T_at a locked);
  new_row ← forM (λ s new_row,
      S ← reads (λ a, single_at a s);
      lift (write_at new_row (factor S) (value S)))
    (t_singles L) new_row;
  mret (new_row, locked).

(** the scoring loop shared by [heuristic_c_only] and [heuristic_c_helper];
    [completed] tells which Singles let an already-covered Interaction be
    skipped *)
Definition count_problems (completed : Single → result bool) (row_interactions : list nat)
    (problems : list Z) : M (list Z) :=
  forM (λ i problems,
      I ← reads (λ a, interaction_at a i);
      ss ← forM (λ s ss, S ← reads (λ a, single_at a s); mret (ss ++ [S])) (i_singles I) [];
      if decide (size (i_rows I) ≠ 0%nat) then
        can_skip ← lift (foldM (λ S (b : bool), if b then Ok true else completed S) ss false);
        if (can_skip : bool) then mret problems
        else lift (foldM (λ S problems, add_at 1 problems (factor S)) ss problems)
      else lift (foldM (λ S problems, add_at (-1) problems (factor S)) ss problems))
    row_interactions problems.

Definition heuristic_c_helper (row : list nat) (row_interactions : list nat)
    (problems : list Z) : M (Z * list Z) :=
  problems ← count_problems (λ S, Ok (bool_decide (c_issues S = 0))) row_interactions problems;
  cols ← columns;
  max_problems ← forM (λ col max_problems,
      v ← lift (read_at row col);
      S ← reads (λ a, single_at a (col, v));
      if decide (c_issues S = 0) then mret max_problems else
      pr ← lift (read_at problems col);
      mret (if decide (max_problems < pr) then pr else max_problems))
    cols (- 2 ^ 31);
  mret (max_problems, problems).

Definition heuristic_c_only (row : list nat) : M (list nat) :=
  cols ← columns;
  let problems := replicate (length cols) 0 in
  dont_cares_c ← forM (λ col dc, x ← dont_cares_at col; mret (dc ++ [x])) cols [];
  row_interactions ← row_interactions_of row;
  problems ← count_problems
    (λ S, dc ← read_at dont_cares_c (factor S); Ok (bool_decide (dc ≠ none)))
    row_interactions problems;
  max_problems ← forM (λ col max_problems,
      pr ← lift (read_at problems col);
      mret (if decide (max_problems < pr) then pr else max_problems))
    cols 0;
  if decide (max_problems = 0) then mret row else
  (* try altering the value(s) with the most problems *)
  c ← loopM (λ col row,
      pc ← permutation_at col;
      pr ← lift (read_at problems pc);
      if decide (pr = max_problems) then
        F ← factor_at pc;
        c ← loopM (λ _ '(row, temp_problems),
            F ← factor_at pc;
            row ← cycle row pc 1 (level F);
            new_interactions ← row_interactions_of row;
            '(cur_max, temp_problems) ← heuristic_c_helper row new_interactions temp_problems;
            if decide (cur_max < max_problems) then mret (Return row)
            else mret (Next (row, temp_problems)))
          (seq 1 (level F - 1)) (row, replicate (length cols) 0);
        match c with
        | Return row => mret (Return row)
        | Next (row, _) =>
          G ← factor_at col;
          row ← cycle row pc 1 (level G);
          mret (Next row)
        end
      else mret (Next row))
    cols row;
  match c with
  | Return row => mret row
  | Next row =>
    (* last resort, start looking for anything that is missing *)
    '(row, _) ← forM (λ col '(row, dont_cares_c),
        pc ← permutation_at col;
        dc ← lift (read_at dont_cares_c pc);
        if decide (dc ≠ none) then mret (row, dont_cares_c) else
        F ← factor_at pc;
        c ← loopM (λ _ '(row, dont_cares_c),
            F ← factor_at pc;
            row ← cycle row pc 1 (level F);
            new_interactions ← row_interactions_of row;
            '(dont_cares_c, improved) ← forM (λ i '(dont_cares_c, improved),
                I ← reads (λ a, interaction_at a i);
                if decide (size (i_rows I) = 0%nat) then
                  dont_cares_c ← forM (λ s dont_cares_c,
                      S ← reads (λ a, single_at a s);
                      lift (write_at dont_cares_c (factor S) c_only))
                    (i_singles I) dont_cares_c;
                  mret (dont_cares_c, true)
                else mret (dont_cares_c, improved))
              new_interactions (dont_cares_c, false);
            if (improved : bool) then mret (Return (row, dont_cares_c))
            else mret (Next (row, dont_cares_c)))
          (seq 0 (level F)) (row, dont_cares_c);
        match c with
        | Return st => mret st
        | Next (row, dont_cares_c) =>
          F ← factor_at pc;
          v ← rand_mod (level F);
          row ← lift (write_at row pc v);
          mret (row, dont_cares_c)
        end)
      cols (row, dont_cares_c);
    mret row
  end.

Definition heuristic_l_only (row : list nat) (locked : option nat) : M (list nat) :=
  locked ← lift (or_fail NullDeref locked);
  L ← reads (λ a, T_at a locked);
  cols ← columns;
  (* keep track of which columns should not be modified *)
  locked_factors ← forM (λ s locked_factors,
      S ← reads (λ a, single_at a s);
      lift (write_at locked_factors (factor S) true))
    (t_singles L) (replicate (length cols) false);
  (* a map of every Single to a scoring *)
  scores ← forM (λ col scores,
      F ← factor_at col;
      mret (for_each (λ val, map_insert_new [(col, val)] 0) (seq 0 (level F)) scores))
    cols (∅ : gmap fingerprint Z);
  scores ← forM (λ conflict scores,
      C ← reads (λ a, T_at a conflict);
      forM (λ s scores,
          S ← reads (λ a, single_at a s);
          v ← lift (or_fail OutOfRange (scores !! Single_to_string S));
          mret (<[Single_to_string S := v + 1]> scores))
        (t_singles C) scores)
    (iter (location_conflicts L)) scores;
  forM (λ col row,
      is_locked ← lift (read_at locked_factors col);
      if (is_locked : bool) then mret row else
      F ← factor_at col;
      '(best_val, best_val_score) ← forM (λ val '(best_val, best_val_score),
          val_score ← lift (or_fail OutOfRange (scores !! [(col, val)]));
          if decide (best_val_score < val_score) then mret (val, val_score)
          else mret (best_val, best_val_score))
        (seq 0 (level F)) (0%nat, 0);
      if decide (best_val_score ≠ 0) then lift (write_at row col best_val)
      else mret row)
    cols row.

Definition heuristic_d_only (row : list nat) : M (list nat) := mret row.

(** [Array::~Array]: the loops that index [rows] and [factors].  [rows] is a
    vector and [rows[i]] is not checked: the loop runs to [num_tests],
    whatever the length of [rows]. *)
Definition Array_destructor (a : Array) : result unit :=
  _ ← foldM (λ i _, _ ← or_fail BadIndex (rows a !! i); Ok ()) (seq 0 (num_tests a)) ();
  foldM (λ i _, _ ← or_fail BadIndex (factors a !! i); Ok ()) (seq 0 (num_factors a)) ().

(** [std::map<int*, int64_t> scores]: the candidate rows are keyed by the
    address of their buffer, [row_p]; the map is held here with the row
    beside its score *)
Definition heuristic_all_scorer (row : list nat) (row_p : nat)
    (scores : gmap nat (list nat * Z)) : M (gmap nat (list nat * Z)) :=
  copy ← reads clone;
  copy ← lift (update_array_row row false copy);
  this_singles ← reads (λ a, Ok (singles a));
  row_score ← forM (λ this_s row_score,
      S ← reads (λ a, single_at a this_s);
      copy_p ← lift (or_fail OutOfRange (single_map copy !! Single_to_string S));
      copy_s ← lift (single_at copy copy_p);
      F ← factor_at (factor S);
      let weight := Z.of_nat (level F) in
      mret (to_int64 (row_score + weight * (c_issues S - c_issues copy_s)
                      + 2 * weight * (l_issues S - l_issues copy_s)
                      + 3 * weight * (d_issues S - d_issues copy_s))))
    this_singles 0;
  let scores := map_insert_new row_p (row, row_score) scores in
  _ ← lift (Array_destructor copy);
  mret scores.

(** [remaining] is [num_factors - cur_col]; [new_rows] counts the buffers
    [row_copy] allocated so far, and [row_addr n] is the address that
    [new int[num_factors]] returns for the one after [n] others: the
    allocator is outside the program, like the generator *)
Fixpoint heuristic_all_helper (row_addr : nat → nat) (remaining : nat) (row : list nat)
    (cur_col : nat) (st : nat * gmap nat (list nat * Z))
    : M (nat * gmap nat (list nat * Z)) :=
  match remaining with
  | O =>
    cols ← columns;
    row_copy ← forM (λ col row_copy, v ← lift (read_at row col); mret (row_copy ++ [v]))
                  cols [];
    scores ← heuristic_all_scorer row_copy (row_addr st.1) st.2;
    mret (S st.1, scores)
  | S remaining' =>
    pc ← permutation_at cur_col;
    F ← factor_at pc;
    forM (λ offset st,
        F ← factor_at pc;
        row' ← cycle row pc offset (level F);
        heuristic_all_helper row_addr remaining' row' (cur_col + 1) st)
      (seq 0 (level F)) st
  end.

(** [for (auto& kv : scores)]: the entries of the map by increasing address *)
Definition by_address (scores : gmap nat (list nat * Z)) : list (list nat * Z) :=
  omap (λ row_p, scores !! row_p) (iter (dom scores)).

Definition heuristic_all (row_addr : nat → nat) (row : list nat) : M (list nat) :=
  n ← reads (λ a, Ok (num_factors a));
  '(_, scores) ← heuristic_all_helper row_addr n row 0 (0%nat, ∅);
  let '(_, best_rows) :=
    for_each (λ kv '(best_score, best_rows),
        if decide (best_score ≤ kv.2) then
          if decide (best_score < kv.2) then (kv.2, [kv.1])
          else (best_score, best_rows ++ [kv.1])
        else (best_score, best_rows))
      (by_address scores) (- 2 ^ 63, []) in
  choice ← rand_mod (length best_rows);
  best ← lift (or_fail OutOfRange (best_rows !! choice));
  cols ← columns;
  forM (λ col row, v ← lift (read_at best col); lift (write_at row col v)) cols row.

(** [heuristic_in_use] is declared outside the two source files and set by
    the driver; the methods that switch on it take it as an argument, and
    with it the addresses [row_addr] that [heuristic_all] is given for its
    candidate rows. *)
Definition tweak_row (heuristic_in_use : prop_mode) (row_addr : nat → nat) (row : list nat)
    (locked : option nat) : M (list nat) :=
  match heuristic_in_use with
  | c_only | c_and_l | c_and_d => heuristic_c_only row
  | l_only | l_and_d => heuristic_l_only row locked
  | d_only => heuristic_d_only row
  | all => heuristic_all row_addr row
  | none => mret row
  end.

(** [Array::add_row] of [heuristics.cpp] *)
Definition add_row (heuristic_in_use : prop_mode) (row_addr : nat → nat) : M unit :=
  _ ← shuffle;
  '(new_row, locked) ←
    match heuristic_in_use with
    | c_only | c_and_l | c_and_d => r ← initialize_row_S; mret (r, None)
    | l_only | l_and_d => '(r, l) ← initialize_row_T; mret (r, Some l)
    | d_only | all | none => r ← initialize_row_R; mret (r, None)
    end;
  new_row ← tweak_row heuristic_in_use row_addr new_row locked;
  a ← reads (update_array_row new_row true);
  modify (λ _, a).

(** [Array::get_random_row] *)
Definition get_random_row : M (list nat) :=
  cols ← columns;
  forM (λ i new_row,
      F ← factor_at i;
      v ← rand_mod (level F);
      mret (new_row ++ [v]))
    cols [].

(** [Array::add_random_row] *)
Definition add_random_row : M unit :=
  new_row ← get_random_row;
  a ← reads (update_array_row new_row true);
  modify (λ _, a).

(** [dont_cares[col] = x] *)
Definition dont_cares_set (col : nat) (x : prop_mode) : M unit :=
  dc ← reads (λ a, or_fail NullDeref (dont_cares a));
  dc ← lift (write_at dc col x);
  modify (upd F_dont_cares (λ _, Some dc)).

(** a method that reads the Array and draws from the generator, and returns
    a row *)
Definition tweak (A : Type) : Type := Array → Rng → result (A * Rng).
Definition run_tweak {A} (f : tweak A) : M A := λ a g,
  match f a g with Ok (x, g') => Ok (x, a, g') | Err e => Err e end.

(** [Array::add_row] of [array.cpp], the second definition of this method
    in the sources.

    Modelled from the spec: the [tweak_row(new_row, &row_interactions)]
    that it calls takes the Interactions of the row, unlike the [tweak_row]
    of [heuristics.cpp]; it is declared in [array.h], which is missing, and
    defined nowhere in the sources.  Sections 2 and 4.9: a tweak works on
    the candidate row before the row is committed; it is taken here as an
    argument, [tweak_row_i], that reads the Array and the generator and
    returns the row. *)
Definition add_row_greedy (tweak_row_i : list nat → gset nat → tweak (list nat)) : M unit :=
  cols ← columns;
  let new_row := replicate (length cols) 0%nat in
  _ ← shuffle;
  (* greedily select the values that appear to need the most attention *)
  new_row ← forM (λ col new_row,
      pc ← permutation_at col;
      (* assume 0 is the worst to start, then check if any others are worse *)
      F ← factor_at pc;
      worst_single ← reads (λ a, single_at a (pc, 0%nat));
      worst_single ← forM (λ val worst_single,
          cur_single ← reads (λ a, single_at a (pc, val));
          if decide (single_score worst_single < single_score cur_single)
          then mret cur_single
          else if decide (single_score cur_single = single_score worst_single) then
            coin ← rand_mod 2;
            mret (if decide (coin = 0%nat) then cur_single else worst_single)
          else mret worst_single)
        (seq 1 (level F - 1)) worst_single;
      new_row ← lift (write_at new_row pc (value worst_single));
      phase ← reads (λ a, Ok (p a));
      dc ← dont_cares_at pc;
      _ ← (if decide (dc = none ∧ c_issues worst_single = 0)
           then dont_cares_set pc c_only else mret ());
      dc ← (if decide (phase ≠ c_only) then dont_cares_at pc else mret none);
      _ ← (if decide (phase ≠ c_only ∧ dc = c_only ∧ l_issues worst_single = 0)
           then dont_cares_set pc c_and_l else mret ());
      dc ← (if decide (phase = all) then dont_cares_at pc else mret none);
      _ ← (if decide (phase = all ∧ dc = c_and_l ∧ d_issues worst_single = 0)
           then dont_cares_set pc all else mret ());
      dont_care ←
        (if decide (phase = all ∨ phase = c_and_l ∨ phase = c_only)
         then dc ← dont_cares_at pc; mret (bool_decide (dc = phase))
         else mret false);
      if (dont_care : bool) then
        F ← factor_at pc;
        v ← rand_mod (level F);
        lift (write_at new_row pc v)
      else mret new_row)
    cols new_row;
  row_interactions ← reads (λ a, build_row_interactions a new_row (t a) 0 [] ∅);
  new_row ← run_tweak (tweak_row_i new_row row_interactions);
  row_interactions ← reads (λ a, build_row_interactions a new_row (t a) 0 [] ∅);
  a ← reads (update_array new_row row_interactions true);
  modify (λ _, a).


(** * Properties of the engine *)

(** ** Flags only ever go from false to true

    [flags_mono_except ex a a'] : every flag set in [a] is still set in
    [a']; the [is_detectable] flag of the Interactions in [ex] is exempt
    (it is used for the Interaction whose flag an update is recomputing). *)
Definition flags_mono_except (ex : nat → Prop) (a a' : Array) : Prop :=
  (∀ i I, interactions a !! i = Some I →
     ∃ I', interactions a' !! i = Some I'
       ∧ (is_covered I = true → is_covered I' = true)
       ∧ (¬ ex i → is_detectable I = true → is_detectable I' = true))
  ∧ (∀ k X, sets a !! k = Some X →
     ∃ X', sets a' !! k = Some X'
       ∧ (is_locatable X = true → is_locatable X' = true))
  ∧ (is_covering a = true → is_covering a' = true)
  ∧ (is_locating a = true → is_locating a' = true)
  ∧ (is_detecting a = true → is_detecting a' = true).

Definition flags_mono : Array → Array → Prop := flags_mono_except (λ _, False).

(** a sequence of calls [update_array(row, row_interactions, keep)] *)
Fixpoint update_array_seq (calls : list (list nat * gset nat * bool)) (a : Array)
    : result Array :=
  match calls with
  | [] => Ok a
  | (row, row_interactions, keep) :: calls' =>
    a' ← update_array row row_interactions keep a;
    update_array_seq calls' a'
  end.

(** ** Methods that leave the Array alone

    [read_only m] : whenever [m] returns, the Array is what it was before
    the call (only the generator has advanced). *)
Definition read_only {A} (m : M A) : Prop :=
  ∀ a g x a' g', m a g = Ok (x, a', g') → a' = a.

(** [tags_only m] : whenever [m] returns, it has at most rewritten entries
    of [dont_cares] *)
Definition tags_only {A} (m : M A) : Prop :=
  ∀ a g x a' g', m a g = Ok (x, a', g') →
    ∃ dc, a' = upd F_dont_cares (λ _, dc) a ∧ length <$> dc = length <$> dont_cares a.

(** ** What no update of the counters touches *)

(** the parameters of the Array and the two buffers of [add_row] *)
Definition config (a : Array)
    : nat * nat * Z * nat * prop_mode * option (list prop_mode) * option (list nat) :=
  (d a, t a, delta a, num_factors a, p a, dont_cares a, permutation a).


(** ** Comparing two Arrays through views

    [agree vs vi vt va a b] : the Arrays [a] and [b] have the same Singles,
    Interactions and T sets as far as the views [vs], [vi], [vt] can tell,
    and agree on the Array-level view [va]. *)
Definition agree {XS XI XT XA : Type} (vs : Single → XS) (vi : Interaction → XI)
    (vt : T → XT) (va : Array → XA) (a b : Array) : Prop :=
  va b = va a
  ∧ (∀ s, vs <$> get_single b s = vs <$> get_single a s)
  ∧ (∀ i, vi <$> interactions b !! i = vi <$> interactions a !! i)
  ∧ (∀ k, vt <$> sets b !! k = vt <$> sets a !! k).

(** the parameters, the maps and the list of all Singles, fixed once the
    Array is built *)
Definition params (a : Array) : nat * nat * Z * nat * prop_mode :=
  (d a, t a, delta a, num_factors a, p a).
Definition directory (a : Array) :=
  (params a, singles a, single_map a, interaction_map a, t_set_map a).

(** the skeleton: who is made of what, and who appears in which row *)
Definition skel_s (S : Single) := (factor S, value S, s_rows S).
Definition skel_i (I : Interaction) := (i_singles I, i_rows I, i_sets I).
Definition skel_t (X : T) := (t_interactions X, t_singles X, t_rows X).
Definition skel_a (a : Array) := (directory a, num_tests a, rows a).
Definition same_skeleton : Array → Array → Prop := agree skel_s skel_i skel_t skel_a.

(** the bookkeeping: everything except row membership *)
Definition book_s (S : Single) := (factor S, value S, c_issues S, l_issues S, d_issues S).
Definition book_i (I : Interaction) :=
  (i_singles I, is_covered I, is_detectable I, i_sets I, deltas I).
Definition book_t (X : T) :=
  (t_interactions X, t_singles X, location_conflicts X, is_locatable X).
Definition book_a (a : Array) :=
  (directory a, total_problems a, coverage_problems a, location_problems a,
   detection_problems a, score a, is_covering a, is_locating a, is_detecting a).
Definition same_books : Array → Array → Prop := agree book_s book_i book_t book_a.

(** the topology alone *)
Definition topo_s (S : Single) := (factor S, value S).
Definition topo_i (I : Interaction) := (i_singles I, i_sets I).
Definition topo_t (X : T) := (t_interactions X, t_singles X).
Definition same_topology : Array → Array → Prop := agree topo_s topo_i topo_t directory.

(** no row set mentions an index past [num_tests] *)
Definition rows_bounded (a : Array) : Prop :=
  (∀ s S, get_single a s = Some S → ∀ x, x ∈ s_rows S → (x ≤ num_tests a)%nat)
  ∧ (∀ i I, interactions a !! i = Some I → ∀ x, x ∈ i_rows I → (x ≤ num_tests a)%nat)
  ∧ (∀ k X, sets a !! k = Some X → ∀ x, x ∈ t_rows X → (x ≤ num_tests a)%nat).

(** the second and third loops of [update_array] *)
Definition counting_phases (row_interactions row_sets : gset nat) (a : Array)
    : result Array :=
  a ← foldM (λ i a,
      a ← coverage_update i a;
      if decide (p a = all) then detection_update row_sets i a else Ok a)
    (iter row_interactions) a;
  if decide (p a ≠ c_only ∧ is_locating a = false)
  then foldM (location_update row_sets) (iter row_sets) a
  else Ok a.

(** ** The row-membership effect of the first loop and of the roll-back

    [rows_changed ins n TS TI TT a0 a1] : going from [a0] to [a1], the index
    [n] was inserted into ([ins = true]) or erased from ([ins = false]) the
    row sets of the Singles in [TS], the Interactions in [TI] and the T sets
    in [TT], and no row set changed otherwise. *)
Definition member_after (ins : bool) (P Q : Prop) : Prop :=
  if ins then P ∨ Q else P ∧ ¬ Q.

(** [union {[n]}] or [λ r, r ∖ {[n]}] *)
Definition row_op (ins : bool) (n : nat) : gset nat → gset nat :=
  if ins then union {[n]} else λ r, r ∖ {[n]}.

Definition rows_changed (ins : bool) (n : nat) (TS : SingleP → Prop) (TI TT : nat → Prop)
    (a0 a1 : Array) : Prop :=
  (∀ s S1, get_single a1 s = Some S1 →
     ∃ S0, get_single a0 s = Some S0
       ∧ ∀ x, x ∈ s_rows S1 ↔ member_after ins (x ∈ s_rows S0) (x = n ∧ TS s))
  ∧ (∀ i I1, interactions a1 !! i = Some I1 →
     ∃ I0, interactions a0 !! i = Some I0
       ∧ ∀ x, x ∈ i_rows I1 ↔ member_after ins (x ∈ i_rows I0) (x = n ∧ TI i))
  ∧ (∀ k X1, sets a1 !! k = Some X1 →
     ∃ X0, sets a0 !! k = Some X0
       ∧ ∀ x, x ∈ t_rows X1 ↔ member_after ins (x ∈ t_rows X0) (x = n ∧ TT k)).

(** the Singles and the T sets of the Interactions in [ri] *)
Definition touched_singles (a : Array) (ri : nat → Prop) (s : SingleP) : Prop :=
  ∃ i I, ri i ∧ interactions a !! i = Some I ∧ s ∈ i_singles I.
Definition touched_sets (a : Array) (ri : nat → Prop) (k : nat) : Prop :=
  ∃ i I, ri i ∧ interactions a !! i = Some I ∧ k ∈ i_sets I.

(** ** The enumerations, as lists

    [combos lvls t_cur start prefix] lists, in the order in which
    [build_t_way_interactions] reaches its base case, the vectors
    [singles_so_far] it finds there, for factors of levels [lvls];
    [row_keys row n t_cur start key] lists the keys that
    [build_row_interactions] looks up, for [n] factors. *)
Fixpoint combos (lvls : list nat) (t_cur start : nat) (prefix : list SingleP)
    : list (list SingleP) :=
  match t_cur with
  | O => [prefix]
  | S t' =>
    col ← range start (loop_bound (length lvls) (S t'));
    lv ← seq 0 (default 0%nat (lvls !! col));
    combos lvls t' (col + 1) (prefix ++ [(col, lv)])
  end.

Fixpoint row_keys (row : list nat) (n : nat) (t_cur start : nat) (key : fingerprint)
    : list fingerprint :=
  match t_cur with
  | O => [key]
  | S t' =>
    col ← range start (loop_bound n (S t'));
    row_keys row n t' (col + 1) (key ++ [(col, default 0%nat (row !! col))])
  end.

(** strictly increasing columns, all in [[start, n)] *)
Fixpoint incr_from (start n : nat) (cs : list nat) : Prop :=
  match cs with
  | [] => True
  | c :: cs' => (start ≤ c < n)%nat ∧ incr_from (c + 1) n cs'
  end.

(** ** Well-formed Arrays *)

Definition levels (a : Array) : list nat := level <$> factors a.

(** the Singles sit where their [factor] and [value] say *)
Definition wf_factors (a : Array) : Prop :=
  length (factors a) = num_factors a
  ∧ (∀ c F, factors a !! c = Some F → length (f_singles F) = level F)
  ∧ (∀ s S, get_single a s = Some S → factor S = s.1 ∧ value S = s.2).

(** no Single has a row yet *)
Definition singles_without_rows (a : Array) : Prop :=
  ∀ s S, get_single a s = Some S → s_rows S = ∅.

(** what the base case of [build_t_way_interactions] does when it is reached
    with [singles_so_far = ss], on an Array whose Singles have no rows *)
Definition mk_interaction (ss : list SingleP) : Interaction :=
  {| i_singles := ss; i_rows := ∅; is_covered := false; is_detectable := false;
     i_sets := ∅; deltas := ∅ |}.

Definition add_interaction (ss : list SingleP) (a : Array) : Array :=
  let new_interaction := mk_interaction ss in
  let this := length (interactions a) in
  let a := upd F_interactions (λ l, l ++ [new_interaction]) a in
  let a := upd F_interaction_map (map_insert_new ss this) a in
  for_each (λ single a,
      upd F_score Z.succ
        (upd F_total_problems Z.succ (upd_single (s_set_c_issues Z.succ) single a)))
    ss a.

(** everything about a Single but its [c_issues] *)
Definition but_c (S : Single) := (factor S, value S, s_rows S, l_issues S, d_issues S).

(** the Singles sit where their [factor] and [value] say, seen from the
    pointers *)
Definition wf_singles (a : Array) : Prop :=
  ∀ s S, get_single a s = Some S →
    factor S = s.1 ∧ value S = s.2 ∧ (s.1 < num_factors a)%nat.

(** every Interaction can be found under its fingerprint, and only there *)
Definition wf_interactions (a : Array) : Prop :=
  (∀ i I, interactions a !! i = Some I →
     interaction_map a !! i_singles I = Some i
     ∧ length (i_singles I) = t a
     ∧ incr_from 0 (num_factors a) (i_singles I).*1
     ∧ Forall (λ s, is_Some (get_single a s)) (i_singles I))
  ∧ (∀ key i, interaction_map a !! key = Some i →
     ∃ I, interactions a !! i = Some I ∧ i_singles I = key).

(** the back-links from the Interactions to the T sets *)
Definition wf_sets (a : Array) : Prop :=
  (∀ i I, interactions a !! i = Some I →
     ∀ k, k ∈ i_sets I ↔ ∃ X, sets a !! k = Some X ∧ i ∈ t_interactions X)
  ∧ (∀ k X, sets a !! k = Some X →
     Forall (λ i, is_Some (interactions a !! i)) (t_interactions X)).

Definition WF (a : Array) : Prop := wf_singles a ∧ wf_interactions a ∧ wf_sets a.

(** the Factor that the constructors allocate for column [i] with [lv] levels *)
Definition mk_Factor (i lv : nat) : Factor :=
  {| id := i; level := lv; f_singles := new_Single i <$> seq 0 lv |}.

(** everything about an Interaction but its back-links *)
Definition but_sets (I : Interaction) :=
  (i_singles I, i_rows I, is_covered I, is_detectable I, deltas I).

(** the fields that the enumerations of Interactions and T sets leave alone *)
Definition beside_interactions (a : Array) :=
  (config a, num_tests a, rows a, singles a, single_map a, t_set_map a, sets a,
   coverage_problems a, location_problems a, detection_problems a,
   is_covering a, is_locating a, is_detecting a).
Definition beside_factors (a : Array) :=
  (config a, num_tests a, rows a, interactions a, interaction_map a, t_set_map a,
   sets a, total_problems a, coverage_problems a, location_problems a,
   detection_problems a, score a, is_covering a, is_locating a, is_detecting a).
Definition beside_sets (a : Array) :=
  (config a, num_tests a, rows a, factors a, singles a, single_map a,
   interaction_map a, total_problems a, coverage_problems a, location_problems a,
   detection_problems a, score a, is_covering a, is_locating a, is_detecting a).

(** every Factor is as allocated: all counters zero, no rows *)
Definition factors_built (a : Array) : Prop :=
  length (factors a) = num_factors a
  ∧ ∀ c F, factors a !! c = Some F → ∃ lv, F = mk_Factor c lv.

(** a T set as allocated *)
Definition fresh_T (X : T) : Prop :=
  t_rows X = ∅ ∧ location_conflicts X = ∅ ∧ is_locatable X = false.

(** [links_added this temp a a'] : going from [a] to [a'], the T set [this]
    was added to the back-links of the Interactions in [temp], and nothing
    else changed in the Interactions. *)
Definition links_added (this : nat) (temp : list nat) (a a' : Array) : Prop :=
  length (interactions a') = length (interactions a)
  ∧ ∀ i I', interactions a' !! i = Some I' →
      ∃ I, interactions a !! i = Some I ∧ but_sets I' = but_sets I
        ∧ ∀ k, k ∈ i_sets I' ↔ k ∈ i_sets I ∨ (k = this ∧ i ∈ temp).

(** the invariant of the enumeration of the T sets: links are consistent, T
    sets are as allocated *)
Definition sets_built (a : Array) : Prop :=
  wf_sets a ∧ ∀ k X, sets a !! k = Some X → fresh_T X.

(** ** The Array as the constructor leaves it *)

(** the deltas of an Interaction whose row set is empty: one entry, zero,
    for every T set it is not a member of *)
Definition deltas_zero (a : Array) (I : Interaction) : Prop :=
  ∀ k, deltas I !! k =
    if decide (k ∈ i_sets I) then None
    else if decide (k < length (sets a))%nat then Some 0 else None.

Definition initial_core (n0 : nat) (a : Array) : Prop :=
  WF a ∧ rows a = [] ∧ num_tests a = n0
  ∧ (∀ s S, get_single a s = Some S → s_rows S = ∅)
  ∧ (∀ i I, interactions a !! i = Some I →
       i_rows I = ∅ ∧ is_covered I = false ∧ is_detectable I = false)
  ∧ (∀ k X, sets a !! k = Some X → fresh_T X).

Definition initial (n0 : nat) (a : Array) : Prop :=
  initial_core n0 a
  ∧ (p a = all → ∀ i I, interactions a !! i = Some I → deltas_zero a I).

(** views for the last part of the constructor, which only sets counters
    and deltas *)
Definition init_s (S : Single) := (factor S, value S, s_rows S).
Definition init_i (I : Interaction) :=
  (i_singles I, i_rows I, is_covered I, is_detectable I, i_sets I).
Definition init_t (X : T) := X.

(** how many times the Single [s] occurs in [ss] *)
Definition occurrences (s : SingleP) (ss : list SingleP) : nat :=
  length (filter (λ x, x = s) ss).

(** ** What [heuristic_l_only] counts *)

(** the Singles in [ss], by factor and value *)
Definition singles_values (a : Array) (ss : list SingleP) : list (nat * nat) :=
  s ← ss; S ← option_list (get_single a s); [(factor S, value S)].

(** the Singles of the T sets in [ks], with repetitions: a Single is listed
    once for every Interaction of every set that it belongs to *)
Definition sets_values (a : Array) (ks : list nat) : list (nat * nat) :=
  k ← ks; X ← option_list (sets a !! k); singles_values a (t_singles X).

(** how often the Single of column [col] and level [val] is listed among
    the T sets in conflict with [L] *)
Definition conflict_count (a : Array) (L : T) (col val : nat) : Z :=
  Z.of_nat (occurrences (col, val) (sets_values a (iter (location_conflicts L)))).

(** the column holds a Single of [L] *)
Definition locked_column (a : Array) (L : T) (col : nat) : Prop :=
  ∃ s S, s ∈ t_singles L ∧ get_single a s = Some S ∧ factor S = col.

(** the Single [s] is listed in the T set [k] *)
Definition appears_in (a : Array) (s : SingleP) (k : nat) : bool :=
  match sets a !! k with
  | Some X => bool_decide (s ∈ t_singles X)
  | None => false
  end.

(** in how many of the T sets in conflict with [L] the Single [s] appears *)
Definition conflicting_sets_with (a : Array) (L : T) (s : SingleP) : nat :=
  length (filter (λ k, appears_in a s k = true) (iter (location_conflicts L))).

(** ** The rows and the row sets *)

(** the row has the value of the Single in its column *)
Definition holds_single (s : SingleP) (row : list nat) : Prop := row !! s.1 = Some s.2.
Definition holds_all (ss : list SingleP) (row : list nat) : Prop :=
  Forall (λ s, holds_single s row) ss.

(** [stored n0 a P x] : [x] is the index under which a committed row that
    satisfies [P] is recorded; the row at place [k] of [rows] (from 0) is
    recorded as [n0 + k + 1], where [n0] is the value of [num_tests] that
    the constructor started from *)
Definition stored (n0 : nat) (a : Array) (P : list nat → Prop) (x : nat) : Prop :=
  ∃ k row, rows a !! k = Some row ∧ x = (n0 + k + 1)%nat ∧ P row.

Definition rows_consistent (n0 : nat) (a : Array) : Prop :=
  num_tests a = (n0 + length (rows a))%nat
  ∧ (∀ s S, get_single a s = Some S →
       ∀ x, x ∈ s_rows S ↔ stored n0 a (holds_single s) x)
  ∧ (∀ i I, interactions a !! i = Some I →
       ∀ x, x ∈ i_rows I ↔ stored n0 a (holds_all (i_singles I)) x)
  ∧ (∀ k X, sets a !! k = Some X →
       ∀ x, x ∈ t_rows X ↔
         ∃ i I, i ∈ t_interactions X ∧ interactions a !! i = Some I ∧ x ∈ i_rows I).

(** ** Runs of the engine *)

(** a call of [add_random_row], of the [add_row] of [heuristics.cpp] under a
    heuristic, or of the [add_row] of [array.cpp] *)
Inductive call :=
  | Random
  | Tweaked (heuristic_in_use : prop_mode) (row_addr : nat → nat)
  | Greedy (tweak_row_i : list nat → gset nat → tweak (list nat)).

Definition do_call (c : call) : M unit :=
  match c with
  | Random => add_random_row
  | Tweaked h row_addr => add_row h row_addr
  | Greedy tweak_row_i => add_row_greedy tweak_row_i
  end.

Definition do_calls (cs : list call) : M unit := forM (λ c _, do_call c) cs ().

(** ** Detection *)

(** the number of rows that hold the Interaction and none of the T set *)
Definition diff_size (I : Interaction) (X : T) : Z :=
  Z.of_nat (size (i_rows I ∖ t_rows X)).

(** what the map of deltas and the flag of one Interaction say, for the T
    sets [Ts] and the margin [dl]: the map has an entry for every T set the
    Interaction is not a member of; as long as the flag is down the entries
    are the current differences, and one of them is short of the margin
    unless the Interaction has no row yet; once the flag is up, the
    Interaction has a row, every difference has reached the margin, and so
    has every entry of the map, which is no longer updated *)
Definition det_ok (dl : Z) (Ts : list T) (I : Interaction) : Prop :=
  (∀ k, is_Some (deltas I !! k) ↔ (k < length Ts)%nat ∧ k ∉ i_sets I)
  ∧ (is_detectable I = false →
       (∀ k X, Ts !! k = Some X → k ∉ i_sets I → deltas I !! k = Some (diff_size I X))
       ∧ (i_rows I = ∅
          ∨ ∃ k X, Ts !! k = Some X ∧ (k ∉ i_sets I) ∧ diff_size I X < dl))
  ∧ (is_detectable I = true →
       i_rows I ≠ ∅
       ∧ (∀ k X, Ts !! k = Some X → k ∉ i_sets I → dl ≤ diff_size I X)
       ∧ map_Forall (λ _ v, dl ≤ v) (deltas I)).

Definition detect_inv (a : Array) : Prop :=
  ∀ i I, interactions a !! i = Some I → det_ok (to_int64 (delta a)) (sets a) I.

(** the view that the coverage and location updates leave alone: the
    skeleton, with the detection state of the Interactions *)
Definition det_i (I : Interaction) :=
  (i_singles I, i_rows I, i_sets I, is_detectable I, deltas I).
Definition same_detection : Array → Array → Prop := agree skel_s det_i skel_t skel_a.

(** the deltas of an Interaction that a new row holds, once
    [detection_update] has run with the T sets [rs] of the row: the entries
    for the T sets of the row stay, the others gain one *)
Definition new_deltas (rs : gset nat) (I : Interaction) : gmap nat Z :=
  map_imap (λ k v, Some (if decide (k ∈ rs ∖ i_sets I) then v else v + 1)) (deltas I).

(** the Interaction after [detection_update], for the margin [dl] *)
Definition detected (rs : gset nat) (dl : Z) (I : Interaction) : Interaction :=
  if is_detectable I then I
  else i_set_is_detectable (bool_decide (map_Forall (λ _ v, dl ≤ v) (new_deltas rs I)))
         (i_set_deltas (λ _, new_deltas rs I) I).

(** an Interaction without its detection state *)
Definition but_det (I : Interaction) := (i_singles I, i_rows I, is_covered I, i_sets I).


(** ** The score identity *)

(** the sum, over all Singles, of their three issue counters *)
Definition sum_issues (a : Array) : Z :=
  foldr Z.add 0
    ((λ S, c_issues S + l_issues S + d_issues S) <$> (F ← factors a; f_singles F)).

(** the right-hand side of the score identity *)
Definition problems_and_issues (a : Array) : Z :=
  coverage_problems a + location_problems a + detection_problems a + sum_issues a.

(** ** Decidable form of [rows_bounded] *)
Definition rows_bounded_dec (a : Array) : Prop :=
  Forall (λ F, Forall (λ S, set_Forall (λ x, x ≤ num_tests a)%nat (s_rows S)) (f_singles F))
    (factors a)
  ∧ Forall (λ I, set_Forall (λ x, x ≤ num_tests a)%nat (i_rows I)) (interactions a)
  ∧ Forall (λ X, set_Forall (λ x, x ≤ num_tests a)%nat (t_rows X)) (sets a).

(** ** Concrete Arrays *)

(** scenario S1: three factors of two levels, pairs, coverage only *)
Definition S1_parser : Parser :=
  {| in_d := 1; in_t := 2; in_delta := 0; in_num_rows := 0; in_num_cols := 3;
     in_levels := [2; 2; 2]%nat; in_p := c_only |}.

(** scenario S3: the same factors with detection, margin 1 *)
Definition S3_parser : Parser :=
  {| in_d := 1; in_t := 2; in_delta := 1; in_num_rows := 0; in_num_cols := 3;
     in_levels := [2; 2; 2]%nat; in_p := all |}.

(** margin 0, all three properties *)
Definition margin0_parser : Parser :=
  {| in_d := 1; in_t := 2; in_delta := 0; in_num_rows := 0; in_num_cols := 3;
     in_levels := [2; 2; 2]%nat; in_p := all |}.

(** two factors, of two and three levels; single columns, pairs of them as
    T sets, coverage and location *)
Definition pairs_parser : Parser :=
  {| in_d := 2; in_t := 1; in_delta := 0; in_num_rows := 0; in_num_cols := 2;
     in_levels := [2; 3]%nat; in_p := c_and_l |}.

(** two factors of two levels, pairs of pairs, all three properties *)
Definition small_all_parser : Parser :=
  {| in_d := 2; in_t := 2; in_delta := 1; in_num_rows := 0; in_num_cols := 2;
     in_levels := [2; 2]%nat; in_p := all |}.

(** the Array a constructor call returns, [Array_default] if it fails *)
Definition built (inp : Parser) : Array :=
  match Array_of_Parser inp with Ok a => a | Err _ => Array_default end.

(** the Array after the rows [rs] were committed in turn *)
Definition committed (rs : list (list nat)) (a : Array) : Array :=
  foldl (λ a row, match update_array_row row true a with Ok a' => a' | Err _ => a end)
    a rs.

(** the Interactions of a row, none if the lookup fails *)
Definition interactions_of (a : Array) (row : list nat) : gset nat :=
  match build_row_interactions a row (t a) 0 [] ∅ with Ok ri => ri | Err _ => ∅ end.

(** a generator that returns 3, 10, 17, ... *)
Definition rng_steps : Rng := {| tape := λ n, (n * 7 + 3)%nat; pos := 0 |}.

(** a generator that returns 0, 2, 0, 0, ... *)
Definition rng_two : Rng := {| tape := λ n, if decide (n = 1%nat) then 2%nat else 0%nat; pos := 0 |}.

(** the final Array of a run, [Array_default] if it fails *)
Definition run {A} (m : M A) (a : Array) (g : Rng) : Array :=
  match m a g with Ok (_, a', _) => a' | Err _ => Array_default end.

(** S1 after two committed rows *)
Definition S1_two_rows : Array := committed [[0; 0; 0]; [1; 1; 1]]%nat (built S1_parser).

(** two factors of two levels with detection, after two committed rows *)
Definition small_all_two_rows : Array := committed [[0; 0]; [1; 1]]%nat (built small_all_parser).

(** S3 after one committed row, and a second row tried on it *)
Definition S3_one_row : Array := committed [[0; 0; 0]]%nat (built S3_parser).
Definition second_row : list nat := [0; 1; 1]%nat.
Definition S3_second_row_kept : Array :=
  match update_array second_row (interactions_of S3_one_row second_row) true S3_one_row with
  | Ok b => b
  | Err _ => Array_default
  end.

(** S3 after four rows, and the four calls that complete the full factorial *)
Definition S3_four_rows : Array :=
  committed [[0; 0; 0]; [0; 1; 1]; [1; 0; 1]; [1; 1; 0]]%nat (built S3_parser).
Definition four_more_calls : list (list nat * gset nat * bool) :=
  (λ row, (row, interactions_of S3_four_rows row, true))
    <$> [[0; 0; 1]; [0; 1; 0]; [1; 0; 0]; [1; 1; 1]]%nat.
Definition S3_full_factorial : Array :=
  match update_array_seq four_more_calls S3_four_rows with
  | Ok b => b
  | Err _ => Array_default
  end.


(** the sum, over all Singles, of [c_issues] *)
Definition sum_c_issues (a : Array) : Z :=
  foldr Z.add 0 (c_issues <$> (F ← factors a; f_singles F)).

(** S1 when the Factors are allocated and no Interaction is, and after the
    base case of the enumeration ran once, for the Singles (0,0) and (1,0) *)
Definition S1_factors : Array :=
  match build_factors (λ i, or_fail OutOfRange (in_levels S1_parser !! i))
          (Array_init S1_parser) with
  | Ok a => a
  | Err _ => Array_default
  end.
Definition first_pair : list (nat * nat) := [(0, 0); (1, 0)]%nat.
Definition S1_first_pair : Array :=
  match build_t_way_interactions 0 0 first_pair S1_factors with
  | Ok a => a
  | Err _ => Array_default
  end.

(** two factors, of two and three levels, after the rows [0 0] and [1 1] *)
Definition pairs_two_rows : Array := committed [[0; 0]; [1; 1]]%nat (built pairs_parser).

(** the generator after a run, the one it started with if the run fails *)
Definition run_rng {A} (m : M A) (a : Array) (g : Rng) : Rng :=
  match m a g with Ok (_, _, g') => g' | Err _ => g end.

(** a random row, then a row under [heuristic_c_only] *)
Definition two_calls : list call := [Random; Tweaked c_only (λ n, n)].

(** a random row, then a row under [heuristic_all] *)
Definition two_calls_all : list call := [Random; Tweaked all (λ n, n)].

(** a tweak that returns the row as it is *)
Definition keep_row : list nat → gset nat → tweak (list nat) := λ row _ _ g, Ok (row, g).

(** a random row, a row under [heuristic_all], then a row of the [add_row]
    of [array.cpp] *)
Definition three_calls_all : list call := [Random; Tweaked all (λ n, n); Greedy keep_row].

(** a random row, then six rows of the [add_row] of [array.cpp] *)
Definition greedy_calls : list call := Random :: replicate 6 (Greedy keep_row).

(** two factors of two levels, all three properties, after these calls *)
Definition small_all_after_three_calls : Array :=
  run (do_calls three_calls_all) (built small_all_parser) rng_steps.

(** S1 after a random row and six rows of the [add_row] of [array.cpp] *)
Definition S1_after_greedy_calls : Array := run (do_calls greedy_calls) (built S1_parser) rng_steps.


(** * Further notions used to describe the engine *)

(** ** Counting the enumerations *)

(** the elementary symmetric polynomial of degree [k] in the numbers [l]:
    the sum, over the choices of [k] places of [l], of the products of the
    numbers at these places *)
Fixpoint esym (l : list nat) (k : nat) : nat :=
  match l with
  | [] => match k with O => 1 | S _ => 0 end
  | x :: l' =>
    match k with
    | O => 1
    | S k' => x * esym l' k' + esym l' k
    end
  end.

(** the number of ways to choose [k] out of [n] *)
Fixpoint choose (n k : nat) : nat :=
  match k with
  | O => 1
  | S k' =>
    match n with
    | O => 0
    | S n' => choose n' k' + choose n' k
    end
  end.

(** [index_sets n d_cur start prefix] lists, in the order in which
    [build_size_d_sets] reaches its base case, the vectors
    [interactions_so_far] it finds there, for [n] Interactions *)
Fixpoint index_sets (n : nat) (d_cur start : nat) (prefix : list nat) : list (list nat) :=
  match d_cur with
  | O => [prefix]
  | S d' =>
    i ← range start (loop_bound n (S d'));
    index_sets n d' (i + 1) (prefix ++ [i])
  end.

(** the Singles of the Interactions at the places [temp], one Interaction
    after the other *)
Definition members (a : Array) (temp : list nat) : list SingleP :=
  i ← temp; I ← option_list (interactions a !! i); i_singles I.

(** the pointers to all Singles, column by column *)
Definition all_singles (lvls : list nat) : list SingleP :=
  c ← seq 0 (length lvls); pair c <$> seq 0 (default 0%nat (lvls !! c)).

(** the levels of the columns that the constructor reads *)
Definition in_levels_used (inp : Parser) : list nat :=
  take (in_num_cols inp) (in_levels inp).

(** the level of the column of a Single, its value is below *)
Definition in_level (lvls : list nat) (s : SingleP) : Prop :=
  (s.2 < default 0 (lvls !! s.1))%nat.

(** ** The directory of the Singles *)

(** [single_map] finds a Single under its fingerprint, and nothing else *)
Definition smap_ok (a : Array) : Prop :=
  ∀ key s, single_map a !! key = Some s ↔ key = [s] ∧ s ∈ singles a.

(** what the constructor makes of a list of places of Interactions *)
Definition set_view (X : T) : list nat * list SingleP := (t_interactions X, t_singles X).

(** ** The shape of the Factors *)

(** for every Factor, its [id], its [level] and the number of its Singles *)
Definition shape (a : Array) : list (nat * nat * nat) :=
  (λ F, (id F, level F, length (f_singles F))) <$> factors a.

(** the shape that the constructors give to Factors of levels [lvls] *)
Definition shape_of (lvls : list nat) : list (nat * nat * nat) :=
  imap (λ c lv, (c, lv, lv)) lvls.

(** ** The Array that the constructor returns for a Parser *)

(** the lists of the Array in closed form: the Factors have the levels that
    the Parser gives for the first [num_cols] columns; the Interactions are
    the combinations that the enumeration reaches, in its order; the T sets
    are the sets of places of Interactions that the second enumeration
    reaches, each with the Singles of its Interactions *)
Definition built_from (inp : Parser) (a : Array) : Prop :=
  (in_num_cols inp ≤ length (in_levels inp))%nat
  ∧ params a = (in_d inp, in_t inp, in_delta inp, in_num_cols inp, in_p inp)
  ∧ shape a = shape_of (in_levels_used inp)
  ∧ singles a = all_singles (in_levels_used inp)
  ∧ smap_ok a
  ∧ i_singles <$> interactions a = combos (in_levels_used inp) (in_t inp) 0 []
  ∧ set_view <$> sets a
    = if decide (in_p inp = c_only) then []
      else (λ temp, (temp, members a temp))
             <$> index_sets (length (interactions a)) (in_d inp) 0 [].

(** ** Reachable Arrays *)

(** [reached inp a] : [a] is what the constructor returned for [inp], or
    what a run of [add_random_row] and [add_row] calls made of it *)
Definition reached (inp : Parser) (a : Array) : Prop :=
  ∃ a0 cs g u g', Array_of_Parser inp = Ok a0 ∧ do_calls cs a0 g = Ok (u, a, g').

(** ** Concrete runs *)

(** S1 after a random row and a row under [heuristic_c_only] *)
Definition S1_after_two_calls : Array := run (do_calls two_calls) (built S1_parser) rng_steps.

(** two factors of two and three levels, coverage and location, after two
    random rows *)
Definition pairs_after_two_calls : Array :=
  run (do_calls [Random; Random]) (built pairs_parser) rng_steps.

(** two factors of two levels, all three properties, after two random rows *)
Definition small_all_after_two_calls : Array :=
  run (do_calls [Random; Random]) (built small_all_parser) rng_steps.

(** ** The score and the issues *)

(** the three issue counters of a Single, added up *)
Definition issues (S : Single) : Z := c_issues S + l_issues S + d_issues S.

(** by how much [score] exceeds the problems and issues that are left *)
Definition surplus (a : Array) : Z := score a - problems_and_issues a.

(** the Singles that the Interactions and the T sets point to exist *)
Definition valid_refs (a : Array) : Prop :=
  (∀ i I, interactions a !! i = Some I →
     Forall (λ s, is_Some (get_single a s)) (i_singles I))
  ∧ (∀ k X, sets a !! k = Some X →
     Forall (λ s, is_Some (get_single a s)) (t_singles X)).

(** the same Singles exist, the Interactions and the T sets point to the
    same Singles, and [total_problems] is the same *)
Definition same_refs : Array → Array → Prop :=
  agree (λ _ : Single, ()) i_singles t_singles total_problems.

(** [set] is the update of one of the three issue counters *)
Definition issue_setter (set : (Z → Z) → Single → Single) : Prop :=
  ∀ k S, issues (set (λ x, x + k) S) = issues S + k.

(** going from [a] to [b], the score moved with the problems and issues *)
Definition balanced (a b : Array) : Prop := same_refs a b ∧ surplus b = surplus a.

(** S3 after one committed row, and the second row tried on it without
    being kept *)
Definition S3_second_row_tried : Array :=
  match update_array second_row (interactions_of S3_one_row second_row) false S3_one_row with
  | Ok b => b
  | Err _ => Array_default
  end.

(** ** What each part of [update_array] leaves alone *)

(** a Single without its location issues, and without its detection issues *)
Definition but_l (S : Single) := (factor S, value S, s_rows S, c_issues S, d_issues S).
Definition but_d (S : Single) := (factor S, value S, s_rows S, c_issues S, l_issues S).

(** an Interaction without its coverage flag *)
Definition but_covered (I : Interaction) :=
  (i_singles I, i_rows I, is_detectable I, i_sets I, deltas I).

(** the Array without the score and the coverage, detection or location
    state *)
Definition but_coverage_a (a : Array) :=
  (skel_a a, total_problems a, location_problems a, detection_problems a,
   is_locating a, is_detecting a).
Definition but_detection_a (a : Array) :=
  (skel_a a, total_problems a, coverage_problems a, location_problems a,
   is_covering a, is_locating a).
Definition but_location_a (a : Array) :=
  (skel_a a, total_problems a, coverage_problems a, detection_problems a,
   is_covering a, is_detecting a).

(** what the coverage part, the detection part and the location part of
    [update_array] do not touch *)
Definition beside_coverage : Array → Array → Prop :=
  agree but_c but_covered (λ X : T, X) but_coverage_a.
Definition beside_detection : Array → Array → Prop :=
  agree but_d but_det (λ X : T, X) but_detection_a.
Definition beside_location : Array → Array → Prop :=
  agree but_l (λ I : Interaction, I) skel_t but_location_a.

(** ** Counting what is left to cover and to detect *)

(** how many entries of the list are [false] *)
Definition count_false (l : list bool) : nat := length (filter (λ b, b = false) l).

(** the number of Interactions whose coverage flag is down *)
Definition uncovered (a : Array) : nat := count_false (is_covered <$> interactions a).

(** the number of Interactions whose detection flag is down *)
Definition undetected (a : Array) : nat := count_false (is_detectable <$> interactions a).

(** the sum of a quantity over all Singles *)
Definition sum_over (w : Single → Z) (a : Array) : Z :=
  foldr Z.add 0 (w <$> (F ← factors a; f_singles F)).

(** the coverage counter counts the Interactions that are not covered, and
    the flag is up exactly when it has come down to zero *)
Definition cov_count (a : Array) : Prop :=
  coverage_problems a = Z.of_nat (uncovered a)
  ∧ (is_covering a = true ↔ coverage_problems a = 0 ∧ interactions a ≠ []).

(** the same for detection *)
Definition det_count (a : Array) : Prop :=
  detection_problems a = Z.of_nat (undetected a)
  ∧ (is_detecting a = true ↔ detection_problems a = 0 ∧ interactions a ≠ []).

(** an Interaction is flagged as covered exactly when it has a row *)
Definition cover_rows (a : Array) : Prop :=
  ∀ i I, interactions a !! i = Some I → (is_covered I = true ↔ i_rows I ≠ ∅).

(** some row holds all the Singles of the Interaction *)
Definition in_some_row (a : Array) (I : Interaction) : Prop :=
  ∃ row, row ∈ rows a ∧ holds_all (i_singles I) row.

(** the three flags of the Array *)
Definition flags (a : Array) : bool * bool * bool :=
  (is_covering a, is_locating a, is_detecting a).

(** ** Rows *)

(** the row has, in every column, a value below the level of the column *)
Definition row_within (lvls : list nat) (row : list nat) : Prop :=
  ∀ c lv, lvls !! c = Some lv → ∃ v, row !! c = Some v ∧ (v < lv)%nat.

(** the row that [get_random_row] makes of the next draws of the generator:
    for every column, the draw modulo the level *)
Definition random_row (lvls : list nat) (g : Rng) : list nat :=
  imap (λ c lv, (tape g (pos g + c) `mod` lv)%nat) lvls.

(** the generator after [n] draws *)
Definition draws (n : nat) (g : Rng) : Rng := {| tape := tape g; pos := pos g + n |}.

(** ** What the coverage issues of a Single count *)

(** the coverage state of an Interaction: its Singles and its flag *)
Definition cov_i (I : Interaction) : (list SingleP * bool)%type :=
  (i_singles I, is_covered I).

(** how often the Interactions that are not covered list the Single *)
Definition open_occurrences (s : SingleP) (l : list (list SingleP * bool)%type) : nat :=
  foldr Nat.add 0%nat
    ((λ x : list SingleP * bool, if x.2 then 0%nat else occurrences s x.1) <$> l).

Definition c_issues_count (a : Array) : Prop :=
  ∀ s S, get_single a s = Some S →
    c_issues S = Z.of_nat (open_occurrences s (cov_i <$> interactions a)).

(** the same coverage issues and the same coverage state *)
Definition same_coverage : Array → Array → Prop :=
  agree c_issues cov_i (λ _ : T, ()) (λ _ : Array, ()).

(** the number of Interactions that hold the Single and are not covered *)
Definition uncovered_with (a : Array) (s : SingleP) : nat :=
  length (filter (λ I, is_covered I = false ∧ s ∈ i_singles I) (interactions a)).

(** [Array::print_stats]: the three scores that the verbose output shows,
    for coverage, location and detection.  The output flags [o] and [v]
    are not part of the model, and the printing is not modelled. *)
Definition print_stats (a : Array) : result (Z * Z * Z)%type :=
  foldM (λ s '(c_score, l_score, d_score),
      S ← single_at a s;
      Ok (c_score + c_issues S, l_score + l_issues S, d_score + d_issues S))
    (singles a) (coverage_problems a, location_problems a, detection_problems a).

(** ** The detection state of the Array *)

(** the detection flags of the Interactions, the counter and the flag of
    the Array *)
Definition det_view (a : Array) : (list bool * Z * bool)%type :=
  (is_detectable <$> interactions a, detection_problems a, is_detecting a).

(** what the detection state is when detection is not asked for *)
Definition no_detection (a : Array) : Prop :=
  detection_problems a = 0 ∧ is_detecting a = false
  ∧ ∀ i I, interactions a !! i = Some I → is_detectable I = false.

(** ** The location state *)

(** the location state of a T set: its conflicts and its flag *)
Definition loc_t (X : T) : (gset nat * bool)%type := (location_conflicts X, is_locatable X).

(** the row sets and the location states of the T sets, by place *)
Definition rows_of (a : Array) (k : nat) : option (gset nat) := t_rows <$> sets a !! k.
Definition locs_of (a : Array) (k : nat) : option (gset nat * bool) := loc_t <$> sets a !! k.

(** by how much [location_problems] exceeds the number of T sets that are
    not flagged as locatable *)
Definition loc_surplus (a : Array) : Z :=
  location_problems a - Z.of_nat (count_false (is_locatable <$> sets a)).

(** the conflicts and the flags [lc] fit the row sets [rw]: the conflicts of
    a T set are the other T sets with the same rows, if it has a row at
    all, and it is flagged when it has a row and no conflict *)
Definition loc_final (rw : nat → option (gset nat)) (lc : nat → option (gset nat * bool))
    : Prop :=
  ∀ k C f r, lc k = Some (C, f) → rw k = Some r →
    (∀ k', k' ∈ C ↔ k' ≠ k ∧ r ≠ ∅ ∧ rw k' = Some r)
    ∧ (f = true ↔ C = ∅ ∧ r ≠ ∅).

(** the same in the middle of the third loop of [update_array], for the row
    [n] whose T sets are [R], when the T sets in [P] have been dealt with:
    for these the conflicts are up to date; for the others they are as
    before the row, except that a T set outside the row has lost the
    conflicts with the sets in [P] *)
Definition loc_fits (n : nat) (R P : gset nat) (rw : nat → option (gset nat))
    (lc : nat → option (gset nat * bool)) : Prop :=
  ∀ k C f r, lc k = Some (C, f) → rw k = Some r →
    (∀ k', k' ∈ C ↔
       k' ≠ k ∧ ∃ r', rw k' = Some r'
         ∧ ((k ∈ P ∧ r' = r)
            ∨ ((k ∉ P) ∧ r' ∖ {[n]} = r ∖ {[n]} ∧ r ∖ {[n]} ≠ ∅ ∧ (k ∉ R → k' ∉ P))))
    ∧ (f = true ↔ C = ∅ ∧ (r ∖ {[n]} ≠ ∅ ∨ k ∈ P)).

(** what one pass of the third loop, for the T set [t1] of the row, does to
    the conflicts and the flags *)
Definition loc_step (R : gset nat) (t1 : nat) (rw : nat → option (gset nat))
    (lc lc' : nat → option (gset nat * bool)) : Prop :=
  ∃ C1 f1 r1, lc t1 = Some (C1, f1) ∧ rw t1 = Some r1
    ∧ if f1 then ∀ k, lc' k = lc k
      else ∃ C1', lc' t1 = Some (C1', bool_decide (C1' = ∅))
        ∧ if decide (size r1 = 1%nat)
          then (∀ k', k' ∈ C1' ↔
                  k' ∈ C1 ∨ (k' ∈ R ∧ k' ≠ t1
                             ∧ ∃ r', rw k' = Some r' ∧ ¬ (1 < size r')%nat))
               ∧ ∀ k, k ≠ t1 → lc' k = lc k
          else (∀ k', k' ∈ C1' ↔ k' ∈ C1 ∧ k' ∈ R)
               ∧ ∀ k, k ≠ t1 →
                   lc' k = if decide (k ∈ C1 ∧ k ∉ R)
                           then (λ x : gset nat * bool,
                                   (x.1 ∖ {[t1]}, bool_decide (x.1 ∖ {[t1]} = ∅))) <$> lc k
                           else lc k.

(** the location state of the Array is consistent with the rows of its T
    sets *)
Definition loc_inv (a : Array) : Prop :=
  loc_final (rows_of a) (locs_of a)
  ∧ loc_surplus a = 0
  ∧ (is_locating a = true ↔ location_problems a = 0 ∧ sets a ≠ []).


(** * Proofs *)

(** ** The failure monad and its loops *)

Lemma bind_Ok {A B} (m : result A) (f : A → result B) (y : B) :
  (x ← m; f x) = Ok y ↔ ∃ x, m = Ok x ∧ f x = Ok y.
Proof.
  destruct m as [x|e]; simpl; split.
  - eauto.
  - by intros (x' & [= <-] & ?).
  - done.
  - by intros (x' & ? & ?).
Qed.

Lemma Ok_inj {A} (x y : A) : Ok x = Ok y → x = y.
Proof. by intros [= ->]. Qed.

Lemma or_fail_Ok {A} e (o : option A) x : or_fail e o = Ok x ↔ o = Some x.
Proof. destruct o; simpl; split; congruence. Qed.

Lemma fmap_Ok {A B} (f : A → B) (m : result A) y :
  f <$> m = Ok y ↔ ∃ x, m = Ok x ∧ y = f x.
Proof.
  destruct m; simpl; split.
  - intros [= <-]. eauto.
  - by intros (? & [= <-] & ->).
  - done.
  - by intros (? & ? & ?).
Qed.

(** splits one bind of a hypothesis [H : ... = Ok _] *)
Ltac inv_bind H :=
  match type of H with
  | mbind _ _ = Ok _ =>
    let x := fresh "x" in
    let Hx := fresh "H" x in
    apply bind_Ok in H as (x & Hx & H)
  end.

Section loops.
Context {A S : Type}.

Lemma foldM_app (f : A → S → result S) l1 l2 s :
  foldM f (l1 ++ l2) s = (s' ← foldM f l1 s; foldM f l2 s').
Proof.
  revert s. induction l1 as [|x l1 IH]; intros s; simpl; [done|].
  destruct (f x s); simpl; [apply IH | done].
Qed.

(** an invariant of the body is an invariant of the loop *)
Lemma foldM_inv (P : S → Prop) (f : A → S → result S) l s s' :
  (∀ x s s', x ∈ l → P s → f x s = Ok s' → P s') →
  P s → foldM f l s = Ok s' → P s'.
Proof.
  revert s. induction l as [|x l IH]; intros s Hf Hs H; simpl in H.
  - by injection H as <-.
  - apply bind_Ok in H as (s1 & H1 & H).
    apply (IH s1); [| |done].
    + intros y ? ? Hy. apply Hf. by right.
    + eapply Hf; [|done..]. by left.
Qed.

(** a preorder that the body respects relates the ends of the loop *)
Lemma foldM_rel (R : S → S → Prop) `{!PreOrder R} (f : A → S → result S) l s s' :
  (∀ x s s', x ∈ l → f x s = Ok s' → R s s') →
  foldM f l s = Ok s' → R s s'.
Proof.
  intros Hf. apply (foldM_inv (R s)); [|done].
  intros x s1 s2 Hx Hs1 Hs2. etrans; [done|]. by eapply Hf.
Qed.

(** an invariant that mentions the part of the list already visited *)
Lemma foldM_prefix (P : list A → S → Prop) (f : A → S → result S) l s s' :
  (∀ l1 x s s', P l1 s → f x s = Ok s' → P (l1 ++ [x]) s') →
  P [] s → foldM f l s = Ok s' → P l s'.
Proof.
  intros Hf. change l with ([] ++ l) at 2. generalize (@nil A) as l0.
  revert s. induction l as [|x l IH]; intros s l0 Hs H; simpl in H.
  - apply Ok_inj in H as <-. by rewrite app_nil_r.
  - apply bind_Ok in H as (s1 & H1 & H).
    rewrite cons_middle, app_assoc. eapply IH; [|done]. by eapply Hf.
Qed.

(** the same, told where the element stands in the list *)
Lemma foldM_split_from (P : list A → S → Prop) (f : A → S → result S) l0 l s s' :
  (∀ l1 x l2 s s', l0 ++ l = l1 ++ x :: l2 → P l1 s → f x s = Ok s' → P (l1 ++ [x]) s') →
  P l0 s → foldM f l s = Ok s' → P (l0 ++ l) s'.
Proof.
  revert s l0. induction l as [|x l IH]; intros s l0 Hf Hs H; simpl in H.
  - apply Ok_inj in H as <-. by rewrite app_nil_r.
  - apply bind_Ok in H as (s1 & H1 & H).
    rewrite cons_middle, app_assoc. eapply IH; [|by eapply (Hf l0 x l)|done].
    intros l1 y l2 ? ? E. apply (Hf l1 y l2). by rewrite <- E, <- app_assoc.
Qed.

Lemma foldM_split (P : list A → S → Prop) (f : A → S → result S) l s s' :
  (∀ l1 x l2 s s', l = l1 ++ x :: l2 → P l1 s → f x s = Ok s' → P (l1 ++ [x]) s') →
  P [] s → foldM f l s = Ok s' → P l s'.
Proof. apply (foldM_split_from P f [] l). Qed.

Lemma for_each_cons (f : A → S → S) x l s :
  for_each f (x :: l) s = for_each f l (f x s).
Proof. done. Qed.

Lemma for_each_app (f : A → S → S) l1 l2 s :
  for_each f (l1 ++ l2) s = for_each f l2 (for_each f l1 s).
Proof. unfold for_each. by rewrite foldl_app. Qed.

Lemma for_each_inv (P : S → Prop) (f : A → S → S) l s :
  (∀ x s, x ∈ l → P s → P (f x s)) → P s → P (for_each f l s).
Proof.
  revert s. induction l as [|x l IH]; intros s Hf Hs; [done|].
  rewrite for_each_cons. apply IH.
  - intros y ? Hy. apply Hf. by right.
  - apply Hf; [by left|done].
Qed.

Lemma for_each_prefix (P : list A → S → Prop) (f : A → S → S) l s :
  (∀ l1 x s, P l1 s → P (l1 ++ [x]) (f x s)) → P [] s → P l (for_each f l s).
Proof.
  intros Hf. change l with ([] ++ l) at 1. generalize (@nil A) as l0.
  revert s. induction l as [|x l IH]; intros s l0 Hs.
  - by rewrite app_nil_r.
  - rewrite for_each_cons, cons_middle, app_assoc. apply IH. by apply Hf.
Qed.

(** the same, told where the element stands in the list *)
Lemma for_each_split_from (P : list A → S → Prop) (f : A → S → S) l0 l s :
  (∀ l1 x l2 s, l0 ++ l = l1 ++ x :: l2 → P l1 s → P (l1 ++ [x]) (f x s)) →
  P l0 s → P (l0 ++ l) (for_each f l s).
Proof.
  revert s l0. induction l as [|x l IH]; intros s l0 Hf Hs.
  - by rewrite app_nil_r.
  - rewrite for_each_cons, cons_middle, app_assoc. apply IH; [|by apply (Hf l0 x l)].
    intros l1 y l2 ? E. apply (Hf l1 y l2). by rewrite <- E, <- app_assoc.
Qed.

Lemma for_each_split (P : list A → S → Prop) (f : A → S → S) l s :
  (∀ l1 x l2 s, l = l1 ++ x :: l2 → P l1 s → P (l1 ++ [x]) (f x s)) →
  P [] s → P l (for_each f l s).
Proof. apply (for_each_split_from P f [] l). Qed.

Lemma for_each_rel (R : S → S → Prop) `{!PreOrder R} (f : A → S → S) l s :
  (∀ x s, x ∈ l → R s (f x s)) → R s (for_each f l s).
Proof.
  intros Hf. apply (for_each_inv (R s)); [|done].
  intros x s1 Hx Hs1. etrans; [done|]. by apply Hf.
Qed.
End loops.

Lemma elem_of_iter (s : gset nat) x : x ∈ iter s ↔ x ∈ s.
Proof. unfold iter. by rewrite merge_sort_Permutation, elem_of_elements. Qed.

Lemma NoDup_iter (s : gset nat) : NoDup (iter s).
Proof. unfold iter. rewrite merge_sort_Permutation. apply NoDup_elements. Qed.

Lemma lookup_map_insert_new `{Countable K} {V} (k k' : K) (v : V) (m : gmap K V) :
  map_insert_new k v m !! k' =
    match m !! k' with
    | Some w => Some w
    | None => if decide (k = k') then Some v else None
    end.
Proof.
  unfold map_insert_new. destruct (m !! k) as [w|] eqn:Hk.
  - destruct (m !! k') eqn:Hk'; [done|]. case_decide; [congruence|done].
  - rewrite lookup_insert. case_decide as Hkk.
    + subst. by rewrite Hk.
    + by destruct (m !! k').
Qed.

(** ** Reading after writing through a pointer *)

Lemma get_single_upd_single f s s' a :
  get_single (upd_single f s a) s' =
    if decide (s = s') then f <$> get_single a s' else get_single a s'.
Proof.
  destruct s as [c l], s' as [c' l']. unfold get_single, upd_single. simpl.
  destruct (decide (c = c')) as [->|Hc].
  - rewrite list_lookup_alter_eq. destruct (factors a !! c') as [F|]; simpl.
    + destruct (decide (l = l')) as [->|Hl].
      * rewrite decide_True by done. by rewrite list_lookup_alter_eq.
      * rewrite decide_False by congruence. by rewrite list_lookup_alter_ne.
    + by case_decide.
  - rewrite decide_False by congruence. by rewrite list_lookup_alter_ne.
Qed.

Lemma get_single_upd_single_eq f s a :
  get_single (upd_single f s a) s = f <$> get_single a s.
Proof. rewrite get_single_upd_single. by rewrite decide_True. Qed.

Lemma get_single_upd_single_ne f s s' a :
  s ≠ s' → get_single (upd_single f s a) s' = get_single a s'.
Proof. intros. rewrite get_single_upd_single. by rewrite decide_False. Qed.

Lemma get_interaction_upd_interaction f i j a :
  get_interaction (upd_interaction f i a) j =
    if decide (i = j) then f <$> get_interaction a j else get_interaction a j.
Proof.
  unfold get_interaction, upd_interaction. simpl. case_decide as Hij.
  - subst. by rewrite list_lookup_alter_eq.
  - by rewrite list_lookup_alter_ne.
Qed.

Lemma get_T_upd_T f i j a :
  get_T (upd_T f i a) j = if decide (i = j) then f <$> get_T a j else get_T a j.
Proof.
  unfold get_T, upd_T. simpl. case_decide as Hij.
  - subst. by rewrite list_lookup_alter_eq.
  - by rewrite list_lookup_alter_ne.
Qed.

Lemma interaction_at_Ok a i I : interaction_at a i = Ok I ↔ interactions a !! i = Some I.
Proof. apply or_fail_Ok. Qed.
Lemma T_at_Ok a k X : T_at a k = Ok X ↔ sets a !! k = Some X.
Proof. apply or_fail_Ok. Qed.
Lemma single_at_Ok a s x : single_at a s = Ok x ↔ get_single a s = Some x.
Proof. apply or_fail_Ok. Qed.

(** splits the binds of a hypothesis [H : ... = Ok _] *)
Ltac inv_Ok H :=
  repeat first
    [ progress (unfold mret, result_ret in H)
    | match type of H with
      | Ok _ = Ok _ => apply Ok_inj in H; try subst
      | (_, _) = (_, _) =>
        let H' := fresh H in
        apply pair_equal_spec in H as [H H']; try subst
      | Err _ = Ok _ => discriminate H
      | (let '(_, _) := ?x in _) = Ok _ => destruct x eqn:?
      | (let _ := _ in _) = Ok _ => cbv zeta in H
      | mbind _ _ = Ok _ =>
        let x := fresh "x" in
        let Hx := fresh "H" x in
        apply bind_Ok in H as (x & Hx & H);
        first
          [ apply interaction_at_Ok in Hx
          | apply T_at_Ok in Hx
          | apply single_at_Ok in Hx
          | apply or_fail_Ok in Hx
          | idtac ]
      end ].

(** a loop whose body always succeeds under an invariant succeeds *)
Lemma foldM_total {A S} (P : S → Prop) (f : A → S → result S) l s :
  (∀ x s, x ∈ l → P s → ∃ s', f x s = Ok s' ∧ P s') →
  P s → ∃ s', foldM f l s = Ok s' ∧ P s'.
Proof.
  revert s. induction l as [|x l IH]; intros s Hf Hs; simpl; [by eauto|].
  destruct (Hf x s) as (s1 & -> & Hs1); [by left|done|]. simpl.
  apply IH; [|done]. intros y ? Hy. apply Hf. by right.
Qed.

(** a loop whose body runs a pure loop over a list is a pure loop over the
    concatenation *)
Lemma foldM_closed {A B S} (Inv : S → Prop) (f : A → S → result S)
    (g : A → list B) (h : B → S → S) l s s' :
  (∀ x s s', Inv s → f x s = Ok s' → s' = for_each h (g x) s) →
  (∀ y s, Inv s → Inv (h y s)) →
  Inv s → foldM f l s = Ok s' → s' = for_each h (l ≫= g) s.
Proof.
  intros Hf Hh. revert s. induction l as [|x l IH]; intros s Hs H; simpl in H.
  - by apply Ok_inj in H.
  - apply bind_Ok in H as (s1 & H1 & H). rewrite bind_cons, for_each_app.
    apply Hf in H1 as ->; [|done]. apply IH; [|done].
    apply for_each_inv; [|done]. intros. by apply Hh.
Qed.


(** ** Monotone flags *)

Section flags.
Context (ex : nat → Prop).

#[export] Instance flags_mono_except_preorder : PreOrder (flags_mono_except ex).
Proof.
  split.
  - intros a. unfold flags_mono_except. naive_solver.
  - intros a b c (Hi & Hs & H1 & H2 & H3) (Hi' & Hs' & H1' & H2' & H3').
    split_and!; [| |tauto..].
    + intros i I HI. destruct (Hi i I HI) as (I' & HI' & ? & ?).
      destruct (Hi' i I' HI') as (I'' & HI'' & ? & ?).
      exists I''. split_and!; [done|tauto..].
    + intros k X HX. destruct (Hs k X HX) as (X' & HX' & ?).
      destruct (Hs' k X' HX') as (X'' & HX'' & ?).
      exists X''. split; [done|tauto].
Qed.

(** steps that touch no flag *)
Lemma fm_same a b b' :
  interactions b' = interactions b → sets b' = sets b →
  is_covering b' = is_covering b → is_locating b' = is_locating b →
  is_detecting b' = is_detecting b →
  flags_mono_except ex a b → flags_mono_except ex a b'.
Proof.
  intros E1 E2 E3 E4 E5 H. etrans; [done|].
  unfold flags_mono_except. rewrite E1, E2, E3, E4, E5. naive_solver.
Qed.

Lemma fm_upd_single f s a b :
  flags_mono_except ex a b → flags_mono_except ex a (upd_single f s b).
Proof. by apply fm_same. Qed.

Lemma fm_add_score k a b :
  flags_mono_except ex a b → flags_mono_except ex a (add_to F_score k b).
Proof. by apply fm_same. Qed.

Lemma fm_add_coverage k a b :
  flags_mono_except ex a b → flags_mono_except ex a (add_to F_coverage_problems k b).
Proof. by apply fm_same. Qed.

Lemma fm_add_location k a b :
  flags_mono_except ex a b → flags_mono_except ex a (add_to F_location_problems k b).
Proof. by apply fm_same. Qed.

Lemma fm_add_detection k a b :
  flags_mono_except ex a b → flags_mono_except ex a (add_to F_detection_problems k b).
Proof. by apply fm_same. Qed.

Lemma fm_rows f a b :
  flags_mono_except ex a b → flags_mono_except ex a (upd F_rows f b).
Proof. by apply fm_same. Qed.

Lemma fm_num_tests f a b :
  flags_mono_except ex a b → flags_mono_except ex a (upd F_num_tests f b).
Proof. by apply fm_same. Qed.

Lemma fm_bump sc k ss a b :
  flags_mono_except ex a b → flags_mono_except ex a (bump sc k ss b).
Proof.
  intros H. unfold bump. apply (for_each_inv (flags_mono_except ex a)); [|done].
  intros s c _ Hc. by apply fm_add_score, fm_upd_single.
Qed.

Lemma fm_upd_interaction f i a b :
  (∀ I, is_covered I = true → is_covered (f I) = true) →
  (¬ ex i → ∀ I, is_detectable I = true → is_detectable (f I) = true) →
  flags_mono_except ex a b → flags_mono_except ex a (upd_interaction f i b).
Proof.
  intros Hc Hd H. etrans; [done|]. split_and!; try done.
  - intros j I HI. unfold upd_interaction. cbn [interactions upd].
    destruct (decide (i = j)) as [->|].
    + rewrite list_lookup_alter_eq, HI. simpl. eexists. split_and!; eauto.
    + rewrite list_lookup_alter_ne by done. eauto.
  - intros k X HX. exists X. by split.
Qed.

Lemma fm_upd_T f k a b :
  (∀ X, is_locatable X = true → is_locatable (f X) = true) →
  flags_mono_except ex a b → flags_mono_except ex a (upd_T f k b).
Proof.
  intros Hl H. etrans; [done|]. split_and!; try done.
  - intros j I HI. exists I. by split_and!.
  - intros j X HX. unfold upd_T. cbn [sets upd].
    destruct (decide (k = j)) as [->|].
    + rewrite list_lookup_alter_eq, HX. simpl. eexists. split_and!; eauto.
    + rewrite list_lookup_alter_ne by done. eauto.
Qed.

Lemma fm_is_covering a b :
  flags_mono_except ex a b → flags_mono_except ex a (upd F_is_covering (λ _, true) b).
Proof. intros H. etrans; [done|]. unfold flags_mono_except. naive_solver. Qed.

Lemma fm_is_locating a b :
  flags_mono_except ex a b → flags_mono_except ex a (upd F_is_locating (λ _, true) b).
Proof. intros H. etrans; [done|]. unfold flags_mono_except. naive_solver. Qed.

Lemma fm_is_detecting a b :
  flags_mono_except ex a b → flags_mono_except ex a (upd F_is_detecting (λ _, true) b).
Proof. intros H. etrans; [done|]. unfold flags_mono_except. naive_solver. Qed.
End flags.

Create HintDb fm discriminated.
#[export] Hint Resolve fm_upd_single fm_add_score fm_add_coverage fm_add_location
  fm_add_detection fm_rows fm_num_tests fm_bump fm_is_covering fm_is_locating
  fm_is_detecting : fm.

Lemma fm_weaken (ex : nat → Prop) a a' :
  (∀ i I, ex i → interactions a !! i = Some I → is_detectable I = false) →
  flags_mono_except ex a a' → flags_mono a a'.
Proof.
  intros Hex (Hi & Hrest). split; [|done].
  intros i I HI. destruct (Hi i I HI) as (I' & HI' & Hc & Hd).
  exists I'. split_and!; [done|done|].
  intros _ HdI. apply Hd; [|done].
  intros Hexi. specialize (Hex i I Hexi HI). congruence.
Qed.

Lemma fm_strengthen (ex : nat → Prop) a a' :
  flags_mono a a' → flags_mono_except ex a a'.
Proof.
  intros (Hi & Hrest). split; [|done].
  intros i I HI. destruct (Hi i I HI) as (I' & HI' & Hc & Hd).
  exists I'. split_and!; [done|done|]. intros _. apply Hd. tauto.
Qed.

(** closes [flags_mono_except ex a (step ... b)] goals for straight-line steps *)
Ltac fm_steps :=
  repeat lazymatch goal with
    | |- flags_mono_except _ ?a ?a => reflexivity
    | H : flags_mono_except _ ?a ?b |- flags_mono_except _ ?a ?b => exact H
    | |- flags_mono_except ?ex ?a (upd_single ?f ?s ?b) => apply (fm_upd_single ex f s a b)
    | |- flags_mono_except ?ex ?a (bump ?sc ?k ?ss ?b) => apply (fm_bump ex sc k ss a b)
    | |- flags_mono_except ?ex ?a (add_to _ _ ?b) =>
      apply (fm_same ex a b); [reflexivity..|]
    | |- flags_mono_except ?ex ?a (upd F_rows _ ?b) =>
      apply (fm_same ex a b); [reflexivity..|]
    | |- flags_mono_except ?ex ?a (upd F_num_tests _ ?b) =>
      apply (fm_same ex a b); [reflexivity..|]
    | |- flags_mono_except ?ex ?a (upd F_is_covering _ ?b) => apply (fm_is_covering ex a b)
    | |- flags_mono_except ?ex ?a (upd F_is_locating _ ?b) => apply (fm_is_locating ex a b)
    | |- flags_mono_except ?ex ?a (upd F_is_detecting _ ?b) => apply (fm_is_detecting ex a b)
    | |- flags_mono_except ?ex ?a (upd_interaction ?f ?i ?b) =>
      apply (fm_upd_interaction ex f i a b); [by intros []|by intros ? []|]
    | |- flags_mono_except ?ex ?a (upd_T ?f ?k ?b) =>
      apply (fm_upd_T ex f k a b); [by intros []|]
    | |- flags_mono_except _ _ (if decide ?P then _ else _) => destruct (decide P)
    | |- flags_mono_except _ _ (let _ := _ in _) => cbv zeta
    | |- flags_mono_except ?ex ?a (for_each _ _ _) =>
      apply (for_each_inv (flags_mono_except ex a)); [intros ? ? _ ?; cbv beta|]
    end.

Lemma fm_for_each_upd_single ex f ss a b :
  flags_mono_except ex a b → flags_mono_except ex a (for_each (upd_single f) ss b).
Proof.
  intros H. apply (for_each_inv (flags_mono_except ex a)); [|done].
  intros. by apply fm_upd_single.
Qed.

Lemma fm_for_each_upd_T ex f ks a b :
  (∀ X, is_locatable X = true → is_locatable (f X) = true) →
  flags_mono_except ex a b → flags_mono_except ex a (for_each (upd_T f) ks b).
Proof.
  intros Hf H. apply (for_each_inv (flags_mono_except ex a)); [|done].
  intros. by apply fm_upd_T.
Qed.

Lemma fm_insert_row ex n i a0 a rs a' rs' :
  insert_row n i (a, rs) = Ok (a', rs') →
  flags_mono_except ex a0 a → flags_mono_except ex a0 a'.
Proof.
  unfold insert_row. intros H H0. inv_Ok H.
  apply fm_for_each_upd_T; [by intros []|].
  apply fm_upd_interaction; [by intros []|by intros ? []|].
  by apply fm_for_each_upd_single.
Qed.

Lemma fm_coverage_update ex i a0 a a' :
  coverage_update i a = Ok a' →
  flags_mono_except ex a0 a → flags_mono_except ex a0 a'.
Proof.
  unfold coverage_update. intros H H0. inv_Ok H.
  destruct (is_covered x); inv_Ok H; [done|]. fm_steps.
Qed.

Lemma fm_detection_update ex rs i a0 a a' :
  detection_update rs i a = Ok a' →
  flags_mono_except ex a0 a → flags_mono_except ex a0 a'.
Proof.
  unfold detection_update. intros H H0. etrans; [done|]. clear dependent a0.
  apply fm_strengthen. inv_Ok H.
  destruct (is_detectable x) eqn:Hdet; inv_Ok H; [done|].
  apply (fm_weaken (λ j, j = i)).
  { intros j I -> HI. congruence. }
  assert (flags_mono_except (λ j, j = i) a x0) as H1.
  { revert Hx0. apply (foldM_inv (flags_mono_except _ a)).
    - intros k b b' _ Hb Hk. inv_Ok Hk. fm_steps.
    - fm_steps. }
  destruct (is_detectable x2); inv_Ok H; fm_steps.
Qed.

Lemma fm_location_first ex rs t1 a0 a a' :
  location_first rs t1 a = Ok a' →
  flags_mono_except ex a0 a → flags_mono_except ex a0 a'.
Proof.
  unfold location_first. intros H H0. inv_Ok H. revert H.
  apply (foldM_inv (flags_mono_except _ a0)).
  - intros k b b' _ Hb Hk. inv_Ok Hk. case_decide; inv_Ok Hk; fm_steps.
  - fm_steps.
Qed.

Lemma fm_location_solved ex rs t1 a0 a a' :
  location_solved rs t1 a = Ok a' →
  flags_mono_except ex a0 a → flags_mono_except ex a0 a'.
Proof.
  unfold location_solved. intros H H0. inv_Ok H.
  apply fm_upd_T; [by intros []|]. apply fm_bump.
  change a1 with ((a1, g, z).1.1). revert Hx0.
  apply (foldM_inv (λ st, flags_mono_except ex a0 st.1.1)); [|done].
  intros k [[c tmp] sv] [[c' tmp'] sv'] _ Hc Hk. cbn [fst snd] in *.
  case_decide; inv_Ok Hk; [done|].
  case_decide; inv_Ok Hk.
  case_decide; inv_Ok Hk; [|fm_steps].
  case_decide; inv_Ok Hk. fm_steps.
Qed.

Lemma fm_location_update ex rs t1 a0 a a' :
  location_update rs t1 a = Ok a' →
  flags_mono_except ex a0 a → flags_mono_except ex a0 a'.
Proof.
  unfold location_update. intros H H0. inv_Ok H.
  destruct (is_locatable x); inv_Ok H; [done|].
  assert (flags_mono_except ex a0 x0) as H1.
  { destruct (decide (size (t_rows x) = 1%nat));
      [by eapply fm_location_first|by eapply fm_location_solved]. }
  destruct (decide (size (location_conflicts x1) = 0%nat)); inv_Ok H; fm_steps.
Qed.

Lemma fm_roll_back ex ri rs a0 a a' :
  roll_back ri rs a = Ok a' →
  flags_mono_except ex a0 a → flags_mono_except ex a0 a'.
Proof.
  unfold roll_back. intros H H0. inv_Ok H. fm_steps.
  revert Hx. apply (foldM_inv (flags_mono_except _ a0)); [|done].
  intros i b b' _ Hb Hi. inv_Ok Hi. fm_steps.
Qed.

Lemma fm_update_array_body row ri a a' rs :
  update_array_body row ri a = Ok (a', rs) → flags_mono a a'.
Proof.
  unfold update_array_body. intros H. inv_Ok H. rename a0 into b.
  assert (flags_mono a b) as H1.
  { change b with ((b, rs).1). revert Hx.
    apply (foldM_inv (λ st, flags_mono a st.1)).
    - intros i [c q] [c' q'] _ Hc Hi. cbn [fst snd] in *. by eapply fm_insert_row.
    - cbn [fst snd]. unfold flags_mono. fm_steps. }
  assert (flags_mono a x0) as H2.
  { revert Hx0. apply (foldM_inv (flags_mono a)); [|done].
    intros i c c' _ Hc Hi. inv_Ok Hi.
    eapply fm_coverage_update in Hx0; [|done].
    destruct (decide (p x = all)); inv_Ok Hi; [|done]. by eapply fm_detection_update. }
  destruct (decide (p x0 ≠ c_only ∧ is_locating x0 = false)); inv_Ok Hx1; [|done].
  revert Hx1. apply (foldM_inv (flags_mono a)); [|done].
  intros k c c' _ Hc Hk. by eapply fm_location_update.
Qed.

Lemma fm_update_array row ri keep a a' :
  update_array row ri keep a = Ok a' → flags_mono a a'.
Proof.
  unfold update_array. intros H. inv_Ok H.
  apply fm_update_array_body in Hx.
  destruct keep; inv_Ok H; [done|]. by eapply fm_roll_back.
Qed.

(** C8. Flags are monotone: a flag that is set before a call of
    [update_array] (whatever the row and whether or not it is kept) is set
    after it, for the [is_covered] and [is_detectable] flags of every
    Interaction, the [is_locatable] flag of every T set, and the Array's
    [is_covering], [is_locating] and [is_detecting]; hence also over every
    sequence of later calls. *)
Theorem flags_never_reset calls a a' :
  update_array_seq calls a = Ok a' → flags_mono a a'.
Proof.
  revert a. induction calls as [|[[row ri] keep] calls IH]; intros a H; simpl in H.
  - apply Ok_inj in H. subst. reflexivity.
  - inv_bind H. etrans; [by eapply fm_update_array|]. by apply IH.
Qed.


(** ** Read-only methods *)

Lemma M_bind_Ok {A B} (m : M A) (f : A → M B) a g y a' g' :
  (x ← m; f x) a g = Ok (y, a', g') ↔
  ∃ x a1 g1, m a g = Ok (x, a1, g1) ∧ f x a1 g1 = Ok (y, a', g').
Proof.
  unfold mbind, M_bind. destruct (m a g) as [[[x a1] g1]|e]; split.
  - eauto 10.
  - by intros (? & ? & ? & [= <- <- <-] & ?).
  - done.
  - by intros (? & ? & ? & ? & ?).
Qed.

Lemma read_only_ret {A} (x : A) : read_only (mret x).
Proof. by intros a g y a' g' [= _ <- _]. Qed.

Lemma read_only_bind {A B} (m : M A) (f : A → M B) :
  read_only m → (∀ x, read_only (f x)) → read_only (x ← m; f x).
Proof.
  intros Hm Hf a g y a' g' H.
  apply M_bind_Ok in H as (x & a1 & g1 & H1 & H2).
  apply Hm in H1 as ->. by apply Hf in H2.
Qed.

Lemma read_only_lift {A} (r : result A) : read_only (lift r).
Proof. intros a g y a' g'. unfold lift. by destruct r; intros [= _ <- _]. Qed.

Lemma read_only_reads {A} (f : Array → result A) : read_only (reads f).
Proof. intros a g y a' g'. unfold reads. by destruct (f a); intros [= _ <- _]. Qed.

Lemma read_only_rand : read_only rand.
Proof. by intros a g y a' g' [= _ <- _]. Qed.

Lemma read_only_rand_mod n : read_only (rand_mod n).
Proof.
  unfold rand_mod. case_decide; [apply read_only_lift|].
  apply read_only_bind; [apply read_only_rand|]. intros. apply read_only_ret.
Qed.

Lemma read_only_forM {A S} (f : A → S → M S) l s :
  (∀ x s, read_only (f x s)) → read_only (forM f l s).
Proof.
  intros Hf. revert s. induction l as [|x l IH]; intros s; simpl.
  - apply read_only_ret.
  - apply read_only_bind; [apply Hf|]. intros. apply IH.
Qed.

Lemma read_only_loopM {A R S} (f : A → S → M (ctl R S)) l s :
  (∀ x s, read_only (f x s)) → read_only (loopM f l s).
Proof.
  intros Hf. revert s. induction l as [|x l IH]; intros s; simpl.
  - apply read_only_ret.
  - apply read_only_bind; [apply Hf|]. intros [r|s']; [apply read_only_ret|apply IH].
Qed.

(** follows the structure of a method built from the read-only operations *)
Ltac read_only_steps :=
  repeat first
    [ apply read_only_ret
    | apply read_only_lift
    | apply read_only_reads
    | apply read_only_rand_mod
    | apply read_only_rand
    | apply read_only_forM; intros
    | apply read_only_loopM; intros
    | apply read_only_bind; [|intros]
    | match goal with
      | |- read_only (match ?x with _ => _ end) => destruct x
      | |- read_only (let _ := _ in _) => cbv zeta
      | |- read_only (factor_at _) => unfold factor_at
      | |- read_only (permutation_at _) => unfold permutation_at
      | |- read_only (dont_cares_at _) => unfold dont_cares_at
      | |- read_only columns => unfold columns
      | |- read_only (row_interactions_of _) => unfold row_interactions_of
      | |- read_only (cycle _ _ _ _) => unfold cycle
      end ].

Lemma read_only_initialize_row_R : read_only initialize_row_R.
Proof. unfold initialize_row_R. read_only_steps. Qed.

Lemma read_only_get_random_row : read_only get_random_row.
Proof. unfold get_random_row. read_only_steps. Qed.

Lemma read_only_initialize_row_S : read_only initialize_row_S.
Proof. unfold initialize_row_S. read_only_steps. Qed.

Lemma read_only_initialize_row_T : read_only initialize_row_T.
Proof.
  unfold initialize_row_T.
  apply read_only_bind; [apply read_only_initialize_row_R|intros].
  read_only_steps.
Qed.

Lemma read_only_count_problems completed ri problems :
  read_only (count_problems completed ri problems).
Proof. unfold count_problems. read_only_steps. Qed.

Lemma read_only_heuristic_c_helper row ri problems :
  read_only (heuristic_c_helper row ri problems).
Proof.
  unfold heuristic_c_helper.
  apply read_only_bind; [apply read_only_count_problems|intros].
  read_only_steps.
Qed.

Lemma read_only_heuristic_c_only row : read_only (heuristic_c_only row).
Proof.
  unfold heuristic_c_only.
  repeat first
    [ apply read_only_count_problems
    | apply read_only_heuristic_c_helper
    | progress read_only_steps ].
Qed.

Lemma read_only_heuristic_l_only row locked : read_only (heuristic_l_only row locked).
Proof. unfold heuristic_l_only. read_only_steps. Qed.

Lemma read_only_heuristic_d_only row : read_only (heuristic_d_only row).
Proof. apply read_only_ret. Qed.

Lemma read_only_heuristic_all_scorer row row_p scores :
  read_only (heuristic_all_scorer row row_p scores).
Proof. unfold heuristic_all_scorer. read_only_steps. Qed.

Lemma read_only_heuristic_all_helper row_addr remaining row cur_col st :
  read_only (heuristic_all_helper row_addr remaining row cur_col st).
Proof.
  revert row cur_col st.
  induction remaining as [|r IH]; intros row cur_col st; simpl.
  - repeat first [ apply read_only_heuristic_all_scorer | progress read_only_steps ].
  - repeat first [ apply IH | progress read_only_steps ].
Qed.

Lemma read_only_heuristic_all row_addr row : read_only (heuristic_all row_addr row).
Proof.
  unfold heuristic_all.
  repeat first [ apply read_only_heuristic_all_helper | progress read_only_steps ].
Qed.

Lemma read_only_tweak_row heuristic_in_use row_addr row locked :
  read_only (tweak_row heuristic_in_use row_addr row locked).
Proof.
  destruct heuristic_in_use; simpl;
    auto using read_only_heuristic_c_only, read_only_heuristic_l_only,
      read_only_heuristic_d_only, read_only_heuristic_all, read_only_ret.
Qed.

(** C9. For every candidate row, [heuristic_c_only], [heuristic_l_only] and
    [tweak_row] (whatever heuristic it dispatches to) return with the Array
    exactly as it was before the call: counters, flags, row sets and
    [dont_cares] included; only the row buffer they return differs. *)
Theorem tweaks_modify_only_the_row row locked :
  read_only (heuristic_c_only row)
  ∧ read_only (heuristic_l_only row locked)
  ∧ ∀ heuristic_in_use row_addr,
      read_only (tweak_row heuristic_in_use row_addr row locked).
Proof.
  split_and!.
  - apply read_only_heuristic_c_only.
  - apply read_only_heuristic_l_only.
  - intros h row_addr. apply read_only_tweak_row.
Qed.


(** ** Frame reasoning

    [frame_steps] proves [g (op b) = v] when [op] is built from field
    updates that [g] does not look at. *)
Ltac frame_steps :=
  repeat lazymatch goal with
    | H : ?g ?b = ?v |- ?g ?b = ?v => exact H
    | |- ?g ?a = ?g ?a => reflexivity
    | |- ?g (bump _ _ _ _) = _ => unfold bump
    | |- ?g (upd ?fd ?f ?b) = ?v => change (g b = v)
    | |- ?g (add_to ?fd ?k ?b) = ?v => change (g b = v)
    | |- ?g (upd_single ?f ?s ?b) = ?v => change (g b = v)
    | |- ?g (upd_interaction ?f ?i ?b) = ?v => change (g b = v)
    | |- ?g (upd_T ?f ?k ?b) = ?v => change (g b = v)
    | |- ?g (for_each ?f ?l ?b) = ?v =>
      apply (for_each_inv (λ x, g x = v)); [intros ? ? _ ?; cbv beta|cbv beta]
    | |- ?g (if decide ?P then _ else _) = _ => destruct (decide P)
    | |- ?g (let _ := _ in _) = _ => cbv zeta
    | |- _ = _ => solve [reflexivity | match goal with H : _ |- _ => exact H end]
    end.

(** the same through a loop that may fail *)
Ltac frame_loop H :=
  lazymatch type of H with
  | foldM _ _ ?a = Ok ?a' =>
    lazymatch goal with
    | |- ?g a' = ?v =>
      revert H; apply (foldM_inv (λ x, g x = v)); [intros ? ? ? _ ? H; cbv beta in *|cbv beta]
    end
  end.

(** *** The constructors keep [config] *)

Lemma new_T_config this temp a X a' :
  new_T this temp a = Ok (X, a') → config a' = config a.
Proof.
  unfold new_T. intros H. destruct temp as [|i0 rest]; inv_Ok H.
  change a' with ((a', l).1). revert Hx1.
  apply (foldM_inv (λ st, config st.1 = config a)); [|done].
  intros i [b ss] [b' ss'] _ Hb Hi. cbn [fst] in *. inv_Ok Hi. frame_steps.
Qed.

Lemma build_t_way_interactions_config t_cur start ss a a' :
  build_t_way_interactions t_cur start ss a = Ok a' → config a' = config a.
Proof.
  revert start ss a a'. induction t_cur as [|t' IH]; intros start ss a a' H; simpl in H.
  - inv_Ok H. frame_steps.
  - frame_loop H; [|done]. inv_Ok H. frame_loop H; [|done].
    apply IH in H. congruence.
Qed.

Lemma build_size_d_sets_config d_cur start so_far a a' :
  build_size_d_sets d_cur start so_far a = Ok a' → config a' = config a.
Proof.
  revert start so_far a a'.
  induction d_cur as [|d' IH]; intros start so_far a a' H; simpl in H.
  - inv_Ok H. apply new_T_config in Hx. frame_steps.
  - frame_loop H; [|done]. inv_Ok H. apply IH in H. congruence.
Qed.

Lemma build_factors_config level_of a a' :
  build_factors level_of a = Ok a' → config a' = config a.
Proof. unfold build_factors. intros H. frame_loop H; [|done]. inv_Ok H. frame_steps. Qed.




(** ** The clone has no [dont_cares] and no [permutation] *)










Lemma reverse_seq_S (start n : nat) :
  reverse (seq start (S n)) = (start + n)%nat :: reverse (seq start n).
Proof. by rewrite seq_S, reverse_app. Qed.



(** ** Agreement through views *)

Section agree.
Context {XS XI XT XA : Type}.
Context (vs : Single → XS) (vi : Interaction → XI) (vt : T → XT) (va : Array → XA).

#[export] Instance agree_equiv : Equivalence (agree vs vi vt va).
Proof.
  split.
  - by intros a.
  - intros a b (H1 & H2 & H3 & H4). by split_and!.
  - intros a b c (H1 & H2 & H3 & H4) (H1' & H2' & H3' & H4').
    split_and!; intros; etrans; eauto.
Qed.

(** a step that leaves the three arenas alone *)
Lemma agree_same a b b' :
  va b' = va b → factors b' = factors b → interactions b' = interactions b →
  sets b' = sets b →
  agree vs vi vt va a b → agree vs vi vt va a b'.
Proof.
  intros E0 E1 E2 E3 (H1 & H2 & H3 & H4). split_and!.
  - congruence.
  - intros s. rewrite <- H2. unfold get_single. by rewrite E1.
  - intros i. by rewrite E2.
  - intros k. by rewrite E3.
Qed.

(** what agreement says about one object *)
Lemma agree_single a b s S' :
  agree vs vi vt va a b → get_single b s = Some S' →
  ∃ S, get_single a s = Some S ∧ vs S' = vs S.
Proof.
  intros (_ & H & _) HS. specialize (H s). rewrite HS in H.
  destruct (get_single a s) as [S|]; [|done]. exists S. naive_solver.
Qed.

Lemma agree_interaction a b i I' :
  agree vs vi vt va a b → interactions b !! i = Some I' →
  ∃ I, interactions a !! i = Some I ∧ vi I' = vi I.
Proof.
  intros (_ & _ & H & _) HI. specialize (H i). rewrite HI in H.
  destruct (interactions a !! i) as [I|]; [|done]. exists I. naive_solver.
Qed.

Lemma agree_T a b k X' :
  agree vs vi vt va a b → sets b !! k = Some X' →
  ∃ X, sets a !! k = Some X ∧ vt X' = vt X.
Proof.
  intros (_ & _ & _ & H) HX. specialize (H k). rewrite HX in H.
  destruct (sets a !! k) as [X|]; [|done]. exists X. naive_solver.
Qed.

Lemma agree_upd_single f s a b :
  (∀ c, va (upd_single f s c) = va c) → (∀ S, vs (f S) = vs S) →
  agree vs vi vt va a b → agree vs vi vt va a (upd_single f s b).
Proof.
  intros Ea Ef (H1 & H2 & H3 & H4). split_and!; [by rewrite Ea| |done..].
  intros s'. rewrite get_single_upd_single. case_decide; [|done].
  rewrite <- H2. destruct (get_single b s'); simpl; [|done]. by rewrite Ef.
Qed.

Lemma agree_upd_interaction f i a b :
  (∀ c, va (upd_interaction f i c) = va c) → (∀ I, vi (f I) = vi I) →
  agree vs vi vt va a b → agree vs vi vt va a (upd_interaction f i b).
Proof.
  intros Ea Ef (H1 & H2 & H3 & H4). split_and!; [by rewrite Ea|done| |done].
  intros j. pose proof (get_interaction_upd_interaction f i j b) as E.
  unfold get_interaction in E. rewrite E. case_decide; [|done].
  rewrite <- H3. destruct (interactions b !! j); simpl; [|done]. by rewrite Ef.
Qed.

Lemma agree_upd_T f k a b :
  (∀ c, va (upd_T f k c) = va c) → (∀ X, vt (f X) = vt X) →
  agree vs vi vt va a b → agree vs vi vt va a (upd_T f k b).
Proof.
  intros Ea Ef (H1 & H2 & H3 & H4). split_and!; [by rewrite Ea|done|done|].
  intros j. pose proof (get_T_upd_T f k j b) as E.
  unfold get_T in E. rewrite E. case_decide; [|done].
  rewrite <- H4. destruct (sets b !! j); simpl; [|done]. by rewrite Ef.
Qed.
End agree.

(** closes [agree vs vi vt va a (step ... b)] for straight-line steps, when
    the views are concrete *)
Ltac agree_steps :=
  repeat lazymatch goal with
    | |- agree _ _ _ _ ?a ?a => reflexivity
    | H : agree ?vs ?vi ?vt ?va ?a ?b |- agree ?vs ?vi ?vt ?va ?a ?b => exact H
    | |- agree _ _ _ _ _ (bump _ _ _ _) => unfold bump
    | |- agree ?vs ?vi ?vt ?va ?a (upd_single ?f ?s ?b) =>
      apply (agree_upd_single vs vi vt va f s a b); [reflexivity|by intros []|]
    | |- agree ?vs ?vi ?vt ?va ?a (upd_interaction ?f ?i ?b) =>
      apply (agree_upd_interaction vs vi vt va f i a b); [reflexivity|by intros []|]
    | |- agree ?vs ?vi ?vt ?va ?a (upd_T ?f ?k ?b) =>
      apply (agree_upd_T vs vi vt va f k a b); [reflexivity|by intros []|]
    | |- agree ?vs ?vi ?vt ?va ?a (add_to _ _ ?b) =>
      apply (agree_same vs vi vt va a b); [reflexivity..|]
    | |- agree ?vs ?vi ?vt ?va ?a (upd _ _ ?b) =>
      apply (agree_same vs vi vt va a b); [reflexivity..|]
    | |- agree ?vs ?vi ?vt ?va ?a (for_each _ _ _) =>
      apply (for_each_inv (agree vs vi vt va a)); [intros ? ? _ ?; cbv beta|]
    | |- agree _ _ _ _ _ (if decide ?P then _ else _) => destruct (decide P)
    | |- agree _ _ _ _ _ (let _ := _ in _) => cbv zeta
    end.

Ltac agree_loop H :=
  lazymatch type of H with
  | foldM _ _ ?a0 = Ok ?a' =>
    lazymatch goal with
    | |- agree ?vs ?vi ?vt ?va ?a a' =>
      revert H; apply (foldM_inv (agree vs vi vt va a));
        [intros ? ? ? _ ? H; cbv beta in *|]
    end
  end.

(** *** The coverage and location updates keep the skeleton and the
    detection state *)

Lemma coverage_update_detection i a0 a a' :
  coverage_update i a = Ok a' → same_detection a0 a → same_detection a0 a'.
Proof.
  unfold coverage_update, same_detection. intros H H0. inv_Ok H.
  destruct (is_covered x); inv_Ok H; [done|]. agree_steps.
Qed.

Lemma location_first_detection rs t1 a0 a a' :
  location_first rs t1 a = Ok a' → same_detection a0 a → same_detection a0 a'.
Proof.
  unfold location_first, same_detection. intros H H0. inv_Ok H.
  agree_loop H; [|agree_steps].
  inv_Ok H. destruct (decide _); inv_Ok H; agree_steps.
Qed.

Lemma location_solved_detection rs t1 a0 a a' :
  location_solved rs t1 a = Ok a' → same_detection a0 a → same_detection a0 a'.
Proof.
  unfold location_solved, same_detection. intros H H0. inv_Ok H.
  assert (agree skel_s det_i skel_t skel_a a0 a1); [|agree_steps].
  change a1 with ((a1, g, z).1.1). revert Hx0.
  apply (foldM_inv (λ st, same_detection a0 st.1.1)); [|done].
  intros k [[c tmp] sv] [[c' tmp'] sv'] _ Hc Hk. cbn [fst snd] in *.
  unfold same_detection in *.
  destruct (decide (k ∈ rs)); inv_Ok Hk; [done|].
  destruct (decide (t1 ∈ _)); inv_Ok Hk.
  destruct (decide (size _ = 0%nat)); inv_Ok Hk; [|agree_steps].
  destruct (decide (_ = 0)); inv_Ok Hk. agree_steps.
Qed.

Lemma location_update_detection rs t1 a0 a a' :
  location_update rs t1 a = Ok a' → same_detection a0 a → same_detection a0 a'.
Proof.
  unfold location_update. intros H H0. inv_Ok H.
  destruct (is_locatable x); inv_Ok H; [done|].
  assert (same_detection a0 x0) as H1.
  { destruct (decide (size (t_rows x) = 1%nat));
      [by eapply location_first_detection|by eapply location_solved_detection]. }
  unfold same_detection in *.
  destruct (decide (size (location_conflicts x1) = 0%nat)); inv_Ok H; agree_steps.
Qed.

(** *** The counting phases keep the skeleton *)

Lemma same_detection_skeleton a b : same_detection a b → same_skeleton a b.
Proof.
  intros (H1 & H2 & H3 & H4). split_and!; [done|done| |done].
  intros i. specialize (H3 i).
  destruct (interactions b !! i), (interactions a !! i); simpl in *;
    unfold det_i, skel_i in *; congruence.
Qed.

Lemma coverage_update_skeleton i a0 a a' :
  coverage_update i a = Ok a' → same_skeleton a0 a → same_skeleton a0 a'.
Proof.
  intros H H0. etrans; [exact H0|]. apply same_detection_skeleton.
  by apply (coverage_update_detection i a a a').
Qed.

Lemma location_update_skeleton rs t1 a0 a a' :
  location_update rs t1 a = Ok a' → same_skeleton a0 a → same_skeleton a0 a'.
Proof.
  intros H H0. etrans; [exact H0|]. apply same_detection_skeleton.
  by apply (location_update_detection rs t1 a a a').
Qed.

Lemma detection_update_skeleton rs i a0 a a' :
  detection_update rs i a = Ok a' → same_skeleton a0 a → same_skeleton a0 a'.
Proof.
  unfold detection_update, same_skeleton. intros H H0. inv_Ok H.
  destruct (is_detectable x); inv_Ok H; [done|].
  assert (agree skel_s skel_i skel_t skel_a a0 x0) as H1.
  { agree_loop Hx0; [|agree_steps]. inv_Ok Hx0. agree_steps. }
  destruct (is_detectable x2); inv_Ok H; agree_steps.
Qed.

Lemma counting_phases_skeleton ri rs a a' :
  counting_phases ri rs a = Ok a' → same_skeleton a a'.
Proof.
  unfold counting_phases. intros H. inv_Ok H.
  assert (same_skeleton a x) as H1.
  { revert Hx. apply (foldM_inv (same_skeleton a)); [|done].
    intros i c c' _ Hc Hi. apply bind_Ok in Hi as (c1 & Hc1 & Hi).
    eapply coverage_update_skeleton in Hc1; [|done].
    destruct (decide (p c1 = all)); [by eapply detection_update_skeleton|by inv_Ok Hi]. }
  destruct (decide (p x ≠ c_only ∧ is_locating x = false)); inv_Ok H; [|done].
  revert H. apply (foldM_inv (same_skeleton a)); [|done].
  intros k c c' _ Hc Hk. by eapply location_update_skeleton.
Qed.

Lemma update_array_body_unfold row ri a :
  update_array_body row ri a =
    (let a0 := upd F_num_tests S (upd F_rows (λ l, l ++ [row]) a) in
     '(a1, row_sets) ← foldM (insert_row (num_tests a0)) (iter ri) (a0, ∅);
     a2 ← counting_phases ri row_sets a1;
     Ok (a2, row_sets)).
Proof.
  unfold update_array_body, counting_phases. cbv zeta.
  destruct (foldM _ _ _) as [[a1 rs]|]; [|done]. simpl.
  destruct (foldM _ _ a1) as [a2|]; [|done]. simpl.
  by destruct (decide _).
Qed.


(** ** Inserting and erasing a row index *)

Lemma elem_of_row_op ins n r x :
  x ∈ row_op ins n r ↔ member_after ins (x ∈ r) (x = n ∧ True).
Proof. destruct ins; simpl; set_solver. Qed.

Section rows_changed.
Context (ins : bool) (n : nat).

Lemma member_after_iff P P' Q Q' :
  (P ↔ P') → (Q ↔ Q') → member_after ins P Q ↔ member_after ins P' Q'.
Proof. destruct ins; simpl; tauto. Qed.

Lemma member_after_False P x : member_after ins P (x = n ∧ False) ↔ P.
Proof. destruct ins; simpl; tauto. Qed.

Lemma member_after_twice P x Q Q' :
  member_after ins (member_after ins P (x = n ∧ Q)) (x = n ∧ Q')
  ↔ member_after ins P (x = n ∧ (Q ∨ Q')).
Proof. destruct ins; simpl; tauto. Qed.

Lemma rows_changed_refl a :
  rows_changed ins n (λ _, False) (λ _, False) (λ _, False) a a.
Proof.
  split_and!; intros j J HJ; exists J; (split; [done|]);
    intros x; by rewrite member_after_False.
Qed.

Lemma rows_changed_trans TS TI TT TS' TI' TT' a b c :
  rows_changed ins n TS TI TT a b → rows_changed ins n TS' TI' TT' b c →
  rows_changed ins n (λ s, TS s ∨ TS' s) (λ i, TI i ∨ TI' i) (λ k, TT k ∨ TT' k) a c.
Proof.
  intros (H1 & H2 & H3) (H1' & H2' & H3'). split_and!.
  - intros s S2 HS2. destruct (H1' s S2 HS2) as (S1 & HS1 & E1).
    destruct (H1 s S1 HS1) as (S0 & HS0 & E0). exists S0. split; [done|].
    intros x. rewrite E1, <- member_after_twice. by apply member_after_iff.
  - intros s S2 HS2. destruct (H2' s S2 HS2) as (S1 & HS1 & E1).
    destruct (H2 s S1 HS1) as (S0 & HS0 & E0). exists S0. split; [done|].
    intros x. rewrite E1, <- member_after_twice. by apply member_after_iff.
  - intros s S2 HS2. destruct (H3' s S2 HS2) as (S1 & HS1 & E1).
    destruct (H3 s S1 HS1) as (S0 & HS0 & E0). exists S0. split; [done|].
    intros x. rewrite E1, <- member_after_twice. by apply member_after_iff.
Qed.

Lemma rows_changed_iff TS TI TT TS' TI' TT' a b :
  (∀ s, TS s ↔ TS' s) → (∀ i, TI i ↔ TI' i) → (∀ k, TT k ↔ TT' k) →
  rows_changed ins n TS TI TT a b → rows_changed ins n TS' TI' TT' a b.
Proof.
  intros E1 E2 E3 (H1 & H2 & H3). split_and!.
  - intros s S1 HS1. destruct (H1 s S1 HS1) as (S0 & HS0 & E0). exists S0.
    split; [done|]. intros x. rewrite E0. apply member_after_iff; [done|].
    by rewrite E1.
  - intros s S1 HS1. destruct (H2 s S1 HS1) as (S0 & HS0 & E0). exists S0.
    split; [done|]. intros x. rewrite E0. apply member_after_iff; [done|].
    by rewrite E2.
  - intros s S1 HS1. destruct (H3 s S1 HS1) as (S0 & HS0 & E0). exists S0.
    split; [done|]. intros x. rewrite E0. apply member_after_iff; [done|].
    by rewrite E3.
Qed.

(** the three elementary steps *)
Lemma rows_changed_single s a :
  rows_changed ins n (λ s', s' = s) (λ _, False) (λ _, False)
    a (upd_single (s_set_rows (row_op ins n)) s a).
Proof.
  split_and!.
  - intros s' S1. rewrite get_single_upd_single. case_decide as Hs.
    + subst s'. destruct (get_single a s) as [S0|]; [|done].
      intros [= <-]. exists S0. split; [done|]. intros x. cbn [s_rows s_set_rows].
      rewrite elem_of_row_op. apply member_after_iff; [done|]. tauto.
    + intros HS1. exists S1. split; [done|]. intros x.
      rewrite <- (member_after_False (x ∈ s_rows S1) x) at 1.
      apply member_after_iff; [done|]. naive_solver.
  - intros j J HJ. exists J. split; [done|]. intros x. by rewrite member_after_False.
  - intros j J HJ. exists J. split; [done|]. intros x. by rewrite member_after_False.
Qed.

Lemma rows_changed_interaction i a :
  rows_changed ins n (λ _, False) (λ i', i' = i) (λ _, False)
    a (upd_interaction (i_set_rows (row_op ins n)) i a).
Proof.
  split_and!.
  - intros j J HJ. exists J. split; [done|]. intros x. by rewrite member_after_False.
  - intros j I1. pose proof (get_interaction_upd_interaction
      (i_set_rows (row_op ins n)) i j a) as E. unfold get_interaction in E.
    rewrite E. case_decide as Hs.
    + subst j. destruct (interactions a !! i) as [I0|]; [|done].
      intros [= <-]. exists I0. split; [done|]. intros x. cbn [i_rows i_set_rows].
      rewrite elem_of_row_op. apply member_after_iff; [done|]. tauto.
    + intros HI1. exists I1. split; [done|]. intros x.
      rewrite <- (member_after_False (x ∈ i_rows I1) x) at 1.
      apply member_after_iff; [done|]. naive_solver.
  - intros j J HJ. exists J. split; [done|]. intros x. by rewrite member_after_False.
Qed.

Lemma rows_changed_T k a :
  rows_changed ins n (λ _, False) (λ _, False) (λ k', k' = k)
    a (upd_T (t_set_rows (row_op ins n)) k a).
Proof.
  split_and!.
  - intros j J HJ. exists J. split; [done|]. intros x. by rewrite member_after_False.
  - intros j J HJ. exists J. split; [done|]. intros x. by rewrite member_after_False.
  - intros j X1. pose proof (get_T_upd_T (t_set_rows (row_op ins n)) k j a) as E.
    unfold get_T in E. rewrite E. case_decide as Hs.
    + subst j. destruct (sets a !! k) as [X0|]; [|done].
      intros [= <-]. exists X0. split; [done|]. intros x. cbn [t_rows t_set_rows].
      rewrite elem_of_row_op. apply member_after_iff; [done|]. tauto.
    + intros HX1. exists X1. split; [done|]. intros x.
      rewrite <- (member_after_False (x ∈ t_rows X1) x) at 1.
      apply member_after_iff; [done|]. naive_solver.
Qed.

(** the loops over the Singles and the T sets of one Interaction *)
Lemma rows_changed_singles ss a :
  rows_changed ins n (λ s, s ∈ ss) (λ _, False) (λ _, False)
    a (for_each (upd_single (s_set_rows (row_op ins n))) ss a).
Proof.
  apply (for_each_prefix (λ l c,
    rows_changed ins n (λ s, s ∈ l) (λ _, False) (λ _, False) a c)).
  - intros l s c Hc.
    eapply rows_changed_iff; [| | |eapply rows_changed_trans;
      [exact Hc|apply rows_changed_single]]; cbv beta; intros.
    + rewrite elem_of_app, list_elem_of_singleton. done.
    + tauto.
    + tauto.
  - eapply rows_changed_iff; [| | |apply rows_changed_refl]; cbv beta; intros;
      rewrite ?elem_of_nil; done.
Qed.

Lemma rows_changed_Ts ks a :
  rows_changed ins n (λ _, False) (λ _, False) (λ k, k ∈ ks)
    a (for_each (upd_T (t_set_rows (row_op ins n))) ks a).
Proof.
  apply (for_each_prefix (λ l c,
    rows_changed ins n (λ _, False) (λ _, False) (λ k, k ∈ l) a c)).
  - intros l s c Hc.
    eapply rows_changed_iff; [| | |eapply rows_changed_trans;
      [exact Hc|apply rows_changed_T]]; cbv beta; intros.
    + tauto.
    + tauto.
    + rewrite elem_of_app, list_elem_of_singleton. done.
  - eapply rows_changed_iff; [| | |apply rows_changed_refl]; cbv beta; intros;
      rewrite ?elem_of_nil; done.
Qed.
End rows_changed.

(** *** Steps on row sets keep the books *)

Lemma books_singles ins n ss a0 a :
  same_books a0 a → same_books a0 (for_each (upd_single (s_set_rows (row_op ins n))) ss a).
Proof. unfold same_books. intros H. agree_steps. Qed.

Lemma books_Ts ins n ks a0 a :
  same_books a0 a → same_books a0 (for_each (upd_T (t_set_rows (row_op ins n))) ks a).
Proof. unfold same_books. intros H. agree_steps. Qed.

Lemma books_interaction ins n i a0 a :
  same_books a0 a → same_books a0 (upd_interaction (i_set_rows (row_op ins n)) i a).
Proof. unfold same_books. intros H. agree_steps. Qed.

(** *** The first loop of [update_array] *)

Lemma insert_row_spec n i a q a' q' :
  insert_row n i (a, q) = Ok (a', q') →
  ∃ I, interactions a !! i = Some I ∧ q' = i_sets I ∪ q ∧ same_books a a'
    ∧ rows_changed true n (λ s, s ∈ i_singles I) (λ j, j = i) (λ k, k ∈ i_sets I) a a'.
Proof.
  unfold insert_row. intros H. inv_Ok H. rename x into I. exists I.
  split_and!; [done..| |].
  - apply (books_Ts true), (books_interaction true), (books_singles true). reflexivity.
  - eapply rows_changed_iff; [| | |
      eapply rows_changed_trans; [eapply rows_changed_trans|];
      [apply (rows_changed_singles true n (i_singles I))
      |apply (rows_changed_interaction true n i)
      |apply (rows_changed_Ts true n (iter (i_sets I)))]]; cbv beta; intros.
    + tauto.
    + tauto.
    + rewrite elem_of_iter. tauto.
Qed.

Lemma insert_phase_spec n ri a0 a1 rs :
  foldM (insert_row n) (iter ri) (a0, ∅) = Ok (a1, rs) →
  same_books a0 a1
  ∧ (∀ i, i ∈ ri → is_Some (interactions a0 !! i))
  ∧ (∀ k, k ∈ rs ↔ touched_sets a0 (λ i, i ∈ ri) k)
  ∧ rows_changed true n (touched_singles a0 (λ i, i ∈ ri)) (λ i, i ∈ ri) (λ k, k ∈ rs)
      a0 a1.
Proof.
  intros H.
  cut (same_books a0 a1
    ∧ (∀ i, i ∈ iter ri → is_Some (interactions a0 !! i))
    ∧ (∀ k, k ∈ rs ↔ touched_sets a0 (λ i, i ∈ iter ri) k)
    ∧ rows_changed true n (touched_singles a0 (λ i, i ∈ iter ri)) (λ i, i ∈ iter ri)
        (λ k, k ∈ rs) a0 a1).
  { intros (H1 & H2 & H3 & H4). split_and!; [done| | |].
    - intros i Hi. apply H2. by apply elem_of_iter.
    - intros k. rewrite H3. unfold touched_sets. by setoid_rewrite elem_of_iter.
    - eapply rows_changed_iff; [| | |exact H4]; cbv beta; intros.
      + unfold touched_singles. by setoid_rewrite elem_of_iter.
      + apply elem_of_iter.
      + done. }
  revert H.
  apply (foldM_prefix (λ l st,
    same_books a0 st.1
    ∧ (∀ i, i ∈ l → is_Some (interactions a0 !! i))
    ∧ (∀ k, k ∈ st.2 ↔ touched_sets a0 (λ i, i ∈ l) k)
    ∧ rows_changed true n (touched_singles a0 (λ i, i ∈ l)) (λ i, i ∈ l)
        (λ k, k ∈ st.2) a0 st.1) _ (iter ri) (a0, ∅) (a1, rs)).
  - intros l i [c q] [c' q'] (Hb & Hl & Hq & Hr) Hi. cbn [fst snd] in *.
    apply insert_row_spec in Hi as (I & HI & -> & Hb' & Hr').
    destruct (agree_interaction _ _ _ _ _ _ _ _ Hb HI) as (I0 & HI0 & EI).
    injection EI as ES _ _ ET _.
    assert (∀ s, touched_singles a0 (λ j, j ∈ l ++ [i]) s
              ↔ touched_singles a0 (λ j, j ∈ l) s ∨ s ∈ i_singles I) as ETS.
    { intros s. unfold touched_singles. setoid_rewrite elem_of_app.
      setoid_rewrite list_elem_of_singleton. split.
      - intros (j & J & [Hj| ->] & HJ & Hs); [by eauto 10|].
        right. rewrite HI0 in HJ. injection HJ as <-. by rewrite ES.
      - intros [(j & J & Hj & HJ & Hs)|Hs]; [by eauto 10|].
        exists i, I0. rewrite <- ES. by eauto. }
    assert (∀ k, touched_sets a0 (λ j, j ∈ l ++ [i]) k
              ↔ touched_sets a0 (λ j, j ∈ l) k ∨ k ∈ i_sets I) as ETT.
    { intros s. unfold touched_sets. setoid_rewrite elem_of_app.
      setoid_rewrite list_elem_of_singleton. split.
      - intros (j & J & [Hj| ->] & HJ & Hs); [by eauto 10|].
        right. rewrite HI0 in HJ. injection HJ as <-. by rewrite ET.
      - intros [(j & J & Hj & HJ & Hs)|Hs]; [by eauto 10|].
        exists i, I0. rewrite <- ET. by eauto. }
    split_and!.
    + by etrans.
    + intros j [Hj| ->%list_elem_of_singleton]%elem_of_app; [by apply Hl|by eexists].
    + intros k. rewrite ETT, elem_of_union, Hq. tauto.
    + eapply rows_changed_iff; [| | |eapply rows_changed_trans; [exact Hr|exact Hr']];
        cbv beta; intros.
      * by rewrite ETS.
      * by rewrite elem_of_app, list_elem_of_singleton.
      * rewrite elem_of_union. tauto.
  - cbn [fst snd]. split_and!.
    + reflexivity.
    + by intros i ?%elem_of_nil.
    + intros k. split; [by intros ?%elem_of_empty|].
      by intros (i & I & ?%elem_of_nil & _).
    + eapply rows_changed_iff; [| | |apply rows_changed_refl]; cbv beta; intros.
      * split; [done|]. by intros (i & I & ?%elem_of_nil & _).
      * by rewrite elem_of_nil.
      * by rewrite elem_of_empty.
Qed.

(** *** The roll-back *)

Lemma roll_back_spec ri rs b a' :
  roll_back ri rs b = Ok a' →
  same_books b a'
  ∧ num_tests a' = Nat.pred (num_tests b) ∧ rows a' = removelast (rows b)
  ∧ rows_changed false (num_tests b) (touched_singles b (λ i, i ∈ ri)) (λ i, i ∈ ri)
      (λ k, k ∈ rs) b a'.
Proof.
  unfold roll_back. intros H. inv_Ok H. rename x into c.
  assert (same_books b c
    ∧ rows_changed false (num_tests b) (touched_singles b (λ i, i ∈ iter ri))
        (λ i, i ∈ iter ri) (λ _, False) b c) as (Hb & Hr).
  { revert Hx.
    apply (foldM_prefix (λ l c,
      same_books b c
      ∧ rows_changed false (num_tests b) (touched_singles b (λ i, i ∈ l))
          (λ i, i ∈ l) (λ _, False) b c)).
    - intros l i c1 c2 (Hb & Hr) Hi. inv_Ok Hi. rename x into I.
      destruct (agree_interaction _ _ _ _ _ _ _ _ Hb Hx) as (I0 & HI0 & EI).
      injection EI as ES _ _ ET _.
      split.
      + etrans; [done|].
        apply (books_interaction false), (books_singles false). reflexivity.
      + eapply rows_changed_iff; [| | |
          eapply rows_changed_trans; [exact Hr|eapply rows_changed_trans];
          [apply (rows_changed_singles false (num_tests b) (i_singles I))
          |apply (rows_changed_interaction false (num_tests b) i)]]; cbv beta; intros.
        * unfold touched_singles. setoid_rewrite elem_of_app.
          setoid_rewrite list_elem_of_singleton. split.
          -- intros [(j & J & Hj & HJ & Hs)|[Hs|[]]]; [by eauto 10|].
             exists i, I0. rewrite <- ES. by eauto.
          -- intros (j & J & [Hj| ->] & HJ & Hs); [by eauto 10|].
             right. left. rewrite HI0 in HJ. injection HJ as <-. by rewrite ES.
        * rewrite elem_of_app, list_elem_of_singleton. tauto.
        * tauto.
    - split; [reflexivity|].
      eapply rows_changed_iff; [| | |apply rows_changed_refl]; cbv beta; intros.
      + split; [done|]. by intros (i & I & ?%elem_of_nil & _).
      + by rewrite elem_of_nil.
      + done. }
  split_and!.
  - etrans; [done|]. unfold same_books. agree_steps.
  - cbn [num_tests upd]. f_equal.
    change (num_tests
      (for_each (upd_T (t_set_rows (row_op false (num_tests b)))) (iter rs) c)
            = num_tests b).
    transitivity (num_tests c).
    + frame_steps.
    + revert Hx. apply (foldM_inv (λ c, num_tests c = num_tests b)); [|done].
      intros i c1 c2 _ Hc Hi. inv_Ok Hi. frame_steps.
  - cbn [rows upd]. f_equal.
    change (rows (for_each (upd_T (t_set_rows (row_op false (num_tests b)))) (iter rs) c)
            = rows b).
    transitivity (rows c).
    + frame_steps.
    + revert Hx. apply (foldM_inv (λ c, rows c = rows b)); [|done].
      intros i c1 c2 _ Hc Hi. inv_Ok Hi. frame_steps.
  - eapply (rows_changed_iff false (num_tests b)); [| | |
      eapply rows_changed_trans; [exact Hr|]].
    4: { instantiate (3 := λ _, False). instantiate (2 := λ _, False).
         instantiate (1 := λ k, k ∈ iter rs).
         pose proof (rows_changed_Ts false (num_tests b) (iter rs) c) as HT.
         destruct HT as (H1 & H2 & H3). split_and!; [exact H1|exact H2|exact H3]. }
    + cbv beta. intros s. unfold touched_singles. setoid_rewrite elem_of_iter. tauto.
    + cbv beta. intros i. rewrite elem_of_iter. tauto.
    + cbv beta. intros k. rewrite elem_of_iter. tauto.
Qed.

Lemma roll_back_total ri rs b :
  (∀ i, i ∈ ri → is_Some (interactions b !! i)) → ∃ a', roll_back ri rs b = Ok a'.
Proof.
  intros Hri. unfold roll_back. cbv zeta.
  match goal with
  | |- context [foldM ?f ?l ?s] =>
    destruct (foldM_total (λ c, length (interactions c) = length (interactions b)) f l s)
      as (c & -> & _); [| |by eexists]; [|done]
  end.
  intros i c Hi%elem_of_iter Hc.
  destruct (lookup_lt_is_Some_2 (interactions c) i) as [I HI].
  { rewrite Hc. apply lookup_lt_is_Some_1. by apply Hri. }
  unfold interaction_at, get_interaction. rewrite HI. simpl. eexists. split; [done|].
  unfold upd_interaction. cbn [interactions upd]. rewrite length_alter.
  rewrite <- Hc. apply (f_equal length). frame_steps.
Qed.


(** ** Look-ahead: [update_array] with [keep = false] *)

Lemma insert_phase_rows n ri a0 a1 rs :
  foldM (insert_row n) (iter ri) (a0, ∅) = Ok (a1, rs) →
  num_tests a1 = num_tests a0 ∧ rows a1 = rows a0.
Proof.
  apply (foldM_inv (λ st, num_tests st.1 = num_tests a0 ∧ rows st.1 = rows a0)); [|done].
  intros i [c q] [c' q'] _ [H1 H2] Hi. cbn [fst] in *. unfold insert_row in Hi.
  inv_Ok Hi. split; frame_steps.
Qed.

Lemma touched_singles_agree {XS XT XA} (vs : Single → XS) (vt : T → XT)
    (va : Array → XA) a b R s :
  agree vs topo_i vt va a b → touched_singles a R s ↔ touched_singles b R s.
Proof.
  intros H. unfold touched_singles. split.
  - intros (i & I & Hi & HI & Hs).
    destruct (agree_interaction _ _ _ _ _ _ _ _ (symmetry H) HI) as (I' & HI' & [= E _]).
    exists i, I'. by rewrite <- E.
  - intros (i & I & Hi & HI & Hs).
    destruct (agree_interaction _ _ _ _ _ _ _ _ H HI) as (I' & HI' & [= E _]).
    exists i, I'. by rewrite <- E.
Qed.

(** both bookkeeping and skeleton determine the topology *)
Lemma same_books_topology a b : same_books a b → same_topology a b.
Proof.
  intros (H1 & H2 & H3 & H4). split_and!.
  - change ((book_a b).1.1.1.1.1.1.1.1 = (book_a a).1.1.1.1.1.1.1.1). by rewrite H1.
  - intros s. specialize (H2 s).
    destruct (get_single b s), (get_single a s); simpl in *;
      unfold book_s, book_i, book_t, skel_s, skel_i, skel_t, topo_s, topo_i, topo_t in *;
      congruence.
  - intros s. specialize (H3 s).
    destruct (interactions b !! s), (interactions a !! s); simpl in *;
      unfold book_s, book_i, book_t, skel_s, skel_i, skel_t, topo_s, topo_i, topo_t in *;
      congruence.
  - intros s. specialize (H4 s).
    destruct (sets b !! s), (sets a !! s); simpl in *;
      unfold book_s, book_i, book_t, skel_s, skel_i, skel_t, topo_s, topo_i, topo_t in *;
      congruence.
Qed.

Lemma same_skeleton_topology a b : same_skeleton a b → same_topology a b.
Proof.
  intros (H1 & H2 & H3 & H4). split_and!.
  - change ((skel_a b).1.1 = (skel_a a).1.1). by rewrite H1.
  - intros s. specialize (H2 s).
    destruct (get_single b s), (get_single a s); simpl in *;
      unfold book_s, book_i, book_t, skel_s, skel_i, skel_t, topo_s, topo_i, topo_t in *;
      congruence.
  - intros s. specialize (H3 s).
    destruct (interactions b !! s), (interactions a !! s); simpl in *;
      unfold book_s, book_i, book_t, skel_s, skel_i, skel_t, topo_s, topo_i, topo_t in *;
      congruence.
  - intros s. specialize (H4 s).
    destruct (sets b !! s), (sets a !! s); simpl in *;
      unfold book_s, book_i, book_t, skel_s, skel_i, skel_t, topo_s, topo_i, topo_t in *;
      congruence.
Qed.

Lemma skel_a_inv a b :
  skel_a b = skel_a a →
  directory b = directory a ∧ num_tests b = num_tests a ∧ rows b = rows a.
Proof.
  intros E. split_and!.
  - change ((skel_a b).1.1 = (skel_a a).1.1). by rewrite E.
  - change ((skel_a b).1.2 = (skel_a a).1.2). by rewrite E.
  - change ((skel_a b).2 = (skel_a a).2). by rewrite E.
Qed.

(** an index inserted and then erased leaves a set that did not have it *)
Lemma insert_erase_member (n x : nat) (P P1 Pb P' : Prop) (Q Q' : Prop) :
  (P1 ↔ member_after true P (x = n ∧ Q)) → (Pb ↔ P1) →
  (P' ↔ member_after false Pb (x = n ∧ Q')) → (Q ↔ Q') → (x = n → ¬ P) →
  P' ↔ P.
Proof. simpl. tauto. Qed.

(** C4. On an Array whose row sets mention no index past [num_tests] (as
    is the case of every Array the constructors and [update_array] produce),
    if [update_array] with [keep = true] commits a row and yields [b], then
    [update_array] on the same row with [keep = false] returns too, and
    yields an Array that has the bookkeeping of [b] (every counter of the
    Array and of the Singles, every flag, all deltas and conflict sets) and the
    skeleton of the Array before the call (the row list, [num_tests] and
    the row set of every Single, Interaction and T set). *)
Theorem lookahead_keeps_counters_restores_rows row ri a b :
  rows_bounded a →
  update_array row ri true a = Ok b →
  ∃ a', update_array row ri false a = Ok a' ∧ same_books b a' ∧ same_skeleton a a'.
Proof.
  intros (HbS & HbI & HbT) H. unfold update_array in *.
  apply bind_Ok in H as ([b' rs] & Hbody & H). apply Ok_inj in H as ->.
  rewrite Hbody. cbn [mbind result_bind].
  rewrite update_array_body_unfold in Hbody. cbv zeta in Hbody.
  set (a0 := upd F_num_tests S (upd F_rows (λ l, l ++ [row]) a)) in *.
  apply bind_Ok in Hbody as ([a1 rs'] & Hins & Hbody).
  apply bind_Ok in Hbody as (b' & Hcount & Hbody). inv_Ok Hbody.
  destruct (insert_phase_rows _ _ _ _ _ Hins) as (Hn1 & Hrows1).
  apply insert_phase_spec in Hins as (Hb01 & Hri & Hrs & Hr01).
  apply counting_phases_skeleton in Hcount. rename Hcount into Hs1b.
  pose proof (same_books_topology _ _ Hb01) as Ht01.
  pose proof (same_skeleton_topology _ _ Hs1b) as Ht1b.
  assert (same_topology a0 b) as Ht0b by (by etrans).
  destruct (roll_back_total ri rs b) as [a' Ha'].
  { intros i Hi. destruct (Hri i Hi) as [I0 HI0].
    destruct (agree_interaction _ _ _ _ _ _ _ _ (symmetry Ht0b) HI0) as (I & HI & _).
    by eexists. }
  exists a'. split; [done|].
  apply roll_back_spec in Ha' as (Hbb' & Hn' & Hrows' & Hrb').
  split; [done|].
  pose proof (same_books_topology _ _ Hbb') as Htb'.
  assert (num_tests b = S (num_tests a)) as Hnb.
  { destruct Hs1b as (E & _). apply skel_a_inv in E as (_ & E & _). by rewrite E, Hn1. }
  assert (rows b = rows a ++ [row]) as Hrowsb.
  { destruct Hs1b as (E & _). apply skel_a_inv in E as (_ & _ & E).
    by rewrite E, Hrows1. }
  rewrite Hnb in Hrb'. change (num_tests a0) with (S (num_tests a)) in *.
  assert (∀ s, touched_singles b (λ i, i ∈ ri) s ↔ touched_singles a0 (λ i, i ∈ ri) s)
    as ETS.
  { intros s. symmetry. by eapply touched_singles_agree. }
  split_and!.
  - destruct Htb' as (E1 & _), Ht0b as (E2 & _). unfold skel_a.
    by rewrite E1, E2, Hn', Hnb, Hrows', Hrowsb, removelast_last.
  - intros s. destruct (get_single a' s) as [S'|] eqn:HS'.
    + destruct Hrb' as (Hrb' & _). destruct (Hrb' s S' HS') as (Sb & HSb & Eb).
      destruct (agree_single _ _ _ _ _ _ _ _ Hs1b HSb) as (S1 & HS1 & E1).
      destruct Hr01 as (Hr01 & _). destruct (Hr01 s S1 HS1) as (S0 & HS0 & E0).
      destruct (agree_single _ _ _ _ _ _ _ _ Htb' HS') as (Sb' & HSb' & Et').
      destruct (agree_single _ _ _ _ _ _ _ _ Ht0b HSb) as (S0' & HS0' & Et0).
      change (get_single a0 s) with (get_single a s) in *.
      rewrite HS0. simpl. f_equal.
      assert (Sb' = Sb) as -> by congruence. assert (S0' = S0) as -> by congruence.
      injection E1 as _ _ E1. injection Et' as Ef' Ev'. injection Et0 as Ef0 Ev0.
      unfold skel_s. f_equal; [f_equal; congruence|].
      apply set_eq. intros x.
      eapply insert_erase_member; [apply E0| |apply Eb|symmetry; apply ETS|].
      * by rewrite E1.
      * intros -> Hx. apply (HbS s S0 HS0) in Hx. lia.
    + destruct Htb' as (_ & E1 & _), Ht0b as (_ & E2 & _).
      specialize (E1 s). specialize (E2 s). rewrite HS' in E1.
      change (get_single a0 s) with (get_single a s) in *.
      destruct (get_single b s); [done|]. by destruct (get_single a s).
  - intros i. destruct (interactions a' !! i) as [I'|] eqn:HI'.
    + destruct Hrb' as (_ & Hrb' & _). destruct (Hrb' i I' HI') as (Ib & HIb & Eb).
      destruct (agree_interaction _ _ _ _ _ _ _ _ Hs1b HIb) as (I1 & HI1 & E1).
      destruct Hr01 as (_ & Hr01 & _). destruct (Hr01 i I1 HI1) as (I0 & HI0 & E0).
      destruct (agree_interaction _ _ _ _ _ _ _ _ Htb' HI') as (Ib' & HIb' & Et').
      destruct (agree_interaction _ _ _ _ _ _ _ _ Ht0b HIb) as (I0' & HI0' & Et0).
      change (interactions a0) with (interactions a) in *.
      rewrite HI0. simpl. f_equal.
      assert (Ib' = Ib) as -> by congruence. assert (I0' = I0) as -> by congruence.
      injection E1 as _ E1 _. injection Et' as Ef' Ev'. injection Et0 as Ef0 Ev0.
      unfold skel_i. f_equal; [f_equal; [congruence|]|congruence].
      apply set_eq. intros x.
      eapply insert_erase_member; [apply E0| |apply Eb|done|].
      * by rewrite E1.
      * intros -> Hx. apply (HbI i I0 HI0) in Hx. lia.
    + destruct Htb' as (_ & _ & E1 & _), Ht0b as (_ & _ & E2 & _).
      specialize (E1 i). specialize (E2 i). rewrite HI' in E1.
      change (interactions a0) with (interactions a) in *.
      destruct (interactions b !! i); [done|]. by destruct (interactions a !! i).
  - intros k. destruct (sets a' !! k) as [X'|] eqn:HX'.
    + destruct Hrb' as (_ & _ & Hrb'). destruct (Hrb' k X' HX') as (Xb & HXb & Eb).
      destruct (agree_T _ _ _ _ _ _ _ _ Hs1b HXb) as (X1 & HX1 & E1).
      destruct Hr01 as (_ & _ & Hr01). destruct (Hr01 k X1 HX1) as (X0 & HX0 & E0).
      destruct (agree_T _ _ _ _ _ _ _ _ Htb' HX') as (Xb' & HXb' & Et').
      destruct (agree_T _ _ _ _ _ _ _ _ Ht0b HXb) as (X0' & HX0' & Et0).
      change (sets a0) with (sets a) in *.
      rewrite HX0. simpl. f_equal.
      assert (Xb' = Xb) as -> by congruence. assert (X0' = X0) as -> by congruence.
      injection E1 as _ _ E1. injection Et' as Ef' Ev'. injection Et0 as Ef0 Ev0.
      unfold skel_t. f_equal; [f_equal; congruence|].
      apply set_eq. intros x.
      eapply insert_erase_member; [apply E0| |apply Eb|done|].
      * by rewrite E1.
      * intros -> Hx. apply (HbT k X0 HX0) in Hx. lia.
    + destruct Htb' as (_ & _ & _ & E1), Ht0b as (_ & _ & _ & E2).
      specialize (E1 k). specialize (E2 k). rewrite HX' in E1.
      change (sets a0) with (sets a) in *.
      destruct (sets b !! k); [done|]. by destruct (sets a !! k).
Qed.


(** ** The enumerations *)

Lemma incr_from_length start n cs : incr_from start n cs → (start + length cs ≤ n)%nat ∨ cs = [].
Proof.
  revert start. induction cs as [|c cs IH]; intros start; simpl; [by right|].
  intros [Hc H]. left. destruct (IH _ H) as [?| ->]; simpl; lia.
Qed.

Lemma incr_from_weaken start start' n cs :
  (start' ≤ start)%nat → incr_from start n cs → incr_from start' n cs.
Proof. destruct cs; simpl; [done|]. intros ? [? ?]. split; [lia|done]. Qed.

Lemma incr_from_bound start n cs c : incr_from start n cs → c ∈ cs → (start ≤ c < n)%nat.
Proof.
  revert start. induction cs as [|c' cs IH]; intros start; simpl; [by intros _ ?%elem_of_nil|].
  intros [Hc H] [->|Hin]%elem_of_cons; [done|]. apply IH in H; [lia|done].
Qed.

Lemma incr_from_seq lo k n : (lo + k ≤ n)%nat → incr_from lo n (seq lo k).
Proof.
  revert lo. induction k as [|k IH]; intros lo Hk; simpl; [done|].
  split; [lia|]. replace (lo + 1)%nat with (S lo) by lia. apply IH. lia.
Qed.

Lemma elem_of_range start bound c : c ∈ range start bound ↔ (start ≤ c < bound)%nat.
Proof. unfold range. rewrite elem_of_seq. lia. Qed.

Lemma NoDup_range start bound : NoDup (range start bound).
Proof. apply NoDup_seq. Qed.

Lemma elem_of_row_keys row n t_cur start key K :
  K ∈ row_keys row n t_cur start key ↔
  ∃ cs, incr_from start n cs ∧ length cs = t_cur
    ∧ K = key ++ ((λ c, (c, default 0%nat (row !! c))) <$> cs).
Proof.
  revert start key. induction t_cur as [|t' IH]; intros start key; simpl.
  - rewrite list_elem_of_singleton. split.
    + intros ->. exists []. by rewrite app_nil_r.
    + intros (cs & _ & Hl & ->). destruct cs; [|done]. by rewrite app_nil_r.
  - rewrite list_elem_of_bind. split.
    + intros (c & HK & Hc). apply IH in HK as (cs & Hcs & Hl & ->).
      exists (c :: cs). simpl. split; [split|split]; [|done|by rewrite Hl|by rewrite <- app_assoc].
      apply elem_of_range in Hc. unfold loop_bound in Hc.
      apply incr_from_length in Hcs. case_decide; [lia|].
      destruct Hcs as [?| ->]; simpl in *; lia.
    + intros (cs & Hcs & Hl & ->). destruct cs as [|c cs]; [done|].
      simpl in Hcs, Hl. destruct Hcs as [Hc Hcs]. exists c. split.
      * apply IH. exists cs. split_and!; [done|lia|]. by rewrite <- app_assoc.
      * apply elem_of_range. unfold loop_bound.
        apply incr_from_length in Hcs. case_decide; [|destruct Hcs as [?| ->]; simpl in *; lia].
        destruct Hcs as [?| ->]; simpl in *; lia.
Qed.

Lemma elem_of_combos lvls t_cur start p K :
  K ∈ combos lvls t_cur start p ↔
  ∃ sfx, K = p ++ sfx ∧ length sfx = t_cur
    ∧ incr_from start (length lvls) (sfx.*1)
    ∧ Forall (λ s, s.2 < default 0 (lvls !! s.1))%nat sfx.
Proof.
  revert start p. induction t_cur as [|t' IH]; intros start p; simpl.
  - rewrite list_elem_of_singleton. split.
    + intros ->. exists []. by rewrite app_nil_r.
    + intros (sfx & -> & Hl & _). destruct sfx; [|done]. by rewrite app_nil_r.
  - rewrite list_elem_of_bind. split.
    + intros (c & (lv & HK & Hlv)%list_elem_of_bind & Hc).
      apply IH in HK as (sfx & -> & Hl & Hcs & Hv).
      exists ((c, lv) :: sfx). rewrite <- app_assoc. simpl.
      split; [done|]. split; [by rewrite Hl|]. split; [split; [|done]|].
      * apply elem_of_seq in Hlv. destruct (lvls !! c) eqn:E; simpl in Hlv; [|lia].
        apply lookup_lt_Some in E. apply elem_of_range in Hc. lia.
      * constructor; [|done]. apply elem_of_seq in Hlv. simpl. lia.
    + intros (sfx & -> & Hl & Hcs & Hv). destruct sfx as [|[c lv] sfx]; [done|].
      rewrite fmap_cons in Hcs. cbn [incr_from fst] in Hcs. simpl in Hl.
      destruct Hcs as [Hc Hcs]. apply Forall_cons in Hv as [Hlv Hv].
      simpl in Hlv. exists c. split.
      * apply list_elem_of_bind. exists lv. split; [|apply elem_of_seq; lia].
        apply IH. exists sfx. rewrite <- app_assoc. split_and!; [done|lia|done..].
      * apply elem_of_range. unfold loop_bound.
        apply incr_from_length in Hcs.
        assert (length (sfx.*1) = length sfx) as El by apply length_fmap.
        assert (sfx.*1 = [] → length sfx = 0%nat) as El'.
        { intros E. by rewrite E in El. }
        case_decide; [|destruct Hcs as [?|?%El']; simpl in *; lia].
        destruct Hcs as [?|?%El']; simpl in *; lia.
Qed.

Lemma NoDup_combos lvls t_cur start p : NoDup (combos lvls t_cur start p).
Proof.
  revert start p. induction t_cur as [|t' IH]; intros start p; simpl.
  - apply NoDup_singleton.
  - apply NoDup_bind; [| |apply NoDup_range].
    + intros c1 c2 K _ _ (lv1 & HK1 & _)%list_elem_of_bind (lv2 & HK2 & _)%list_elem_of_bind.
      apply elem_of_combos in HK1 as (sfx1 & -> & _).
      apply elem_of_combos in HK2 as (sfx2 & E & _).
      rewrite <- !app_assoc in E. apply app_inv_head in E. simpl in E. congruence.
    + intros c _. apply NoDup_bind; [| |apply NoDup_seq].
      * intros lv1 lv2 K _ _ HK1 HK2.
        apply elem_of_combos in HK1 as (sfx1 & -> & _).
        apply elem_of_combos in HK2 as (sfx2 & E & _).
        rewrite <- !app_assoc in E. apply app_inv_head in E. simpl in E. congruence.
      * intros lv _. apply IH.
Qed.

(** a column of a row belongs to some [t]-subset of the columns *)
Lemma column_in_some_combination n t c :
  (1 ≤ t ≤ n)%nat → (c < n)%nat →
  ∃ cs, incr_from 0 n cs ∧ length cs = t ∧ c ∈ cs.
Proof.
  intros Ht Hc. exists (seq (c `min` (n - t)) t). split_and!.
  - eapply incr_from_weaken; [|apply incr_from_seq]; lia.
  - apply length_seq.
  - apply elem_of_seq. lia.
Qed.


(** ** The enumeration of the Interactions, in closed form *)

Lemma add_interaction_singles ss a s :
  but_c <$> get_single (add_interaction ss a) s = but_c <$> get_single a s.
Proof.
  unfold add_interaction. cbv zeta.
  apply (for_each_inv (λ c, but_c <$> get_single c s = but_c <$> get_single a s)); [|done].
  intros s' c _ Hc. rewrite <- Hc.
  change (get_single (upd F_score Z.succ (upd F_total_problems Z.succ
            (upd_single (s_set_c_issues Z.succ) s' c))) s)
    with (get_single (upd_single (s_set_c_issues Z.succ) s' c) s).
  rewrite get_single_upd_single. case_decide; [|done]. by destruct (get_single c s).
Qed.

Lemma add_interaction_factors ss a :
  (λ F, (id F, level F, length (f_singles F))) <$> factors (add_interaction ss a)
  = (λ F, (id F, level F, length (f_singles F))) <$> factors a.
Proof.
  unfold add_interaction. cbv zeta.
  apply (for_each_inv (λ c, _ <$> factors c = _ <$> factors a)); [|done].
  intros s' c _ Hc. rewrite <- Hc. cbn [factors upd upd_single].
  apply list_eq. intros i. rewrite !list_lookup_fmap.
  destruct (decide (i = s'.1)) as [->|].
  - rewrite list_lookup_alter_eq. destruct (factors c !! s'.1); [|done]. simpl.
    by rewrite length_alter.
  - by rewrite list_lookup_alter_ne.
Qed.

Lemma add_interaction_levels ss a : levels (add_interaction ss a) = levels a.
Proof.
  unfold levels. pose proof (add_interaction_factors ss a) as H.
  apply (f_equal (fmap (λ x : nat * nat * nat, x.1.2))) in H.
  by rewrite <- !list_fmap_compose in H.
Qed.

Lemma add_interaction_config ss a : config (add_interaction ss a) = config a.
Proof. unfold add_interaction. frame_steps. Qed.

Lemma add_interaction_wf_factors ss a :
  wf_factors a → wf_factors (add_interaction ss a).
Proof.
  intros (H1 & H2 & H3). pose proof (add_interaction_factors ss a) as HF.
  split_and!.
  - apply (f_equal length) in HF. rewrite !length_fmap in HF. rewrite HF, H1.
    pose proof (add_interaction_config ss a) as E. unfold config in E. congruence.
  - intros c F HF'. apply (f_equal (.!! c)) in HF. rewrite !list_lookup_fmap, HF' in HF.
    destruct (factors a !! c) as [F0|] eqn:E; [|done]. injection HF as _ -> ->. eauto.
  - intros s S HS. pose proof (add_interaction_singles ss a s) as E. rewrite HS in E.
    destruct (get_single a s) as [S0|] eqn:E0; [|done].
    injection E as -> -> _ _ _. eauto.
Qed.

Lemma add_interaction_without_rows ss a :
  singles_without_rows a → singles_without_rows (add_interaction ss a).
Proof.
  intros H s S HS. pose proof (add_interaction_singles ss a s) as E. rewrite HS in E.
  destruct (get_single a s) as [S0|] eqn:E0; [|done].
  injection E as _ _ -> _ _. eauto.
Qed.

(** the base case *)
Lemma build_t_way_interactions_base start ss a a' :
  wf_factors a → singles_without_rows a →
  build_t_way_interactions 0 start ss a = Ok a' →
  a' = add_interaction ss a.
Proof.
  intros (_ & _ & Hwf) Hrows H. simpl in H.
  apply bind_Ok in H as (I & HI & H). apply bind_Ok in H as (key & Hkey & H).
  apply Ok_inj in H as <-.
  assert (I = mk_interaction ss) as ->.
  { unfold new_Interaction in HI. destruct ss as [|s0 rest]; [done|].
    apply bind_Ok in HI as (S0 & HS0%single_at_Ok & HI).
    apply bind_Ok in HI as (rws & Hrws & HI). apply Ok_inj in HI as <-.
    unfold mk_interaction. f_equal.
    revert Hrws. apply (foldM_inv (λ r, r = ∅)); [|by eapply Hrows].
    intros s r r' _ -> Hs. inv_Ok Hs. set_solver. }
  assert (key = ss) as ->.
  { unfold Interaction_to_string in Hkey. cbn [i_singles] in Hkey. revert Hkey.
    apply (foldM_prefix (λ l ret, ret = l)); [|done].
    intros l s ret ret' -> Hs. inv_Ok Hs. unfold Single_to_string.
    destruct (Hwf _ _ Hx) as [-> ->]. by destruct s. }
  reflexivity.
Qed.

Lemma build_t_way_interactions_closed t_cur start p a a' :
  wf_factors a → singles_without_rows a →
  build_t_way_interactions t_cur start p a = Ok a' →
  a' = for_each add_interaction (combos (levels a) t_cur start p) a.
Proof.
  revert start p a a'. induction t_cur as [|t' IH]; intros start p a a' Hwf Hrows H.
  - by apply build_t_way_interactions_base in H.
  - cbn [build_t_way_interactions combos] in *.
    assert (length (levels a) = num_factors a) as ->.
    { unfold levels. rewrite length_fmap. apply Hwf. }
    revert H. apply (foldM_closed
      (λ c, wf_factors c ∧ singles_without_rows c ∧ levels c = levels a)); [| |done].
    + intros col c c' (Hwfc & Hrowsc & Hlv) Hc.
      apply bind_Ok in Hc as (F & HF%or_fail_Ok & Hc).
      assert (default 0%nat (levels a !! col) = level F) as ->.
      { rewrite <- Hlv. unfold levels. by rewrite list_lookup_fmap, HF. }
      revert Hc. apply (foldM_closed
        (λ c, wf_factors c ∧ singles_without_rows c ∧ levels c = levels a));
        [| |done].
      * intros lv c1 c1' (Hwf1 & Hrows1 & Hlv1) Hc1. rewrite <- Hlv1. by apply IH.
      * intros K c1 (Hwf1 & Hrows1 & Hlv1).
        split_and!; [by apply add_interaction_wf_factors
                    |by apply add_interaction_without_rows
                    |by rewrite add_interaction_levels].
    + intros K c1 (Hwf1 & Hrows1 & Hlv1).
      split_and!; [by apply add_interaction_wf_factors
                  |by apply add_interaction_without_rows
                  |by rewrite add_interaction_levels].
Qed.

(** *** What a run of base cases leaves behind *)

Lemma add_interaction_interactions ss a :
  interactions (add_interaction ss a) = interactions a ++ [mk_interaction ss].
Proof.
  unfold add_interaction. cbv zeta.
  change (interactions a ++ [mk_interaction ss]) with
    (interactions (upd F_interaction_map
       (map_insert_new ss (length (interactions a)))
       (upd F_interactions (λ l, l ++ [mk_interaction ss]) a))).
  frame_steps.
Qed.

Lemma add_interaction_map ss a :
  interaction_map (add_interaction ss a)
  = map_insert_new ss (length (interactions a)) (interaction_map a).
Proof.
  unfold add_interaction. cbv zeta.
  change (map_insert_new ss (length (interactions a)) (interaction_map a)) with
    (interaction_map (upd F_interaction_map
       (map_insert_new ss (length (interactions a)))
       (upd F_interactions (λ l, l ++ [mk_interaction ss]) a))).
  frame_steps.
Qed.

Lemma add_interaction_beside ss a :
  beside_interactions (add_interaction ss a) = beside_interactions a.
Proof. unfold add_interaction. frame_steps. Qed.

Lemma add_interactions_beside L a :
  beside_interactions (for_each add_interaction L a) = beside_interactions a.
Proof.
  apply (for_each_inv (λ c, beside_interactions c = beside_interactions a)); [|done].
  intros ss c _ <-. apply add_interaction_beside.
Qed.

Lemma add_interactions_singles L a s :
  but_c <$> get_single (for_each add_interaction L a) s = but_c <$> get_single a s.
Proof.
  apply (for_each_inv (λ c, but_c <$> get_single c s = but_c <$> get_single a s)); [|done].
  intros ss c _ <-. apply add_interaction_singles.
Qed.

Lemma add_interactions_spec L a :
  let a' := for_each add_interaction L a in
  interactions a' = interactions a ++ (mk_interaction <$> L)
  ∧ (∀ key v, interaction_map a' !! key = Some v →
       interaction_map a !! key = Some v
       ∨ ∃ j, L !! j = Some key ∧ v = (length (interactions a) + j)%nat)
  ∧ (∀ j key, L !! j = Some key → (∀ j', (j' < j)%nat → L !! j' ≠ Some key) →
       interaction_map a !! key = None →
       interaction_map a' !! key = Some (length (interactions a) + j)%nat).
Proof.
  cbv zeta. apply (for_each_prefix (λ l c,
    interactions c = interactions a ++ (mk_interaction <$> l)
    ∧ (∀ key v, interaction_map c !! key = Some v →
         interaction_map a !! key = Some v
         ∨ ∃ j, l !! j = Some key ∧ v = (length (interactions a) + j)%nat)
    ∧ (∀ j key, l !! j = Some key → (∀ j', (j' < j)%nat → l !! j' ≠ Some key) →
         interaction_map a !! key = None →
         interaction_map c !! key = Some (length (interactions a) + j)%nat))).
  - intros l ss c (H1 & H2 & H3).
    assert (length (interactions c) = (length (interactions a) + length l)%nat) as Hlen.
    { by rewrite H1, length_app, length_fmap. }
    rewrite add_interaction_interactions, add_interaction_map, Hlen. split_and!.
    + by rewrite H1, fmap_app, app_assoc.
    + intros key v. rewrite lookup_map_insert_new.
      destruct (interaction_map c !! key) as [w|] eqn:E.
      * intros [= <-]. destruct (H2 _ _ E) as [?|(j & Hj & ->)]; [by left|].
        right. exists j. split; [|done]. by apply lookup_app_l_Some.
      * case_decide; [|done]. intros [= <-]. subst key. right. exists (length l).
        split; [|done]. by rewrite lookup_app_r, Nat.sub_diag.
    + intros j key Hj Hfirst Hnew. rewrite lookup_map_insert_new.
      destruct (decide (j < length l)%nat) as [Hlt|Hge].
      * rewrite lookup_app_l in Hj by done. erewrite H3; [done..| |done].
        intros j' Hj'. specialize (Hfirst j' Hj').
        rewrite lookup_app_l in Hfirst by lia. done.
      * assert (j = length l) as ->.
        { apply lookup_lt_Some in Hj. rewrite length_app in Hj. simpl in Hj. lia. }
        rewrite lookup_app_r, Nat.sub_diag in Hj by done. injection Hj as ->.
        destruct (interaction_map c !! key) as [w|] eqn:E.
        -- destruct (H2 _ _ E) as [?|(j & Hj & ->)]; [congruence|].
           exfalso. apply (Hfirst j); [by eapply lookup_lt_Some|].
           by apply lookup_app_l_Some.
        -- by rewrite decide_True.
  - rewrite app_nil_r. split_and!; [done|by left|].
    intros j key Hj. by rewrite lookup_nil in Hj.
Qed.

(** *** The Factors, in closed form *)

Lemma build_factors_inner i (j k : nat) a :
  let a' := for_each (λ j a,
      let a := upd F_factors
                 (alter (f_set_singles (λ l, l ++ [new_Single i j])) i) a in
      let a := upd F_singles (λ l, l ++ [(i, j)]) a in
      upd F_single_map (map_insert_new (Single_to_string (new_Single i j)) (i, j)) a)
    (seq j k) a in
  factors a' = alter (f_set_singles (λ l, l ++ (new_Single i <$> seq j k))) i (factors a)
  ∧ singles a' = singles a ++ (pair i <$> seq j k).
Proof.
  revert j a. induction k as [|k IH]; intros j a; cbv zeta.
  - simpl. rewrite app_nil_r. split; [|done].
    apply list_eq. intros c. destruct (decide (c = i)) as [->|].
    + rewrite list_lookup_alter_eq. destruct (factors a !! i) as [[]|]; [|done].
      simpl. unfold f_set_singles. simpl. by rewrite app_nil_r.
    + by rewrite list_lookup_alter_ne.
  - cbn [seq]. rewrite for_each_cons. cbv zeta in IH.
    destruct (IH (S j) (upd F_single_map
      (map_insert_new (Single_to_string (new_Single i j)) (i, j))
      (upd F_singles (λ l, l ++ [(i, j)])
        (upd F_factors (alter (f_set_singles (λ l, l ++ [new_Single i j])) i) a))))
      as [-> ->].
    cbn [factors singles upd]. split.
    + rewrite list_alter_alter_eq. apply list_alter_ext; [|done].
      intros [] _. unfold f_set_singles. simpl. by rewrite <- app_assoc.
    + by rewrite <- app_assoc.
Qed.

Lemma build_factors_step level_of i a a' :
  length (factors a) = i →
  (lv ← level_of i;
   let a := upd F_factors (λ l, l ++ [{| id := i; level := lv; f_singles := [] |}]) a in
   Ok (for_each (λ j a,
         let a := upd F_factors
                    (alter (f_set_singles (λ l, l ++ [new_Single i j])) i) a in
         let a := upd F_singles (λ l, l ++ [(i, j)]) a in
         upd F_single_map (map_insert_new (Single_to_string (new_Single i j)) (i, j)) a)
       (seq 0 lv) a)) = Ok a' →
  ∃ lv, factors a' = factors a ++ [mk_Factor i lv].
Proof.
  intros Hi H. apply bind_Ok in H as (lv & _ & H). cbv zeta in H.
  apply Ok_inj in H as <-. exists lv.
  pose proof (build_factors_inner i 0 lv
    (upd F_factors (λ l, l ++ [{| id := i; level := lv; f_singles := [] |}]) a))
    as HI.
  cbv zeta in HI. destruct HI as [HI _]. rewrite HI.
  cbn [factors upd]. rewrite alter_app_r_alt by lia.
  rewrite Hi, Nat.sub_diag. done.
Qed.

Lemma build_factors_beside level_of a a' :
  build_factors level_of a = Ok a' → beside_factors a' = beside_factors a.
Proof. unfold build_factors. intros H. frame_loop H; [|done]. inv_Ok H. frame_steps. Qed.

Lemma build_factors_spec level_of a a' :
  factors a = [] → build_factors level_of a = Ok a' → factors_built a'.
Proof.
  intros Hnil H. pose proof (build_factors_beside _ _ _ H) as Hb.
  unfold factors_built.
  assert (num_factors a' = num_factors a) as ->.
  { unfold beside_factors, config in Hb. congruence. }
  unfold build_factors in H. revert H.
  generalize (num_factors a). intros n.
  cut (∀ i a, length (factors a) = i →
         (∀ c F, factors a !! c = Some F → ∃ lv, F = mk_Factor c lv) →
         ∀ a', foldM (λ i a,
           lv ← level_of i;
           let a := upd F_factors
                      (λ l, l ++ [{| id := i; level := lv; f_singles := [] |}]) a in
           Ok (for_each (λ j a,
                 let a := upd F_factors
                            (alter (f_set_singles (λ l, l ++ [new_Single i j])) i) a in
                 let a := upd F_singles (λ l, l ++ [(i, j)]) a in
                 upd F_single_map
                   (map_insert_new (Single_to_string (new_Single i j)) (i, j)) a)
               (seq 0 lv) a)) (seq i n) a = Ok a' →
         length (factors a') = (i + n)%nat
         ∧ ∀ c F, factors a' !! c = Some F → ∃ lv, F = mk_Factor c lv).
  { intros Hcut H. apply (Hcut 0%nat a); [by rewrite Hnil| |done].
    intros c F. by rewrite Hnil, lookup_nil. }
  clear. induction n as [|n IH]; intros i a Hi Hf a' H; simpl in H.
  - apply Ok_inj in H as <-. split; [lia|done].
  - apply bind_Ok in H as (a1 & H1 & H).
    apply build_factors_step in H1 as (lv & E); [|done].
    apply IH in H as (Hlen & Hall).
    + split; [lia|done].
    + rewrite E, length_app. simpl. lia.
    + intros c F. rewrite E. intros [?|[Hle HF]]%lookup_app_Some; [by eauto|].
      destruct (c - length (factors a))%nat as [|?] eqn:Ec; [|done].
      injection HF as <-. exists lv. f_equal. lia.
Qed.

Lemma get_single_built a s S :
  factors_built a → get_single a s = Some S →
  S = new_Single s.1 s.2 ∧ (s.1 < num_factors a)%nat.
Proof.
  intros [Hlen Hall] H. unfold get_single in H.
  destruct (factors a !! s.1) as [F|] eqn:HF; [|done]. simpl in H.
  destruct (Hall _ _ HF) as [lv ->]. cbn [f_singles mk_Factor] in H.
  rewrite list_lookup_fmap in H. destruct (seq 0 lv !! s.2) as [v|] eqn:Hv; [|done].
  apply lookup_seq in Hv as [-> _]. injection H as <-. split; [done|].
  rewrite <- Hlen. by eapply lookup_lt_Some.
Qed.

Lemma factors_built_wf a : factors_built a → wf_factors a ∧ singles_without_rows a.
Proof.
  intros Hb. split; [split_and!|].
  - apply Hb.
  - intros c F HF. destruct Hb as [_ Hall]. destruct (Hall _ _ HF) as [lv ->].
    simpl. by rewrite length_fmap, length_seq.
  - intros s S HS. by destruct (get_single_built _ _ _ Hb HS) as [-> _].
  - intros s S HS. by destruct (get_single_built _ _ _ Hb HS) as [-> _].
Qed.


(** ** The enumeration of the T sets *)

Lemma link_sets_spec this temp a :
  links_added this temp a
    (for_each (upd_interaction (i_set_sets (union {[this]}))) temp a).
Proof.
  apply (for_each_prefix (λ l c, links_added this l a c)).
  - intros l j c [Hlen Hc]. split.
    + unfold upd_interaction. cbn [interactions upd]. by rewrite length_alter.
    + intros i I'. unfold upd_interaction. cbn [interactions upd].
      destruct (decide (j = i)) as [->|Hne].
      * rewrite list_lookup_alter_eq.
        destruct (interactions c !! i) as [Ic|] eqn:HIc; [|done].
        intros [= <-]. destruct (Hc i Ic HIc) as (I & HI & Hb & Hs).
        exists I. split_and!; [done..|].
        intros k. cbn [i_sets i_set_sets]. rewrite elem_of_union, Hs.
        rewrite elem_of_app, list_elem_of_singleton, elem_of_singleton. tauto.
      * rewrite list_lookup_alter_ne by done. intros HI'.
        destruct (Hc i I' HI') as (I & HI & Hb & Hs).
        exists I. split_and!; [done..|].
        intros k. rewrite Hs, elem_of_app, list_elem_of_singleton. naive_solver.
  - split; [done|]. intros i I HI. exists I. split_and!; [done..|].
    intros k. rewrite elem_of_nil. tauto.
Qed.

Lemma new_T_spec this temp a X a' :
  new_T this temp a = Ok (X, a') →
  t_interactions X = temp ∧ location_conflicts X = ∅ ∧ is_locatable X = false
  ∧ ((∀ i I, interactions a !! i = Some I → i_rows I = ∅) → t_rows X = ∅)
  ∧ Forall (λ i, is_Some (interactions a !! i)) temp
  ∧ a' = for_each (upd_interaction (i_set_sets (union {[this]}))) temp a.
Proof.
  unfold new_T. intros H. destruct temp as [|i0 rest]; [done|].
  apply bind_Ok in H as (I0 & HI0%interaction_at_Ok & H).
  apply bind_Ok in H as (rws & Hrws & H).
  apply bind_Ok in H as ([a1 ss] & Hloop & H). apply Ok_inj in H.
  injection H as <- <-. cbn [t_interactions location_conflicts is_locatable t_rows].
  split_and!; [done..| | |].
  - intros Hrows. revert Hrws. apply (foldM_inv (λ r, r = ∅)); [|by eapply Hrows].
    intros i r r' _ -> Hi. inv_Ok Hi. rewrite (Hrows _ _ Hx). set_solver.
  - cut (∀ l a0 ss0 a1 ss,
      length (interactions a0) = length (interactions a) →
      foldM (λ i '(a', ss),
        I ← interaction_at a' i;
        Ok (upd_interaction (i_set_sets (union {[this]})) i a', ss ++ i_singles I))
        l (a0, ss0) = Ok (a1, ss) →
      Forall (λ i, is_Some (interactions a !! i)) l).
    { intros Hcut. by eapply Hcut. }
    clear. induction l as [|i l IH]; intros a0 ss0 a1 ss Hlen H; [done|].
    simpl in H. apply bind_Ok in H as ([a2 ss2] & H2 & H).
    apply bind_Ok in H2 as (I & HI%interaction_at_Ok & H2). apply Ok_inj in H2.
    injection H2 as <- <-. constructor.
    + apply lookup_lt_is_Some. rewrite <- Hlen. by eapply lookup_lt_Some.
    + eapply IH; [|done]. unfold upd_interaction. cbn [interactions upd].
      by rewrite length_alter.
  - cut (∀ l a0 ss0 a1 ss,
      foldM (λ i '(a', ss),
        I ← interaction_at a' i;
        Ok (upd_interaction (i_set_sets (union {[this]})) i a', ss ++ i_singles I))
        l (a0, ss0) = Ok (a1, ss) →
      a1 = for_each (upd_interaction (i_set_sets (union {[this]}))) l a0).
    { intros Hcut. by eapply Hcut. }
    clear. induction l as [|i l IH]; intros a0 ss0 a1 ss H; simpl in H.
    + apply Ok_inj in H. by injection H as <- <-.
    + apply bind_Ok in H as ([a2 ss2] & H2 & H).
      apply bind_Ok in H2 as (I & HI & H2). apply Ok_inj in H2.
      injection H2 as <- <-. rewrite for_each_cons. by eapply IH.
Qed.

Lemma build_size_d_sets_base start temp a a' :
  (∀ i I, interactions a !! i = Some I → i_rows I = ∅) →
  sets_built a →
  build_size_d_sets 0 start temp a = Ok a' →
  sets_built a'
  ∧ length (interactions a') = length (interactions a)
  ∧ (∀ i, but_sets <$> interactions a' !! i = but_sets <$> interactions a !! i)
  ∧ beside_sets a' = beside_sets a.
Proof.
  intros Hrows [[Hlinks Hvalid] Hfresh] H. simpl in H.
  apply bind_Ok in H as ([X a1] & HX & H). apply bind_Ok in H as (key & _ & H).
  apply Ok_inj in H as <-.
  apply new_T_spec in HX as (Hti & Hlc & Hil & Htr & Hmem & ->).
  specialize (Htr Hrows).
  destruct (link_sets_spec (length (sets a)) temp a) as [Hlen Hl].
  set (a1 := for_each (upd_interaction (i_set_sets (union {[length (sets a)]}))) temp a)
    in *.
  assert (sets a1 = sets a) as Hsets by (unfold a1; frame_steps).
  rewrite Hsets.
  assert (∀ i, but_sets <$> interactions a1 !! i = but_sets <$> interactions a !! i)
    as Hbut.
  { intros i. destruct (interactions a1 !! i) as [I'|] eqn:HI'.
    - destruct (Hl i I' HI') as (I & -> & E & _). simpl. by rewrite E.
    - apply lookup_ge_None in HI'. rewrite Hlen in HI'.
      apply lookup_ge_None in HI'. by rewrite HI'. }
  split; [|split; [|split]].
  - split; [split|].
    + intros i I' HI' k. cbn [interactions sets upd] in *.
      destruct (Hl i I' HI') as (I & HI & _ & Hs). rewrite Hs, (Hlinks i I HI k).
      split.
      * intros [(Y & HY & Hi)|[-> Hi]].
        -- exists Y. split; [|done]. by apply lookup_app_l_Some.
        -- exists X. split; [|by rewrite Hti].
           by rewrite lookup_app_r, Nat.sub_diag.
      * intros (Y & [HY|[Hle HY]]%lookup_app_Some & Hi); [by eauto|].
        right. apply list_lookup_singleton_Some in HY as [Hk <-].
        split; [lia|by rewrite <- Hti].
    + intros k Y. cbn [interactions sets upd].
      intros [HY|[Hle HY]]%lookup_app_Some.
      * eapply Forall_impl; [by eapply Hvalid|]. cbv beta.
        intros i Hi. apply lookup_lt_is_Some. rewrite Hlen.
        by apply lookup_lt_is_Some.
      * apply list_lookup_singleton_Some in HY as [_ <-]. rewrite Hti.
        eapply Forall_impl; [exact Hmem|]. cbv beta.
        intros i Hi. apply lookup_lt_is_Some. rewrite Hlen.
        by apply lookup_lt_is_Some.
    + intros k Y. cbn [sets upd]. intros [HY|[Hle HY]]%lookup_app_Some; [by eauto|].
      apply list_lookup_singleton_Some in HY as [_ <-]. done.
  - done.
  - done.
  - transitivity (beside_sets a1); [reflexivity|]. unfold a1. frame_steps.
Qed.

Lemma build_size_d_sets_spec d_cur start temp a a' :
  (∀ i I, interactions a !! i = Some I → i_rows I = ∅) →
  sets_built a →
  build_size_d_sets d_cur start temp a = Ok a' →
  sets_built a'
  ∧ length (interactions a') = length (interactions a)
  ∧ (∀ i, but_sets <$> interactions a' !! i = but_sets <$> interactions a !! i)
  ∧ beside_sets a' = beside_sets a.
Proof.
  revert start temp a a'. induction d_cur as [|d' IH]; intros start temp a a' Hrows Hb H.
  - by eapply build_size_d_sets_base.
  - cbn [build_size_d_sets] in H. revert H.
    apply (foldM_inv (λ c,
      sets_built c
      ∧ length (interactions c) = length (interactions a)
      ∧ (∀ i, but_sets <$> interactions c !! i = but_sets <$> interactions a !! i)
      ∧ beside_sets c = beside_sets a)); [|done].
    intros i c c' _ (Hbc & Hlc & Hic & Hsc) Hc.
    apply bind_Ok in Hc as (_ & _ & Hc). apply IH in Hc as (? & ? & Hic' & ?).
    + split_and!; [done|congruence| |congruence].
      intros j. by rewrite Hic', Hic.
    + intros j J HJ. specialize (Hic j). rewrite HJ in Hic.
      destruct (interactions a !! j) as [J0|] eqn:HJ0; [|done].
      injection Hic as _ -> _ _ _. by eapply Hrows.
    + done.
Qed.


(** ** Well-formedness only depends on the topology *)

Lemma directory_inv a b :
  directory b = directory a →
  params b = params a ∧ interaction_map b = interaction_map a
  ∧ t a = t b ∧ num_factors a = num_factors b ∧ p a = p b ∧ delta a = delta b.
Proof.
  intros E.
  assert (params b = params a) as E1
    by (change ((directory b).1.1.1.1 = (directory a).1.1.1.1); by rewrite E).
  assert (interaction_map b = interaction_map a) as E2
    by (change ((directory b).1.2 = (directory a).1.2); by rewrite E).
  split_and!; [done|done|..].
  - change ((params a).1.1.1.2 = (params b).1.1.1.2). by rewrite E1.
  - change ((params a).1.2 = (params b).1.2). by rewrite E1.
  - change ((params a).2 = (params b).2). by rewrite E1.
  - change ((params a).1.1.2 = (params b).1.1.2). by rewrite E1.
Qed.

Lemma WF_topology a b : same_topology a b → WF a → WF b.
Proof.
  intros Ht (Hs & [Hi1 Hi2] & [Hl1 Hl2]).
  pose proof Ht as (Hdir & HtS & HtI & HtT).
  apply directory_inv in Hdir as (_ & Hmap & Et & En & _).
  assert (∀ s, is_Some (get_single a s) → is_Some (get_single b s)) as Hvalid.
  { intros s [S HS]. specialize (HtS s). rewrite HS in HtS.
    by destruct (get_single b s). }
  assert (∀ i, is_Some (interactions a !! i) → is_Some (interactions b !! i)) as HvalidI.
  { intros s [S HS]. specialize (HtI s). rewrite HS in HtI.
    by destruct (interactions b !! s). }
  split_and!.
  - intros s S' HS'. destruct (agree_single _ _ _ _ _ _ _ _ Ht HS') as (S & HS & [= -> ->]).
    rewrite <- En. by apply Hs.
  - split.
    + intros i I' HI'.
      destruct (agree_interaction _ _ _ _ _ _ _ _ Ht HI') as (I & HI & [= E1 E2]).
      destruct (Hi1 i I HI) as (H1 & H2 & H3 & H4).
      rewrite E1, Hmap, <- Et, <- En. split_and!; [done..|].
      eapply Forall_impl; [exact H4|]. done.
    + intros key i. rewrite Hmap. intros Hk. destruct (Hi2 key i Hk) as (I & HI & <-).
      destruct (HvalidI i) as [I' HI']; [by eexists|].
      destruct (agree_interaction _ _ _ _ _ _ _ _ Ht HI') as (I0 & HI0 & [= E1 E2]).
      exists I'. split; [done|]. congruence.
  - split.
    + intros i I' HI' k.
      destruct (agree_interaction _ _ _ _ _ _ _ _ Ht HI') as (I & HI & [= E1 E2]).
      rewrite E2, (Hl1 i I HI k). split.
      * intros (X & HX & Hi). specialize (HtT k). rewrite HX in HtT.
        destruct (sets b !! k) as [X'|]; [|done]. injection HtT as E _.
        exists X'. split; [done|]. by rewrite E.
      * intros (X' & HX' & Hi).
        destruct (agree_T _ _ _ _ _ _ _ _ Ht HX') as (X & HX & [= E _]).
        exists X. split; [done|]. by rewrite <- E.
    + intros k X' HX'.
      destruct (agree_T _ _ _ _ _ _ _ _ Ht HX') as (X & HX & [= E _]).
      rewrite E. eapply Forall_impl; [by eapply Hl2|]. done.
Qed.

Lemma initial_core_agree n0 a b :
  agree init_s init_i init_t skel_a a b → initial_core n0 a → initial_core n0 b.
Proof.
  intros Hab (Hwf & Hrows & Hn & HS & HI & HT).
  pose proof Hab as (Ha & _).
  apply skel_a_inv in Ha as (Hdir & Hnum & Hr).
  split_and!.
  - apply (WF_topology a b); [|done]. destruct Hab as (_ & H2 & H3 & H4). split_and!.
    + done.
    + intros s. specialize (H2 s). destruct (get_single b s), (get_single a s);
        simpl in *; unfold init_s, topo_s in *; congruence.
    + intros i. specialize (H3 i). destruct (interactions b !! i), (interactions a !! i);
        simpl in *; unfold init_i, topo_i in *; congruence.
    + intros k. specialize (H4 k). destruct (sets b !! k), (sets a !! k);
        simpl in *; unfold init_t, topo_t in *; congruence.
  - congruence.
  - congruence.
  - intros s S' HS'. destruct (agree_single _ _ _ _ _ _ _ _ Hab HS') as (S & HS0 & E).
    unfold init_s in E. injection E as _ _ ->. by eapply HS.
  - intros i I' HI'. destruct (agree_interaction _ _ _ _ _ _ _ _ Hab HI') as (I & HI0 & E).
    unfold init_i in E. injection E as _ -> -> -> _. by eapply HI.
  - intros k X' HX'. destruct (agree_T _ _ _ _ _ _ _ _ Hab HX') as (X & HX0 & E).
    unfold init_t in E. subst X'. by eapply HT.
Qed.

(** *** The Array when the Interactions are enumerated *)
Lemma interactions_phase a1 :
  factors_built a1 → interactions a1 = [] → interaction_map a1 = ∅ →
  sets a1 = [] → rows a1 = [] →
  let a2 := for_each add_interaction (combos (levels a1) (t a1) 0 []) a1 in
  initial_core (num_tests a1) a2
  ∧ sets a2 = []
  ∧ ∀ i I, interactions a2 !! i = Some I → deltas I = ∅ ∧ i_sets I = ∅.
Proof.
  intros Hb Hnil Hmap Hsets Hrows a2.
  set (L := combos (levels a1) (t a1) 0 []) in *.
  destruct (add_interactions_spec L a1) as (Hint & Hsound & Hcomplete).
  fold a2 in Hint, Hsound, Hcomplete. rewrite Hnil in Hint, Hsound, Hcomplete.
  simpl in Hint, Hsound, Hcomplete.
  pose proof (add_interactions_beside L a1) as Hbeside. fold a2 in Hbeside.
  assert (t a2 = t a1 ∧ num_factors a2 = num_factors a1 ∧ num_tests a2 = num_tests a1
          ∧ rows a2 = rows a1 ∧ sets a2 = sets a1) as (Et & En & Ent & Er & Es).
  { unfold beside_interactions, config in Hbeside. split_and!; congruence. }
  assert (∀ s S, get_single a2 s = Some S →
            get_single a1 s = Some (new_Single s.1 s.2) ∧ (s.1 < num_factors a1)%nat
            ∧ factor S = s.1 ∧ value S = s.2 ∧ s_rows S = ∅) as Hsingle.
  { intros s S HS. pose proof (add_interactions_singles L a1 s) as E. fold a2 in E.
    rewrite HS in E. destruct (get_single a1 s) as [S1|] eqn:HS1; [|done].
    destruct (get_single_built _ _ _ Hb HS1) as [-> Hlt].
    unfold but_c in E. simpl in E. injection E as -> -> -> _ _. done. }
  assert (∀ i I, interactions a2 !! i = Some I →
            ∃ K, L !! i = Some K ∧ I = mk_interaction K) as Hmk.
  { intros i I. rewrite Hint, list_lookup_fmap. destruct (L !! i) as [K|]; [|done].
    intros [= <-]. eauto. }
  unfold initial_core, WF. split_and!.
  - (* wf_singles *)
    intros s S HS. destruct (Hsingle s S HS) as (_ & ? & ? & ? & _). by rewrite En.
  - (* wf_interactions *)
    split.
    + intros i I HI. destruct (Hmk i I HI) as (K & HK & ->). cbn [i_singles mk_interaction].
      pose proof (list_elem_of_lookup_2 _ _ _ HK) as HKin.
      apply elem_of_combos in HKin as (sfx & -> & Hlen & Hincr & Hlv). simpl in *.
      split_and!.
      * apply (Hcomplete i sfx HK); [|by rewrite Hmap].
        intros j' Hj' HK'. pose proof (NoDup_combos (levels a1) (t a1) 0 []) as Hnd.
        fold L in Hnd. pose proof (NoDup_lookup _ _ _ _ Hnd HK HK'). lia.
      * by rewrite Et.
      * rewrite En. destruct Hb as [Hb1 _]. unfold levels in Hincr.
        by rewrite length_fmap, Hb1 in Hincr.
      * eapply Forall_impl; [exact Hlv|]. intros [c v] Hv. simpl in Hv.
        assert (is_Some (get_single a1 (c, v))) as [S1 HS1].
        { unfold levels in Hv. rewrite list_lookup_fmap in Hv. unfold get_single. simpl.
          destruct (factors a1 !! c) as [F|] eqn:HF; [|simpl in Hv; lia]. simpl in *.
          destruct Hb as [_ Hb2]. destruct (Hb2 _ _ HF) as [lv ->]. simpl in *.
          rewrite list_lookup_fmap. destruct (seq 0 lv !! v) eqn:E; [by eauto|].
          apply lookup_ge_None in E. rewrite length_seq in E. lia. }
        pose proof (add_interactions_singles L a1 (c, v)) as E. fold a2 in E.
        rewrite HS1 in E. destruct (get_single a2 (c, v)); [by eauto|done].
    + intros key v Hv. destruct (Hsound key v Hv) as [Hv'|(j & Hj & ->)].
      * by rewrite Hmap in Hv'.
      * exists (mk_interaction key). split; [|done].
        by rewrite Hint, list_lookup_fmap, Hj.
  - (* wf_sets *)
    split.
    + intros i I HI k. destruct (Hmk i I HI) as (K & HK & ->). cbn [i_sets mk_interaction].
      rewrite Es, Hsets. split; [set_solver|]. intros (X & HX & _). by rewrite lookup_nil in HX.
    + intros k X. by rewrite Es, Hsets, lookup_nil.
  - congruence.
  - done.
  - intros s S HS. by destruct (Hsingle s S HS) as (_ & _ & _ & _ & ?).
  - intros i I HI. by destruct (Hmk i I HI) as (K & HK & ->).
  - intros k X. by rewrite Es, Hsets, lookup_nil.
  - congruence.
  - intros i I HI. by destruct (Hmk i I HI) as (K & HK & ->).
Qed.

(** *** The Array when the T sets are enumerated *)
Lemma sets_phase n0 a3 a4 :
  initial_core n0 a3 → sets a3 = [] →
  (∀ i I, interactions a3 !! i = Some I → deltas I = ∅) →
  build_size_d_sets (d a3) 0 [] a3 = Ok a4 →
  initial_core n0 a4 ∧ params a4 = params a3
  ∧ ∀ i I, interactions a4 !! i = Some I → deltas I = ∅.
Proof.
  intros ((Hws & [Hwi1 Hwi2] & Hwt) & Hrows & Hn & HS & HI & HT) Hsets Hdeltas H.
  apply build_size_d_sets_spec in H as ([Hwt4 Hfresh] & Hlen & Hview & Hbeside).
  2: { intros i I HI'. by destruct (HI i I HI'). }
  2: { split; [done|]. intros k X. by rewrite Hsets, lookup_nil. }
  assert (factors a4 = factors a3 ∧ interaction_map a4 = interaction_map a3
          ∧ t a4 = t a3 ∧ num_factors a4 = num_factors a3 ∧ num_tests a4 = num_tests a3
          ∧ rows a4 = rows a3) as (Ef & Em & Et & En & Ent & Er).
  { unfold beside_sets, config in Hbeside. split_and!; congruence. }
  assert (∀ s, get_single a4 s = get_single a3 s) as Hget.
  { intros s. unfold get_single. by rewrite Ef. }
  assert (∀ i I', interactions a4 !! i = Some I' →
            ∃ I, interactions a3 !! i = Some I ∧ but_sets I' = but_sets I) as Hback.
  { intros i I' HI'. specialize (Hview i). rewrite HI' in Hview.
    destruct (interactions a3 !! i) as [I|]; [|done]. exists I. split; [done|].
    simpl in Hview. congruence. }
  split; [unfold initial_core, WF; split_and!|split].
  - intros s S. rewrite Hget, En. apply Hws.
  - split.
    + intros i I' HI'. destruct (Hback i I' HI') as (I & HI0 & E).
      unfold but_sets in E. injection E as E1 _ _ _ _. rewrite E1, Em, Et, En.
      destruct (Hwi1 i I HI0) as (? & ? & ? & Hv). split_and!; [done..|].
      eapply Forall_impl; [exact Hv|]. intros s. by rewrite Hget.
    + intros key i. rewrite Em. intros Hk. destruct (Hwi2 key i Hk) as (I & HI0 & <-).
      specialize (Hview i). rewrite HI0 in Hview.
      destruct (interactions a4 !! i) as [I'|]; [|done]. exists I'. split; [done|].
      simpl in Hview. unfold but_sets in Hview. congruence.
  - done.
  - congruence.
  - congruence.
  - intros s S. rewrite Hget. apply HS.
  - intros i I' HI'. destruct (Hback i I' HI') as (I & HI0 & E).
    unfold but_sets in E. injection E as _ -> -> -> _. by apply (HI i).
  - done.
  - unfold beside_sets, config in Hbeside. unfold params. congruence.
  - intros i I' HI'. destruct (Hback i I' HI') as (I & HI0 & E).
    unfold but_sets in E. injection E as _ _ _ _ ->. by apply (Hdeltas i).
Qed.

(** *** The maps of detection issues *)

(** one entry of one map *)
Lemma deltas_step i k a a' :
  (I ← interaction_at a i;
   if decide (k ∈ i_sets I) then Ok a else
   let a := upd_interaction (i_set_deltas (map_insert_new k 0)) i a in
   Ok (for_each (λ s a,
         let a := add_to F_total_problems (delta a) a in
         let a := upd_single (s_set_d_issues (λ x, x + delta a)) s a in
         add_to F_score (delta a) a)
       (i_singles I) a)) = Ok a' →
  ∃ I, interactions a !! i = Some I
    ∧ interactions a'
      = if decide (k ∈ i_sets I)
        then interactions a
        else alter (i_set_deltas (map_insert_new k 0)) i (interactions a).
Proof.
  intros H. inv_Ok H. rename x into I. exists I. split; [done|].
  destruct (decide (k ∈ i_sets I)); inv_Ok H; [done|].
  change (alter (i_set_deltas (map_insert_new k 0)) i (interactions a))
    with (interactions (upd_interaction (i_set_deltas (map_insert_new k 0)) i a)).
  frame_steps.
Qed.

Lemma deltas_step_agree i k a0 a a' :
  (I ← interaction_at a i;
   if decide (k ∈ i_sets I) then Ok a else
   let a := upd_interaction (i_set_deltas (map_insert_new k 0)) i a in
   Ok (for_each (λ s a,
         let a := add_to F_total_problems (delta a) a in
         let a := upd_single (s_set_d_issues (λ x, x + delta a)) s a in
         add_to F_score (delta a) a)
       (i_singles I) a)) = Ok a' →
  agree init_s init_i init_t skel_a a0 a ∧ sets a = sets a0 ∧ p a = p a0 →
  agree init_s init_i init_t skel_a a0 a' ∧ sets a' = sets a0 ∧ p a' = p a0.
Proof.
  intros H (H1 & H2 & H3). inv_Ok H. rename x into I.
  destruct (decide (k ∈ i_sets I)); inv_Ok H; [done|]. split_and!.
  - agree_steps.
  - frame_steps.
  - frame_steps.
Qed.

Lemma deltas_phase a6 a7 :
  (∀ i I, interactions a6 !! i = Some I → deltas I = ∅) →
  foldM (λ i a,
      foldM (λ k a,
          I ← interaction_at a i;
          if decide (k ∈ i_sets I) then Ok a else
          let a := upd_interaction (i_set_deltas (map_insert_new k 0)) i a in
          Ok (for_each (λ s a,
                let a := add_to F_total_problems (delta a) a in
                let a := upd_single (s_set_d_issues (λ x, x + delta a)) s a in
                add_to F_score (delta a) a)
              (i_singles I) a))
        (seq 0 (length (sets a))) a)
    (seq 0 (length (interactions a6))) a6 = Ok a7 →
  (agree init_s init_i init_t skel_a a6 a7 ∧ sets a7 = sets a6 ∧ p a7 = p a6)
  ∧ ∀ i I, interactions a7 !! i = Some I → deltas_zero a7 I.
Proof.
  intros Hempty H.
  apply (foldM_split (λ l1 c,
    (agree init_s init_i init_t skel_a a6 c ∧ sets c = sets a6 ∧ p c = p a6)
    ∧ length (interactions c) = length (interactions a6)
    ∧ ∀ i I, interactions c !! i = Some I →
        (i ∈ l1 → deltas_zero a6 I) ∧ (i ∉ l1 → deltas I = ∅))) in H.
  - destruct H as (Hag & Hlen & Hall). split; [done|]. intros i I HI.
    destruct (Hall i I HI) as [Hin _]. destruct Hag as (_ & Es & _).
    unfold deltas_zero in *. rewrite Es. apply Hin. apply elem_of_seq.
    apply lookup_lt_Some in HI. lia.
  - clear H. intros l1 i rest c c' Esplit (Hag & Hlen & Hall) H.
    assert (i ∉ l1) as Hfresh.
    { pose proof (NoDup_seq 0 (length (interactions a6))) as Hnd. rewrite Esplit in Hnd.
      apply NoDup_app in Hnd as (_ & Hnd & _). intros Hin. apply (Hnd i Hin). by left. }
    apply (foldM_prefix (λ l2 c',
      (agree init_s init_i init_t skel_a a6 c' ∧ sets c' = sets a6 ∧ p c' = p a6)
      ∧ length (interactions c') = length (interactions a6)
      ∧ (∀ j, j ≠ i → interactions c' !! j = interactions c !! j)
      ∧ ∀ I', interactions c' !! i = Some I' →
          ∀ k, deltas I' !! k =
            if decide (k ∈ i_sets I') then None
            else if decide (k ∈ l2) then Some 0 else None)) in H.
    + destruct H as (Hag' & Hlen' & Hother & Hi). split; [done|]. split; [done|].
      intros j I' HI'. destruct (decide (j = i)) as [->|Hne].
      * split.
        -- intros _ k. rewrite (Hi I' HI' k). destruct Hag as (_ & Es & _). rewrite Es.
           destruct (decide (k ∈ i_sets I')); [done|].
           destruct (decide (k ∈ seq 0 (length (sets a6)))) as [Hk|Hk];
             rewrite elem_of_seq in Hk.
           ++ rewrite decide_True by lia. done.
           ++ rewrite decide_False by lia. done.
        -- intros Hn. exfalso. apply Hn, elem_of_app. right. by left.
      * rewrite (Hother j Hne) in HI'. destruct (Hall j I' HI') as [H1 H2]. split.
        -- intros [?|Hj]%elem_of_app; [by apply H1|].
           apply list_elem_of_singleton in Hj. done.
        -- intros Hn. apply H2. intros ?. apply Hn, elem_of_app. by left.
    + clear H. intros l2 k c1 c2 (Hag1 & Hlen1 & Hother & Hi) H.
      pose proof (deltas_step_agree _ _ _ _ _ H Hag1) as Hag2.
      apply deltas_step in H as (I & HI & E). split; [done|]. split_and!.
      * rewrite E. destruct (decide _); [done|]. by rewrite length_alter.
      * intros j Hne. rewrite E. destruct (decide _); [by apply Hother|].
        rewrite list_lookup_alter_ne by done. by apply Hother.
      * intros I' HI' k'. rewrite E in HI'. specialize (Hi I HI).
        destruct (decide (k ∈ i_sets I)) as [Hin|Hnin].
        -- assert (I' = I) as -> by congruence. rewrite (Hi k').
           destruct (decide (k' ∈ i_sets I)); [done|].
           destruct (decide (k' ∈ l2)) as [Hl|Hl].
           ++ rewrite decide_True; [done|]. apply elem_of_app. by left.
           ++ rewrite decide_False; [done|]. intros [?|Hk]%elem_of_app; [done|].
              apply list_elem_of_singleton in Hk. congruence.
        -- rewrite list_lookup_alter_eq, HI in HI'. simpl in HI'. injection HI' as <-.
           cbn [deltas i_sets i_set_deltas]. rewrite lookup_map_insert_new, (Hi k').
           destruct (decide (k' ∈ i_sets I)) as [Hin'|Hnin'].
           ++ rewrite decide_False; [done|]. congruence.
           ++ destruct (decide (k' ∈ l2)) as [Hl|Hl].
              ** rewrite decide_True; [done|]. apply elem_of_app. by left.
              ** destruct (decide (k = k')) as [->|Hne].
                 --- rewrite decide_True; [done|]. apply elem_of_app. right. by left.
                 --- rewrite decide_False; [done|]. intros [?|Hk]%elem_of_app; [done|].
                     apply list_elem_of_singleton in Hk. congruence.
    + split; [done|]. split; [done|]. split; [done|]. intros I' HI' k.
      destruct (Hall i I' HI') as [_ He]. rewrite (He Hfresh), lookup_empty.
      destruct (decide (k ∈ i_sets I')); [done|]. by rewrite decide_False by set_solver.
  - split; [split_and!; [reflexivity|done..]|]. split; [done|].
    intros i I HI. split; [intros Hi; by apply elem_of_nil in Hi|]. intros _. by eapply Hempty.
Qed.

(** *** The constructor *)

Lemma agree_init_params a b :
  agree init_s init_i init_t skel_a a b → params b = params a.
Proof.
  intros (Ha & _). apply skel_a_inv in Ha as (Hdir & _).
  change ((directory b).1.1.1.1 = (directory a).1.1.1.1). by rewrite Hdir.
Qed.

Theorem Array_of_Parser_initial inp a :
  Array_of_Parser inp = Ok a →
  initial (in_num_rows inp) a
  ∧ params a = (in_d inp, in_t inp, in_delta inp, in_num_cols inp, in_p inp).
Proof.
  unfold Array_of_Parser. cbv zeta. intros H.
  apply bind_Ok in H as (a1 & H1 & H).
  pose proof (build_factors_spec _ (Array_init inp) _ eq_refl H1) as Hbuilt.
  pose proof (build_factors_beside _ _ _ H1) as Hb1.
  assert (interactions a1 = [] ∧ interaction_map a1 = ∅ ∧ sets a1 = [] ∧ rows a1 = []
          ∧ num_tests a1 = in_num_rows inp
          ∧ params a1 = (in_d inp, in_t inp, in_delta inp, in_num_cols inp, in_p inp))
    as (Ei & Em & Es & Er & En & Ep).
  { unfold beside_factors, config in Hb1. unfold params. simpl in Hb1.
    split_and!; congruence. }
  apply bind_Ok in H as (a2 & H2 & H).
  destruct (factors_built_wf _ Hbuilt) as [Hwf Hnr].
  apply (build_t_way_interactions_closed _ _ _ _ _ Hwf Hnr) in H2.
  destruct (interactions_phase a1 Hbuilt Ei Em Es Er) as (Hcore2 & Hsets2 & Hd2).
  cbv zeta in Hcore2, Hsets2, Hd2. rewrite <- H2, En in Hcore2. rewrite <- H2 in Hsets2, Hd2.
  assert (params a2 = params a1) as Ep2.
  { pose proof (add_interactions_beside (combos (levels a1) (t a1) 0 []) a1) as Hb.
    rewrite <- H2 in Hb. unfold beside_interactions, config in Hb. unfold params.
    congruence. }
  clear H2 H1 Hb1 Hwf Hnr Hbuilt Ei Em Es Er En.
  set (a3 := add_to F_score _ _) in H.
  assert (agree init_s init_i init_t skel_a a2 a3 ∧ sets a3 = sets a2
          ∧ interactions a3 = interactions a2) as (Hag3 & Es3 & Ei3).
  { unfold a3. split_and!; [agree_steps|frame_steps..]. }
  pose proof (initial_core_agree _ _ _ Hag3 Hcore2) as Hcore3.
  pose proof (agree_init_params _ _ Hag3) as Ep3.
  destruct (decide (p a3 = c_only)) as [Hc|Hnc].
  { apply Ok_inj in H as <-. split; [split; [done|]|congruence].
    intros Hall. congruence. }
  apply bind_Ok in H as (a4 & H4 & H).
  apply (sets_phase (in_num_rows inp)) in H4 as (Hcore4 & Ep4 & Hd4);
    [|done|congruence|intros i I; rewrite Ei3; intros HI; by destruct (Hd2 i I HI)].
  clear Hcore2 Hsets2 Hd2 Hag3 Es3 Ei3 Hcore3.
  set (a5 := for_each _ (sets a4) a4) in H.
  set (a6 := upd F_score _ _) in H.
  assert (agree init_s init_i init_t skel_a a4 a6 ∧ interactions a6 = interactions a4)
    as (Hag6 & Ei6).
  { unfold a6, a5. split; [agree_steps|frame_steps]. }
  pose proof (initial_core_agree _ _ _ Hag6 Hcore4) as Hcore6.
  pose proof (agree_init_params _ _ Hag6) as Ep6.
  destruct (decide (p a6 ≠ all)) as [Hna|Hall].
  { apply Ok_inj in H as <-. split; [split; [done|]|congruence]. intros Hall. done. }
  apply bind_Ok in H as (a7 & H7 & H). apply Ok_inj in H as <-.
  apply deltas_phase in H7 as ((Hag7 & Es7 & Ep7') & Hz7);
    [|intros i I; rewrite Ei6; apply Hd4].
  set (a8 := add_to F_score _ _).
  assert (agree init_s init_i init_t skel_a a7 a8 ∧ interactions a8 = interactions a7
          ∧ sets a8 = sets a7) as (Hag8 & Ei8 & Es8).
  { unfold a8. split_and!; [agree_steps|frame_steps..]. }
  pose proof (agree_init_params _ _ Hag7) as Ep7.
  pose proof (agree_init_params _ _ Hag8) as Ep8.
  split; [split|congruence].
  - apply (initial_core_agree _ a7); [done|]. by apply (initial_core_agree _ a6).
  - intros _ i I. rewrite Ei8. intros HI. specialize (Hz7 i I HI).
    unfold deltas_zero in *. by rewrite Es8.
Qed.

(** the constructor fails on strength zero *)
Lemma Array_of_Parser_strength inp a : Array_of_Parser inp = Ok a → (1 ≤ in_t inp)%nat.
Proof.
  unfold Array_of_Parser. cbv zeta. intros H.
  apply bind_Ok in H as (a1 & H1 & H).
  pose proof (build_factors_beside _ _ _ H1) as Hb1.
  assert (t a1 = in_t inp) as Et.
  { unfold beside_factors, config in Hb1. simpl in Hb1. congruence. }
  apply bind_Ok in H as (a2 & H2 & _). rewrite Et in H2.
  destruct (in_t inp); [|lia]. simpl in H2. done.
Qed.


(** * Bounded row sets, decidably *)

Lemma rows_bounded_dec_sound a : rows_bounded_dec a → rows_bounded a.
Proof.
  intros (HS & HI & HT). split_and!.
  - intros s S HS' x Hx. unfold get_single in HS'.
    destruct (factors a !! s.1) as [F|] eqn:HF; [|done]. simpl in HS'.
    rewrite Forall_forall in HS. specialize (HS F (list_elem_of_lookup_2 _ _ _ HF)).
    rewrite Forall_forall in HS. by apply (HS S (list_elem_of_lookup_2 _ _ _ HS')).
  - intros i I HI' x Hx. rewrite Forall_forall in HI.
    by apply (HI I (list_elem_of_lookup_2 _ _ _ HI')).
  - intros k X HX x Hx. rewrite Forall_forall in HT.
    by apply (HT X (list_elem_of_lookup_2 _ _ _ HX)).
Qed.


(** * What the enumeration of one Interaction adds to the counters *)

Lemma new_Interaction_singles a ss I : new_Interaction a ss = Ok I → i_singles I = ss.
Proof. unfold new_Interaction. intros H. destruct ss; inv_Ok H; done. Qed.

Lemma occurrences_snoc s l x :
  occurrences s (l ++ [x]) = (occurrences s l + if decide (x = s) then 1 else 0)%nat.
Proof.
  unfold occurrences. rewrite filter_app, length_app. f_equal.
  rewrite filter_cons, filter_nil. by destruct (decide (x = s)).
Qed.

(** C6, as the code has it. One enumerated Interaction (one pass through the
    base case of [build_t_way_interactions]) adds one to [c_issues] of each
    constituent Single, and one to [score] and to [total_problems] for each
    constituent Single, that is [t] per Interaction and not one;
    [coverage_problems] is left to the constructor. *)
Theorem enumeration_counts_each_constituent start ss a a' :
  build_t_way_interactions 0 start ss a = Ok a' →
  score a' = score a + Z.of_nat (length ss)
  ∧ total_problems a' = total_problems a + Z.of_nat (length ss)
  ∧ coverage_problems a' = coverage_problems a
  ∧ ∀ s, c_issues <$> get_single a' s
         = (λ S, c_issues S + Z.of_nat (occurrences s ss)) <$> get_single a s.
Proof.
  intros H. cbn [build_t_way_interactions] in H.
  apply bind_Ok in H as (I & HI & H). apply bind_Ok in H as (key & _ & H).
  apply Ok_inj in H as <-. apply new_Interaction_singles in HI as ->.
  set (a1 := upd F_interaction_map _ _).
  apply (for_each_prefix (λ l c,
    score c = score a + Z.of_nat (length l)
    ∧ total_problems c = total_problems a + Z.of_nat (length l)
    ∧ coverage_problems c = coverage_problems a
    ∧ ∀ s, c_issues <$> get_single c s
           = (λ S, c_issues S + Z.of_nat (occurrences s l)) <$> get_single a s)).
  - intros l x c (H1 & H2 & H3 & H4). rewrite length_app. cbn [length].
    split_and!.
    + change (Z.succ (score c) = score a + Z.of_nat (length l + 1)). lia.
    + change (Z.succ (total_problems c) = total_problems a + Z.of_nat (length l + 1)). lia.
    + exact H3.
    + intros s.
      change (c_issues <$> get_single (upd_single (s_set_c_issues Z.succ) x c) s
              = (λ S, c_issues S + Z.of_nat (occurrences s (l ++ [x]))) <$> get_single a s).
      rewrite get_single_upd_single, occurrences_snoc. specialize (H4 s).
      destruct (decide (x = s)) as [->|Hne].
      * destruct (get_single c s) as [S1|], (get_single a s) as [S0|]; try done.
        simpl in *. injection H4 as H4. f_equal. destruct S1; simpl in *. lia.
      * rewrite H4. destruct (get_single a s); [|done]. simpl. f_equal. lia.
  - split_and!; [cbn; lia..|done|]. intros s.
    change (c_issues <$> get_single a s
            = (λ S, c_issues S + Z.of_nat (occurrences s [])) <$> get_single a s).
    destruct (get_single a s); [|done]. simpl. f_equal. unfold occurrences. simpl. lia.
Qed.

(** on S1, the pair of the Singles (0,0) and (1,0) *)
Lemma enumeration_of_first_pair :
  build_t_way_interactions 0 0 first_pair S1_factors = Ok S1_first_pair
  ∧ score S1_first_pair = score S1_factors + Z.of_nat (length first_pair)
  ∧ total_problems S1_first_pair = total_problems S1_factors + Z.of_nat (length first_pair)
  ∧ coverage_problems S1_first_pair = coverage_problems S1_factors
  ∧ ∀ s, c_issues <$> get_single S1_first_pair s
         = (λ S, c_issues S + Z.of_nat (occurrences s first_pair)) <$> get_single S1_factors s.
Proof.
  assert (build_t_way_interactions 0 0 first_pair S1_factors = Ok S1_first_pair) as H.
  { vm_compute. reflexivity. }
  exact (conj H (enumeration_counts_each_constituent 0 first_pair S1_factors S1_first_pair H)).
Defined.

(** C6 as the specification words it does not hold: on S1 one enumerated
    pair adds two to [score] and to [total_problems], the twelve pairs add
    twenty-four, and the coverage-only constructor ends with [score = 60]
    where [coverage_problems] plus the sum of [c_issues] is [36]. *)
Lemma one_interaction_adds_t_not_one :
  build_t_way_interactions 0 0 first_pair S1_factors = Ok S1_first_pair
  ∧ score S1_factors = 0 ∧ score S1_first_pair = 2
  ∧ total_problems S1_factors = 0 ∧ total_problems S1_first_pair = 2
  ∧ (∃ a, build_t_way_interactions 2 0 [] S1_factors = Ok a
       ∧ length (interactions a) = 12%nat ∧ score a = 24 ∧ total_problems a = 24)
  ∧ (∃ a, Array_of_Parser S1_parser = Ok a
       ∧ score a = 60 ∧ coverage_problems a + sum_c_issues a = 36).
Proof.
  split_and!; try (vm_compute; reflexivity).
  - eexists. split; [vm_compute; reflexivity|]. split_and!; vm_compute; reflexivity.
  - eexists. split; [vm_compute; reflexivity|]. split_and!; vm_compute; reflexivity.
Qed.


(** * The theorems at work on scenario S3 *)

(** look-ahead on S3: the second row is tried on the Array that holds the
    first *)
Lemma lookahead_on_S3 :
  rows_bounded S3_one_row
  ∧ update_array second_row (interactions_of S3_one_row second_row) true S3_one_row
    = Ok S3_second_row_kept
  ∧ ∃ a', update_array second_row (interactions_of S3_one_row second_row) false S3_one_row
          = Ok a'
      ∧ same_books S3_second_row_kept a' ∧ same_skeleton S3_one_row a'.
Proof.
  assert (rows_bounded S3_one_row) as H1.
  { apply rows_bounded_dec_sound. apply (bool_decide_unpack _). vm_compute. reflexivity. }
  assert (update_array second_row (interactions_of S3_one_row second_row) true S3_one_row
          = Ok S3_second_row_kept) as H2.
  { vm_compute. reflexivity. }
  exact (conj H1 (conj H2
    (lookahead_keeps_counters_restores_rows second_row
       (interactions_of S3_one_row second_row) S3_one_row S3_second_row_kept H1 H2))).
Defined.

(** the flags on S3, from four rows to the full factorial *)
Lemma flags_on_S3 :
  update_array_seq four_more_calls S3_four_rows = Ok S3_full_factorial
  ∧ flags_mono S3_four_rows S3_full_factorial.
Proof.
  assert (update_array_seq four_more_calls S3_four_rows = Ok S3_full_factorial) as H.
  { vm_compute. reflexivity. }
  exact (conj H (flags_never_reset four_more_calls S3_four_rows S3_full_factorial H)).
Defined.


(** * [heuristic_l_only] *)

Lemma reads_Ok {A} (f : Array → result A) a g x a' g' :
  reads f a g = Ok (x, a', g') ↔ f a = Ok x ∧ a' = a ∧ g' = g.
Proof. unfold reads. destruct (f a); split; [|naive_solver..]; by intros [= -> -> ->]. Qed.

Lemma lift_Ok {A} (r : result A) a g x a' g' :
  lift r a g = Ok (x, a', g') ↔ r = Ok x ∧ a' = a ∧ g' = g.
Proof. unfold lift. destruct r; split; [|naive_solver..]; by intros [= -> -> ->]. Qed.

Lemma mret_Ok {A} (y : A) a g x a' g' :
  (mret y : M A) a g = Ok (x, a', g') ↔ x = y ∧ a' = a ∧ g' = g.
Proof. unfold mret, M_ret. split; [by intros [= -> -> ->]|naive_solver]. Qed.

(** a loop of [M] whose body leaves the Array alone, with an invariant that
    mentions the part of the list already visited *)
Lemma forM_prefix_from {A S} (P : list A → S → Prop) (f : A → S → M S) l0 l s a g r a' g' :
  (∀ l1 x l2 s g1 s' a2 g2, l0 ++ l = l1 ++ x :: l2 → P l1 s →
     f x s a g1 = Ok (s', a2, g2) → a2 = a ∧ P (l1 ++ [x]) s') →
  P l0 s → forM f l s a g = Ok (r, a', g') → a' = a ∧ P (l0 ++ l) r.
Proof.
  revert s g l0. induction l as [|x l IH]; intros s g l0 Hf Hs H; simpl in H.
  - apply mret_Ok in H as (-> & -> & ->). by rewrite app_nil_r.
  - apply M_bind_Ok in H as (s1 & a1 & g1 & H1 & H).
    destruct (Hf l0 x l s g s1 a1 g1 eq_refl Hs H1) as [-> Hs1].
    rewrite cons_middle, app_assoc. eapply IH; [|done|done].
    intros l1 y l2 ? ? ? ? ? E. apply (Hf l1 y l2). by rewrite <- E, <- app_assoc.
Qed.

Lemma forM_prefix {A S} (P : list A → S → Prop) (f : A → S → M S) l s a g r a' g' :
  (∀ l1 x l2 s g1 s' a2 g2, l = l1 ++ x :: l2 → P l1 s →
     f x s a g1 = Ok (s', a2, g2) → a2 = a ∧ P (l1 ++ [x]) s') →
  P [] s → forM f l s a g = Ok (r, a', g') → a' = a ∧ P l r.
Proof. apply (forM_prefix_from P f [] l). Qed.

(** splits the binds of a hypothesis [H : m a g = Ok _] *)
Ltac inv_M H :=
  repeat first
    [ match type of H with
      | mret _ _ _ = Ok _ => apply mret_Ok in H as (? & ? & ?); subst
      | reads _ _ _ = Ok _ =>
        let H' := fresh H in apply reads_Ok in H as (H & ? & ?); subst
      | lift _ _ _ = Ok _ =>
        let H' := fresh H in apply lift_Ok in H as (H & ? & ?); subst
      | factor_at _ _ _ = Ok _ => unfold factor_at in H
      | columns _ _ = Ok _ => unfold columns in H
      | mbind _ _ _ _ = Ok _ =>
        let x := fresh "x" in
        let a1 := fresh "a" in
        let g1 := fresh "g" in
        let Hx := fresh "H" x in
        apply M_bind_Ok in H as (x & a1 & g1 & Hx & H); inv_M Hx
      end ].

Lemma occurrences_app s l1 l2 :
  occurrences s (l1 ++ l2) = (occurrences s l1 + occurrences s l2)%nat.
Proof. unfold occurrences. by rewrite filter_app, length_app. Qed.

Lemma singles_values_snoc a l s S :
  get_single a s = Some S →
  singles_values a (l ++ [s]) = singles_values a l ++ [(factor S, value S)].
Proof.
  intros HS. unfold singles_values. rewrite bind_app. f_equal.
  cbn [mbind list_bind]. rewrite HS. reflexivity.
Qed.

Lemma sets_values_snoc a l k X :
  sets a !! k = Some X →
  sets_values a (l ++ [k]) = sets_values a l ++ singles_values a (t_singles X).
Proof.
  intros HX. unfold sets_values. rewrite bind_app. f_equal.
  cbn [mbind list_bind]. rewrite HX. cbn [option_list mbind list_bind].
  simpl. by rewrite !app_nil_r.
Qed.

(** the columns that are not to be modified *)
Lemma locked_factors_spec ss n a g lf a' g' :
  forM (λ s locked_factors,
      S ← reads (λ a, single_at a s);
      lift (write_at locked_factors (factor S) true))
    ss (replicate n false) a g = Ok (lf, a', g') →
  a' = a ∧ length lf = n
  ∧ ∀ col, lf !! col = Some true ↔
      ∃ s S, s ∈ ss ∧ get_single a s = Some S ∧ factor S = col.
Proof.
  apply (forM_prefix (λ l lf, length lf = n
    ∧ ∀ col, lf !! col = Some true ↔
        ∃ s S, s ∈ l ∧ get_single a s = Some S ∧ factor S = col)).
  - intros l1 s l2 lf0 g1 lf1 a2 g2 _ [Hlen Hlf] H. inv_M H.
    apply single_at_Ok in Hx. unfold write_at in H.
    destruct (decide (factor x < length lf0)%nat) as [Hlt|]; [|done].
    apply Ok_inj in H as <-. split; [done|]. split; [by rewrite length_insert|].
    intros col. destruct (decide (col = factor x)) as [->|Hne].
    + rewrite list_lookup_insert_eq by done. split; [|done]. intros _.
      exists s, x. split_and!; [|done..]. apply elem_of_app. right. by left.
    + rewrite list_lookup_insert_ne by done. rewrite Hlf. split.
      * intros (s' & S' & Hs' & HS' & <-). exists s', S'. split_and!; [|done..].
        apply elem_of_app. by left.
      * intros (s' & S' & Hs' & HS' & <-). exists s', S'. split_and!; [|done..].
        apply elem_of_app in Hs' as [?|Hs']; [done|].
        apply list_elem_of_singleton in Hs' as ->. congruence.
  - split; [by rewrite length_replicate|]. intros col. split.
    + intros H. apply lookup_replicate in H as [? _]. done.
    + intros (s & _ & Hs & _). by apply elem_of_nil in Hs.
Qed.

(** the map of scores, as initialised: zero for every Single *)
Lemma scores_init_spec (cols : list nat) (a : Array) g sc a' g' :
  forM (λ col scores,
      F ← factor_at col;
      mret (for_each (λ val, map_insert_new [(col, val)] 0) (seq 0 (level F)) scores))
    cols (∅ : gmap fingerprint Z) a g = Ok (sc, a', g') →
  a' = a
  ∧ (∀ key z, sc !! key = Some z → z = 0)
  ∧ ∀ c v F, c ∈ cols → factors a !! c = Some F → (v < level F)%nat →
      sc !! [(c, v)] = Some 0.
Proof.
  apply (forM_prefix (λ l (sc : gmap fingerprint Z),
    (∀ key z, sc !! key = Some z → z = 0)
    ∧ ∀ c v F, c ∈ l → factors a !! c = Some F → (v < level F)%nat →
        sc !! [(c, v)] = Some 0)).
  - intros l1 col l2 sc0 g1 sc1 a2 g2 _ [Hz Hin] H. inv_M H.
    apply or_fail_Ok in Hx. split; [done|].
    assert (∀ vs : list nat,
      let sc' := for_each (λ val, map_insert_new [(col, val)] 0) vs sc0 in
      (∀ key z, sc' !! key = Some z → z = 0)
      ∧ (∀ key, is_Some (sc0 !! key) → is_Some (sc' !! key))
      ∧ (∀ v, v ∈ vs → is_Some (sc' !! [(col, v)]))) as Hinner.
    { intros vs. cbv zeta. apply (for_each_prefix (λ l (sc' : gmap fingerprint Z),
        (∀ key z, sc' !! key = Some z → z = 0)
        ∧ (∀ key, is_Some (sc0 !! key) → is_Some (sc' !! key))
        ∧ (∀ v, v ∈ l → is_Some (sc' !! [(col, v)])))).
      - intros l v sc' (H1 & H2 & H3). split_and!.
        + intros key z. rewrite lookup_map_insert_new.
          destruct (sc' !! key) as [w|] eqn:E; [intros [= <-]; eauto|].
          case_decide; [|done]. by intros [= <-].
        + intros key Hk. apply H2 in Hk as [w Hw].
          rewrite lookup_map_insert_new, Hw. eauto.
        + intros v' Hv'. rewrite lookup_map_insert_new.
          apply elem_of_app in Hv' as [Hv'|Hv'].
          * apply H3 in Hv' as [w Hw]. rewrite Hw. eauto.
          * apply list_elem_of_singleton in Hv' as ->.
            destruct (sc' !! [(col, v)]); [eauto|]. rewrite decide_True by done. eauto.
      - split_and!; [done|done|]. intros v Hv. by apply elem_of_nil in Hv. }
    destruct (Hinner (seq 0 (level x))) as (H1 & H2 & H3). split; [done|].
    intros c v F Hc HF Hv.
    assert (is_Some (for_each (λ val, map_insert_new [(col, val)] 0)
                       (seq 0 (level x)) sc0 !! [(c, v)])) as [w Hw].
    { apply elem_of_app in Hc as [Hc|Hc].
      - apply H2. rewrite (Hin c v F); eauto.
      - apply list_elem_of_singleton in Hc as ->.
        assert (F = x) as -> by congruence. apply H3. apply elem_of_seq. lia. }
    rewrite Hw. f_equal. by eapply H1.
  - split; [|intros c v F Hc; by apply elem_of_nil in Hc].
    intros key z. by rewrite lookup_empty.
Qed.

(** the map of scores, once the Singles of the conflicting T sets are counted *)
Lemma scores_count_spec (ks : list nat) (sc0 : gmap fingerprint Z) (a : Array) g sc a' g' :
  forM (λ conflict scores,
      C ← reads (λ a, T_at a conflict);
      forM (λ s scores,
          S ← reads (λ a, single_at a s);
          v ← lift (or_fail OutOfRange (scores !! Single_to_string S));
          mret (<[Single_to_string S := v + 1]> scores))
        (t_singles C) scores)
    ks sc0 a g = Ok (sc, a', g') →
  a' = a
  ∧ ∀ c v, sc !! [(c, v)]
      = (λ z, z + Z.of_nat (occurrences (c, v) (sets_values a ks))) <$> sc0 !! [(c, v)].
Proof.
  apply (forM_prefix (λ l (sc : gmap fingerprint Z),
    ∀ c v, sc !! [(c, v)]
      = (λ z, z + Z.of_nat (occurrences (c, v) (sets_values a l))) <$> sc0 !! [(c, v)])).
  - intros l1 k l2 sc1 g1 sc2 a2 g2 _ Hsc H. inv_M H. apply T_at_Ok in Hx.
    rewrite (sets_values_snoc _ _ _ _ Hx). revert H.
    intros H. apply (forM_prefix (λ l (sc : gmap fingerprint Z),
      ∀ c v, sc !! [(c, v)]
        = (λ z, z + Z.of_nat (occurrences (c, v) (sets_values a l1 ++ singles_values a l)))
            <$> sc0 !! [(c, v)])) in H; [done| |].
    + clear H. intros l s l' sc3 g3 sc4 a4 g4 _ Hsc3 H. inv_M H.
      apply single_at_Ok in Hx0. apply or_fail_Ok in Hx1. split; [done|].
      intros c v. rewrite (singles_values_snoc _ _ _ _ Hx0), app_assoc, occurrences_snoc.
      unfold Single_to_string in *.
      destruct (decide ((factor x0, value x0) = (c, v))) as [E|Hne].
      * injection E as <- <-. rewrite lookup_insert_eq.
        rewrite Hsc3 in Hx1. destruct (sc0 !! [(factor x0, value x0)]) as [z|]; [|done].
        simpl in *. injection Hx1 as <-. f_equal. lia.
      * rewrite lookup_insert_ne by congruence. rewrite Hsc3.
        destruct (sc0 !! [(c, v)]); [|done]. simpl. f_equal. lia.
    + intros c v. unfold singles_values. simpl. by rewrite app_nil_r.
  - intros c v. unfold sets_values, occurrences. simpl.
    destruct (sc0 !! [(c, v)]); [|done]. simpl. f_equal. lia.
Qed.

(** the scan of the levels of one column: strict improvements only, from a
    best score of zero *)
Lemma best_value_spec (count : nat → Z) (col : nat) (sc : gmap fingerprint Z) (lv : nat)
    (a : Array) g bv bs a' g' :
  (∀ v, (v < lv)%nat → sc !! [(col, v)] = Some (count v)) →
  forM (λ val '(best_val, best_val_score),
      val_score ← lift (or_fail OutOfRange (sc !! [(col, val)]));
      if decide (best_val_score < val_score) then mret (val, val_score)
      else mret (best_val, best_val_score))
    (seq 0 lv) (0%nat, 0) a g = Ok ((bv, bs), a', g') →
  a' = a ∧ 0 ≤ bs ∧ (∀ v, (v < lv)%nat → count v ≤ bs)
  ∧ (bs ≠ 0 → (bv < lv)%nat ∧ count bv = bs ∧ ∀ v', (v' < bv)%nat → count v' < bs).
Proof.
  intros Hsc H.
  apply (forM_prefix (λ l (st : nat * Z),
    0 ≤ st.2 ∧ (∀ v, (v < length l)%nat → count v ≤ st.2)
    ∧ (st.2 ≠ 0 → (st.1 < length l)%nat ∧ count st.1 = st.2
         ∧ ∀ v', (v' < st.1)%nat → count v' < st.2))) in H.
  - rewrite length_seq in H. exact H.
  - clear H. intros l1 x l2 [bv0 bs0] g1 [bv1 bs1] a2 g2 E (H0 & Hmax & Hfirst) H.
    cbn [fst snd] in *.
    assert (x = length l1 ∧ (x < lv)%nat) as [-> Hlt].
    { pose proof (f_equal (.!! length l1) E) as E'.
      rewrite list_lookup_middle in E' by done.
      apply lookup_seq in E' as [E1 E2]. simpl in E1. lia. }
    inv_M H. apply or_fail_Ok in Hx. rewrite (Hsc _ Hlt) in Hx. injection Hx as <-.
    rewrite length_app. cbn [length].
    destruct (decide (bs0 < count (length l1))) as [Hbetter|Hnot];
      apply mret_Ok in H as (H & -> & _); injection H as -> ->; split; try done.
    + split_and!; [lia| |].
      * intros v Hv. destruct (decide (v = length l1)) as [->|]; [lia|].
        specialize (Hmax v). lia.
      * intros _. split_and!; [lia|done|]. intros v' Hv'. specialize (Hmax v' Hv'). lia.
    + split_and!; [lia| |].
      * intros v Hv. destruct (decide (v = length l1)) as [->|]; [lia|].
        specialize (Hmax v). lia.
      * intros Hne. destruct (Hfirst Hne) as (? & ? & ?). split_and!; [lia|done..].
  - cbn. split_and!; [lia|intros; lia|done].
Qed.

(** C7, as the code has it. [heuristic_l_only] counts every Single once for
    each time it is listed in a T set in conflict with the locked one (a T
    set lists a Single once per Interaction that holds it). A column that
    holds a Single of the locked set keeps its value. In any other column
    the value is kept when all the counts of the column are zero;
    otherwise the row gets the lowest level among those with the highest
    count, whatever the value was. *)
Theorem heuristic_l_only_takes_first_maximum row locked a g row' a' g' :
  heuristic_l_only row (Some locked) a g = Ok (row', a', g') →
  ∃ L, sets a !! locked = Some L
    ∧ length row' = length row
    ∧ ∀ col,
        (locked_column a L col → row' !! col = row !! col)
        ∧ (¬ locked_column a L col → (col < num_factors a)%nat →
           ∀ F, factors a !! col = Some F →
             ((∀ v, (v < level F)%nat → conflict_count a L col v = 0) →
                row' !! col = row !! col)
             ∧ (∀ v, (v < level F)%nat → 0 < conflict_count a L col v →
                  (∀ v', (v' < level F)%nat →
                     conflict_count a L col v' ≤ conflict_count a L col v) →
                  (∀ v', (v' < v)%nat →
                     conflict_count a L col v' < conflict_count a L col v) →
                  row' !! col = Some v)).
Proof.
  unfold heuristic_l_only. intros H.
  apply M_bind_Ok in H as (k & a1 & g1 & Hk & H). apply lift_Ok in Hk as (Hk & -> & ->).
  injection Hk as <-.
  apply M_bind_Ok in H as (L & a1 & g1 & HL & H). apply reads_Ok in HL as (HL & -> & ->).
  apply T_at_Ok in HL.
  apply M_bind_Ok in H as (cols & a1 & g1 & Hcols & H). unfold columns in Hcols.
  apply reads_Ok in Hcols as (Hcols & -> & ->). apply Ok_inj in Hcols as <-.
  apply M_bind_Ok in H as (lf & a1 & g1 & Hlf & H).
  apply locked_factors_spec in Hlf as (-> & Hlen & Hlf). rewrite length_seq in Hlen.
  apply M_bind_Ok in H as (sc0 & a1 & g2 & Hsc0 & H).
  apply scores_init_spec in Hsc0 as (-> & _ & Hsc0).
  apply M_bind_Ok in H as (sc & a1 & g3 & Hsc & H).
  apply scores_count_spec in Hsc as (-> & Hsc).
  assert (∀ c v F, (c < num_factors a)%nat → factors a !! c = Some F → (v < level F)%nat →
            sc !! [(c, v)] = Some (conflict_count a L c v)) as Hcount.
  { intros c v F Hc HF Hv. rewrite Hsc, (Hsc0 c v F); [|apply elem_of_seq; lia|done..].
    done. }
  clear Hsc Hsc0. exists L. split; [done|].
  assert (∀ col, (col < num_factors a)%nat →
            ∃ b : bool, lf !! col = Some b ∧ (b = true ↔ locked_column a L col)) as Hlocked.
  { intros col Hcol. destruct (lookup_lt_is_Some_2 lf col) as [b Hb]; [lia|].
    exists b. split; [done|]. unfold locked_column. rewrite <- Hlf, Hb. split; congruence. }
  set (good := λ (col : nat) (o : option nat),
    (locked_column a L col → o = row !! col)
    ∧ (¬ locked_column a L col → (col < num_factors a)%nat →
       ∀ F, factors a !! col = Some F →
         ((∀ v, (v < level F)%nat → conflict_count a L col v = 0) → o = row !! col)
         ∧ (∀ v, (v < level F)%nat → 0 < conflict_count a L col v →
              (∀ v', (v' < level F)%nat →
                 conflict_count a L col v' ≤ conflict_count a L col v) →
              (∀ v', (v' < v)%nat →
                 conflict_count a L col v' < conflict_count a L col v) →
              o = Some v))).
  apply (forM_prefix (λ l r, length r = length row
    ∧ ∀ col, (col ∉ l → r !! col = row !! col) ∧ (col ∈ l → good col (r !! col)))) in H.
  - destruct H as (_ & Hlen' & Hall). split; [done|]. intros col.
    destruct (Hall col) as [Hout Hin].
    destruct (decide (col ∈ seq 0 (num_factors a))) as [Hc|Hc].
    + apply (Hin Hc).
    + split; [intros _; by apply Hout|]. intros _ Hlt. exfalso. apply Hc, elem_of_seq. lia.
  - clear H. intros l1 col l2 r0 g4 r1 a2 g5 E [Hlen0 Hr0] H.
    assert ((col ∉ l1) ∧ (col < num_factors a)%nat) as [Hfresh Hcol].
    { pose proof (NoDup_seq 0 (num_factors a)) as Hnd. rewrite E in Hnd.
      apply NoDup_app in Hnd as (_ & Hnd & _). split.
      - intros Hin. apply (Hnd col Hin). by left.
      - assert (col ∈ seq 0 (num_factors a)) as Hin
          by (rewrite E; apply elem_of_app; right; by left).
        apply elem_of_seq in Hin. lia. }
    assert (∀ o, good col o →
              ∀ r, (∀ c, c ≠ col → r !! c = r0 !! c) → r !! col = o → length r = length r0 →
              length r = length row
              ∧ ∀ c, (c ∉ l1 ++ [col] → r !! c = row !! c)
                     ∧ (c ∈ l1 ++ [col] → good c (r !! c))) as Hstep.
    { intros o Ho r Hne Heq Hl. split; [congruence|]. intros c. split.
      - intros Hc. assert ((c ∉ l1) ∧ c ≠ col) as [Hc1 Hc2].
        { split; intros ?; apply Hc, elem_of_app; [by left|right; subst; by left]. }
        rewrite (Hne c Hc2). by apply (proj1 (Hr0 c)).
      - intros Hc. destruct (decide (c = col)) as [->|Hcc]; [by rewrite Heq|].
        rewrite (Hne c Hcc). apply (proj2 (Hr0 c)). apply elem_of_app in Hc as [?|Hc]; [done|].
        by apply list_elem_of_singleton in Hc. }
    apply M_bind_Ok in H as (b & a1 & g6 & Hb & H). apply lift_Ok in Hb as (Hb & -> & ->).
    unfold read_at in Hb. apply or_fail_Ok in Hb.
    destruct (Hlocked col Hcol) as (b' & Hb' & Hiff). rewrite Hb' in Hb.
    injection Hb as ->. destruct b.
    + assert (locked_column a L col) as Hlk by by apply Hiff.
      apply mret_Ok in H as (-> & -> & _).
      split; [done|]. apply (Hstep (row !! col)); [|done| |done].
      * split; [done|]. intros Hn. by destruct Hn.
      * by apply (proj1 (Hr0 col)).
    + assert (¬ locked_column a L col) as Hnl by (intros Hc; apply Hiff in Hc; done).
      apply M_bind_Ok in H as (F & a1 & g6 & HF & H). unfold factor_at in HF.
      apply reads_Ok in HF as (HF & -> & ->). apply or_fail_Ok in HF.
      apply M_bind_Ok in H as ([bv bs] & a1 & g6 & Hbest & H).
      apply (best_value_spec (conflict_count a L col)) in Hbest
        as (-> & Hpos & Hmax & Hfirst); [|intros v Hv; by apply (Hcount col v F)].
      destruct (decide (bs ≠ 0)) as [Hne|Hz].
      * apply lift_Ok in H as (H & -> & _). unfold write_at in H.
        destruct (decide (col < length r0)%nat) as [Hlt|]; [|done].
        apply Ok_inj in H as <-. split; [done|].
        destruct (Hfirst Hne) as (Hbv & Hcnt & Hbefore).
        apply (Hstep (Some bv)).
        -- split; [done|]. intros _ _ F' HF'. assert (F' = F) as -> by congruence.
           split.
           ++ intros Hzero. rewrite (Hzero bv Hbv) in Hcnt. congruence.
           ++ intros v Hv Hvpos Hvmax Hvfirst. f_equal.
              destruct (Nat.lt_trichotomy bv v) as [Hlt'|[->|Hgt]]; [|done|].
              ** specialize (Hvfirst bv Hlt'). specialize (Hmax v Hv). lia.
              ** specialize (Hbefore v Hgt). specialize (Hvmax bv Hbv). lia.
        -- intros c Hc. by rewrite list_lookup_insert_ne.
        -- by rewrite list_lookup_insert_eq.
        -- by rewrite length_insert.
      * apply mret_Ok in H as (-> & -> & _). split; [done|].
        assert (bs = 0) as -> by (destruct (decide (bs = 0)); [done|by destruct Hz]).
        apply (Hstep (row !! col)); [|done| |done].
        -- split; [done|]. intros _ _ F' HF'. assert (F' = F) as -> by congruence.
           split; [done|]. intros v Hv Hvpos _ _. specialize (Hmax v Hv). lia.
        -- by apply (proj1 (Hr0 col)).
  - split; [done|]. intros col. split; [done|]. intros Hc. by apply elem_of_nil in Hc.
Qed.

(** the theorem on the Array of two factors, of two and three levels, that
    holds the rows [0 0] and [1 1]: the first T set is locked *)
Lemma heuristic_l_only_on_pairs :
  heuristic_l_only [1; 2]%nat (Some 0%nat) pairs_two_rows rng_two
    = Ok ([1; 0]%nat, pairs_two_rows, rng_two)
  ∧ ∃ L, sets pairs_two_rows !! 0%nat = Some L
    ∧ length [1; 0]%nat = length [1; 2]%nat
    ∧ ∀ col,
        (locked_column pairs_two_rows L col → [1; 0]%nat !! col = [1; 2]%nat !! col)
        ∧ (¬ locked_column pairs_two_rows L col → (col < num_factors pairs_two_rows)%nat →
           ∀ F, factors pairs_two_rows !! col = Some F →
             ((∀ v, (v < level F)%nat → conflict_count pairs_two_rows L col v = 0) →
                [1; 0]%nat !! col = [1; 2]%nat !! col)
             ∧ (∀ v, (v < level F)%nat → 0 < conflict_count pairs_two_rows L col v →
                  (∀ v', (v' < level F)%nat →
                     conflict_count pairs_two_rows L col v'
                     ≤ conflict_count pairs_two_rows L col v) →
                  (∀ v', (v' < v)%nat →
                     conflict_count pairs_two_rows L col v'
                     < conflict_count pairs_two_rows L col v) →
                  [1; 0]%nat !! col = Some v)).
Proof.
  assert (heuristic_l_only [1; 2]%nat (Some 0%nat) pairs_two_rows rng_two
          = Ok ([1; 0]%nat, pairs_two_rows, rng_two)) as H.
  { vm_compute. reflexivity. }
  exact (conj H (heuristic_l_only_takes_first_maximum _ _ _ _ _ _ _ H)).
Defined.

(** C7 as the specification words it does not hold. On the Array of two
    factors, of two and three levels, with the rows [0 0] and [1 1],
    [initialize_row_T] can return the row [1 2] with the first T set locked
    (it is one of the four sets with three conflicts); the second column is
    free, its levels 0 and 1 are both in two conflicting sets and level 2 in
    none; [heuristic_l_only] does not keep the 2 that the initializer drew:
    it writes 0, the lower of the two tied levels. *)
Lemma tie_goes_to_the_lowest_level :
  ∃ g L,
    initialize_row_T pairs_two_rows rng_two = Ok (([1; 2]%nat, 0%nat), pairs_two_rows, g)
    ∧ heuristic_l_only [1; 2]%nat (Some 0%nat) pairs_two_rows g
      = Ok ([1; 0]%nat, pairs_two_rows, g)
    ∧ sets pairs_two_rows !! 0%nat = Some L
    ∧ t_singles L = [(0, 0); (0, 1)]%nat
    ∧ conflicting_sets_with pairs_two_rows L (1, 0)%nat = 2%nat
    ∧ conflicting_sets_with pairs_two_rows L (1, 1)%nat = 2%nat
    ∧ conflicting_sets_with pairs_two_rows L (1, 2)%nat = 0%nat
    ∧ conflict_count pairs_two_rows L 1 0 = 2
    ∧ conflict_count pairs_two_rows L 1 1 = 2
    ∧ conflict_count pairs_two_rows L 1 2 = 0.
Proof.
  eexists _, _. split; [vm_compute; reflexivity|].
  split; [vm_compute; reflexivity|]. split; [vm_compute; reflexivity|].
  split_and!; vm_compute; reflexivity.
Qed.


(** * Committing a row *)

(** ** The Interactions of a row *)

Lemma incr_from_head_in_range start n c cs :
  incr_from start n (c :: cs) → c ∈ range start (loop_bound n (S (length cs))).
Proof.
  simpl. intros [Hc Hcs]. apply elem_of_range. unfold loop_bound.
  apply incr_from_length in Hcs. case_decide; [|destruct Hcs as [?| ->]; simpl in *; lia].
  destruct Hcs as [?| ->]; simpl in *; lia.
Qed.

Lemma build_row_interactions_spec a row t_cur start key acc ri :
  build_row_interactions a row t_cur start key acc = Ok ri →
  (∀ i, i ∈ ri ↔ i ∈ acc ∨ ∃ K, K ∈ row_keys row (num_factors a) t_cur start key
                              ∧ interaction_map a !! K = Some i)
  ∧ (∀ K, K ∈ row_keys row (num_factors a) t_cur start key →
       is_Some (interaction_map a !! K))
  ∧ (∀ cs, incr_from start (num_factors a) cs → length cs = t_cur →
       Forall (λ c, is_Some (row !! c)) cs).
Proof.
  revert start key acc ri. induction t_cur as [|t' IH]; intros start key acc ri H.
  - simpl in H. inv_Ok H. simpl. split_and!.
    + intros i. rewrite elem_of_union, elem_of_singleton. split.
      * intros [->|?]; [|by left]. right. exists key. split; [by left|done].
      * intros [?|(K & HK & Hi)]; [by right|]. apply list_elem_of_singleton in HK as ->.
        left. congruence.
    + intros K HK. apply list_elem_of_singleton in HK as ->. eauto.
    + intros cs _ Hl. destruct cs; [done|done].
  - cbn [build_row_interactions] in H.
    apply (foldM_prefix (λ l1 acc',
      (∀ i, i ∈ acc' ↔ i ∈ acc ∨ ∃ K,
          K ∈ (col ← l1; row_keys row (num_factors a) t' (col + 1)
                            (key ++ [(col, default 0%nat (row !! col))]))
          ∧ interaction_map a !! K = Some i)
      ∧ (∀ K, K ∈ (col ← l1; row_keys row (num_factors a) t' (col + 1)
                              (key ++ [(col, default 0%nat (row !! col))])) →
           is_Some (interaction_map a !! K))
      ∧ (∀ c, c ∈ l1 → is_Some (row !! c)
           ∧ ∀ cs, incr_from (c + 1) (num_factors a) cs → length cs = t' →
               Forall (λ c, is_Some (row !! c)) cs))) in H.
    + destruct H as (H1 & H2 & H3). cbn [row_keys]. split_and!; [done..|].
      intros cs Hcs Hl. destruct cs as [|c cs]; [done|]. injection Hl as Hl.
      pose proof (incr_from_head_in_range _ _ _ _ Hcs) as Hin. rewrite Hl in Hin.
      destruct (H3 c Hin) as [Hc Hrest]. constructor; [done|].
      apply Hrest; [|done]. by destruct Hcs.
    + clear H. intros l1 col acc1 acc2 (H1 & H2 & H3) H. inv_Ok H. rename x into v.
      apply IH in H as (H1' & H2' & H3').
      split_and!.
      * intros i. rewrite H1', H1, bind_app. setoid_rewrite elem_of_app.
        cbn [mbind list_bind]. rewrite Hx. cbn [default]. rewrite app_nil_r. naive_solver.
      * intros K. rewrite bind_app, elem_of_app. cbn [mbind list_bind].
        rewrite Hx. cbn [default]. rewrite app_nil_r. intros [?|?]; eauto.
      * intros c [?|Hc]%elem_of_app; [by apply H3|].
        apply list_elem_of_singleton in Hc as ->. split; [by eauto|done].
    + split_and!; [|intros K HK; by apply elem_of_nil in HK|intros c Hc; by apply elem_of_nil in Hc].
      intros i. split; [by left|]. intros [?|(K & HK & _)]; [done|]. by apply elem_of_nil in HK.
Qed.

(** ** The row sets after a committed row *)

Lemma rows_changed_skeleton ins n TS TI TT a0 a1 b :
  rows_changed ins n TS TI TT a0 a1 → same_skeleton a1 b →
  rows_changed ins n TS TI TT a0 b.
Proof.
  intros (H1 & H2 & H3) Hs. split_and!.
  - intros s S' HS'. destruct (agree_single _ _ _ _ _ _ _ _ Hs HS') as (S1 & HS1 & E).
    destruct (H1 s S1 HS1) as (S0 & HS0 & Hx). exists S0. split; [done|].
    unfold skel_s in E. injection E as _ _ ->. done.
  - intros i I' HI'. destruct (agree_interaction _ _ _ _ _ _ _ _ Hs HI') as (I1 & HI1 & E).
    destruct (H2 i I1 HI1) as (I0 & HI0 & Hx). exists I0. split; [done|].
    unfold skel_i in E. injection E as _ -> _. done.
  - intros k X' HX'. destruct (agree_T _ _ _ _ _ _ _ _ Hs HX') as (X1 & HX1 & E).
    destruct (H3 k X1 HX1) as (X0 & HX0 & Hx). exists X0. split; [done|].
    unfold skel_t in E. injection E as _ _ ->. done.
Qed.

Lemma update_array_keep_spec row ri a b :
  update_array row ri true a = Ok b →
  num_tests b = S (num_tests a) ∧ rows b = rows a ++ [row] ∧ same_topology a b
  ∧ (∀ i, i ∈ ri → is_Some (interactions a !! i))
  ∧ rows_changed true (S (num_tests a)) (touched_singles a (λ i, i ∈ ri))
      (λ i, i ∈ ri) (touched_sets a (λ i, i ∈ ri)) a b.
Proof.
  unfold update_array. intros H.
  apply bind_Ok in H as ([b' rs] & Hbody & H). apply Ok_inj in H as ->.
  rewrite update_array_body_unfold in Hbody. cbv zeta in Hbody.
  set (a0 := upd F_num_tests S (upd F_rows (λ l, l ++ [row]) a)) in *.
  apply bind_Ok in Hbody as ([a1 rs'] & Hins & Hbody).
  apply bind_Ok in Hbody as (b' & Hcount & Hbody). inv_Ok Hbody.
  destruct (insert_phase_rows _ _ _ _ _ Hins) as (Hn1 & Hrows1).
  destruct (insert_phase_spec _ _ _ _ _ Hins) as (Hbooks & Hvalid & Hrs & Hchanged).
  pose proof (counting_phases_skeleton _ _ _ _ Hcount) as Hskel.
  pose proof Hskel as (Ha & _). apply skel_a_inv in Ha as (_ & Hn2 & Hrows2).
  split_and!.
  - rewrite Hn2, Hn1. done.
  - rewrite Hrows2, Hrows1. done.
  - transitivity a0; [unfold a0; unfold same_topology; agree_steps|].
    transitivity a1; [by apply same_books_topology|by apply same_skeleton_topology].
  - exact Hvalid.
  - assert (rows_changed true (S (num_tests a)) (touched_singles a (λ i, i ∈ ri))
              (λ i, i ∈ ri) (touched_sets a (λ i, i ∈ ri)) a0 a1) as Hch.
    { eapply rows_changed_iff; [| | |exact Hchanged]; cbv beta; [done|done|].
      intros k. apply Hrs. }
    exact (rows_changed_skeleton _ _ _ _ _ _ _ _ Hch Hskel).
Qed.

(** ** Which Interactions and Singles a row holds *)

Lemma fmap_fst_recover (row : list nat) (ss : list SingleP) :
  holds_all ss row → (λ c, (c, default 0%nat (row !! c))) <$> ss.*1 = ss.
Proof.
  induction 1 as [|[c v] ss Hs _ IH]; [done|]. rewrite !fmap_cons. cbn [fst].
  unfold holds_single in Hs. cbn [fst snd] in Hs. by rewrite Hs, IH.
Qed.

Lemma row_interactions_spec a row ri :
  WF a → (1 ≤ t a ≤ num_factors a)%nat →
  build_row_interactions a row (t a) 0 [] ∅ = Ok ri →
  (∀ i I, interactions a !! i = Some I → (i ∈ ri ↔ holds_all (i_singles I) row))
  ∧ (∀ s S, get_single a s = Some S →
       (touched_singles a (λ i, i ∈ ri) s ↔ holds_single s row)).
Proof.
  intros (Hws & [Hwi1 Hwi2] & Hwt) Ht H.
  apply build_row_interactions_spec in H as (Hri & Hfound & Hrow).
  assert (∀ i I, interactions a !! i = Some I → (i ∈ ri ↔ holds_all (i_singles I) row))
    as Hone.
  { intros i I HI. rewrite Hri. split.
    - intros [Hi|(K & HK & Hi)]; [set_solver|].
      destruct (Hwi2 K i Hi) as (I' & HI' & <-). assert (I' = I) as -> by congruence.
      apply elem_of_row_keys in HK as (cs & Hcs & Hl & E). simpl in E. rewrite E.
      apply Forall_fmap. specialize (Hrow cs Hcs Hl).
      eapply Forall_impl; [exact Hrow|]. intros c [v Hv]. unfold holds_single. simpl.
      by rewrite Hv.
    - intros Hall. right. exists (i_singles I).
      destruct (Hwi1 i I HI) as (Hmap & Hlen & Hincr & _). split; [|done].
      apply elem_of_row_keys. exists ((i_singles I).*1). split_and!; [done| |].
      + by rewrite length_fmap.
      + simpl. by rewrite fmap_fst_recover. }
  split; [done|]. intros [c v] S HS. unfold touched_singles. split.
  - intros (i & I & Hi & HI & Hs). apply (Hone i I HI) in Hi.
    unfold holds_all in Hi. rewrite Forall_forall in Hi. by apply Hi.
  - intros Hh. unfold holds_single in Hh. simpl in Hh.
    destruct (Hws _ _ HS) as (_ & _ & Hc). simpl in Hc.
    destruct (column_in_some_combination (num_factors a) (t a) c Ht Hc)
      as (cs & Hcs & Hl & Hin).
    set (K := (λ c, (c, default 0%nat (row !! c))) <$> cs).
    assert (K ∈ row_keys row (num_factors a) (t a) 0 []) as HK.
    { apply elem_of_row_keys. exists cs. by split_and!. }
    destruct (Hfound K HK) as [i Hi]. destruct (Hwi2 K i Hi) as (I & HI & E).
    exists i, I. split_and!; [|done|].
    + apply Hri. right. eauto.
    + rewrite E. unfold K. apply list_elem_of_fmap. exists c. split; [|done].
      by rewrite Hh.
Qed.

(** ** The row sets stay consistent with the rows *)

Lemma stored_snoc n0 a b row (P : list nat → Prop) x :
  rows b = rows a ++ [row] →
  stored n0 b P x ↔ stored n0 a P x ∨ (x = (n0 + length (rows a) + 1)%nat ∧ P row).
Proof.
  intros E. unfold stored. rewrite E. split.
  - intros (k & r & Hk & -> & HP). apply lookup_app_Some in Hk as [Hk|[Hle Hk]].
    + left. eauto.
    + right. apply list_lookup_singleton_Some in Hk as [Hz <-]. split; [lia|done].
  - intros [(k & r & Hk & -> & HP)|[-> HP]].
    + exists k, r. split_and!; [|done..]. by apply lookup_app_l_Some.
    + exists (length (rows a)), row. split_and!; [|done..].
      by rewrite lookup_app_r, Nat.sub_diag.
Qed.

Lemma commit_consistent n0 row a b :
  WF a → (1 ≤ t a ≤ num_factors a)%nat → rows_consistent n0 a →
  update_array_row row true a = Ok b →
  rows_consistent n0 b ∧ same_topology a b.
Proof.
  intros Hwf Ht (Hn & HcS & HcI & HcT) H. unfold update_array_row in H.
  apply bind_Ok in H as (ri & Hri & H).
  destruct (row_interactions_spec _ _ _ Hwf Ht Hri) as (HriI & HriS).
  destruct (update_array_keep_spec _ _ _ _ H) as (Hnb & Hrb & Htopo & Hvalid & HchS & HchI & HchT).
  destruct Hwf as (Hws & [Hwi1 Hwi2] & [Hwt1 Hwt2]).
  split; [|done]. unfold rows_consistent. split_and!.
  - rewrite Hnb, Hrb, length_app, Hn. simpl. lia.
  - intros s S' HS' x. destruct (HchS s S' HS') as (S & HS & Hx).
    rewrite Hx, (stored_snoc n0 a b row _ x Hrb), (HcS s S HS x), (HriS s S HS).
    simpl. rewrite Hn. split; (intros [?|[-> ?]]; [by left|right; split; [lia|done]]).
  - intros i I' HI' x. destruct (HchI i I' HI') as (I & HI & Hx).
    destruct (agree_interaction _ _ _ _ _ _ _ _ Htopo HI') as (I0 & HI0 & E).
    assert (I0 = I) as -> by congruence. unfold topo_i in E. injection E as -> _.
    rewrite Hx, (stored_snoc n0 a b row _ x Hrb), (HcI i I HI x), (HriI i I HI).
    simpl. rewrite Hn. split; (intros [?|[-> ?]]; [by left|right; split; [lia|done]]).
  - intros k X' HX' x. destruct (HchT k X' HX') as (X & HX & Hx).
    destruct (agree_T _ _ _ _ _ _ _ _ Htopo HX') as (X0 & HX0 & E).
    assert (X0 = X) as -> by congruence. unfold topo_t in E. injection E as -> _.
    rewrite Hx, (HcT k X HX x). simpl. unfold touched_sets. split.
    + intros [(i & I & Hi & HI & Hxi)|[-> (i & I & Hi & HI & Hk)]].
      * destruct (Htopo) as (_ & _ & HtI & _). specialize (HtI i). rewrite HI in HtI.
        destruct (interactions b !! i) as [I'|] eqn:HI'; [|done].
        exists i, I'. split_and!; [done..|].
        destruct (HchI i I' HI') as (I0 & HI0 & ->). assert (I0 = I) as -> by congruence.
        simpl. by left.
      * apply (Hwt1 i I HI) in Hk as (X1 & HX1 & Hin).
        assert (X1 = X) as -> by congruence.
        destruct (Htopo) as (_ & _ & HtI & _). specialize (HtI i). rewrite HI in HtI.
        destruct (interactions b !! i) as [I'|] eqn:HI'; [|done].
        exists i, I'. split_and!; [done..|].
        destruct (HchI i I' HI') as (I0 & HI0 & ->). simpl. by right.
    + intros (i & I' & Hi & HI' & Hxi).
      destruct (HchI i I' HI') as (I & HI & Hx'). rewrite Hx' in Hxi. simpl in Hxi.
      destruct Hxi as [Hxi|[-> Hin]].
      * left. eauto.
      * right. split; [done|]. exists i, I. split_and!; [done..|].
        apply (Hwt1 i I HI). eauto.
Qed.


(** * Runs: the constructor, then [add_random_row] and [add_row] *)

Lemma modify_Ok (f : Array → Array) a g x a' g' :
  modify f a g = Ok (x, a', g') ↔ a' = f a ∧ g' = g.
Proof. unfold modify. destruct x. split; [by intros [= <- <-]|by intros [-> ->]]. Qed.

Lemma upd_permutation_eta a : a = upd F_permutation (λ _, permutation a) a.
Proof. by destruct a. Qed.

(** [shuffle] only writes [permutation] *)
Lemma shuffle_spec a g u a' g' :
  shuffle a g = Ok (u, a', g') → ∃ perm, a' = upd F_permutation (λ _, perm) a.
Proof.
  unfold shuffle. intros H. apply M_bind_Ok in H as (n & a1 & g1 & Hn & H).
  apply reads_Ok in Hn as (_ & -> & ->). revert H.
  generalize (reverse (seq 1 n)). intros l. generalize (). intros u0.
  assert (∃ perm, a = upd F_permutation (λ _, perm) a) as Hstart
    by (eexists; apply upd_permutation_eta).
  revert Hstart. generalize a at 1 3 as c. revert u0 g.
  induction l as [|size l IH]; intros u0 g c Hc H; simpl in H.
  - apply mret_Ok in H as (_ & -> & _). done.
  - apply M_bind_Ok in H as (u1 & c1 & g1 & Hbody & H).
    apply (IH u1 g1 c1); [|done]. clear H IH. destruct Hc as [perm0 ->].
    apply M_bind_Ok in Hbody as (r & c2 & g2 & Hr & Hbody).
    apply read_only_rand_mod in Hr as ->.
    apply M_bind_Ok in Hbody as (perm & c2 & g3 & Hp & Hbody).
    apply reads_Ok in Hp as (_ & -> & ->).
    apply M_bind_Ok in Hbody as (temp & c2 & g3 & Hp & Hbody).
    apply lift_Ok in Hp as (_ & -> & ->).
    apply M_bind_Ok in Hbody as (x & c2 & g3 & Hp & Hbody).
    apply lift_Ok in Hp as (_ & -> & ->).
    apply M_bind_Ok in Hbody as (perm1 & c2 & g3 & Hp & Hbody).
    apply lift_Ok in Hp as (_ & -> & ->).
    apply M_bind_Ok in Hbody as (perm2 & c2 & g3 & Hp & Hbody).
    apply lift_Ok in Hp as (_ & -> & ->).
    apply modify_Ok in Hbody as [-> _]. by eexists.
Qed.

(** ** The [add_row] of [array.cpp] *)

Lemma upd_dont_cares_eta a : a = upd F_dont_cares (λ _, dont_cares a) a.
Proof. by destruct a. Qed.

Lemma tags_only_read_only {A} (m : M A) : read_only m → tags_only m.
Proof.
  intros Hm a g x a' g' H. apply Hm in H as ->. eexists. split; [apply upd_dont_cares_eta|done].
Qed.

Lemma tags_only_bind {A B} (m : M A) (f : A → M B) :
  tags_only m → (∀ x, tags_only (f x)) → tags_only (x ← m; f x).
Proof.
  intros Hm Hf a g y a' g' H.
  apply M_bind_Ok in H as (x & a1 & g1 & H1 & H2).
  apply Hm in H1 as (dc1 & -> & E1). apply Hf in H2 as (dc2 & -> & E2).
  exists dc2. split; [done|]. by rewrite E2.
Qed.

Lemma tags_only_forM {A S} (f : A → S → M S) l s :
  (∀ x s, tags_only (f x s)) → tags_only (forM f l s).
Proof.
  intros Hf. revert s. induction l as [|x l IH]; intros s; simpl.
  - apply tags_only_read_only, read_only_ret.
  - apply tags_only_bind; [apply Hf|]. intros. apply IH.
Qed.

Lemma tags_only_dont_cares_set col x : tags_only (dont_cares_set col x).
Proof.
  unfold dont_cares_set. intros a g u a' g' H.
  apply M_bind_Ok in H as (dc & a1 & g1 & Hdc & H). apply reads_Ok in Hdc as (Hdc & -> & ->).
  apply or_fail_Ok in Hdc.
  apply M_bind_Ok in H as (dc' & a1 & g1 & Hw & H). apply lift_Ok in Hw as (Hw & -> & ->).
  apply modify_Ok in H as [-> _]. eexists. split; [done|]. rewrite Hdc. simpl. f_equal.
  unfold write_at in Hw. case_decide; [|done]. injection Hw as <-. by rewrite length_insert.
Qed.

Lemma read_only_run_tweak {A} (f : tweak A) : read_only (run_tweak f).
Proof.
  intros a g x a' g'. unfold run_tweak. destruct (f a g) as [[y g1]|]; [|done].
  by intros [= _ <- _].
Qed.

(** the shuffle, the loop that chooses the values, which writes nothing but
    entries of [dont_cares], and the commit *)
Lemma add_row_greedy_steps tweak_row_i a g u a' g' :
  add_row_greedy tweak_row_i a g = Ok (u, a', g') →
  ∃ u0 a1 g1 dc row,
    shuffle a g = Ok (u0, a1, g1)
    ∧ length <$> dc = length <$> dont_cares a1
    ∧ update_array_row row true (upd F_dont_cares (λ _, dc) a1) = Ok a'.
Proof.
  unfold add_row_greedy. intros H.
  apply M_bind_Ok in H as (cols & a1 & g1 & Hc & H).
  unfold columns in Hc. apply reads_Ok in Hc as (_ & -> & ->). cbv zeta in H.
  apply M_bind_Ok in H as (u0 & a1 & g2 & Hsh & H).
  apply M_bind_Ok in H as (row0 & a2 & g3 & Hloop & H).
  assert (tags_only (forM (λ (col : nat) (new_row : list nat),
      pc ← permutation_at col;
      F ← factor_at pc;
      worst_single ← reads (λ a, single_at a (pc, 0%nat));
      worst_single ← forM (λ val worst_single,
          cur_single ← reads (λ a, single_at a (pc, val));
          if decide (single_score worst_single < single_score cur_single)
          then mret cur_single
          else if decide (single_score cur_single = single_score worst_single) then
            coin ← rand_mod 2;
            mret (if decide (coin = 0%nat) then cur_single else worst_single)
          else mret worst_single)
        (seq 1 (level F - 1)) worst_single;
      new_row ← lift (write_at new_row pc (value worst_single));
      phase ← reads (λ a, Ok (p a));
      dc ← dont_cares_at pc;
      _ ← (if decide (dc = none ∧ c_issues worst_single = 0)
           then dont_cares_set pc c_only else mret ());
      dc ← (if decide (phase ≠ c_only) then dont_cares_at pc else mret none);
      _ ← (if decide (phase ≠ c_only ∧ dc = c_only ∧ l_issues worst_single = 0)
           then dont_cares_set pc c_and_l else mret ());
      dc ← (if decide (phase = all) then dont_cares_at pc else mret none);
      _ ← (if decide (phase = all ∧ dc = c_and_l ∧ d_issues worst_single = 0)
           then dont_cares_set pc all else mret ());
      dont_care ←
        (if decide (phase = all ∨ phase = c_and_l ∨ phase = c_only)
         then dc ← dont_cares_at pc; mret (bool_decide (dc = phase))
         else mret false);
      if (dont_care : bool) then
        F ← factor_at pc;
        v ← rand_mod (level F);
        lift (write_at new_row pc v)
      else mret new_row) cols (replicate (length cols) 0%nat))) as Htags.
  { apply tags_only_forM. intros col new_row.
    repeat first
      [ apply tags_only_dont_cares_set
      | apply tags_only_bind; [|intros]
      | match goal with
        | |- tags_only (if ?b then _ else _) => destruct b
        end
      | apply tags_only_read_only; read_only_steps ]. }
  apply Htags in Hloop as (dc & -> & Edc). clear Htags.
  apply M_bind_Ok in H as (ri & a2 & g4 & Hri & H). apply reads_Ok in Hri as (_ & -> & ->).
  apply M_bind_Ok in H as (row & a2 & g5 & Htw & H).
  apply read_only_run_tweak in Htw as ->.
  apply M_bind_Ok in H as (ri' & a2 & g6 & Hri & H). apply reads_Ok in Hri as (Hri & -> & ->).
  apply M_bind_Ok in H as (b & a2 & g7 & Hb & H). apply reads_Ok in Hb as (Hb & -> & ->).
  apply modify_Ok in H as [-> _]. exists u0, a1, g2, dc, row. split_and!; [done..|].
  unfold update_array_row. by rewrite Hri.
Qed.

Lemma add_row_greedy_spec tweak_row_i a g u a' g' :
  add_row_greedy tweak_row_i a g = Ok (u, a', g') →
  ∃ perm dc row,
    update_array_row row true
      (upd F_dont_cares (λ _, dc) (upd F_permutation (λ _, perm) a)) = Ok a'.
Proof.
  intros H. apply add_row_greedy_steps in H as (u0 & a1 & g1 & dc & row & Hsh & _ & H).
  apply shuffle_spec in Hsh as [perm ->]. by exists perm, dc, row.
Qed.

(** a call commits one row, after it has at most rewritten [permutation]
    and [dont_cares] *)
Lemma do_call_spec c a g u a' g' :
  do_call c a g = Ok (u, a', g') →
  ∃ perm dc row,
    update_array_row row true
      (upd F_dont_cares (λ _, dc) (upd F_permutation (λ _, perm) a)) = Ok a'.
Proof.
  destruct c as [|h row_addr|tw]; simpl; intros H.
  - unfold add_random_row in H. apply M_bind_Ok in H as (row & a1 & g1 & Hrow & H).
    apply read_only_get_random_row in Hrow as ->.
    apply M_bind_Ok in H as (b & a1 & g2 & Hb & H). apply reads_Ok in Hb as (Hb & -> & ->).
    apply modify_Ok in H as [-> _]. exists (permutation a), (dont_cares a), row.
    by destruct a.
  - unfold add_row in H. apply M_bind_Ok in H as (u0 & a1 & g1 & Hsh & H).
    apply shuffle_spec in Hsh as [perm ->].
    apply M_bind_Ok in H as ([row0 locked] & a1 & g2 & Hinit & H).
    assert (a1 = upd F_permutation (λ _, perm) a) as ->.
    { destruct h;
        apply M_bind_Ok in Hinit as (r & a2 & g3 & Hr & Hinit);
        first [ apply read_only_initialize_row_S in Hr as ->
              | apply read_only_initialize_row_T in Hr as ->
              | apply read_only_initialize_row_R in Hr as -> ];
        try destruct r; by apply mret_Ok in Hinit as (_ & -> & _). }
    apply M_bind_Ok in H as (row & a1 & g3 & Htw & H).
    apply read_only_tweak_row in Htw as ->.
    apply M_bind_Ok in H as (b & a1 & g4 & Hb & H). apply reads_Ok in Hb as (Hb & -> & ->).
    apply modify_Ok in H as [-> _]. exists perm, (dont_cares a), row.
    by destruct a.
  - by apply add_row_greedy_spec in H.
Qed.

(** an invariant of the committed rows is an invariant of the runs *)
Lemma do_calls_inv (P : Array → Prop) cs a g u a' g' :
  (∀ a perm, P a → P (upd F_permutation (λ _, perm) a)) →
  (∀ a dc, P a → P (upd F_dont_cares (λ _, dc) a)) →
  (∀ a row b, P a → update_array_row row true a = Ok b → P b) →
  P a → do_calls cs a g = Ok (u, a', g') → P a'.
Proof.
  intros Hperm Hdc Hrow. unfold do_calls. generalize () at 1 as u0. revert a g.
  induction cs as [|c cs IH]; intros a g u0 Ha H; simpl in H.
  - by apply mret_Ok in H as (_ & -> & _).
  - apply M_bind_Ok in H as (u1 & a1 & g1 & Hc & H).
    apply do_call_spec in Hc as (perm & dc & row & Hc).
    apply (IH a1 g1 u1); [|done]. eapply Hrow; [|exact Hc]. by apply Hdc, Hperm.
Qed.


(** * The row sets follow the rows *)

Lemma initial_rows_consistent n0 a : initial_core n0 a → rows_consistent n0 a.
Proof.
  intros ((_ & _ & [Hwt1 Hwt2]) & Hrows & Hn & HS & HI & HT). unfold rows_consistent.
  assert (∀ P x, ¬ stored n0 a P x) as Hnone.
  { intros P x (k & row & Hk & _). by rewrite Hrows, lookup_nil in Hk. }
  split_and!.
  - rewrite Hrows. simpl. lia.
  - intros s S HS' x. rewrite (HS s S HS'). split; [set_solver|]. intros H. by apply Hnone in H.
  - intros i I HI' x. destruct (HI i I HI') as (-> & _).
    split; [set_solver|]. intros H. by apply Hnone in H.
  - intros k X HX x. destruct (HT k X HX) as (-> & _). split; [set_solver|].
    intros (i & I & _ & HI' & Hx). destruct (HI i I HI') as (E & _). rewrite E in Hx.
    set_solver.
Qed.

Lemma run_rows_consistent inp cs a0 g u a g' :
  Array_of_Parser inp = Ok a0 →
  (in_t inp ≤ in_num_cols inp)%nat →
  do_calls cs a0 g = Ok (u, a, g') →
  WF a ∧ (1 ≤ t a ≤ num_factors a)%nat ∧ rows_consistent (in_num_rows inp) a.
Proof.
  intros Hc Ht Hrun.
  pose proof (Array_of_Parser_strength _ _ Hc) as Ht1.
  apply Array_of_Parser_initial in Hc as ([Hcore _] & Hparams).
  revert Hrun.
  apply (do_calls_inv (λ a, WF a ∧ (1 ≤ t a ≤ num_factors a)%nat
                            ∧ rows_consistent (in_num_rows inp) a)).
  - intros b perm H. exact H.
  - intros b dc H. exact H.
  - intros b row b' (Hwf & Htb & Hcons) Hrow.
    destruct (commit_consistent _ _ _ _ Hwf Htb Hcons Hrow) as [Hcons' Htopo].
    split; [by apply (WF_topology b)|]. split; [|done].
    destruct Htopo as (Hdir & _). apply directory_inv in Hdir as (_ & _ & <- & <- & _).
    done.
  - split; [apply Hcore|]. split; [|by apply initial_rows_consistent].
    unfold params in Hparams. injection Hparams as _ -> _ -> _. lia.
Qed.

(** C2, as the code has it. After the constructor and any run of
    [add_random_row] and [add_row] (with a strength that does not exceed the
    number of columns): [num_tests] is the value it was constructed with
    plus the number of committed rows; the row at place [k] of [rows]
    (counted from 0) is recorded under the index [n0 + k + 1], the value of
    [num_tests] once it was appended, so that the indices in the row sets
    range over [(n0, num_tests]] and not over [[0, num_tests)]; with that
    numbering the row set of a Single holds the rows that have its value in
    its column, the row set of an Interaction is the intersection of the row
    sets of its Singles, and the row set of a T set is the union of the row
    sets of its Interactions. *)
Theorem row_sets_follow_rows inp cs a0 g u a g' :
  Array_of_Parser inp = Ok a0 →
  (in_t inp ≤ in_num_cols inp)%nat →
  do_calls cs a0 g = Ok (u, a, g') →
  num_tests a = (in_num_rows inp + length (rows a))%nat
  ∧ (∀ s S, get_single a s = Some S →
       ∀ x, x ∈ s_rows S ↔
         ∃ k row, rows a !! k = Some row ∧ x = (in_num_rows inp + k + 1)%nat
                  ∧ row !! factor S = Some (value S))
  ∧ (∀ s S x, get_single a s = Some S → x ∈ s_rows S →
       (in_num_rows inp < x ≤ num_tests a)%nat)
  ∧ (∀ i I, interactions a !! i = Some I →
       ∀ x, x ∈ i_rows I ↔
         ∀ s, s ∈ i_singles I → ∃ S, get_single a s = Some S ∧ x ∈ s_rows S)
  ∧ (∀ k X, sets a !! k = Some X →
       ∀ x, x ∈ t_rows X ↔
         ∃ i I, i ∈ t_interactions X ∧ interactions a !! i = Some I ∧ x ∈ i_rows I).
Proof.
  intros Hc Ht Hrun.
  destruct (run_rows_consistent _ _ _ _ _ _ _ Hc Ht Hrun)
    as ((Hws & [Hwi1 Hwi2] & Hwt) & Htn & Hn & HS & HI & HT).
  assert (∀ s S, get_single a s = Some S →
            ∀ x, x ∈ s_rows S ↔
              ∃ k row, rows a !! k = Some row ∧ x = (in_num_rows inp + k + 1)%nat
                       ∧ row !! factor S = Some (value S)) as HS'.
  { intros s S HSs x. rewrite (HS s S HSs x). unfold stored, holds_single.
    destruct (Hws s S HSs) as (-> & -> & _). done. }
  split_and!; [done|done| | |done].
  - intros s S x HSs Hx. apply (HS' s S HSs) in Hx as (k & row & Hk & -> & _).
    apply lookup_lt_Some in Hk. lia.
  - intros i I HIi x. rewrite (HI i I HIi x).
    destruct (Hwi1 i I HIi) as (_ & Hlen & _ & Hvalid). rewrite Forall_forall in Hvalid.
    split.
    + intros (k & row & Hk & -> & Hall) s Hs. destruct (Hvalid s Hs) as [S HSs].
      exists S. split; [done|]. apply (HS s S HSs). exists k, row. split_and!; [done..|].
      unfold holds_all in Hall. rewrite Forall_forall in Hall. by apply Hall.
    + intros Hall. destruct (i_singles I) as [|s0 ss] eqn:Ess; [simpl in Hlen; lia|].
      destruct (Hall s0) as (S0 & HS0 & Hx0); [by left|].
      apply (HS s0 S0 HS0) in Hx0 as (k & row & Hk & -> & Hh0).
      exists k, row. split_and!; [done..|]. apply Forall_forall. intros s Hs.
      destruct (Hall s Hs) as (S1 & HS1 & Hx1).
      apply (HS s S1 HS1) in Hx1 as (k' & row' & Hk' & E & Hh).
      assert (k' = k) as -> by lia. assert (row' = row) as -> by congruence. done.
Qed.

(** the theorem on S1, for a random row followed by a row of [add_row] *)
Lemma row_sets_on_S1 :
  Array_of_Parser S1_parser = Ok (built S1_parser)
  ∧ (in_t S1_parser ≤ in_num_cols S1_parser)%nat
  ∧ do_calls two_calls (built S1_parser) rng_steps
    = Ok ((), run (do_calls two_calls) (built S1_parser) rng_steps,
          run_rng (do_calls two_calls) (built S1_parser) rng_steps)
  ∧ let a := run (do_calls two_calls) (built S1_parser) rng_steps in
    num_tests a = (in_num_rows S1_parser + length (rows a))%nat
    ∧ (∀ s S, get_single a s = Some S →
         ∀ x, x ∈ s_rows S ↔
           ∃ k row, rows a !! k = Some row ∧ x = (in_num_rows S1_parser + k + 1)%nat
                    ∧ row !! factor S = Some (value S))
    ∧ (∀ s S x, get_single a s = Some S → x ∈ s_rows S →
         (in_num_rows S1_parser < x ≤ num_tests a)%nat)
    ∧ (∀ i I, interactions a !! i = Some I →
         ∀ x, x ∈ i_rows I ↔
           ∀ s, s ∈ i_singles I → ∃ S, get_single a s = Some S ∧ x ∈ s_rows S)
    ∧ (∀ k X, sets a !! k = Some X →
         ∀ x, x ∈ t_rows X ↔
           ∃ i I, i ∈ t_interactions X ∧ interactions a !! i = Some I ∧ x ∈ i_rows I).
Proof.
  assert (Array_of_Parser S1_parser = Ok (built S1_parser)) as H1.
  { vm_compute. reflexivity. }
  assert (in_t S1_parser ≤ in_num_cols S1_parser)%nat as H2.
  { vm_compute. lia. }
  assert (do_calls two_calls (built S1_parser) rng_steps
          = Ok ((), run (do_calls two_calls) (built S1_parser) rng_steps,
                run_rng (do_calls two_calls) (built S1_parser) rng_steps)) as H3.
  { vm_compute. reflexivity. }
  exact (conj H1 (conj H2 (conj H3
    (row_sets_follow_rows S1_parser two_calls _ _ _ _ _ H1 H2 H3)))).
Defined.

(** C2 as the specification words it does not hold. On S1, after one call of
    [add_random_row] that draws the row [1 0 1], the row list has that one
    row, at place 0, and [num_tests] is 1; the Single of value 1 in column 0
    has the row set [{1}]: the index is [num_tests] itself, outside
    [[0, num_tests)], and it is not the place 0 of the row. *)
Lemma first_row_is_stored_as_one :
  ∃ a g S,
    do_calls [Random] (built S1_parser) rng_steps = Ok ((), a, g)
    ∧ rows a = [[1; 0; 1]]%nat ∧ num_tests a = 1%nat
    ∧ get_single a (0, 1)%nat = Some S
    ∧ factor S = 0%nat ∧ value S = 1%nat
    ∧ elements (s_rows S) = [1%nat]
    ∧ ¬ (∀ x, x ∈ s_rows S → (x < num_tests a)%nat)
    ∧ ¬ (∀ x, x ∈ s_rows S ↔ ∃ row, rows a !! x = Some row ∧ row !! factor S = Some (value S)).
Proof.
  eexists _, _, _. split; [vm_compute; reflexivity|].
  split; [vm_compute; reflexivity|]. split; [vm_compute; reflexivity|].
  split; [vm_compute; reflexivity|]. split; [vm_compute; reflexivity|].
  split; [vm_compute; reflexivity|]. split; [vm_compute; reflexivity|].
  split.
  - intros H. specialize (H 1%nat). vm_compute in H.
    assert (1 < 1)%nat as Hlt; [|lia]. apply H. reflexivity.
  - intros H. destruct (proj1 (H 1%nat)) as (row & Hrow & _).
    + vm_compute. reflexivity.
    + vm_compute in Hrow. discriminate.
Qed.


(** * Detection *)

(** ** [detection_update], in closed form *)

Lemma lookup_new_deltas rs I k :
  new_deltas rs I !! k
  = (λ v, if decide (k ∈ rs ∖ i_sets I) then v else v + 1) <$> deltas I !! k.
Proof. unfold new_deltas. rewrite map_lookup_imap. by destruct (deltas I !! k). Qed.

(** the first loop: the entries of the T sets of the row lose one *)
Lemma detection_first_loop i (ks : list nat) I0 a a1 :
  interactions a !! i = Some I0 → is_detectable I0 = true →
  foldM (λ k a,
      I ← interaction_at a i;
      dl ← or_fail OutOfRange (deltas I !! k);
      let a := if decide (dl ≤ to_int64 (delta a)) then bump s_set_d_issues 1 (i_singles I) a else a in
      Ok (upd_interaction (i_set_deltas (<[k := dl - 1]>)) i a))
    ks a = Ok a1 →
  NoDup ks →
  delta a1 = delta a ∧ sets a1 = sets a
  ∧ (∀ j, j ≠ i → interactions a1 !! j = interactions a !! j)
  ∧ ∃ I1, interactions a1 !! i = Some I1 ∧ but_det I1 = but_det I0
      ∧ is_detectable I1 = true
      ∧ ∀ k, deltas I1 !! k
             = (λ v, if decide (k ∈ ks) then v - 1 else v) <$> deltas I0 !! k.
Proof.
  intros HI0 Hd H Hnd. revert H.
  pose (P := λ (l1 : list nat) (c : Array),
    delta c = delta a ∧ sets c = sets a
    ∧ (∀ j, j ≠ i → interactions c !! j = interactions a !! j)
    ∧ ∃ I1, interactions c !! i = Some I1 ∧ but_det I1 = but_det I0
        ∧ is_detectable I1 = true
        ∧ ∀ k, deltas I1 !! k
               = (λ v, if decide (k ∈ l1) then v - 1 else v) <$> deltas I0 !! k).
  apply (foldM_split P); unfold P; clear P.
  - intros l1 k l2 c c' E (Hdl & Hsets & Hother & I1 & HI1 & Hbut & Hd1 & Hdeltas) H.
    assert (k ∉ l1) as Hfresh.
    { rewrite E in Hnd. apply NoDup_app in Hnd as (_ & Hnd & _).
      intros Hin. apply (Hnd k Hin). by left. }
    inv_Ok H. rename x into I. rename x0 into dl.
    unfold get_interaction in Hx. assert (I = I1) as -> by congruence.
    set (c1 := if decide (dl ≤ to_int64 (delta c)) then bump s_set_d_issues 1 (i_singles I1) c else c).
    assert (delta c1 = delta a ∧ sets c1 = sets a ∧ interactions c1 = interactions c)
      as (Hdl1 & Hsets1 & Hint1).
    { unfold c1. destruct (decide _); split_and!; try done; frame_steps. }
    split_and!.
    + exact Hdl1.
    + exact Hsets1.
    + intros j Hj. cbn [interactions upd_interaction upd]. rewrite Hint1.
      rewrite list_lookup_alter_ne by done. by apply Hother.
    + exists (i_set_deltas (<[k := dl - 1]>) I1). split_and!.
      * cbn [interactions upd_interaction upd]. rewrite Hint1.
        by rewrite list_lookup_alter_eq, HI1.
      * exact Hbut.
      * exact Hd1.
      * intros k'. cbn [deltas i_set_deltas]. rewrite Hdeltas in Hx0.
        destruct (decide (k' = k)) as [->|Hne].
        -- rewrite lookup_insert_eq.
           destruct (deltas I0 !! k) as [v|]; [|done]. simpl in *.
           rewrite decide_False in Hx0 by done. injection Hx0 as ->.
           rewrite decide_True; [done|]. apply elem_of_app. right. by left.
        -- rewrite lookup_insert_ne by done. rewrite Hdeltas.
           destruct (deltas I0 !! k') as [v|]; [|done]. simpl. f_equal.
           destruct (decide (k' ∈ l1)) as [Hin|Hnin].
           ++ rewrite decide_True; [done|]. apply elem_of_app. by left.
           ++ rewrite decide_False; [done|]. intros [?|Hk]%elem_of_app; [done|].
              apply list_elem_of_singleton in Hk. done.
  - split_and!; [done..|]. exists I0. split_and!; try done.
    intros k. by destruct (deltas I0 !! k).
Qed.

(** the second loop: every entry gains one, and the flag goes down if one
    of them is short of the margin *)
Lemma detection_second_loop i ss (kvs : list (nat * Z)) I1 a :
  interactions a !! i = Some I1 → is_detectable I1 = true →
  (∀ kv, kv ∈ kvs → deltas I1 !! kv.1 = Some kv.2) →
  let a2 := for_each (λ kv a,
      let v := kv.2 + 1 in
      let a := upd_interaction (i_set_deltas (<[kv.1 := v]>)) i a in
      let a := if decide (v < to_int64 (delta a))
               then upd_interaction (i_set_is_detectable false) i a else a in
      if decide (v ≤ to_int64 (delta a)) then bump s_set_d_issues (-1) ss a else a)
    kvs a in
  delta a2 = delta a ∧ sets a2 = sets a
  ∧ (∀ j, j ≠ i → interactions a2 !! j = interactions a !! j)
  ∧ ∃ I2, interactions a2 !! i = Some I2 ∧ but_det I2 = but_det I1
      ∧ (∀ k, deltas I2 !! k
              = if decide (k ∈ kvs.*1) then (λ v, v + 1) <$> deltas I1 !! k
                else deltas I1 !! k)
      ∧ is_detectable I2 = bool_decide (Forall (λ kv, to_int64 (delta a) ≤ kv.2 + 1) kvs).
Proof.
  intros HI1 Hd Hkvs. cbv zeta.
  pose (P := λ (l : list (nat * Z)) (c : Array),
    delta c = delta a ∧ sets c = sets a
    ∧ (∀ j, j ≠ i → interactions c !! j = interactions a !! j)
    ∧ ∃ I2, interactions c !! i = Some I2 ∧ but_det I2 = but_det I1
        ∧ (∀ k, deltas I2 !! k
                = if decide (k ∈ l.*1) then (λ v, v + 1) <$> deltas I1 !! k
                  else deltas I1 !! k)
        ∧ is_detectable I2 = bool_decide (Forall (λ kv, to_int64 (delta a) ≤ kv.2 + 1) l)).
  apply (for_each_split P); unfold P; clear P.
  - intros l [k v] l2 c E (Hdl & Hsets & Hother & I2 & HI2 & Hbut & Hdeltas & Hflag).
    cbn [fst snd].
    assert (deltas I1 !! k = Some v) as Hkv.
    { apply (Hkvs (k, v)). rewrite E. apply elem_of_app. right. by left. }
    set (c1 := upd_interaction (i_set_deltas (<[k := v + 1]>)) i c).
    set (c2 := if decide (v + 1 < to_int64 (delta c1))
               then upd_interaction (i_set_is_detectable false) i c1 else c1).
    set (c3 := if decide (v + 1 ≤ to_int64 (delta c2)) then bump s_set_d_issues (-1) ss c2 else c2).
    assert (delta c1 = delta a) as Hdl1 by (unfold c1; frame_steps).
    assert (delta c2 = delta a) as Hdl2 by (unfold c2; destruct (decide _); frame_steps).
    assert (delta c3 = delta a ∧ sets c3 = sets a ∧ interactions c3 = interactions c2)
      as (Hdl3 & Hsets3 & Hint3).
    { unfold c3, c2, c1. split_and!; repeat destruct (decide _); frame_steps. }
    split_and!; [done|done| |].
    + intros j Hj. rewrite Hint3. unfold c2, c1. destruct (decide _);
        cbn [interactions upd_interaction upd];
        rewrite ?list_lookup_alter_ne by done; by apply Hother.
    + rewrite Hint3.
      set (I3 := i_set_deltas (<[k := v + 1]>) I2).
      exists (if decide (v + 1 < to_int64 (delta a)) then i_set_is_detectable false I3 else I3).
      split_and!.
      * unfold c2. rewrite Hdl1. destruct (decide (v + 1 < to_int64 (delta a)));
          unfold c1; cbn [interactions upd_interaction upd];
          rewrite ?list_lookup_alter_eq, HI2; done.
      * destruct (decide (v + 1 < to_int64 (delta a))); exact Hbut.
      * intros k'.
        assert (deltas (if decide (v + 1 < to_int64 (delta a))
                        then i_set_is_detectable false I3 else I3) = <[k := v + 1]> (deltas I2))
          as -> by by destruct (decide (v + 1 < to_int64 (delta a))).
        rewrite fmap_app. cbn [fmap list_fmap fst].
        destruct (decide (k' = k)) as [->|Hne].
        -- rewrite lookup_insert_eq. rewrite decide_True by (apply elem_of_app; right; by left).
           by rewrite Hkv.
        -- rewrite lookup_insert_ne by done. rewrite Hdeltas.
           destruct (decide (k' ∈ l.*1)) as [Hin|Hnin].
           ++ rewrite decide_True; [done|]. apply elem_of_app. by left.
           ++ rewrite decide_False; [done|]. intros [?|Hk]%elem_of_app; [done|].
              apply list_elem_of_singleton in Hk. done.
      * assert (is_detectable (if decide (v + 1 < to_int64 (delta a))
                               then i_set_is_detectable false I3 else I3)
                = if decide (v + 1 < to_int64 (delta a)) then false else is_detectable I2)
          as -> by by destruct (decide (v + 1 < to_int64 (delta a))).
        rewrite Hflag. destruct (decide (v + 1 < to_int64 (delta a))) as [Hlt|Hge].
        -- symmetry. apply bool_decide_eq_false_2. intros HF.
           apply Forall_app in HF as [_ HF]. rewrite Forall_singleton in HF. simpl in HF. lia.
        -- apply bool_decide_ext. rewrite Forall_app, Forall_singleton. simpl.
           split; [intros ?; split; [done|lia]|by intros [? _]].
  - split_and!; [done..|]. exists I1. split_and!; done.
Qed.

Lemma detection_update_spec rs i a a' :
  detection_update rs i a = Ok a' →
  ∃ I0 I', interactions a !! i = Some I0 ∧ interactions a' !! i = Some I'
    ∧ det_i I' = det_i (detected rs (to_int64 (delta a)) I0)
    ∧ sets a' = sets a
    ∧ (∀ j, j ≠ i → interactions a' !! j = interactions a !! j).
Proof.
  unfold detection_update. intros H.
  apply bind_Ok in H as (I0 & HI0 & H). apply interaction_at_Ok in HI0.
  exists I0. destruct (is_detectable I0) eqn:Hd.
  { apply Ok_inj in H as <-. exists I0. unfold detected. rewrite Hd. by split_and!. }
  cbv zeta in H. set (a0 := upd_interaction (i_set_is_detectable true) i a) in H.
  apply bind_Ok in H as (a1 & Hloop1 & H).
  assert (interactions a0 !! i = Some (i_set_is_detectable true I0)) as HI0t.
  { unfold a0. cbn [interactions upd_interaction upd].
    by rewrite list_lookup_alter_eq, HI0. }
  apply (detection_first_loop i _ _ a0 a1 HI0t eq_refl) in Hloop1
    as (Hdl1 & Hsets1 & Hother1 & I1 & HI1 & Hbut1 & Hd1 & Hdeltas1); [|apply NoDup_iter].
  apply bind_Ok in H as (I1' & HI1' & H). apply interaction_at_Ok in HI1'.
  assert (I1' = I1) as -> by congruence. cbv zeta in H.
  destruct (detection_second_loop i (i_singles I1) (map_to_list (deltas I1)) I1 a1 HI1 Hd1)
    as (Hdl2 & Hsets2 & Hother2 & I2 & HI2 & Hbut2 & Hdeltas2 & Hflag2).
  { intros [k v] Hkv. by apply elem_of_map_to_list in Hkv. }
  cbv zeta in Hdl2, Hsets2, Hother2, HI2.
  set (a2 := for_each _ (map_to_list (deltas I1)) a1) in *.
  apply bind_Ok in H as (I2' & HI2' & H). apply interaction_at_Ok in HI2'.
  assert (I2' = I2) as -> by congruence.
  assert (interactions a' = interactions a2 ∧ sets a' = sets a2) as [Eint Esets].
  { destruct (is_detectable I2); apply Ok_inj in H as <-; [|done].
    split; frame_steps. }
  assert (∀ k, deltas I2 !! k = (λ v, v + 1) <$> deltas I1 !! k) as Hd2.
  { intros k. rewrite Hdeltas2. destruct (decide (k ∈ (map_to_list (deltas I1)).*1)) as [|Hn];
      [done|]. destruct (deltas I1 !! k) as [w|] eqn:Hw; [|done]. exfalso. apply Hn.
    apply list_elem_of_fmap. exists (k, w). split; [done|]. by apply elem_of_map_to_list. }
  assert (deltas I2 = new_deltas rs I0) as Enew.
  { apply map_eq. intros k. rewrite Hd2, Hdeltas1, lookup_new_deltas.
    cbn [deltas i_set_is_detectable]. destruct (deltas I0 !! k) as [v|]; [|done].
    simpl. f_equal. destruct (decide (k ∈ iter (rs ∖ i_sets I0))) as [Hin|Hnin];
      rewrite elem_of_iter in *.
    - rewrite decide_True by done. lia.
    - rewrite decide_False by done. done. }
  exists I2. split_and!; [done|by rewrite Eint| |by rewrite Esets, Hsets2, Hsets1|].
  - unfold detected. rewrite Hd. unfold det_i.
    cbn [i_singles i_rows i_sets is_detectable deltas i_set_is_detectable i_set_deltas].
    unfold but_det in Hbut1, Hbut2. cbn [i_singles i_rows is_covered i_sets
      i_set_is_detectable] in Hbut1. rewrite Hbut1 in Hbut2.
    injection Hbut2 as -> -> _ ->. rewrite Enew. f_equal. f_equal.
    rewrite Hflag2, Hdl1. replace (delta a0) with (delta a) by done.
    apply bool_decide_ext. rewrite Forall_forall. split.
    + intros HF k w Hw. rewrite <- Enew, Hd2 in Hw.
      destruct (deltas I1 !! k) as [w0|] eqn:Hw0; [|done]. injection Hw as <-.
      apply (HF (k, w0)). by apply elem_of_map_to_list.
    + intros HF [k w0] Hkv. apply elem_of_map_to_list in Hkv. apply (HF k (w0 + 1)).
      by rewrite <- Enew, Hd2, Hkv.
  - intros j Hj. rewrite Eint, (Hother2 j Hj), (Hother1 j Hj). unfold a0.
    cbn [interactions upd_interaction upd]. by rewrite list_lookup_alter_ne.
Qed.

(** ** The second and third loops of [update_array], seen from the
    detection state *)

Lemma detected_det_i rs dl I J :
  det_i I = det_i J → det_i (detected rs dl I) = det_i (detected rs dl J).
Proof.
  intros E. pose proof E as [= E1 E2 E3 E4 E5]. unfold detected.
  rewrite <- E4. destruct (is_detectable I); [exact E|].
  unfold det_i, new_deltas.
  cbn [i_singles i_rows i_sets is_detectable deltas i_set_is_detectable i_set_deltas].
  by rewrite E1, E2, E3, E5.
Qed.

Lemma skel_a_params a b : skel_a b = skel_a a → p b = p a ∧ delta b = delta a.
Proof.
  intros E. apply skel_a_inv in E as (Hdir & _).
  apply directory_inv in Hdir as (_ & _ & _ & _ & Hp & Hd). by split.
Qed.

Lemma counting_detect ri rs a1 b :
  counting_phases ri rs a1 = Ok b → p a1 = all →
  skel_a b = skel_a a1
  ∧ (∀ k, skel_t <$> sets b !! k = skel_t <$> sets a1 !! k)
  ∧ ∀ j, det_i <$> interactions b !! j
         = det_i <$> ((if decide (j ∈ ri) then detected rs (to_int64 (delta a1)) else λ I, I)
                        <$> interactions a1 !! j).
Proof.
  unfold counting_phases. intros H Hp. apply bind_Ok in H as (a2 & Hloop & H).
  pose (Q := λ (l1 : list nat) (c : Array),
    skel_a c = skel_a a1
    ∧ (∀ k, skel_t <$> sets c !! k = skel_t <$> sets a1 !! k)
    ∧ ∀ j, det_i <$> interactions c !! j
           = det_i <$> ((if decide (j ∈ l1) then detected rs (to_int64 (delta a1)) else λ I, I)
                          <$> interactions a1 !! j)).
  assert (Q (iter ri) a2) as (Ha2 & Ht2 & Hi2).
  { revert Hloop. apply (foldM_split Q); unfold Q; clear Q.
    - intros l1 i l2 c c'' E (Ha & Ht & Hi) H'.
      assert (i ∉ l1) as Hfresh.
      { pose proof (NoDup_iter ri) as Hnd. rewrite E in Hnd.
        apply NoDup_app in Hnd as (_ & Hnd & _). intros Hin. apply (Hnd i Hin). by left. }
      apply bind_Ok in H' as (c' & Hcov & Hdet).
      apply (coverage_update_detection i c c c') in Hcov as (Ha' & _ & Hi' & Ht');
        [|reflexivity].
      destruct (skel_a_params _ _ Ha) as [Hpc Hdc].
      destruct (skel_a_params _ _ Ha') as [Hpc' Hdc'].
      rewrite decide_True in Hdet by congruence.
      pose proof (detection_update_skeleton _ _ c' _ _ Hdet (reflexivity _)) as (Ha'' & _).
      apply detection_update_spec in Hdet as (I0 & I' & HI0 & HI' & Edet & Esets & Hother).
      split_and!.
      + congruence.
      + intros k. by rewrite Esets, Ht', Ht.
      + intros j. destruct (decide (j = i)) as [->|Hne].
        * rewrite decide_True by (apply elem_of_app; right; by left).
          rewrite HI'. specialize (Hi i). rewrite decide_False in Hi by done.
          specialize (Hi' i). rewrite HI0, Hi in Hi'.
          destruct (interactions a1 !! i) as [I1|]; [|done]. simpl in *.
          injection Hi' as Hi'. rewrite Edet, Hdc', Hdc. f_equal.
          apply detected_det_i. unfold det_i. congruence.
        * rewrite (Hother j Hne), Hi', Hi.
          destruct (decide (j ∈ l1)) as [Hin|Hnin].
          -- rewrite decide_True; [done|]. apply elem_of_app. by left.
          -- rewrite decide_False; [done|]. intros [?|Hj]%elem_of_app; [done|].
             apply list_elem_of_singleton in Hj. done.
    - split_and!; [done..|]. intros j. by destruct (interactions a1 !! j). }
  clear Hloop Q.
  assert (same_detection a2 b) as (Hab & _ & Hib & Htb).
  { destruct (decide (p a2 ≠ c_only ∧ is_locating a2 = false)); [|by apply Ok_inj in H as <-].
    revert H. apply (foldM_inv (same_detection a2)); [|done].
    intros k c c' _ Hc Hk. by eapply location_update_detection. }
  split_and!.
  - congruence.
  - intros k. by rewrite Htb, Ht2.
  - intros j. rewrite Hib, Hi2. destruct (decide (j ∈ iter ri)) as [Hin|Hnin];
      rewrite elem_of_iter in *.
    + by rewrite decide_True.
    + by rewrite decide_False.
Qed.

(** ** The detection state of one Interaction, across a committed row *)

Lemma detected_keeps rs dl I :
  i_singles (detected rs dl I) = i_singles I ∧ i_rows (detected rs dl I) = i_rows I
  ∧ i_sets (detected rs dl I) = i_sets I.
Proof. unfold detected. by destruct (is_detectable I). Qed.

Lemma diff_row_in_set (A B : gset nat) n : n ∉ A → (A ∪ {[n]}) ∖ (B ∪ {[n]}) = A ∖ B.
Proof. set_solver. Qed.

Lemma diff_row_not_in_set (A B : gset nat) n :
  n ∉ A → n ∉ B → size ((A ∪ {[n]}) ∖ B) = S (size (A ∖ B)).
Proof.
  intros HA HB. replace ((A ∪ {[n]}) ∖ B) with ((A ∖ B) ∪ {[n]}) by set_solver.
  rewrite size_union by set_solver. rewrite size_singleton. lia.
Qed.

Lemma diff_set_grows (A B : gset nat) n : n ∉ A → A ∖ (B ∪ {[n]}) = A ∖ B.
Proof. set_solver. Qed.

Lemma det_ok_step dl (Ts Ts' : list T) (I I' : Interaction) (n : nat) (rs : gset nat)
    (inrow : bool) :
  det_ok dl Ts I →
  n ∉ i_rows I → (∀ k X, Ts !! k = Some X → n ∉ t_rows X) →
  length Ts' = length Ts →
  (∀ k X', Ts' !! k = Some X' →
     ∃ X, Ts !! k = Some X
       ∧ t_rows X' = if decide (k ∈ rs) then t_rows X ∪ {[n]} else t_rows X) →
  i_sets I' = i_sets I →
  i_rows I' = (if inrow then i_rows I ∪ {[n]} else i_rows I) →
  deltas I' = (if inrow then deltas (detected rs dl I) else deltas I) →
  is_detectable I' = (if inrow then is_detectable (detected rs dl I) else is_detectable I) →
  det_ok dl Ts' I'.
Proof.
  intros (Hdom & Hdown & Hup) HnI HnT Hlen HTs Esets Erows Edeltas Eflag.
  assert (∀ k X', Ts' !! k = Some X' → inrow = false →
            ∃ X, Ts !! k = Some X ∧ diff_size I' X' = diff_size I X) as Hsame.
  { intros k X' HX' ->. destruct (HTs k X' HX') as (X & HX & Er). exists X.
    split; [done|]. unfold diff_size. rewrite Erows, Er.
    destruct (decide (k ∈ rs)); [|done]. by rewrite diff_set_grows. }
  assert (∀ k X', Ts' !! k = Some X' → inrow = true →
            ∃ X, Ts !! k = Some X
              ∧ diff_size I' X' = if decide (k ∈ rs) then diff_size I X
                                  else diff_size I X + 1) as Hrow.
  { intros k X' HX' ->. destruct (HTs k X' HX') as (X & HX & Er). exists X.
    split; [done|]. unfold diff_size. rewrite Erows, Er.
    destruct (decide (k ∈ rs)).
    - by rewrite diff_row_in_set.
    - rewrite diff_row_not_in_set; [lia|done|by eapply HnT]. }
  destruct inrow.
  2: { (* the Interaction is not in the row *)
    unfold det_ok. rewrite Edeltas, Eflag, Esets, Hlen. split_and!; [done| |].
    - intros Hf. destruct (Hdown Hf) as [Hd Hshort]. split.
      + intros k X' HX' Hk. destruct (Hsame k X' HX' eq_refl) as (X & HX & ->).
        by apply (Hd k).
      + destruct Hshort as [He|(k & X & HX & Hk & Hlt)]; [left; by rewrite Erows|].
        right. destruct (lookup_lt_is_Some_2 Ts' k) as [X' HX'].
        { rewrite Hlen. by eapply lookup_lt_Some. }
        destruct (Hsame k X' HX' eq_refl) as (X0 & HX0 & E).
        assert (X0 = X) as -> by congruence. exists k, X'. rewrite E. by split_and!.
    - intros Ht. destruct (Hup Ht) as (Hne & Hge & Hall).
      split; [by rewrite Erows|]. split; [|done].
      intros k X' HX' Hk. destruct (Hsame k X' HX' eq_refl) as (X & HX & ->).
      by apply (Hge k). }
  (* the Interaction is in the row *)
  unfold detected in Edeltas, Eflag. destruct (is_detectable I) eqn:Hflag.
  - (* it was detectable: nothing changes, and the differences can only grow *)
    unfold det_ok. rewrite Edeltas, Eflag, Esets, Hlen, Hflag.
    split_and!; [done|done|]. intros _. destruct (Hup eq_refl) as (Hne & Hge & Hall).
    split_and!.
    + rewrite Erows. set_solver.
    + intros k X' HX' Hk. destruct (Hrow k X' HX' eq_refl) as (X & HX & ->).
      specialize (Hge k X HX Hk). destruct (decide (k ∈ rs)); lia.
    + done.
  - (* it was not: the entries are brought up to date, and the flag follows *)
    destruct (Hdown eq_refl) as [Hd _].
    cbn [deltas is_detectable i_set_is_detectable i_set_deltas] in Edeltas, Eflag.
    assert (∀ k X', Ts' !! k = Some X' → k ∉ i_sets I →
              deltas I' !! k = Some (diff_size I' X')) as Hnew.
    { intros k X' HX' Hk. destruct (Hrow k X' HX' eq_refl) as (X & HX & ->).
      rewrite Edeltas, lookup_new_deltas, (Hd k X HX Hk). simpl. f_equal.
      destruct (decide (k ∈ rs)) as [Hin|Hnin].
      - rewrite decide_True by set_solver. done.
      - rewrite decide_False by set_solver. done. }
    unfold det_ok. rewrite Esets, Hlen. split_and!.
    + intros k. rewrite <- Hdom, Edeltas, lookup_new_deltas.
      by rewrite fmap_is_Some.
    + intros Hf. split; [done|]. right.
      rewrite Eflag in Hf. apply bool_decide_eq_false_1 in Hf.
      apply map_not_Forall in Hf as (k & v & Hkv & Hv); [|apply _].
      rewrite <- Edeltas in Hkv.
      assert ((k < length Ts)%nat ∧ k ∉ i_sets I) as [Hk1 Hk2].
      { apply Hdom. rewrite Edeltas, lookup_new_deltas in Hkv.
        by destruct (deltas I !! k). }
      destruct (lookup_lt_is_Some_2 Ts' k) as [X' HX']; [by rewrite Hlen|].
      exists k, X'. split_and!; [done..|]. rewrite (Hnew k X' HX' Hk2) in Hkv.
      injection Hkv as <-. lia.
    + intros Ht. split; [rewrite Erows; set_solver|].
      rewrite Eflag in Ht. apply bool_decide_eq_true_1 in Ht.
      split; [|by rewrite Edeltas].
      intros k X' HX' Hk. apply (Ht k). rewrite <- Edeltas. by apply Hnew.
Qed.

(** ** The detection state of the Array, across a committed row *)

Lemma detected_books rs dl I J :
  book_i I = book_i J →
  deltas (detected rs dl I) = deltas (detected rs dl J)
  ∧ is_detectable (detected rs dl I) = is_detectable (detected rs dl J).
Proof.
  intros [= _ _ E1 E2 E3]. unfold detected, new_deltas. rewrite E1.
  destruct (is_detectable J) eqn:HJ; [split; congruence|].
  cbn [deltas is_detectable i_set_is_detectable i_set_deltas]. by rewrite E2, E3.
Qed.

Lemma same_length_lookup {A B C} (f : A → C) (g : B → C) (l1 : list A) (l2 : list B) :
  (∀ k, f <$> l1 !! k = g <$> l2 !! k) → length l1 = length l2.
Proof.
  intros H. destruct (Nat.lt_trichotomy (length l1) (length l2)) as [Hlt|[?|Hlt]]; [|done|].
  - specialize (H (length l1)). rewrite (lookup_ge_None_2 l1) in H by lia.
    destruct (lookup_lt_is_Some_2 l2 (length l1) Hlt) as [x Hx]. by rewrite Hx in H.
  - specialize (H (length l2)). rewrite (lookup_ge_None_2 l2) in H by lia.
    destruct (lookup_lt_is_Some_2 l1 (length l2) Hlt) as [x Hx]. by rewrite Hx in H.
Qed.

Lemma update_array_detect row ri a b :
  p a = all → rows_bounded a → detect_inv a →
  update_array row ri true a = Ok b →
  detect_inv b ∧ rows_bounded b ∧ p b = all.
Proof.
  intros Hp (HbS & HbI & HbT) Hinv H.
  pose proof (update_array_keep_spec _ _ _ _ H) as (Hnb & _ & _ & _ & HchS & HchI & HchT).
  unfold update_array in H.
  apply bind_Ok in H as ([b' rs] & Hbody & H). apply Ok_inj in H as ->.
  rewrite update_array_body_unfold in Hbody. cbv zeta in Hbody.
  set (a0 := upd F_num_tests S (upd F_rows (λ l, l ++ [row]) a)) in *.
  apply bind_Ok in Hbody as ([a1 rs'] & Hins & Hbody).
  apply bind_Ok in Hbody as (b' & Hcount & Hbody). inv_Ok Hbody.
  destruct (insert_phase_spec _ _ _ _ _ Hins) as (Hbooks & _ & _ & _ & Hch1I & Hch1T).
  pose proof (same_books_topology _ _ Hbooks) as (Hdir1 & _).
  apply directory_inv in Hdir1 as (_ & _ & _ & _ & Hp1 & Hd1).
  change (p a0) with (p a) in Hp1. change (delta a0) with (delta a) in Hd1.
  destruct (counting_detect _ _ _ _ Hcount) as (Hab & Htb & Hib); [congruence|].
  destruct (skel_a_params _ _ Hab) as [Hpb Hdb].
  assert (length (sets a1) = length (sets a)) as Hlen1.
  { destruct Hbooks as (_ & _ & _ & Hbt). apply (same_length_lookup _ _ _ _ Hbt). }
  assert (length (sets b) = length (sets a)) as Hlen.
  { rewrite <- Hlen1. apply (same_length_lookup _ _ _ _ Htb). }
  split_and!; [| |congruence].
  - intros j Ib HIb. replace (delta b) with (delta a) by congruence.
    specialize (Hib j). rewrite HIb in Hib.
    destruct (interactions a1 !! j) as [I1|] eqn:HI1; [|done].
    simpl in Hib. injection Hib as E1 E2 E3 E4 E5.
    destruct (agree_interaction _ _ _ _ _ _ _ _ Hbooks HI1) as (Ia & HIa & Ebook).
    change (interactions a0 !! j = Some Ia) in HIa.
    destruct (Hch1I j I1 HI1) as (Ia' & HIa' & Hrows1).
    change (interactions a0 !! j = Some Ia') in HIa'.
    assert (Ia' = Ia) as -> by congruence.
    assert (i_rows I1 = if bool_decide (j ∈ ri) then i_rows Ia ∪ {[num_tests a0]}
                        else i_rows Ia) as Erows1.
    { apply set_eq. intros x. rewrite Hrows1. simpl. case_bool_decide; set_solver. }
    pose proof Ebook as [= _ _ _ Eb4 _].
    apply (det_ok_step (to_int64 (delta a)) (sets a) (sets b) Ia Ib (num_tests a0) rs
             (bool_decide (j ∈ ri))).
    + by apply (Hinv j).
    + intros Hin. apply (HbI j Ia HIa) in Hin. simpl in Hin. lia.
    + intros k X HX Hin. apply (HbT k X HX) in Hin. simpl in Hin. lia.
    + exact Hlen.
    + intros k Xb HXb. specialize (Htb k). rewrite HXb in Htb.
      destruct (sets a1 !! k) as [X1|] eqn:HX1; [|done]. simpl in Htb.
      injection Htb as _ _ Etr. destruct (Hch1T k X1 HX1) as (X0 & HX0 & Hx).
      exists X0. split; [done|]. rewrite Etr. apply set_eq. intros x. rewrite Hx. simpl.
      destruct (decide (k ∈ rs)); set_solver.
    + destruct (detected_keeps rs (to_int64 (delta a1)) I1) as (_ & _ & Ek).
      destruct (decide (j ∈ ri)); simpl in E3; congruence.
    + destruct (detected_keeps rs (to_int64 (delta a1)) I1) as (_ & Ek & _).
      rewrite <- Erows1. destruct (decide (j ∈ ri)); simpl in E2; congruence.
    + destruct (detected_books rs (to_int64 (delta a1)) _ _ Ebook) as [Ed _].
      case_bool_decide; [rewrite decide_True in E5 by done|rewrite decide_False in E5 by done];
        simpl in E5; [|by injection Ebook as _ _ _ _ <-].
      rewrite E5, Ed. congruence.
    + destruct (detected_books rs (to_int64 (delta a1)) _ _ Ebook) as [_ Ef].
      case_bool_decide; [rewrite decide_True in E4 by done|rewrite decide_False in E4 by done];
        simpl in E4; [|by injection Ebook as _ _ <- _ _].
      rewrite E4, Ef. congruence.
  - split_and!.
    + intros s S HS x Hx. destruct (HchS s S HS) as (S0 & HS0 & Hiff).
      apply Hiff in Hx. simpl in Hx. rewrite Hnb.
      destruct Hx as [Hx|[-> _]]; [|lia]. apply (HbS s S0 HS0) in Hx. lia.
    + intros i I HI x Hx. destruct (HchI i I HI) as (I0 & HI0 & Hiff).
      apply Hiff in Hx. simpl in Hx. rewrite Hnb.
      destruct Hx as [Hx|[-> _]]; [|lia]. apply (HbI i I0 HI0) in Hx. lia.
    + intros k X HX x Hx. destruct (HchT k X HX) as (X0 & HX0 & Hiff).
      apply Hiff in Hx. simpl in Hx. rewrite Hnb.
      destruct Hx as [Hx|[-> _]]; [|lia]. apply (HbT k X0 HX0) in Hx. lia.
Qed.

(** ** The flag, after any run *)

Lemma initial_detect_inv n0 a : initial n0 a → p a = all → detect_inv a ∧ rows_bounded a.
Proof.
  intros [(_ & _ & _ & HS & HI & HT) Hz] Hp. split.
  - intros i I HIi. destruct (HI i I HIi) as (Hrows & _ & Hflag).
    specialize (Hz Hp i I HIi). unfold deltas_zero in Hz. unfold det_ok. split_and!.
    + intros k. rewrite Hz. destruct (decide (k ∈ i_sets I)).
      * split; [by intros [? ?]|by intros [_ ?]].
      * destruct (decide (k < length (sets a))%nat); split; try done;
          first [by intros [? ?]|by intros [? _]].
    + intros _. split; [|by left]. intros k X HX Hk. rewrite Hz.
      rewrite decide_False by done. rewrite decide_True by by eapply lookup_lt_Some.
      unfold diff_size. rewrite Hrows. f_equal.
      replace (∅ ∖ t_rows X) with (∅ : gset nat) by set_solver. done.
    + intros Ht. congruence.
  - split_and!.
    + intros s S HSs x. rewrite (HS s S HSs). set_solver.
    + intros i I HIi x. destruct (HI i I HIi) as (-> & _). set_solver.
    + intros k X HX x. destruct (HT k X HX) as (-> & _). set_solver.
Qed.

(** C3, as the code has it. With all three properties asked for, after the
    constructor and any run of [add_random_row] and [add_row], an
    Interaction is flagged detectable exactly when it has a row and, for
    every T set that does not contain it, the number of rows that hold the
    Interaction and none of the T set is at least [delta], read as a signed
    64-bit number as the comparisons of [update_array] read it ([delta]
    itself below [2^63]); and exactly when it has a row and every entry of
    its deltas is at least that number. An Interaction without a row is
    never flagged, whatever the margin. *)
Theorem detectable_iff_in_a_row_and_separated inp cs a0 g u a g' :
  Array_of_Parser inp = Ok a0 →
  in_p inp = all →
  do_calls cs a0 g = Ok (u, a, g') →
  ∀ i I, interactions a !! i = Some I →
    (is_detectable I = true ↔
     i_rows I ≠ ∅
     ∧ ∀ k X, sets a !! k = Some X → i ∉ t_interactions X →
         to_int64 (in_delta inp) ≤ diff_size I X)
    ∧ (is_detectable I = true ↔
       i_rows I ≠ ∅ ∧ map_Forall (λ _ v, to_int64 (in_delta inp) ≤ v) (deltas I)).
Proof.
  intros Hc Hp Hrun.
  apply Array_of_Parser_initial in Hc as (Hinit & Hparams).
  assert (p a0 = all ∧ delta a0 = in_delta inp) as [Hp0 Hd0].
  { unfold params in Hparams. injection Hparams as _ _ -> _ ->. done. }
  destruct (initial_detect_inv _ _ Hinit Hp0) as [Hdet0 Hb0].
  assert (WF a ∧ p a = all ∧ delta a = in_delta inp ∧ rows_bounded a ∧ detect_inv a)
    as ((_ & _ & [Hwt _]) & _ & Hd & _ & Hdet).
  { revert Hrun.
    apply (do_calls_inv (λ a, WF a ∧ p a = all ∧ delta a = in_delta inp
                              ∧ rows_bounded a ∧ detect_inv a)).
    - intros b perm H. exact H.
    - intros b dc H. exact H.
    - intros b row b' (Hwf & Hpb & Hdb & Hbb & Hdetb) Hrow. unfold update_array_row in Hrow.
      apply bind_Ok in Hrow as (ri & _ & Hrow).
      destruct (update_array_detect _ _ _ _ Hpb Hbb Hdetb Hrow) as (Hdet' & Hb' & Hp').
      destruct (update_array_keep_spec _ _ _ _ Hrow) as (_ & _ & Htopo & _).
      split; [by apply (WF_topology b)|]. split; [done|]. split; [|done].
      destruct Htopo as (Hdir & _). apply directory_inv in Hdir as (_ & _ & _ & _ & _ & <-).
      done.
    - split; [apply Hinit|]. by split_and!. }
  intros i I HI. destruct (Hdet i I HI) as (_ & Hdown & Hup). rewrite <- Hd.
  assert (∀ k X, sets a !! k = Some X → (i ∉ t_interactions X ↔ k ∉ i_sets I)) as Hmem.
  { intros k X HX. rewrite (Hwt i I HI k). split.
    - intros Hn (X' & HX' & Hin). congruence.
    - intros Hn Hin. apply Hn. eauto. }
  split; split.
  - intros Ht. destruct (Hup Ht) as (Hne & Hge & _). split; [done|].
    intros k X HX Hk. apply (Hge k X HX). by apply (Hmem k X HX).
  - intros [Hne Hge]. destruct (is_detectable I); [done|].
    destruct (Hdown eq_refl) as [_ [He|(k & X & HX & Hk & Hlt)]]; [done|].
    specialize (Hge k X HX (proj2 (Hmem k X HX) Hk)). lia.
  - intros Ht. by destruct (Hup Ht) as (Hne & _ & Hall).
  - intros [Hne Hall]. destruct (is_detectable I); [done|].
    destruct (Hdown eq_refl) as [Hcur [He|(k & X & HX & Hk & Hlt)]]; [done|].
    specialize (Hall k _ (Hcur k X HX Hk)). simpl in Hall. lia.
Qed.

(** the theorem on two factors of two levels, for a random row, a row
    under [heuristic_all] and a row of the [add_row] of [array.cpp]: three
    of the four Interactions are flagged *)
Lemma detectable_on_small_all :
  Array_of_Parser small_all_parser = Ok (built small_all_parser)
  ∧ in_p small_all_parser = all
  ∧ do_calls three_calls_all (built small_all_parser) rng_steps
    = Ok ((), small_all_after_three_calls,
          run_rng (do_calls three_calls_all) (built small_all_parser) rng_steps)
  ∧ is_detectable <$> interactions small_all_after_three_calls = [false; true; true; true]
  ∧ ∀ i I, interactions small_all_after_three_calls !! i = Some I →
      (is_detectable I = true ↔
       i_rows I ≠ ∅
       ∧ ∀ k X, sets small_all_after_three_calls !! k = Some X →
           i ∉ t_interactions X → to_int64 (in_delta small_all_parser) ≤ diff_size I X)
      ∧ (is_detectable I = true ↔
         i_rows I ≠ ∅
         ∧ map_Forall (λ _ v, to_int64 (in_delta small_all_parser) ≤ v) (deltas I)).
Proof.
  assert (Array_of_Parser small_all_parser = Ok (built small_all_parser)) as H1.
  { vm_compute. reflexivity. }
  assert (in_p small_all_parser = all) as H2 by reflexivity.
  assert (do_calls three_calls_all (built small_all_parser) rng_steps
          = Ok ((), small_all_after_three_calls,
                run_rng (do_calls three_calls_all) (built small_all_parser) rng_steps))
    as H3.
  { vm_compute. reflexivity. }
  assert (is_detectable <$> interactions small_all_after_three_calls
          = [false; true; true; true]) as H4.
  { vm_compute. reflexivity. }
  exact (conj H1 (conj H2 (conj H3 (conj H4
    (detectable_iff_in_a_row_and_separated small_all_parser three_calls_all
       (built small_all_parser) rng_steps ()
       small_all_after_three_calls
       (run_rng (do_calls three_calls_all) (built small_all_parser) rng_steps)
       H1 H2 H3))))).
Defined.

(** C3 as the specification words it does not hold. With margin 0 (and all
    three properties asked for), after one call of [add_random_row] that
    draws the row [1 0 1], the first Interaction (level 0 in columns 0 and
    1) has no row and is not flagged detectable, though every T set that
    does not contain it leaves it at least [delta = 0] rows, and every
    entry of its deltas is at least [delta]. *)
Lemma no_row_no_flag_at_margin_zero :
  ∃ a g I,
    do_calls [Random] (built margin0_parser) rng_steps = Ok ((), a, g)
    ∧ rows a = [[1; 0; 1]]%nat ∧ delta a = 0
    ∧ interactions a !! 0%nat = Some I
    ∧ i_singles I = [(0, 0); (1, 0)]%nat
    ∧ elements (i_rows I) = []
    ∧ is_detectable I = false
    ∧ (∀ k X, sets a !! k = Some X → 0%nat ∉ t_interactions X → delta a ≤ diff_size I X)
    ∧ map_Forall (λ _ v, delta a ≤ v) (deltas I).
Proof.
  eexists _, _, _. split; [vm_compute; reflexivity|].
  split; [vm_compute; reflexivity|]. split; [vm_compute; reflexivity|].
  split; [vm_compute; reflexivity|]. split; [vm_compute; reflexivity|].
  split; [vm_compute; reflexivity|]. split; [vm_compute; reflexivity|].
  split.
  - intros k X _ _. unfold diff_size.
    transitivity 0; [|lia]. vm_compute. discriminate.
  - apply (bool_decide_unpack _). vm_compute. reflexivity.
Qed.


(** * What [clone] does to [total_problems] and to the rows *)

Lemma add_interaction_total ss a :
  total_problems (add_interaction ss a) = total_problems a + Z.of_nat (length ss).
Proof.
  unfold add_interaction. cbv zeta.
  apply (for_each_prefix (λ l c,
    total_problems c = total_problems a + Z.of_nat (length l))).
  - intros l s c Hc. rewrite length_app. cbn [length].
    change (Z.succ (total_problems c) = total_problems a + Z.of_nat (length l + 1)). lia.
  - cbn. lia.
Qed.

Lemma add_interactions_total n L a :
  Forall (λ K : list (nat * nat), length K = n) L →
  total_problems (for_each add_interaction L a)
  = total_problems a + Z.of_nat n * Z.of_nat (length L).
Proof.
  intros HL. apply (for_each_split (λ l c,
    total_problems c = total_problems a + Z.of_nat n * Z.of_nat (length l))).
  - intros l K l2 c E Hc. rewrite add_interaction_total, Hc, length_app. cbn [length].
    rewrite Forall_forall in HL. rewrite (HL K); [lia|].
    rewrite E. apply elem_of_app. right. by left.
  - cbn. lia.
Qed.

Lemma Array_for_clone_total tp cp lp dp rows_o nt nf factors_o p_o d_o t_o delta_o c :
  Array_for_clone tp cp lp dp rows_o nt nf factors_o p_o d_o t_o delta_o = Ok c →
  total_problems c = tp + Z.of_nat t_o * Z.of_nat (length (interactions c))
  ∧ (p_o = c_only → rows c = []).
Proof.
  unfold Array_for_clone. cbv zeta. intros H.
  apply bind_Ok in H as (a1 & H1 & H).
  match type of H1 with build_factors _ ?a0 = _ =>
    pose proof (build_factors_spec _ a0 _ eq_refl H1) as Hbuilt end.
  pose proof (build_factors_beside _ _ _ H1) as Hb1.
  assert (interactions a1 = [] ∧ interaction_map a1 = ∅ ∧ sets a1 = [] ∧ rows a1 = []
          ∧ total_problems a1 = tp ∧ t a1 = t_o ∧ p a1 = p_o)
    as (Ei & Em & Es & Er & Etp & Et & Ep).
  { unfold beside_factors, config in Hb1. simpl in Hb1. split_and!; congruence. }
  apply bind_Ok in H as (a2 & H2 & H).
  destruct (factors_built_wf _ Hbuilt) as [Hwf Hnr].
  apply (build_t_way_interactions_closed _ _ _ _ _ Hwf Hnr) in H2.
  set (L := combos (levels a1) (t a1) 0 []) in *.
  destruct (interactions_phase a1 Hbuilt Ei Em Es Er) as (Hcore2 & Hsets2 & Hd2).
  cbv zeta in Hcore2, Hsets2, Hd2. fold L in Hcore2, Hsets2, Hd2.
  rewrite <- H2 in Hcore2, Hsets2, Hd2.
  assert (total_problems a2 = tp + Z.of_nat t_o * Z.of_nat (length (interactions a2))
          ∧ rows a2 = [] ∧ p a2 = p_o) as (Etp2 & Er2 & Ep2).
  { destruct (add_interactions_spec L a1) as (Hint & _). cbv zeta in Hint.
    rewrite <- H2, Ei in Hint. simpl in Hint.
    pose proof (add_interactions_beside L a1) as Hbeside. rewrite <- H2 in Hbeside.
    split_and!.
    - rewrite H2, (add_interactions_total t_o), Etp, <- H2, Hint, length_fmap; [done|].
      apply Forall_forall. intros K HK. apply elem_of_combos in HK as (sfx & -> & Hl & _).
      simpl. congruence.
    - unfold beside_interactions, config in Hbeside. congruence.
    - unfold beside_interactions, config in Hbeside. congruence. }
  destruct (decide (p a2 = c_only)) as [Hc|Hnc].
  { apply Ok_inj in H as <-. by split. }
  apply bind_Ok in H as (a3 & H3 & H).
  apply build_size_d_sets_spec in H3 as (_ & Hlen3 & _ & Hbeside3).
  2: { intros i I HI. destruct Hcore2 as (_ & _ & _ & _ & HI2 & _). by destruct (HI2 i I HI). }
  2: { split; [apply Hcore2|]. intros k X. by rewrite Hsets2, lookup_nil. }
  assert (total_problems c = total_problems a3 ∧ interactions c = interactions a3) as [E1 E2].
  { split.
    - frame_loop H; [|done]. inv_Ok H. frame_steps.
    - frame_loop H; [|done]. inv_Ok H. frame_steps. }
  split.
  - rewrite E1, E2, Hlen3. unfold beside_sets in Hbeside3. congruence.
  - intros Hp. congruence.
Qed.

(** the counters and the rows of the clone: nothing after the constructor
    touches them *)
Lemma clone_total a c :
  clone a = Ok c →
  total_problems c = total_problems a + Z.of_nat (t a) * Z.of_nat (length (interactions c))
  ∧ (p a = c_only → rows c = []).
Proof.
  unfold clone. intros H. apply bind_Ok in H as (c0 & H0 & H).
  apply Array_for_clone_total in H0 as [Etp Er]. cbv zeta in H.
  apply bind_Ok in H as (c1 & H1 & H). apply bind_Ok in H as (c2 & H2 & H).
  set (V := agree (λ _ : Single, ()) (λ _ : Interaction, ()) (λ _ : T, ())
              (λ x, (total_problems x, rows x))).
  assert (V c0 c) as (Ea & _ & Hi & _).
  { assert (V c0 c1) as Hc1.
    { unfold V. agree_loop H1; [|agree_steps]. inv_Ok H1. agree_steps. }
    assert (V c0 c2) as Hc2.
    { unfold V in *. agree_loop H2; [|done]. inv_Ok H2.
      agree_loop H2; [|agree_steps]. inv_Ok H2. agree_steps. }
    unfold V in *. agree_loop H; [|done]. inv_Ok H.
    agree_loop H; [|agree_steps]. inv_Ok H. agree_steps. }
  apply same_length_lookup in Hi. injection Ea as E1 E2. rewrite E1, Hi, Etp.
  split; [done|]. intros Hp. rewrite E2. by apply Er.
Qed.

(** C5. [clone] does not return the counters of the original: the
    clone-only constructor starts from the original's [total_problems] and
    enumerates the Interactions again, which adds one per constituent Single
    a second time, so that the clone's [total_problems] is the original's
    plus [t] times the number of Interactions; in coverage-only mode it
    also returns before the rows are copied.  On S1 after two rows 36
    becomes 60 and the two rows are lost; with detection 190 becomes 198. *)
Theorem clone_changes_total_problems_and_rows :
  (∀ a c, clone a = Ok c →
     total_problems c
     = total_problems a + Z.of_nat (t a) * Z.of_nat (length (interactions c))
     ∧ (p a = c_only → rows c = []))
  ∧ (∃ c, clone S1_two_rows = Ok c
     ∧ total_problems S1_two_rows = 36 ∧ total_problems c = 60
     ∧ rows S1_two_rows = [[0; 0; 0]; [1; 1; 1]]%nat ∧ rows c = [])
  ∧ (∃ c, clone small_all_two_rows = Ok c
     ∧ total_problems small_all_two_rows = 190 ∧ total_problems c = 198).
Proof.
  split; [exact clone_total|]. split.
  - eexists. split; [vm_compute; reflexivity|]. repeat split; vm_compute; reflexivity.
  - eexists. split; [vm_compute; reflexivity|]. repeat split; vm_compute; reflexivity.
Qed.


(** * The score after a coverage-only construction *)

(** ** Sums of counters over the Singles *)

Lemma sum_alter {A} (g : A → Z) (f : A → A) (l : list A) i x :
  l !! i = Some x →
  foldr Z.add 0 (g <$> alter f i l) = foldr Z.add 0 (g <$> l) + (g (f x) - g x).
Proof.
  revert i. induction l as [|y l IH]; intros [|i] Hi; simpl in *; try done.
  - injection Hi as ->. lia.
  - change (g y + foldr Z.add 0 (g <$> alter f i l)
            = g y + foldr Z.add 0 (g <$> l) + (g (f x) - g x)).
    rewrite (IH i Hi). lia.
Qed.

Lemma sum_bind {A B} (w : B → Z) (h : A → list B) (l : list A) :
  foldr Z.add 0 (w <$> (x ← l; h x))
  = foldr Z.add 0 ((λ x, foldr Z.add 0 (w <$> h x)) <$> l).
Proof.
  induction l as [|x l IH]; [done|]. rewrite bind_cons, fmap_app, foldr_app, fmap_cons.
  cbn [foldr]. rewrite <- IH. generalize (foldr Z.add 0 (w <$> (l ≫= h))). intros z.
  induction (w <$> h x) as [|y ys IHy]; simpl; lia.
Qed.

Lemma sum_issues_upd_single f s a S :
  get_single a s = Some S →
  sum_issues (upd_single f s a)
  = sum_issues a
    + ((c_issues (f S) + l_issues (f S) + d_issues (f S))
       - (c_issues S + l_issues S + d_issues S)).
Proof.
  intros HS. unfold sum_issues, upd_single. cbn [factors upd].
  rewrite !sum_bind. unfold get_single in HS.
  destruct (factors a !! s.1) as [F|] eqn:HF; [|done]. simpl in HS.
  rewrite (sum_alter _ _ _ _ F HF). cbn [f_singles f_set_singles].
  rewrite (sum_alter _ _ _ _ S HS). lia.
Qed.

Lemma sum_issues_built a : factors_built a → sum_issues a = 0.
Proof.
  intros [_ Hall]. unfold sum_issues. rewrite sum_bind.
  assert (Forall (λ F, foldr Z.add 0
            ((λ S, c_issues S + l_issues S + d_issues S) <$> f_singles F) = 0)
            (factors a)) as HF.
  { apply Forall_forall. intros F HF. apply list_elem_of_lookup in HF as [c HF].
    destruct (Hall c F HF) as [lv ->]. cbn [f_singles mk_Factor].
    induction (seq 0 lv) as [|j js IH]; [done|]. rewrite !fmap_cons. cbn [foldr].
    rewrite IH. done. }
  clear Hall. induction HF as [|F l HF _ IH]; [done|]. rewrite fmap_cons. cbn [foldr].
  rewrite IH. cbv beta in HF |- *. rewrite HF. done.
Qed.

(** ** The enumeration of the Interactions *)

Lemma add_interaction_score_issues ss a :
  Forall (λ s, is_Some (get_single a s)) ss →
  score (add_interaction ss a) = score a + Z.of_nat (length ss)
  ∧ sum_issues (add_interaction ss a) = sum_issues a + Z.of_nat (length ss).
Proof.
  intros Hvalid. unfold add_interaction. cbv zeta.
  set (a1 := upd F_interaction_map _ _).
  assert (∀ s, get_single a1 s = get_single a s) as Hget by done.
  cut (score (for_each (λ single a,
          upd F_score Z.succ
            (upd F_total_problems Z.succ (upd_single (s_set_c_issues Z.succ) single a)))
          ss a1) = score a + Z.of_nat (length ss)
       ∧ sum_issues (for_each (λ single a,
          upd F_score Z.succ
            (upd F_total_problems Z.succ (upd_single (s_set_c_issues Z.succ) single a)))
          ss a1) = sum_issues a + Z.of_nat (length ss)
       ∧ ∀ s, is_Some (get_single (for_each (λ single a,
          upd F_score Z.succ
            (upd F_total_problems Z.succ (upd_single (s_set_c_issues Z.succ) single a)))
          ss a1) s) ↔ is_Some (get_single a s)).
  { intros (? & ? & _). by split. }
  apply (for_each_split (λ l c,
    score c = score a + Z.of_nat (length l)
    ∧ sum_issues c = sum_issues a + Z.of_nat (length l)
    ∧ ∀ s, is_Some (get_single c s) ↔ is_Some (get_single a s))).
  - intros l s l2 c E (H1 & H2 & H3). rewrite length_app. cbn [length].
    assert (is_Some (get_single c s)) as [S HS].
    { apply H3. rewrite Forall_forall in Hvalid. apply Hvalid. rewrite E.
      apply elem_of_app. right. by left. }
    split_and!.
    + change (Z.succ (score c) = score a + Z.of_nat (length l + 1)). lia.
    + change (sum_issues (upd_single (s_set_c_issues Z.succ) s c)
              = sum_issues a + Z.of_nat (length l + 1)).
      rewrite (sum_issues_upd_single _ _ _ S HS). cbn [c_issues l_issues d_issues s_set_c_issues].
      lia.
    + intros s'.
      change (is_Some (get_single (upd_single (s_set_c_issues Z.succ) s c) s')
              ↔ is_Some (get_single a s')).
      rewrite get_single_upd_single, <- H3. destruct (decide (s = s')); [|done].
      by rewrite fmap_is_Some.
  - split_and!; [cbn; lia|change (sum_issues a1) with (sum_issues a); simpl; lia|done].
Qed.

Lemma add_interactions_score_issues n L a :
  Forall (λ K : list (nat * nat),
            length K = n ∧ Forall (λ s, is_Some (get_single a s)) K) L →
  score (for_each add_interaction L a) = score a + Z.of_nat n * Z.of_nat (length L)
  ∧ sum_issues (for_each add_interaction L a)
    = sum_issues a + Z.of_nat n * Z.of_nat (length L).
Proof.
  intros HL.
  cut (score (for_each add_interaction L a) = score a + Z.of_nat n * Z.of_nat (length L)
       ∧ sum_issues (for_each add_interaction L a)
         = sum_issues a + Z.of_nat n * Z.of_nat (length L)
       ∧ ∀ s, is_Some (get_single (for_each add_interaction L a) s)
              ↔ is_Some (get_single a s)).
  { intros (? & ? & _). by split. }
  apply (for_each_split (λ l c,
    score c = score a + Z.of_nat n * Z.of_nat (length l)
    ∧ sum_issues c = sum_issues a + Z.of_nat n * Z.of_nat (length l)
    ∧ ∀ s, is_Some (get_single c s) ↔ is_Some (get_single a s))).
  - intros l K l2 c E (H1 & H2 & H3). rewrite length_app. cbn [length].
    rewrite Forall_forall in HL. destruct (HL K) as [HlK HvK].
    { rewrite E. apply elem_of_app. right. by left. }
    destruct (add_interaction_score_issues K c) as [Hs Hi].
    { eapply Forall_impl; [exact HvK|]. intros s. by rewrite H3. }
    split_and!; [lia|lia|].
    intros s. rewrite <- H3. pose proof (add_interaction_singles K c s) as Eq.
    destruct (get_single (add_interaction K c) s), (get_single c s); try done;
      split; intros [? ?]; eauto.
  - split_and!; [cbn; lia|cbn; lia|done].
Qed.

Lemma combos_valid a K :
  factors_built a → K ∈ combos (levels a) (t a) 0 [] →
  length K = t a ∧ Forall (λ s, is_Some (get_single a s)) K.
Proof.
  intros Hb HK. apply elem_of_combos in HK as (sfx & -> & Hlen & _ & Hlv). simpl.
  split; [done|]. eapply Forall_impl; [exact Hlv|]. intros [c v] Hv. simpl in Hv.
  unfold levels in Hv. rewrite list_lookup_fmap in Hv. unfold get_single. simpl.
  destruct (factors a !! c) as [F|] eqn:HF; [|simpl in Hv; lia]. simpl in *.
  destruct Hb as [_ Hb2]. destruct (Hb2 _ _ HF) as [lv ->]. simpl in *.
  rewrite list_lookup_fmap. destruct (seq 0 lv !! v) eqn:E; [by eauto|].
  apply lookup_ge_None in E. rewrite length_seq in E. lia.
Qed.

(** ** The constructor in coverage-only mode *)

(** the constructor adds [total_problems] to a [score] that the enumeration
    has already raised by one per constituent Single, so that the score of a
    coverage-only Array exceeds the sum of its problems and issues by [t]
    times the number of Interactions *)
Lemma Array_of_Parser_score_c_only inp a :
  Array_of_Parser inp = Ok a → in_p inp = c_only →
  score a = problems_and_issues a
            + Z.of_nat (in_t inp) * Z.of_nat (length (interactions a)).
Proof.
  unfold Array_of_Parser. cbv zeta. intros H Hp.
  apply bind_Ok in H as (a1 & H1 & H).
  pose proof (build_factors_spec _ (Array_init inp) _ eq_refl H1) as Hbuilt.
  pose proof (build_factors_beside _ _ _ H1) as Hb1.
  assert (interactions a1 = [] ∧ score a1 = 0 ∧ total_problems a1 = 0
          ∧ coverage_problems a1 = 0 ∧ location_problems a1 = 0
          ∧ detection_problems a1 = 0 ∧ t a1 = in_t inp ∧ p a1 = in_p inp)
    as (Ei & Esc & Etp & Ecp & Elp & Edp & Et & Ep).
  { unfold beside_factors, config in Hb1. simpl in Hb1. split_and!; congruence. }
  apply bind_Ok in H as (a2 & H2 & H).
  destruct (factors_built_wf _ Hbuilt) as [Hwf Hnr].
  apply (build_t_way_interactions_closed _ _ _ _ _ Hwf Hnr) in H2.
  set (L := combos (levels a1) (t a1) 0 []) in *.
  assert (Forall (λ K : list (nat * nat),
            length K = t a1 ∧ Forall (λ s, is_Some (get_single a1 s)) K) L) as HL.
  { apply Forall_forall. intros K HK. by apply combos_valid. }
  destruct (add_interactions_score_issues _ _ _ HL) as [Hsc Hsum].
  pose proof (add_interactions_total (t a1) L a1) as Htot.
  rewrite <- H2 in Hsc, Hsum, Htot.
  assert (total_problems a2 = Z.of_nat (t a1) * Z.of_nat (length L)) as Etp2.
  { rewrite Htot; [lia|]. eapply Forall_impl; [exact HL|]. by intros K [? _]. }
  clear Htot.
  destruct (add_interactions_spec L a1) as (Hint & _). cbv zeta in Hint.
  rewrite <- H2, Ei in Hint. simpl in Hint.
  pose proof (add_interactions_beside L a1) as Hbeside. rewrite <- H2 in Hbeside.
  assert (coverage_problems a2 = 0 ∧ location_problems a2 = 0
          ∧ detection_problems a2 = 0 ∧ p a2 = c_only) as (Ecp2 & Elp2 & Edp2 & Ep2).
  { unfold beside_interactions, config in Hbeside. split_and!; congruence. }
  assert (length (interactions a2) = length L) as Elen by by rewrite Hint, length_fmap.
  rewrite (sum_issues_built _ Hbuilt) in Hsum.
  destruct (decide _) as [_|Hn] in H; [|by destruct Hn].
  apply Ok_inj in H as <-. unfold problems_and_issues, add_to.
  cbn [score coverage_problems location_problems detection_problems interactions upd
       total_problems].
  change (sum_issues _) with (sum_issues a2).
  rewrite Hsc, Hsum, Ecp2, Elp2, Edp2, Esc, Etp2, Elen, Et. lia.
Qed.

(** C1. In coverage-only mode the identity
    [score = coverage_problems + location_problems + detection_problems
             + Σ (c_issues + l_issues + d_issues)]
    does not hold: the constructor adds [total_problems] to a [score] that
    already holds the Singles' share, so every coverage-only Array starts
    with a score that is [t] times the number of Interactions above the
    right-hand side.  On scenario S1 the constructor leaves [score = 60]
    where the right-hand side is [36], and the gap is still there after
    [add_random_row] and [add_row] (42 against 18). *)
Theorem score_identity_fails_coverage_only :
  (∀ inp a, Array_of_Parser inp = Ok a → in_p inp = c_only →
     score a = problems_and_issues a
               + Z.of_nat (in_t inp) * Z.of_nat (length (interactions a)))
  ∧ ∃ a, Array_of_Parser S1_parser = Ok a
    ∧ score a = 60 ∧ problems_and_issues a = 36
    ∧ ∃ a' g', (_ ← add_random_row; add_row c_only (λ n, n)) a rng_steps = Ok ((), a', g')
        ∧ score a' = 42 ∧ problems_and_issues a' = 18.
Proof.
  split; [exact Array_of_Parser_score_c_only|].
  eexists. split; [vm_compute; reflexivity|].
  split; [vm_compute; reflexivity|]. split; [vm_compute; reflexivity|].
  eexists _, _. split; [vm_compute; reflexivity|].
  split; vm_compute; reflexivity.
Qed.


(** * What the constructor builds *)

(** ** Counting the combinations *)

Lemma esym_0 l : esym l 0 = 1%nat.
Proof. by destruct l. Qed.

Lemma esym_short l k : (length l < k)%nat → esym l k = 0%nat.
Proof.
  revert k. induction l as [|x l IH]; intros [|k] Hk; simpl in *; try lia.
  rewrite !IH by lia. lia.
Qed.

Lemma drop_lookup_cons {A} (l : list A) i x : l !! i = Some x → drop i l = x :: drop (S i) l.
Proof.
  revert i. induction l as [|y l IH]; intros [|i] Hi; simpl in *; try done.
  - by injection Hi as ->.
  - by apply IH.
Qed.

Lemma length_bind_const {A B} (f : A → list B) (l : list A) n :
  (∀ x, x ∈ l → length (f x) = n) → length (l ≫= f) = (length l * n)%nat.
Proof.
  induction l as [|x l IH]; intros Hf; [done|].
  rewrite bind_cons, length_app, IH, Hf; [simpl; lia|by left|].
  intros y Hy. apply Hf. by right.
Qed.

Lemma length_combos lvls t_cur start p :
  (t_cur ≤ length lvls + 1)%nat →
  length (combos lvls t_cur start p) = esym (drop start lvls) t_cur.
Proof.
  revert start p. induction t_cur as [|t' IH]; intros start p Ht.
  - by rewrite esym_0.
  - cbn [combos]. unfold loop_bound. rewrite decide_True by lia. unfold range.
    replace (length lvls + 1 - S t')%nat with (length lvls - t')%nat by lia.
    remember (length lvls - t' - start)%nat as m eqn:Em.
    revert start Em. induction m as [|m IHm]; intros start Em.
    + simpl. rewrite esym_short; [done|]. rewrite length_drop. lia.
    + cbn [seq]. rewrite bind_cons, length_app, IHm by lia.
      destruct (lvls !! start) as [lv|] eqn:Hlv.
      2: { apply lookup_ge_None in Hlv. lia. }
      rewrite (drop_lookup_cons _ _ _ Hlv). cbn [esym default]. f_equal.
      rewrite (length_bind_const _ _ (esym (drop (S start) lvls) t')).
      * by rewrite length_seq.
      * intros v _. rewrite IH by lia. by rewrite Nat.add_1_r.
Qed.

Lemma choose_0_r n : choose n 0 = 1%nat.
Proof. by destruct n. Qed.

Lemma choose_short n k : (n < k)%nat → choose n k = 0%nat.
Proof.
  revert k. induction n as [|n IH]; intros [|k] Hk; simpl; try lia.
  rewrite !IH by lia. lia.
Qed.

Lemma length_index_sets n d_cur start p :
  (d_cur ≤ n + 1)%nat →
  length (index_sets n d_cur start p) = choose (n - start) d_cur.
Proof.
  revert start p. induction d_cur as [|d' IH]; intros start p Hd.
  - by rewrite choose_0_r.
  - cbn [index_sets]. unfold loop_bound. rewrite decide_True by lia. unfold range.
    replace (n + 1 - S d')%nat with (n - d')%nat by lia.
    remember (n - d' - start)%nat as m eqn:Em.
    revert start Em. induction m as [|m IHm]; intros start Em.
    + simpl. rewrite choose_short; [done|]. lia.
    + cbn [seq]. rewrite bind_cons, length_app, IHm by lia.
      rewrite IH by lia.
      replace (n - start)%nat with (S (n - S start)) by lia. cbn [choose].
      by rewrite Nat.add_1_r.
Qed.

Lemma elem_of_index_sets n d_cur start p K :
  K ∈ index_sets n d_cur start p ↔
  ∃ sfx, K = p ++ sfx ∧ length sfx = d_cur ∧ incr_from start n sfx.
Proof.
  revert start p. induction d_cur as [|d' IH]; intros start p; simpl.
  - rewrite list_elem_of_singleton. split.
    + intros ->. exists []. by rewrite app_nil_r.
    + intros (sfx & -> & Hl & _). destruct sfx; [|done]. by rewrite app_nil_r.
  - rewrite list_elem_of_bind. split.
    + intros (c & HK & Hc). apply IH in HK as (sfx & -> & Hl & Hcs).
      exists (c :: sfx). rewrite <- app_assoc. simpl.
      split; [done|]. split; [by rewrite Hl|]. split; [|done].
      apply elem_of_range in Hc. unfold loop_bound in Hc.
      apply incr_from_length in Hcs. case_decide; [lia|].
      destruct Hcs as [?| ->]; simpl in *; lia.
    + intros (sfx & -> & Hl & Hcs). destruct sfx as [|c sfx]; [done|].
      simpl in Hcs, Hl. destruct Hcs as [Hc Hcs]. exists c. split.
      * apply IH. exists sfx. rewrite <- app_assoc. split_and!; [done|lia|done].
      * apply elem_of_range. unfold loop_bound.
        apply incr_from_length in Hcs.
        case_decide; [|destruct Hcs as [?| ->]; simpl in *; lia].
        destruct Hcs as [?| ->]; simpl in *; lia.
Qed.

Lemma NoDup_index_sets n d_cur start p : NoDup (index_sets n d_cur start p).
Proof.
  revert start p. induction d_cur as [|d' IH]; intros start p; simpl.
  - apply NoDup_singleton.
  - apply NoDup_bind; [| |apply NoDup_range].
    + intros c1 c2 K _ _ HK1 HK2.
      apply elem_of_index_sets in HK1 as (sfx1 & -> & _).
      apply elem_of_index_sets in HK2 as (sfx2 & E & _).
      rewrite <- !app_assoc in E. apply app_inv_head in E. simpl in E. congruence.
    + intros c _. apply IH.
Qed.

(** ** The Factors and the directory of the Singles *)

Lemma all_singles_snoc lvls lv :
  all_singles (lvls ++ [lv])
  = all_singles lvls ++ (pair (length lvls) <$> seq 0 lv).
Proof.
  unfold all_singles. rewrite length_app. cbn [length].
  rewrite Nat.add_1_r, seq_S, bind_app. f_equal.
  - apply Forall_bind_ext, Forall_forall. intros c Hc%elem_of_seq.
    rewrite lookup_app_l by lia. done.
  - simpl. rewrite app_nil_r, lookup_app_r, Nat.sub_diag by lia. done.
Qed.

Lemma build_factors_step_levels level_of i a a' :
  length (factors a) = i →
  (lv ← level_of i;
   let a := upd F_factors (λ l, l ++ [{| id := i; level := lv; f_singles := [] |}]) a in
   Ok (for_each (λ j a,
         let a := upd F_factors
                    (alter (f_set_singles (λ l, l ++ [new_Single i j])) i) a in
         let a := upd F_singles (λ l, l ++ [(i, j)]) a in
         upd F_single_map (map_insert_new (Single_to_string (new_Single i j)) (i, j)) a)
       (seq 0 lv) a)) = Ok a' →
  ∃ lv, level_of i = Ok lv ∧ factors a' = factors a ++ [mk_Factor i lv]
    ∧ singles a' = singles a ++ (pair i <$> seq 0 lv).
Proof.
  intros Hi H. apply bind_Ok in H as (lv & Hlv & H). cbv zeta in H.
  apply Ok_inj in H as <-. exists lv. split; [done|].
  pose proof (build_factors_inner i 0 lv
    (upd F_factors (λ l, l ++ [{| id := i; level := lv; f_singles := [] |}]) a))
    as HI.
  cbv zeta in HI. destruct HI as [HI1 HI2]. rewrite HI1, HI2.
  cbn [factors singles upd]. split; [|done]. rewrite alter_app_r_alt by lia.
  rewrite Hi, Nat.sub_diag. done.
Qed.

Lemma seq_split_length (n : nat) l1 (x : nat) l2 : seq 0 n = l1 ++ x :: l2 → x = length l1.
Proof.
  intros E. assert (seq 0 n !! length l1 = Some x) as H.
  { rewrite E. by rewrite lookup_app_r, Nat.sub_diag by lia. }
  apply lookup_seq in H. lia.
Qed.

Lemma build_factors_levels level_of a a' :
  factors a = [] → build_factors level_of a = Ok a' →
  (∀ c lv, levels a' !! c = Some lv → level_of c = Ok lv)
  ∧ singles a' = singles a ++ all_singles (levels a').
Proof.
  intros Hnil H. unfold build_factors in H. revert H.
  pose (P := λ (l1 : list nat) (c : Array),
    length (factors c) = length l1
    ∧ (∀ k lv, levels c !! k = Some lv → level_of k = Ok lv)
    ∧ singles c = singles a ++ all_singles (levels c)).
  intros H. cut (P (seq 0 (num_factors a)) a'). { intros (_ & ? & ?). done. }
  revert H. apply (foldM_split P); unfold P; clear P.
  - intros l1 i l2 c c' E (Hlen & Hlv & Hs) Hc.
    apply seq_split_length in E. subst i.
    apply build_factors_step_levels in Hc as (lv & Elv & Ef & Es); [|done].
    unfold levels in *. rewrite Ef, fmap_app, length_app, length_app. cbn.
    split_and!; [lia| |].
    + intros k lv'. intros [?|[Hle Hk]]%lookup_app_Some; [by eauto|].
      rewrite length_fmap in Hle, Hk.
      destruct (k - length (factors c))%nat as [|?] eqn:Ek; [|done].
      injection Hk as <-. replace k with (length l1) by lia. done.
    + rewrite Es, Hs, all_singles_snoc, length_fmap, Hlen, app_assoc. done.
  - rewrite Hnil. split_and!; [done| |].
    + intros k lv. unfold levels. by rewrite Hnil.
    + unfold levels. rewrite Hnil. by rewrite app_nil_r.
Qed.

Lemma build_factors_smap level_of a a' :
  smap_ok a → build_factors level_of a = Ok a' → smap_ok a'.
Proof.
  intros H0 H. unfold build_factors in H. revert H.
  apply (foldM_inv smap_ok); [|done].
  intros i c c' _ Hc H. inv_Ok H. rename x into lv.
  apply (for_each_inv smap_ok).
  - intros j b _ Hb key s. cbn [single_map singles upd].
    rewrite lookup_map_insert_new, elem_of_app, list_elem_of_singleton.
    unfold Single_to_string. cbn [factor value new_Single].
    destruct (single_map b !! key) as [w|] eqn:Hw.
    + apply Hb in Hw as [-> Hw]. split.
      * intros [= <-]. by split; [|left].
      * intros [[= ->] _]. done.
    + case_decide as Hk.
      * subst key. split; [intros [= <-]; by split; [|right]|].
        intros [[= <-] _]. done.
      * split; [done|]. intros [-> [Hs| ->]]; [|done].
        assert (single_map b !! [s] = Some s) as E by by apply Hb. congruence.
  - intros key s. cbn [single_map singles upd]. apply Hc.
Qed.

(** ** The Singles of a new T set *)

Lemma members_snoc a l i I :
  interactions a !! i = Some I → members a (l ++ [i]) = members a l ++ i_singles I.
Proof.
  intros HI. unfold members. rewrite bind_app. f_equal. simpl.
  rewrite HI. simpl. by rewrite !app_nil_r.
Qed.

Lemma members_agree a b temp :
  (∀ i, i_singles <$> interactions b !! i = i_singles <$> interactions a !! i) →
  members b temp = members a temp.
Proof.
  intros H. unfold members. apply list_bind_ext; [|done]. intros i.
  specialize (H i). destruct (interactions b !! i), (interactions a !! i);
    simpl in *; try done. rewrite !app_nil_r. congruence.
Qed.

Lemma new_T_singles this temp a X a' :
  new_T this temp a = Ok (X, a') → t_singles X = members a temp.
Proof.
  unfold new_T. intros H. destruct temp as [|i0 rest]; [done|].
  apply bind_Ok in H as (I0 & HI0%interaction_at_Ok & H).
  apply bind_Ok in H as (rws & Hrws & H).
  apply bind_Ok in H as ([a1 ss] & Hloop & H). apply Ok_inj in H.
  injection H as <- <-. cbn [t_singles].
  revert Hloop. generalize (i0 :: rest). intros l Hloop.
  pose (P := λ (l1 : list nat) (st : Array * list SingleP),
    (∀ i, i_singles <$> interactions st.1 !! i = i_singles <$> interactions a !! i)
    ∧ st.2 = members a l1).
  cut (P l (a1, ss)). { by intros [_ ?]. }
  revert Hloop. apply (foldM_prefix P); unfold P; clear P.
  - intros l1 i [c s1] [c' s1'] [Hv Hs] Hi. cbn [fst snd] in *.
    apply bind_Ok in Hi as (I & HI%interaction_at_Ok & Hi). apply Ok_inj in Hi.
    injection Hi as <- <-. split.
    + intros j. pose proof (get_interaction_upd_interaction
        (i_set_sets (union {[this]})) i j c) as E. unfold get_interaction in E.
      rewrite E. case_decide; [|done]. rewrite <- Hv.
      by destruct (interactions c !! j).
    + specialize (Hv i). rewrite HI in Hv.
      destruct (interactions a !! i) as [I'|] eqn:HI'; [|done].
      rewrite (members_snoc _ _ _ _ HI'), Hs. simpl in Hv. congruence.
  - done.
Qed.

(** ** The list of the T sets, in closed form *)

Lemma build_size_d_sets_closed d_cur start temp a a' :
  (∀ i I, interactions a !! i = Some I → i_rows I = ∅) →
  sets_built a →
  build_size_d_sets d_cur start temp a = Ok a' →
  set_view <$> sets a'
  = (set_view <$> sets a)
    ++ ((λ temp, (temp, members a temp))
          <$> index_sets (length (interactions a)) d_cur start temp).
Proof.
  revert start temp a a'. induction d_cur as [|d' IH]; intros start temp a a' Hrows Hb H.
  - simpl in H. apply bind_Ok in H as ([X a1] & HX & H).
    apply bind_Ok in H as (key & _ & H). apply Ok_inj in H as <-.
    pose proof (new_T_singles _ _ _ _ _ HX) as Hs.
    apply new_T_spec in HX as (Hti & _ & _ & _ & _ & ->).
    cbn [sets upd index_sets].
    assert (sets (for_each (upd_interaction (i_set_sets (union {[length (sets a)]})))
              temp a) = sets a) as -> by frame_steps.
    rewrite fmap_app. simpl. unfold set_view at 2. by rewrite Hti, Hs.
  - cbn [build_size_d_sets index_sets] in *.
    pose (P := λ (l1 : list nat) (c : Array),
      set_view <$> sets c
      = (set_view <$> sets a)
        ++ ((λ temp, (temp, members a temp))
              <$> (l1 ≫= λ i, index_sets (length (interactions a)) d' (i + 1)
                                 (temp ++ [i])))
      ∧ sets_built c
      ∧ length (interactions c) = length (interactions a)
      ∧ (∀ i, but_sets <$> interactions c !! i = but_sets <$> interactions a !! i)).
    cut (P (range start (loop_bound (length (interactions a)) (S d'))) a').
    { by intros [? _]. }
    revert H. apply (foldM_prefix P); unfold P; clear P.
    + intros l1 i c c' (Hv & Hbc & Hlc & Hic) Hc.
      apply bind_Ok in Hc as (_ & _ & Hc).
      assert (∀ j J, interactions c !! j = Some J → i_rows J = ∅) as Hrc.
      { intros j J HJ. specialize (Hic j). rewrite HJ in Hic.
        destruct (interactions a !! j) as [J0|] eqn:HJ0; [|done].
        injection Hic as _ -> _ _ _. by eapply Hrows. }
      pose proof (IH _ _ _ _ Hrc Hbc Hc) as Hv'.
      apply build_size_d_sets_spec in Hc as (? & ? & Hic' & ?); [|done..].
      split_and!; [|done|congruence|intros j; by rewrite Hic', Hic].
      rewrite Hv', Hv, bind_app, fmap_app, <- app_assoc, Hlc. f_equal. f_equal.
      simpl. rewrite app_nil_r. apply list_fmap_ext. intros _ K _. f_equal.
      apply members_agree. intros j. specialize (Hic j).
      destruct (interactions c !! j), (interactions a !! j); simpl in *; try done.
      unfold but_sets in Hic. injection Hic as -> _ _ _ _. done.
    + simpl. rewrite app_nil_r. done.
Qed.

(** ** The shape of the Factors *)

Lemma shape_upd_single f s a : shape (upd_single f s a) = shape a.
Proof.
  unfold shape, upd_single. cbn [factors upd].
  apply list_eq. intros i. rewrite !list_lookup_fmap.
  destruct (decide (i = s.1)) as [->|].
  - rewrite list_lookup_alter_eq. destruct (factors a !! s.1); [|done]. simpl.
    by rewrite length_alter.
  - by rewrite list_lookup_alter_ne.
Qed.

Lemma levels_shape a : levels a = (λ x : nat * nat * nat, x.1.2) <$> shape a.
Proof. unfold levels, shape. by rewrite <- list_fmap_compose. Qed.

Lemma levels_shape_of lvls : (λ x : nat * nat * nat, x.1.2) <$> shape_of lvls = lvls.
Proof.
  unfold shape_of. apply list_eq. intros i.
  rewrite list_lookup_fmap, list_lookup_imap. by destruct (lvls !! i).
Qed.

Lemma shape_built a : factors_built a → shape a = shape_of (levels a).
Proof.
  intros [_ Hall]. unfold shape, shape_of, levels. apply list_eq. intros c.
  rewrite list_lookup_imap, !list_lookup_fmap.
  destruct (factors a !! c) as [F|] eqn:HF; [|done]. simpl.
  destruct (Hall _ _ HF) as [lv ->]. simpl. by rewrite length_fmap, length_seq.
Qed.

(** closes [shape (step ... b) = v] for the steps that the updates are made of *)
Ltac shape_steps :=
  repeat lazymatch goal with
    | H : shape ?b = ?v |- shape ?b = ?v => exact H
    | |- shape ?a = shape ?a => reflexivity
    | |- shape (bump _ _ _ _) = _ => unfold bump
    | |- shape (add_interaction _ _) = _ => unfold add_interaction
    | |- shape (upd_single ?f ?s ?b) = ?v => rewrite (shape_upd_single f s b)
    | |- shape (upd ?fd ?f ?b) = ?v => change (shape b = v)
    | |- shape (add_to ?fd ?k ?b) = ?v => change (shape b = v)
    | |- shape (upd_interaction ?f ?i ?b) = ?v => change (shape b = v)
    | |- shape (upd_T ?f ?k ?b) = ?v => change (shape b = v)
    | |- shape (for_each ?f ?l ?b) = ?v =>
      apply (for_each_inv (λ x, shape x = v)); [intros ? ? _ ?; cbv beta|cbv beta]
    | |- shape (if decide ?P then _ else _) = _ => destruct (decide P)
    | |- shape (let _ := _ in _) = _ => cbv zeta
    | |- _ = _ => solve [reflexivity | match goal with H : _ |- _ => exact H end]
    end.

Ltac shape_loop H :=
  lazymatch type of H with
  | foldM _ _ ?a = Ok ?a' =>
    lazymatch goal with
    | |- shape a' = ?v =>
      revert H; apply (foldM_inv (λ x, shape x = v));
        [intros ? ? ? _ ? H; cbv beta in *|cbv beta]
    end
  end.

(** ** The constructor, in closed form *)

Lemma fmap_id_lookup_eq {A} (l1 l2 : list A) :
  (∀ k, (λ x, x) <$> l1 !! k = (λ x, x) <$> l2 !! k) → l1 = l2.
Proof.
  intros H. apply list_eq. intros k. specialize (H k).
  by destruct (l1 !! k), (l2 !! k); simpl in *.
Qed.

Lemma view_lookup_eq {A B} (f : A → B) (l1 l2 : list A) :
  (∀ k, f <$> l1 !! k = f <$> l2 !! k) → f <$> l1 = f <$> l2.
Proof. intros H. apply list_eq. intros k. by rewrite !list_lookup_fmap. Qed.

Lemma agree_init_lists a b :
  agree init_s init_i init_t skel_a a b →
  singles b = singles a ∧ single_map b = single_map a
  ∧ i_singles <$> interactions b = i_singles <$> interactions a
  ∧ sets b = sets a.
Proof.
  intros (Ha & _ & Hi & Ht). apply skel_a_inv in Ha as (Hdir & _).
  split_and!.
  - change ((directory b).1.1.1.2 = (directory a).1.1.1.2). by rewrite Hdir.
  - change ((directory b).1.1.2 = (directory a).1.1.2). by rewrite Hdir.
  - apply view_lookup_eq. intros k. specialize (Hi k).
    destruct (interactions b !! k), (interactions a !! k); simpl in *; try done.
    unfold init_i in Hi. by injection Hi as -> _ _ _ _.
  - apply fmap_id_lookup_eq. intros k. apply (Ht k).
Qed.

Lemma members_lists a b temp :
  i_singles <$> interactions b = i_singles <$> interactions a →
  members b temp = members a temp.
Proof.
  intros H. apply members_agree. intros i.
  apply (f_equal (.!! i)) in H. by rewrite !list_lookup_fmap in H.
Qed.

Lemma Array_of_Parser_built inp a : Array_of_Parser inp = Ok a → built_from inp a.
Proof.
  intros H0. pose proof (Array_of_Parser_initial _ _ H0) as [_ Hparams].
  revert H0. unfold Array_of_Parser. cbv zeta. intros H.
  apply bind_Ok in H as (a1 & H1 & H).
  pose proof (build_factors_spec _ (Array_init inp) _ eq_refl H1) as Hbuilt.
  pose proof (build_factors_beside _ _ _ H1) as Hb1.
  pose proof (build_factors_levels _ (Array_init inp) _ eq_refl H1) as [Hlv Hsingles].
  assert (smap_ok a1) as Hsmap.
  { eapply build_factors_smap; [|exact H1]. intros key s.
    cbn. rewrite lookup_empty, elem_of_nil. naive_solver. }
  cbn [singles Array_init app] in Hsingles.
  assert (interactions a1 = [] ∧ interaction_map a1 = ∅ ∧ sets a1 = [] ∧ rows a1 = []
          ∧ num_factors a1 = in_num_cols inp ∧ t a1 = in_t inp ∧ p a1 = in_p inp
          ∧ d a1 = in_d inp ∧ num_tests a1 = in_num_rows inp)
    as (Ei & Em & Es & Er & En & Et & Ep & Ed & Ent).
  { unfold beside_factors, config in Hb1. simpl in Hb1. split_and!; congruence. }
  assert (length (levels a1) = in_num_cols inp) as Hlen.
  { unfold levels. rewrite length_fmap, <- En. apply Hbuilt. }
  assert ((in_num_cols inp ≤ length (in_levels inp))%nat) as Hcols.
  { destruct (in_num_cols inp) as [|n] eqn:E; [lia|].
    destruct (lookup_lt_is_Some_2 (levels a1) n ltac:(lia)) as [lv Hn].
    apply Hlv, or_fail_Ok, lookup_lt_Some in Hn. lia. }
  assert (levels a1 = in_levels_used inp) as Elv.
  { unfold in_levels_used. apply list_eq. intros c.
    destruct (decide (c < in_num_cols inp)%nat) as [Hc|Hc].
    - destruct (lookup_lt_is_Some_2 (levels a1) c ltac:(lia)) as [lv Hn].
      rewrite Hn, lookup_take_lt by done. symmetry.
      apply (proj1 (or_fail_Ok OutOfRange _ _)). by apply Hlv.
    - rewrite lookup_take_ge by lia. apply lookup_ge_None. lia. }
  apply bind_Ok in H as (a2 & H2 & H).
  destruct (factors_built_wf _ Hbuilt) as [Hwf Hnr].
  apply (build_t_way_interactions_closed _ _ _ _ _ Hwf Hnr) in H2.
  set (L := combos (levels a1) (t a1) 0 []) in *.
  destruct (interactions_phase a1 Hbuilt Ei Em Es Er) as (Hcore2 & Hsets2 & Hd2).
  cbv zeta in Hcore2, Hsets2, Hd2. fold L in Hcore2, Hsets2, Hd2.
  rewrite <- H2 in Hcore2, Hsets2, Hd2. rewrite Ent in Hcore2.
  destruct (add_interactions_spec L a1) as (Hint & _). cbv zeta in Hint.
  rewrite <- H2, Ei in Hint. simpl in Hint.
  pose proof (add_interactions_beside L a1) as Hbeside. rewrite <- H2 in Hbeside.
  assert (singles a2 = singles a1 ∧ single_map a2 = single_map a1 ∧ p a2 = in_p inp
          ∧ d a2 = in_d inp) as (Es2 & Em2 & Ep2 & Ed2).
  { unfold beside_interactions, config in Hbeside. split_and!; congruence. }
  assert (shape a2 = shape_of (in_levels_used inp)) as Hshape2.
  { rewrite <- Elv, <- (shape_built _ Hbuilt), H2. shape_steps. }
  assert (i_singles <$> interactions a2 = combos (in_levels_used inp) (in_t inp) 0 [])
    as Hint2.
  { rewrite Hint, <- list_fmap_compose, <- Elv, <- Et. fold L.
    rewrite <- (list_fmap_id L) at 2. by apply list_fmap_ext. }
  assert (smap_ok a2) as Hsmap2.
  { intros key s. rewrite Em2, Es2. apply Hsmap. }
  rewrite Hsingles, Elv in Es2.
  clear H2 H1 Hb1 Hwf Hnr Hbuilt Ei Em Es Er En Hint Hbeside Hlv Hsmap Hsingles Em2.
  set (a3 := add_to F_score _ _) in H.
  assert (agree init_s init_i init_t skel_a a2 a3 ∧ shape a3 = shape a2
          ∧ p a3 = p a2 ∧ d a3 = d a2 ∧ interactions a3 = interactions a2)
    as (Hag3 & Hshape3 & Ep3 & Ed3 & Eint3).
  { unfold a3. split_and!; [agree_steps|shape_steps|frame_steps..]. }
  pose proof (initial_core_agree _ _ _ Hag3 Hcore2) as Hcore3.
  destruct (agree_init_lists _ _ Hag3) as (Es3 & Em3 & Ei3 & Et3).
  assert (smap_ok a3) as Hsmap3.
  { intros key s. rewrite Em3, Es3. apply Hsmap2. }
  destruct (decide (p a3 = c_only)) as [Hc|Hnc].
  { apply Ok_inj in H as <-. unfold built_from.
    rewrite decide_True by congruence.
    split_and!; [done|done|congruence|congruence|done|congruence|].
    by rewrite Et3, Hsets2. }
  apply bind_Ok in H as (a4 & H4 & H).
  pose proof H4 as H4'.
  apply build_size_d_sets_closed in H4'.
  2: { intros i I HI. destruct Hcore3 as (_ & _ & _ & _ & HI3 & _).
       by destruct (HI3 i I HI). }
  2: { split; [apply Hcore3|]. intros k X. by rewrite Et3, Hsets2, lookup_nil. }
  rewrite Et3, Hsets2 in H4'. simpl in H4'.
  pose proof H4 as H4s.
  apply build_size_d_sets_spec in H4s as (_ & Hlen4 & Hview4 & Hbeside4).
  2: { intros i I HI. destruct Hcore3 as (_ & _ & _ & _ & HI3 & _).
       by destruct (HI3 i I HI). }
  2: { split; [apply Hcore3|]. intros k X. by rewrite Et3, Hsets2, lookup_nil. }
  assert (i_singles <$> interactions a4 = i_singles <$> interactions a3) as Ei4.
  { apply view_lookup_eq. intros k. specialize (Hview4 k).
    destruct (interactions a4 !! k), (interactions a3 !! k); simpl in *; try done.
    unfold but_sets in Hview4. by injection Hview4 as -> _ _ _ _. }
  assert (factors a4 = factors a3 ∧ singles a4 = singles a3
          ∧ single_map a4 = single_map a3 ∧ p a4 = p a3) as (Ef4 & Es4 & Em4 & Ep4).
  { unfold beside_sets, config in Hbeside4. split_and!; congruence. }
  apply (sets_phase (in_num_rows inp)) in H4 as (Hcore4 & _ & Hd4);
    [| |congruence|intros i I; rewrite Eint3; intros HI; by destruct (Hd2 i I HI)].
  2: { done. }
  assert (∀ b, agree init_s init_i init_t skel_a a4 b → shape b = shape a4 →
            params b = (in_d inp, in_t inp, in_delta inp, in_num_cols inp, in_p inp) →
            built_from inp b) as Hfin.
  { intros b Hag Hsh Hpar. destruct (agree_init_lists _ _ Hag) as (Es & Em & Ei & Et').
    assert (i_singles <$> interactions b = i_singles <$> interactions a2) as Eib.
    { rewrite Ei, Ei4, Ei3. done. }
    unfold built_from. rewrite decide_False by congruence.
    split_and!; [done|done| | | | |].
    - rewrite Hsh. unfold shape. rewrite Ef4. fold (shape a3). congruence.
    - congruence.
    - intros key s. rewrite Em, Es, Em4, Es4. apply Hsmap3.
    - congruence.
    - rewrite Et', H4'. pose proof (f_equal length Eib) as Elen.
      rewrite !length_fmap in Elen. rewrite Elen, Ed2. apply list_fmap_ext. intros _ temp _. f_equal.
      symmetry. apply members_lists. by rewrite Eib, Ei3. }
  set (a5 := for_each _ (sets a4) a4) in H.
  set (a6 := upd F_score _ _) in H.
  assert (agree init_s init_i init_t skel_a a4 a6 ∧ shape a6 = shape a4
          ∧ p a6 = p a4 ∧ interactions a6 = interactions a4)
    as (Hag6 & Hshape6 & Ep6 & Ei6).
  { unfold a6, a5. split_and!; [agree_steps|shape_steps|frame_steps..]. }
  destruct (decide (p a6 ≠ all)) as [Hna|Hall].
  { apply Ok_inj in H as <-. by apply Hfin. }
  apply bind_Ok in H as (a7 & H7 & H). apply Ok_inj in H as <-.
  assert (shape a7 = shape a6) as Hshape7.
  { shape_loop H7; [|done]. shape_loop H7; [|done]. inv_Ok H7.
    destruct (decide _); inv_Ok H7; [done|]. shape_steps. }
  apply deltas_phase in H7 as ((Hag7 & Es7 & Ep7') & Hz7);
    [|intros i I; rewrite Ei6; apply Hd4].
  set (a8 := add_to F_score _ _) in *.
  assert (agree init_s init_i init_t skel_a a7 a8 ∧ shape a8 = shape a7)
    as (Hag8 & Hshape8).
  { unfold a8. split_and!; [agree_steps|shape_steps]. }
  apply Hfin; [|congruence|done].
  etrans; [exact Hag6|]. etrans; [exact Hag7|]. exact Hag8.
Qed.


(** * What every reachable Array satisfies *)

(** ** [update_array] keeps the shape of the Factors *)

Lemma insert_row_shape n i a rs a' rs' :
  insert_row n i (a, rs) = Ok (a', rs') → shape a' = shape a.
Proof. unfold insert_row. intros H. inv_Ok H. shape_steps. Qed.

Lemma coverage_update_shape i a a' : coverage_update i a = Ok a' → shape a' = shape a.
Proof.
  unfold coverage_update. intros H. inv_Ok H.
  destruct (is_covered x); inv_Ok H; [done|]. shape_steps.
Qed.

Lemma detection_update_shape rs i a a' :
  detection_update rs i a = Ok a' → shape a' = shape a.
Proof.
  unfold detection_update. intros H. inv_Ok H.
  destruct (is_detectable x); inv_Ok H; [done|].
  assert (shape x0 = shape a) as E0.
  { shape_loop Hx0; [|shape_steps]. inv_Ok Hx0. shape_steps. }
  destruct (is_detectable x2); inv_Ok H; rewrite <- E0; shape_steps.
Qed.

Lemma location_first_shape rs t1 a a' :
  location_first rs t1 a = Ok a' → shape a' = shape a.
Proof.
  unfold location_first. intros H. inv_Ok H.
  shape_loop H; [|shape_steps]. inv_Ok H. destruct (decide _); inv_Ok H; shape_steps.
Qed.

Lemma location_solved_shape rs t1 a a' :
  location_solved rs t1 a = Ok a' → shape a' = shape a.
Proof.
  unfold location_solved. intros H. inv_Ok H.
  assert (shape a0 = shape a) as E.
  { change a0 with ((a0, g, z).1.1). revert Hx0.
    apply (foldM_inv (λ st, shape st.1.1 = shape a)); [|done].
    intros t2 [[c tm] sv] [[c' tm'] sv'] _ Hc Hstep. cbn [fst] in *.
    destruct (decide (t2 ∈ rs)); inv_Ok Hstep; [done|].
    destruct (decide (t1 ∈ location_conflicts x0)); inv_Ok Hstep.
    destruct (decide (size (location_conflicts x1) = 0%nat)); inv_Ok Hstep.
    - destruct (decide _); inv_Ok Hstep. shape_steps.
    - shape_steps. }
  rewrite <- E. shape_steps.
Qed.

Lemma location_update_shape rs t1 a a' :
  location_update rs t1 a = Ok a' → shape a' = shape a.
Proof.
  unfold location_update. intros H. inv_Ok H.
  destruct (is_locatable x); inv_Ok H; [done|].
  assert (shape x0 = shape a) as E.
  { destruct (decide _); [by eapply location_first_shape|by eapply location_solved_shape]. }
  destruct (decide (size (location_conflicts x1) = 0%nat)); inv_Ok H; [|done].
  rewrite <- E. shape_steps.
Qed.

Lemma roll_back_shape ri rs a a' : roll_back ri rs a = Ok a' → shape a' = shape a.
Proof.
  unfold roll_back. intros H. inv_Ok H.
  assert (shape x = shape a) as E.
  { shape_loop Hx; [|done]. inv_Ok Hx. shape_steps. }
  rewrite <- E. shape_steps.
Qed.

Lemma update_array_shape row ri keep a b :
  update_array row ri keep a = Ok b → shape b = shape a.
Proof.
  unfold update_array. intros H. apply bind_Ok in H as ([a2 rs] & Hbody & H).
  assert (shape a2 = shape a) as E.
  { rewrite update_array_body_unfold in Hbody. cbv zeta in Hbody.
    apply bind_Ok in Hbody as ([a1 rs1] & Hins & Hbody).
    apply bind_Ok in Hbody as (a3 & Hcount & Hbody). inv_Ok Hbody.
    assert (shape a1 = shape a) as E1.
    { change a1 with ((a1, rs).1). revert Hins.
      apply (foldM_inv (λ st, shape st.1 = shape a)); [|done].
      intros i [c q] [c' q'] _ Hc Hstep. cbn [fst] in *.
      apply insert_row_shape in Hstep. congruence. }
    rewrite <- E1. unfold counting_phases in Hcount.
    apply bind_Ok in Hcount as (a4 & H4 & Hcount).
    assert (shape a4 = shape a1) as E4.
    { shape_loop H4; [|done]. apply bind_Ok in H4 as (c & Hc & H4).
      apply coverage_update_shape in Hc.
      destruct (decide (p c = all)); inv_Ok H4; [|congruence].
      apply detection_update_shape in H4. congruence. }
    rewrite <- E4.
    destruct (decide (p a4 ≠ c_only ∧ is_locating a4 = false)); inv_Ok Hcount; [|done].
    shape_loop Hcount; [|done]. apply location_update_shape in Hcount. congruence. }
  destruct keep; inv_Ok H; [done|]. apply roll_back_shape in H. congruence.
Qed.

(** ** The closed form is kept *)

Lemma same_topology_lists a b :
  same_topology a b →
  params b = params a ∧ singles b = singles a ∧ single_map b = single_map a
  ∧ i_singles <$> interactions b = i_singles <$> interactions a
  ∧ set_view <$> sets b = set_view <$> sets a.
Proof.
  intros (Hdir & _ & Hi & Ht). split_and!.
  - change ((directory b).1.1.1.1 = (directory a).1.1.1.1). by rewrite Hdir.
  - change ((directory b).1.1.1.2 = (directory a).1.1.1.2). by rewrite Hdir.
  - change ((directory b).1.1.2 = (directory a).1.1.2). by rewrite Hdir.
  - apply view_lookup_eq. intros k. specialize (Hi k).
    destruct (interactions b !! k), (interactions a !! k); simpl in *; try done.
    unfold topo_i in Hi. by injection Hi as -> _.
  - apply view_lookup_eq. intros k. apply (Ht k).
Qed.

Lemma built_from_topology inp a b :
  same_topology a b → shape b = shape a → built_from inp a → built_from inp b.
Proof.
  intros Htopo Hsh (Hcols & Hpar & Hshape & Hs & Hsm & Hi & Ht).
  destruct (same_topology_lists _ _ Htopo) as (Ep & Es & Em & Ei & Et).
  unfold built_from. split_and!; [done|congruence|congruence|congruence| |congruence|].
  - intros key s. rewrite Em, Es. apply Hsm.
  - rewrite Et, Ht. destruct (decide _); [done|].
    pose proof (f_equal length Ei) as Elen. rewrite !length_fmap in Elen.
    rewrite Elen. apply list_fmap_ext. intros _ temp _. f_equal.
    symmetry. by apply members_lists.
Qed.

Lemma update_array_row_topology row keep a b :
  update_array_row row keep a = Ok b → same_topology a b ∧ shape b = shape a.
Proof.
  unfold update_array_row. intros H. apply bind_Ok in H as (ri & _ & H).
  split; [|by eapply update_array_shape].
  destruct keep.
  - by apply update_array_keep_spec in H as (_ & _ & ? & _).
  - unfold update_array in H. apply bind_Ok in H as ([a2 rs] & Hbody & H).
    apply roll_back_spec in H as (Hb & _).
    assert (update_array row ri true a = Ok a2) as Hk.
    { unfold update_array. by rewrite Hbody. }
    apply update_array_keep_spec in Hk as (_ & _ & Ht & _).
    etrans; [exact Ht|]. by apply same_books_topology.
Qed.

Lemma reached_built inp a : reached inp a → built_from inp a ∧ WF a.
Proof.
  intros (a0 & cs & g & u & g' & Hc & Hrun).
  pose proof (Array_of_Parser_built _ _ Hc) as Hb.
  apply Array_of_Parser_initial in Hc as ([Hcore _] & _).
  revert Hrun. apply (do_calls_inv (λ a, built_from inp a ∧ WF a)).
  - intros b perm [H1 H2]. split; [|exact H2]. exact H1.
  - intros b dc [H1 H2]. split; [|exact H2]. exact H1.
  - intros b row b' [H1 H2] Hrow.
    apply update_array_row_topology in Hrow as [Ht Hs].
    split; [by apply (built_from_topology inp b)|by apply (WF_topology b)].
  - split; [done|apply Hcore].
Qed.


(** * The Interactions and the T sets of a reachable Array *)

Lemma nil_if_no_element {A} (l : list A) : (∀ x, x ∉ l) → l = [].
Proof. destruct l as [|x l]; [done|]. intros H. destruct (H x). by left. Qed.

Lemma length_combos_all lvls t_cur :
  length (combos lvls t_cur 0 []) = esym lvls t_cur.
Proof.
  destruct (decide (t_cur ≤ length lvls + 1)%nat) as [Ht|Ht].
  - by rewrite length_combos, drop_0.
  - rewrite esym_short by lia. rewrite (nil_if_no_element (combos lvls t_cur 0 [])); [done|].
    intros K (sfx & _ & Hl & Hincr & _)%elem_of_combos.
    apply incr_from_length in Hincr. rewrite length_fmap in Hincr.
    destruct Hincr as [?|E]; [lia|]. apply (f_equal length) in E.
    rewrite length_fmap in E. simpl in E. lia.
Qed.

Lemma length_index_sets_all n d_cur :
  length (index_sets n d_cur 0 []) = choose n d_cur.
Proof.
  destruct (decide (d_cur ≤ n + 1)%nat) as [Hd|Hd].
  - by rewrite length_index_sets, Nat.sub_0_r.
  - rewrite choose_short by lia.
    rewrite (nil_if_no_element (index_sets n d_cur 0 [])); [done|].
    intros K (sfx & _ & Hl & Hincr)%elem_of_index_sets.
    apply incr_from_length in Hincr. destruct Hincr as [?| ->]; simpl in *; lia.
Qed.

Lemma length_levels_used inp :
  (in_num_cols inp ≤ length (in_levels inp))%nat →
  length (in_levels_used inp) = in_num_cols inp.
Proof. intros H. unfold in_levels_used. rewrite length_take. lia. Qed.

(** X1. In every reachable Array the Interactions are the combinations of
    [t] Singles from [t] different columns, the columns in increasing
    order, every level of every column: each such combination is the list
    of Singles of exactly one Interaction, and their number is the
    elementary symmetric polynomial of degree [t] in the levels. *)
Theorem interactions_are_all_combinations inp a :
  reached inp a →
  NoDup (i_singles <$> interactions a)
  ∧ (∀ ss, ss ∈ i_singles <$> interactions a ↔
       length ss = in_t inp
       ∧ incr_from 0 (in_num_cols inp) ss.*1
       ∧ Forall (λ s, s.2 < default 0 (in_levels inp !! s.1))%nat ss)
  ∧ length (interactions a) = esym (in_levels_used inp) (in_t inp).
Proof.
  intros Hr. destruct (reached_built _ _ Hr) as [(Hcols & _ & _ & _ & _ & Hi & _) _].
  pose proof (length_levels_used _ Hcols) as Hlen.
  split_and!.
  - rewrite Hi. apply NoDup_combos.
  - intros ss. rewrite Hi, elem_of_combos, Hlen. split.
    + intros (sfx & -> & Hl & Hincr & Hlv). simpl. split_and!; [done..|].
      apply Forall_forall. intros s Hs. rewrite Forall_forall in Hlv.
      specialize (Hlv s Hs). simpl in Hlv. unfold in_levels_used in Hlv.
      rewrite lookup_take_lt in Hlv; [done|].
      eapply (incr_from_bound 0 _ (sfx.*1)); [done|]. by apply list_elem_of_fmap_2.
    + intros (Hl & Hincr & Hlv). exists ss. split_and!; [done..|].
      apply Forall_forall. intros s Hs. rewrite Forall_forall in Hlv.
      specialize (Hlv s Hs). simpl in Hlv. unfold in_levels_used.
      rewrite lookup_take_lt; [done|].
      eapply (incr_from_bound 0 _ (ss.*1)); [done|]. by apply list_elem_of_fmap_2.
  - apply (f_equal length) in Hi. rewrite length_fmap in Hi.
    by rewrite Hi, length_combos_all.
Qed.

Lemma interactions_of_S1_after_two_calls :
  reached S1_parser S1_after_two_calls
  ∧ NoDup (i_singles <$> interactions S1_after_two_calls)
  ∧ (∀ ss, ss ∈ i_singles <$> interactions S1_after_two_calls ↔
       length ss = in_t S1_parser
       ∧ incr_from 0 (in_num_cols S1_parser) ss.*1
       ∧ Forall (λ s, s.2 < default 0 (in_levels S1_parser !! s.1))%nat ss)
  ∧ length (interactions S1_after_two_calls)
    = esym (in_levels_used S1_parser) (in_t S1_parser).
Proof.
  assert (reached S1_parser S1_after_two_calls) as H.
  { exists (built S1_parser), two_calls, rng_steps, (),
      (run_rng (do_calls two_calls) (built S1_parser) rng_steps).
    split; vm_compute; reflexivity. }
  exact (conj H (interactions_are_all_combinations S1_parser S1_after_two_calls H)).
Defined.

(** X2. In every reachable Array that is not built for coverage only, the
    T sets are the sets of [d] Interactions, listed by increasing place:
    each such list of places is the list of Interactions of exactly one T
    set, and there are [choose m d] of them for [m] Interactions; a T set
    lists the Singles of its Interactions one Interaction after the other
    (a Single that belongs to two of them is listed twice), and the
    Interactions know the T sets they belong to.  In coverage-only mode
    there is no T set. *)
Theorem sets_are_all_d_subsets inp a :
  reached inp a →
  (in_p inp = c_only → sets a = [])
  ∧ (in_p inp ≠ c_only →
       NoDup (t_interactions <$> sets a)
       ∧ (∀ temp, temp ∈ t_interactions <$> sets a ↔
            length temp = in_d inp ∧ incr_from 0 (length (interactions a)) temp)
       ∧ length (sets a) = choose (length (interactions a)) (in_d inp))
  ∧ (∀ k X, sets a !! k = Some X → t_singles X = members a (t_interactions X))
  ∧ (∀ i I k, interactions a !! i = Some I →
       (k ∈ i_sets I ↔ ∃ X, sets a !! k = Some X ∧ i ∈ t_interactions X)).
Proof.
  intros Hr.
  destruct (reached_built _ _ Hr) as [(_ & _ & _ & _ & _ & _ & Ht) (_ & _ & Hws & _)].
  assert (t_interactions <$> sets a = fst <$> (set_view <$> sets a)) as Eti.
  { rewrite <- list_fmap_compose. done. }
  split_and!.
  - intros Hp. rewrite decide_True in Ht by done. by apply fmap_nil_inv in Ht.
  - intros Hp. rewrite decide_False in Ht by done.
    assert (t_interactions <$> sets a
            = index_sets (length (interactions a)) (in_d inp) 0 []) as E.
    { rewrite Eti, Ht, <- list_fmap_compose.
      rewrite <- (list_fmap_id (index_sets _ _ _ _)) at 2. by apply list_fmap_ext. }
    split_and!.
    + rewrite E. apply NoDup_index_sets.
    + intros temp. rewrite E, elem_of_index_sets. split.
      * intros (sfx & -> & ? & ?). done.
      * intros [? ?]. by exists temp.
    + apply (f_equal length) in E. rewrite length_fmap in E.
      by rewrite E, length_index_sets_all.
  - intros k X HX. apply (f_equal (.!! k)) in Ht.
    rewrite list_lookup_fmap, HX in Ht. simpl in Ht.
    destruct (decide _); [done|]. rewrite list_lookup_fmap in Ht.
    destruct (index_sets _ _ _ _ !! k) as [temp|]; [|done]. simpl in Ht.
    unfold set_view in Ht. by injection Ht as -> ->.
  - intros i I k HI. by apply Hws.
Qed.

Lemma sets_of_pairs_after_two_calls :
  reached pairs_parser pairs_after_two_calls
  ∧ (in_p pairs_parser = c_only → sets pairs_after_two_calls = [])
  ∧ (in_p pairs_parser ≠ c_only →
       NoDup (t_interactions <$> sets pairs_after_two_calls)
       ∧ (∀ temp, temp ∈ t_interactions <$> sets pairs_after_two_calls ↔
            length temp = in_d pairs_parser
            ∧ incr_from 0 (length (interactions pairs_after_two_calls)) temp)
       ∧ length (sets pairs_after_two_calls)
         = choose (length (interactions pairs_after_two_calls)) (in_d pairs_parser))
  ∧ (∀ k X, sets pairs_after_two_calls !! k = Some X →
       t_singles X = members pairs_after_two_calls (t_interactions X))
  ∧ (∀ i I k, interactions pairs_after_two_calls !! i = Some I →
       (k ∈ i_sets I ↔
        ∃ X, sets pairs_after_two_calls !! k = Some X ∧ i ∈ t_interactions X)).
Proof.
  assert (reached pairs_parser pairs_after_two_calls) as H.
  { exists (built pairs_parser), [Random; Random], rng_steps, (),
      (run_rng (do_calls [Random; Random]) (built pairs_parser) rng_steps).
    split; vm_compute; reflexivity. }
  exact (conj H (sets_are_all_d_subsets pairs_parser pairs_after_two_calls H)).
Defined.


(** * The score moves with the problems and the issues *)

(** ** One Single *)

Lemma upd_single_missing f s a : get_single a s = None → factors (upd_single f s a) = factors a.
Proof.
  unfold get_single, upd_single. cbn [factors upd]. intros H.
  apply list_eq. intros c. destruct (decide (c = s.1)) as [->|Hne].
  - rewrite list_lookup_alter_eq. destruct (factors a !! s.1) as [F|]; [|done].
    simpl in *. f_equal. destruct F as [i lv ss]. unfold f_set_singles. simpl in *.
    f_equal. apply list_eq. intros v. destruct (decide (v = s.2)) as [->|Hne].
    + by rewrite list_lookup_alter_eq, H.
    + by rewrite list_lookup_alter_ne.
  - by rewrite list_lookup_alter_ne.
Qed.

Lemma sum_issues_upd f s a :
  sum_issues (upd_single f s a)
  = sum_issues a
    + match get_single a s with Some X => issues (f X) - issues X | None => 0 end.
Proof.
  destruct (get_single a s) as [S|] eqn:HS.
  - by rewrite (sum_issues_upd_single _ _ _ S HS).
  - unfold sum_issues. rewrite upd_single_missing by done. lia.
Qed.

Lemma surplus_upd_single f s a :
  (∀ S, issues (f S) = issues S) → surplus (upd_single f s a) = surplus a.
Proof.
  intros Hf. unfold surplus, problems_and_issues. rewrite sum_issues_upd.
  change (score (upd_single f s a)) with (score a).
  change (coverage_problems (upd_single f s a)) with (coverage_problems a).
  change (location_problems (upd_single f s a)) with (location_problems a).
  change (detection_problems (upd_single f s a)) with (detection_problems a).
  destruct (get_single a s); [rewrite Hf|]; lia.
Qed.

Lemma issue_setter_c : issue_setter s_set_c_issues.
Proof. intros k S. unfold issues. simpl. lia. Qed.
Lemma issue_setter_l : issue_setter s_set_l_issues.
Proof. intros k S. unfold issues. simpl. lia. Qed.
Lemma issue_setter_d : issue_setter s_set_d_issues.
Proof. intros k S. unfold issues. simpl. lia. Qed.

(** [s->counter += k; score += k] *)
Lemma surplus_bump_step set k s a :
  issue_setter set → is_Some (get_single a s) →
  surplus (add_to F_score k (upd_single (set (λ x, x + k)) s a)) = surplus a.
Proof.
  intros Hset [S HS]. unfold surplus, problems_and_issues.
  change (sum_issues (add_to F_score k ?b)) with (sum_issues b).
  rewrite sum_issues_upd, HS, Hset. cbn. lia.
Qed.

Lemma dom_upd_single f s a s' :
  is_Some (get_single (upd_single f s a) s') ↔ is_Some (get_single a s').
Proof.
  rewrite get_single_upd_single. case_decide; [|done]. by rewrite fmap_is_Some.
Qed.

Lemma surplus_bump set k ss a :
  issue_setter set → Forall (λ s, is_Some (get_single a s)) ss →
  surplus (bump set k ss a) = surplus a.
Proof.
  intros Hset Hss. unfold bump.
  cut (surplus (for_each (λ s a, add_to F_score k (upd_single (set (λ x, x + k)) s a)) ss a)
       = surplus a
       ∧ ∀ s, is_Some (get_single
           (for_each (λ s a, add_to F_score k (upd_single (set (λ x, x + k)) s a)) ss a) s)
         ↔ is_Some (get_single a s)).
  { by intros [? _]. }
  apply (for_each_split (λ _ c,
    surplus c = surplus a ∧ ∀ s, is_Some (get_single c s) ↔ is_Some (get_single a s))).
  - intros l1 s l2 c E [Hc Hd]. split.
    + rewrite surplus_bump_step; [done..|]. apply Hd.
      rewrite Forall_forall in Hss. apply Hss. rewrite E. apply elem_of_app. right. by left.
    + intros s'. rewrite <- Hd.
      change (get_single (add_to F_score k ?b) s') with (get_single b s').
      apply dom_upd_single.
  - done.
Qed.

(** [score += k; problems += k] *)
Lemma surplus_pair (fd : field Z) k a :
  fd = F_coverage_problems ∨ fd = F_location_problems ∨ fd = F_detection_problems →
  surplus (add_to fd k (add_to F_score k a)) = surplus a.
Proof.
  intros [->|[->| ->]]; unfold surplus, problems_and_issues;
    change (sum_issues (add_to ?f k (add_to F_score k a))) with (sum_issues a);
    cbn; lia.
Qed.

(** ** The references stay valid *)

Lemma same_refs_dom a b s :
  same_refs a b → is_Some (get_single b s) ↔ is_Some (get_single a s).
Proof.
  intros (_ & H & _). specialize (H s).
  destruct (get_single b s), (get_single a s); simpl in *; try done.
Qed.

Lemma valid_refs_same a b : valid_refs a → same_refs a b → valid_refs b.
Proof.
  intros [HI HT] Hs. split.
  - intros i I' HI'. destruct (agree_interaction _ _ _ _ _ _ _ _ Hs HI') as (I & HI0 & E).
    rewrite E. eapply Forall_impl; [by eapply HI|]. intros s. by rewrite same_refs_dom.
  - intros k X' HX'. destruct (agree_T _ _ _ _ _ _ _ _ Hs HX') as (X & HX0 & E).
    rewrite E. eapply Forall_impl; [by eapply HT|]. intros s. by rewrite same_refs_dom.
Qed.

Lemma WF_valid_refs inp a : reached inp a → valid_refs a.
Proof.
  intros Hr. pose proof (reached_built _ _ Hr) as [Hb (Hws & [Hwi _] & [_ Hwt])].
  assert (∀ i I, interactions a !! i = Some I →
            Forall (λ s, is_Some (get_single a s)) (i_singles I)) as HI.
  { intros i I HI. by destruct (Hwi i I HI) as (_ & _ & _ & ?). }
  split; [done|].
  intros k X HX. destruct Hb as (_ & _ & _ & _ & _ & _ & Ht).
  apply (f_equal (.!! k)) in Ht. rewrite list_lookup_fmap, HX in Ht. simpl in Ht.
  destruct (decide _); [done|]. rewrite list_lookup_fmap in Ht.
  destruct (index_sets _ _ _ _ !! k) as [temp|]; [|done]. simpl in Ht.
  unfold set_view in Ht. injection Ht as _ ->.
  unfold members. apply Forall_bind, Forall_forall. intros i _. cbv [compose].
  destruct (interactions a !! i) as [I|] eqn:HIi; simpl; [|done].
  rewrite app_nil_r. by eapply HI.
Qed.

(** ** The steps of [update_array] *)

(** closes [surplus (step ... b) = v]; what is left are the goals that ask
    for the Singles of a [bump] to exist *)
Ltac surplus_steps :=
  repeat lazymatch goal with
    | H : surplus ?b = ?v |- surplus ?b = ?v => exact H
    | |- surplus ?a = surplus ?a => reflexivity
    | |- surplus (upd_single (s_set_rows ?f) ?s ?b) = ?v =>
      rewrite (surplus_upd_single (s_set_rows f) s b) by (intros ?; reflexivity)
    | |- surplus (upd_interaction ?f ?i ?b) = ?v => change (surplus b = v)
    | |- surplus (upd_T ?f ?k ?b) = ?v => change (surplus b = v)
    | |- surplus (upd F_is_covering ?f ?b) = ?v => change (surplus b = v)
    | |- surplus (upd F_is_locating ?f ?b) = ?v => change (surplus b = v)
    | |- surplus (upd F_is_detecting ?f ?b) = ?v => change (surplus b = v)
    | |- surplus (upd F_rows ?f ?b) = ?v => change (surplus b = v)
    | |- surplus (upd F_num_tests ?f ?b) = ?v => change (surplus b = v)
    | |- surplus (add_to ?fd ?k (add_to F_score ?k ?b)) = ?v =>
      rewrite (surplus_pair fd k b) by tauto
    | |- surplus (bump ?set ?k ?ss ?b) = ?v =>
      rewrite (surplus_bump set k ss b);
        [|solve [apply issue_setter_c | apply issue_setter_l | apply issue_setter_d]|]
    | |- surplus (for_each ?f ?l ?b) = ?v =>
      apply (for_each_inv (λ x, surplus x = v)); [intros ? ? _ ?; cbv beta|cbv beta]
    | |- surplus (if decide ?P then _ else _) = _ => destruct (decide P)
    | |- surplus (let _ := _ in _) = _ => cbv zeta
    end.

Lemma insert_row_balanced n i a0 a rs a' rs' :
  insert_row n i (a, rs) = Ok (a', rs') → balanced a0 a → balanced a0 a'.
Proof.
  unfold insert_row, balanced, same_refs. intros H [Hs Hg]. inv_Ok H. split.
  - agree_steps.
  - surplus_steps.
Qed.

Lemma coverage_update_balanced i a0 a a' :
  valid_refs a0 → coverage_update i a = Ok a' → balanced a0 a → balanced a0 a'.
Proof.
  unfold coverage_update, balanced. intros Hv H [Hs Hg]. inv_Ok H.
  pose proof (valid_refs_same _ _ Hv Hs) as [HvI _].
  destruct (is_covered x); inv_Ok H; [done|]. split.
  - unfold same_refs in *. agree_steps.
  - surplus_steps; by apply (HvI i).
Qed.

Lemma detection_update_balanced rs i a0 a a' :
  valid_refs a0 → detection_update rs i a = Ok a' → balanced a0 a → balanced a0 a'.
Proof.
  unfold detection_update, balanced. intros Hv H [Hs Hg]. inv_Ok H.
  destruct (is_detectable x); inv_Ok H; [done|].
  assert (balanced a0 x0) as [Hs0 Hg0].
  { revert Hx0. apply (foldM_inv (balanced a0)).
    - intros k c c' _ [Hsc Hgc] Hk. inv_Ok Hk.
      pose proof (valid_refs_same _ _ Hv Hsc) as [HvI _]. split.
      + unfold same_refs in *. agree_steps.
      + surplus_steps. by apply (HvI i).
    - split; [unfold same_refs in *; agree_steps|surplus_steps]. }
  pose proof (valid_refs_same _ _ Hv Hs0) as [HvI0 _].
  set (x3 := for_each _ (map_to_list (deltas x1)) x0) in *.
  assert (balanced a0 x3) as [Hs3 Hg3].
  { unfold x3. apply (for_each_inv (balanced a0)); [|done].
    intros kv c _ [Hsc Hgc]. split.
    - unfold same_refs in *. agree_steps.
    - surplus_steps.
      all: eapply Forall_impl; [by apply (HvI0 i)|]; intros s; cbv beta;
        intros Hsome; apply (same_refs_dom a0); [|by apply (same_refs_dom a0 x0)].
      all: unfold same_refs in *; agree_steps. }
  destruct (is_detectable x2); inv_Ok H; [|done]. split.
  - unfold same_refs in *. agree_steps.
  - surplus_steps.
Qed.

Lemma location_first_balanced rs t1 a0 a a' :
  valid_refs a0 → location_first rs t1 a = Ok a' → balanced a0 a → balanced a0 a'.
Proof.
  unfold location_first, balanced. intros Hv H [Hs Hg]. inv_Ok H.
  pose proof (valid_refs_same _ _ Hv Hs) as [_ HvT].
  revert H. apply (foldM_inv (balanced a0)).
  - intros k c c' _ [Hsc Hgc] Hk. inv_Ok Hk.
    destruct (decide _); inv_Ok Hk; [done|]. split.
    + unfold same_refs in *. agree_steps.
    + surplus_steps. eapply Forall_impl; [by apply (HvT t1)|]. intros s. cbv beta.
      intros Hsome. change (is_Some (get_single c s)).
      apply (same_refs_dom a0); [done|]. by apply (same_refs_dom a0 a).
  - split; [unfold same_refs in *; agree_steps|]. surplus_steps. by apply (HvT t1).
Qed.

Lemma location_solved_balanced rs t1 a0 a a' :
  valid_refs a0 → location_solved rs t1 a = Ok a' → balanced a0 a → balanced a0 a'.
Proof.
  unfold location_solved, balanced. intros Hv H [Hs Hg]. inv_Ok H.
  pose proof (valid_refs_same _ _ Hv Hs) as [_ HvT].
  assert (balanced a0 a1) as [Hs1 Hg1].
  { change a1 with ((a1, g, z).1.1). revert Hx0.
    apply (foldM_inv (λ st, balanced a0 st.1.1)); [|done].
    intros k [[c tmp] sv] [[c' tmp'] sv'] _ [Hsc Hgc] Hk. cbn [fst snd] in *.
    pose proof (valid_refs_same _ _ Hv Hsc) as [_ HvTc].
    destruct (decide (k ∈ rs)); inv_Ok Hk; [done|].
    destruct (decide (t1 ∈ _)); inv_Ok Hk.
    destruct (decide (size _ = 0%nat)); inv_Ok Hk.
    - destruct (decide (_ = 0)); inv_Ok Hk. split.
      + unfold same_refs in *. agree_steps.
      + surplus_steps. by apply (HvTc k).
    - split.
      + unfold same_refs in *. agree_steps.
      + surplus_steps. by apply (HvTc k). }
  split.
  - unfold same_refs in *. agree_steps.
  - surplus_steps. eapply Forall_impl; [by apply (HvT t1)|]. intros s. cbv beta.
    intros Hsome. apply (same_refs_dom a0); [done|]. by apply (same_refs_dom a0 a).
Qed.

Lemma location_update_balanced rs t1 a0 a a' :
  valid_refs a0 → location_update rs t1 a = Ok a' → balanced a0 a → balanced a0 a'.
Proof.
  unfold location_update. intros Hv H Hb. inv_Ok H.
  destruct (is_locatable x); inv_Ok H; [done|].
  assert (balanced a0 x0) as [Hs0 Hg0].
  { destruct (decide (size (t_rows x) = 1%nat));
      [by eapply location_first_balanced|by eapply location_solved_balanced]. }
  destruct (decide (size (location_conflicts x1) = 0%nat)); inv_Ok H; [|done].
  split.
  - unfold same_refs in *. agree_steps.
  - surplus_steps.
Qed.

Lemma roll_back_balanced ri rs a0 a a' :
  roll_back ri rs a = Ok a' → balanced a0 a → balanced a0 a'.
Proof.
  unfold roll_back. intros H Hb. inv_Ok H.
  assert (balanced a0 x) as [Hs Hg].
  { revert Hx. apply (foldM_inv (balanced a0)); [|done].
    intros i c c' _ [Hsc Hgc] Hi. inv_Ok Hi. split.
    - unfold same_refs in *. agree_steps.
    - surplus_steps. }
  split.
  - unfold same_refs in *. agree_steps.
  - surplus_steps.
Qed.

Lemma balanced_refl a : balanced a a.
Proof. split; [reflexivity|done]. Qed.

(** [update_array], whether the row is kept or not, moves [score] by what
    it takes from the problems and issues, and leaves [total_problems]
    alone *)
Lemma update_array_balanced row ri keep a b :
  valid_refs a → update_array row ri keep a = Ok b → balanced a b.
Proof.
  intros Hv H. unfold update_array in H. apply bind_Ok in H as ([a2 rs] & Hbody & H).
  assert (balanced a a2) as Hb2.
  { rewrite update_array_body_unfold in Hbody. cbv zeta in Hbody.
    apply bind_Ok in Hbody as ([a1 rs1] & Hins & Hbody).
    apply bind_Ok in Hbody as (a3 & Hcount & Hbody). inv_Ok Hbody.
    assert (balanced a a1) as Hb1.
    { change a1 with ((a1, rs).1). revert Hins.
      apply (foldM_inv (λ st, balanced a st.1)).
      - intros i [c q] [c' q'] _ Hc Hstep. cbn [fst] in *.
        by eapply insert_row_balanced.
      - cbn [fst]. split; [unfold same_refs; agree_steps|surplus_steps]. }
    unfold counting_phases in Hcount.
    apply bind_Ok in Hcount as (a4 & H4 & Hcount).
    assert (balanced a a4) as Hb4.
    { revert H4. apply (foldM_inv (balanced a)); [|done].
      intros i c c' _ Hc Hi. apply bind_Ok in Hi as (c1 & Hc1 & Hi).
      eapply coverage_update_balanced in Hc1; [|done..].
      destruct (decide (p c1 = all)); inv_Ok Hi; [|done].
      by eapply detection_update_balanced. }
    destruct (decide (p a4 ≠ c_only ∧ is_locating a4 = false)); inv_Ok Hcount; [|done].
    revert Hcount. apply (foldM_inv (balanced a)); [|done].
    intros k c c' _ Hc Hk. by eapply location_update_balanced. }
  destruct keep; inv_Ok H; [done|]. by eapply roll_back_balanced.
Qed.


(** * The counters that the constructor sets *)

Lemma valid_refs_init a b :
  agree init_s init_i init_t skel_a a b → valid_refs b → valid_refs a.
Proof.
  intros Hag [HI HT].
  assert (∀ s, is_Some (get_single b s) → is_Some (get_single a s)) as Hdom.
  { intros s. destruct Hag as (_ & H & _). specialize (H s).
    destruct (get_single b s), (get_single a s); simpl in *; try done. }
  symmetry in Hag. split.
  - intros i I HIa. destruct (agree_interaction _ _ _ _ _ _ _ _ Hag HIa) as (I' & HI' & E).
    unfold init_i in E. injection E as E _ _ _ _. rewrite E.
    eapply Forall_impl; [by eapply HI|]. done.
  - intros k X HXa. destruct (agree_T _ _ _ _ _ _ _ _ Hag HXa) as (X' & HX' & E).
    unfold init_t in E. rewrite E.
    eapply Forall_impl; [by eapply HT|]. done.
Qed.

(** [total_problems += k; s->counter += k] for a Single that exists *)
Lemma owed_step set k s a :
  issue_setter set → is_Some (get_single a s) →
  total_problems (upd_single (set (λ x, x + k)) s (add_to F_total_problems k a))
  - problems_and_issues (upd_single (set (λ x, x + k)) s (add_to F_total_problems k a))
  = total_problems a - problems_and_issues a.
Proof.
  intros Hset [S HS]. unfold problems_and_issues. rewrite sum_issues_upd.
  change (get_single (add_to F_total_problems k a) s) with (get_single a s).
  rewrite HS, Hset.
  change (sum_issues (add_to F_total_problems k a)) with (sum_issues a). cbn. lia.
Qed.

(** the loop that charges the location issues *)
Lemma location_charge a :
  valid_refs a →
  let a' := for_each (λ X a,
      for_each (λ s a,
          let a := add_to F_total_problems (Z.of_nat (length (sets a))) a in
          upd_single (s_set_l_issues (λ x, x + Z.of_nat (length (sets a)))) s a)
        (t_singles X) a) (sets a) a in
  total_problems a' - problems_and_issues a' = total_problems a - problems_and_issues a
  ∧ score a' = score a ∧ coverage_problems a' = coverage_problems a
  ∧ location_problems a' = location_problems a
  ∧ detection_problems a' = detection_problems a.
Proof.
  intros [_ HvT]. cbv zeta.
  pose (Inv := λ c : Array,
    (total_problems c - problems_and_issues c = total_problems a - problems_and_issues a
     ∧ score c = score a ∧ coverage_problems c = coverage_problems a
     ∧ location_problems c = location_problems a
     ∧ detection_problems c = detection_problems a)
    ∧ ∀ s, is_Some (get_single c s) ↔ is_Some (get_single a s)).
  cut (Inv (for_each (λ X a,
      for_each (λ s a,
          let a := add_to F_total_problems (Z.of_nat (length (sets a))) a in
          upd_single (s_set_l_issues (λ x, x + Z.of_nat (length (sets a)))) s a)
        (t_singles X) a) (sets a) a)). { by intros [? _]. }
  apply (for_each_inv Inv); [|done].
  intros X c HX Hc. apply list_elem_of_lookup in HX as [k HX].
  specialize (HvT k X HX).
  assert (Forall (λ s, is_Some (get_single c s)) (t_singles X)) as Hvc.
  { eapply Forall_impl; [exact HvT|]. intros s. by rewrite (proj2 Hc s). }
  clear HvT. revert Hvc. generalize (t_singles X). intros ss Hss.
  revert c Hc Hss. induction ss as [|s ss IH]; intros c Hc Hss; [done|].
  rewrite for_each_cons. apply Forall_cons in Hss as [Hs Hss]. cbv zeta.
  apply IH.
  - destruct Hc as [(H1 & H2 & H3 & H4 & H5) Hd]. split; [split_and!|].
    + rewrite <- H1.
      apply (owed_step s_set_l_issues _ s c issue_setter_l Hs).
    + done.
    + done.
    + done.
    + done.
    + intros s'. rewrite dom_upd_single. exact (Hd s').
  - eapply Forall_impl; [exact Hss|]. intros s'. cbv beta. by rewrite dom_upd_single.
Qed.

(** one step of the loop that charges the detection issues *)
Lemma detection_charge_step k s a :
  is_Some (get_single a s) →
  let a' := add_to F_score k
              (upd_single (s_set_d_issues (λ x, x + k)) s (add_to F_total_problems k a)) in
  total_problems a' - problems_and_issues a' = total_problems a - problems_and_issues a
  ∧ score a' - total_problems a' = score a - total_problems a
  ∧ coverage_problems a' = coverage_problems a
  ∧ location_problems a' = location_problems a
  ∧ detection_problems a' = detection_problems a.
Proof.
  intros Hs. cbv zeta. split_and!; [|cbn; lia|done..].
  rewrite <- (owed_step s_set_d_issues k s a issue_setter_d Hs). done.
Qed.

Lemma detection_charge i k a0 a a' :
  valid_refs a0 →
  (I ← interaction_at a i;
   if decide (k ∈ i_sets I) then Ok a else
   let a := upd_interaction (i_set_deltas (map_insert_new k 0)) i a in
   Ok (for_each (λ s a,
         let a := add_to F_total_problems (delta a) a in
         let a := upd_single (s_set_d_issues (λ x, x + delta a)) s a in
         add_to F_score (delta a) a)
       (i_singles I) a)) = Ok a' →
  agree init_s init_i init_t skel_a a0 a →
  total_problems a' - problems_and_issues a' = total_problems a - problems_and_issues a
  ∧ score a' - total_problems a' = score a - total_problems a
  ∧ coverage_problems a' = coverage_problems a
  ∧ location_problems a' = location_problems a
  ∧ detection_problems a' = detection_problems a.
Proof.
  intros Hv H Hag. inv_Ok H. rename x into I.
  destruct (decide (k ∈ i_sets I)); inv_Ok H; [done|].
  assert (valid_refs a) as [HvI _].
  { apply (valid_refs_init a a0); [by symmetry|done]. }
  specialize (HvI i I Hx).
  set (b := upd_interaction (i_set_deltas (map_insert_new k 0)) i a).
  change (total_problems a - problems_and_issues a)
    with (total_problems b - problems_and_issues b).
  change (score a - total_problems a) with (score b - total_problems b).
  change (coverage_problems a) with (coverage_problems b).
  change (location_problems a) with (location_problems b).
  change (detection_problems a) with (detection_problems b).
  assert (Forall (λ s, is_Some (get_single b s)) (i_singles I)) as Hss by exact HvI.
  clearbody b. clear HvI Hx Hag. revert b Hss.
  induction (i_singles I) as [|s ss IH]; intros b Hss; [done|].
  rewrite for_each_cons. apply Forall_cons in Hss as [Hs Hss]. cbv zeta.
  pose proof (detection_charge_step (delta b) s b Hs) as Hstep. cbv zeta in Hstep.
  set (b' := add_to F_score _ _) in *.
  destruct Hstep as (E1 & E2 & E3 & E4 & E5).
  rewrite <- E1, <- E2, <- E3, <- E4, <- E5. apply IH.
  eapply Forall_impl; [exact Hss|]. intros s'. cbv beta. unfold b'.
  change (get_single (add_to F_score ?k ?c) s') with (get_single c s').
  by rewrite dom_upd_single.
Qed.

Lemma reached_initially inp a : Array_of_Parser inp = Ok a → reached inp a.
Proof.
  intros H. exists a, [], {| tape := λ _, 0%nat; pos := 0 |}, (), {| tape := λ _, 0%nat; pos := 0 |}.
  by split.
Qed.

Lemma Array_of_Parser_counters inp a :
  Array_of_Parser inp = Ok a →
  total_problems a = problems_and_issues a
  ∧ (in_p inp ≠ c_only → score a = total_problems a)
  ∧ coverage_problems a = Z.of_nat (length (interactions a))
  ∧ location_problems a
    = (if decide (in_p inp = c_only) then 0 else Z.of_nat (length (sets a)))
  ∧ detection_problems a
    = (if decide (in_p inp = all) then Z.of_nat (length (interactions a)) else 0).
Proof.
  intros H0. pose proof (WF_valid_refs _ _ (reached_initially _ _ H0)) as Hvfin.
  revert H0. unfold Array_of_Parser. cbv zeta. intros H.
  apply bind_Ok in H as (a1 & H1 & H).
  pose proof (build_factors_spec _ (Array_init inp) _ eq_refl H1) as Hbuilt.
  pose proof (build_factors_beside _ _ _ H1) as Hb1.
  assert (interactions a1 = [] ∧ interaction_map a1 = ∅ ∧ sets a1 = [] ∧ rows a1 = []
          ∧ score a1 = 0 ∧ total_problems a1 = 0
          ∧ coverage_problems a1 = 0 ∧ location_problems a1 = 0
          ∧ detection_problems a1 = 0 ∧ p a1 = in_p inp
          ∧ num_tests a1 = in_num_rows inp)
    as (Ei & Em & Es & Er & Esc & Etp & Ecp & Elp & Edp & Ep & Ent).
  { unfold beside_factors, config in Hb1. simpl in Hb1. split_and!; congruence. }
  apply bind_Ok in H as (a2 & H2 & H).
  destruct (factors_built_wf _ Hbuilt) as [Hwf Hnr].
  apply (build_t_way_interactions_closed _ _ _ _ _ Hwf Hnr) in H2.
  set (L := combos (levels a1) (t a1) 0 []) in *.
  assert (Forall (λ K : list (nat * nat),
            length K = t a1 ∧ Forall (λ s, is_Some (get_single a1 s)) K) L) as HL.
  { apply Forall_forall. intros K HK. by apply combos_valid. }
  destruct (add_interactions_score_issues _ _ _ HL) as [Hsc Hsum].
  pose proof (add_interactions_total (t a1) L a1) as Htot.
  rewrite <- H2 in Hsc, Hsum, Htot.
  assert (total_problems a2 = sum_issues a2 ∧ score a2 = sum_issues a2) as [Etp2 Esc2].
  { rewrite Htot, Hsc, Hsum, (sum_issues_built _ Hbuilt); [lia|].
    eapply Forall_impl; [exact HL|]. by intros K [? _]. }
  destruct (interactions_phase a1 Hbuilt Ei Em Es Er) as (Hcore2 & Hsets2 & Hd2).
  cbv zeta in Hcore2, Hsets2, Hd2. fold L in Hcore2, Hsets2, Hd2.
  rewrite <- H2 in Hcore2, Hsets2, Hd2. rewrite Ent in Hcore2.
  pose proof (add_interactions_beside L a1) as Hbeside. rewrite <- H2 in Hbeside.
  assert (coverage_problems a2 = 0 ∧ location_problems a2 = 0
          ∧ detection_problems a2 = 0 ∧ p a2 = in_p inp) as (Ecp2 & Elp2 & Edp2 & Ep2).
  { unfold beside_interactions, config in Hbeside. split_and!; congruence. }
  clear H2 H1 Hb1 Hwf Hnr Hbuilt Ei Em Es Er Hsc Hsum Htot HL Hbeside Esc Etp Ecp Elp Edp.
  set (a3 := add_to F_score _ _) in H.
  assert (agree init_s init_i init_t skel_a a2 a3 ∧ p a3 = p a2
          ∧ interactions a3 = interactions a2 ∧ sets a3 = sets a2)
    as (Hag3 & Ep3 & Eint3 & Es3).
  { unfold a3. split_and!; [agree_steps|frame_steps..]. }
  assert (total_problems a3 = problems_and_issues a3
          ∧ score a3 = total_problems a3 + sum_issues a2
          ∧ coverage_problems a3 = Z.of_nat (length (interactions a3))
          ∧ location_problems a3 = 0 ∧ detection_problems a3 = 0)
    as (Etp3 & Esc3 & Ecp3 & Elp3 & Edp3).
  { unfold problems_and_issues. change (sum_issues a3) with (sum_issues a2).
    unfold a3. cbn. lia. }
  pose proof (initial_core_agree _ _ _ Hag3 Hcore2) as Hcore3.
  destruct (decide (p a3 = c_only)) as [Hc|Hnc].
  { apply Ok_inj in H as <-. rewrite decide_True by congruence.
    rewrite decide_False by congruence. split_and!; [done| |done..]. congruence. }
  rewrite (decide_False (P := in_p inp = c_only)) by congruence.
  apply bind_Ok in H as (a4 & H4 & H).
  pose proof H4 as H4s.
  apply build_size_d_sets_spec in H4s as (_ & Hlen4 & _ & Hbeside4).
  2: { intros i I HI. destruct Hcore3 as (_ & _ & _ & _ & HI3 & _).
       by destruct (HI3 i I HI). }
  2: { split; [apply Hcore3|]. intros k X. by rewrite Es3, Hsets2, lookup_nil. }
  assert (total_problems a4 = problems_and_issues a4
          ∧ coverage_problems a4 = Z.of_nat (length (interactions a4))
          ∧ location_problems a4 = 0 ∧ detection_problems a4 = 0 ∧ p a4 = p a3)
    as (Etp4 & Ecp4 & Elp4 & Edp4 & Ep4).
  { unfold problems_and_issues, sum_issues in *. unfold beside_sets, config in Hbeside4.
    rewrite Hlen4. injection Hbeside4. intros. split_and!; congruence. }
  apply (sets_phase (in_num_rows inp)) in H4 as (Hcore4 & _ & Hd4);
    [|done|congruence|intros i I; rewrite Eint3; intros HI; by destruct (Hd2 i I HI)].
  clear Hcore2 Hsets2 Hd2 Hag3 Hcore3 Hbeside4.
  set (a5 := for_each _ (sets a4) a4) in H.
  set (a6 := upd F_score _ _) in H.
  assert (agree init_s init_i init_t skel_a a4 a6 ∧ p a6 = p a4
          ∧ interactions a6 = interactions a4 ∧ sets a6 = sets a4
          ∧ sets a5 = sets a4)
    as (Hag6 & Ep6 & Ei6 & Es6 & Es5).
  { unfold a6, a5. split_and!; [agree_steps|frame_steps..]. }
  assert (valid_refs a6 → total_problems a6 = problems_and_issues a6
          ∧ score a6 = total_problems a6
          ∧ coverage_problems a6 = Z.of_nat (length (interactions a6))
          ∧ location_problems a6 = Z.of_nat (length (sets a6))
          ∧ detection_problems a6 = 0) as Hcount6.
  { intros Hv6. pose proof (valid_refs_init _ _ Hag6 Hv6) as Hv4.
    destruct (location_charge a4 Hv4) as (E1 & E2 & E3 & E4 & E5).
    cbv zeta in E1, E2, E3, E4, E5. fold a5 in E1, E2, E3, E4, E5.
    rewrite Ei6, Es6. unfold problems_and_issues in *.
    change (sum_issues a6) with (sum_issues a5).
    unfold a6. cbn. rewrite Es5. lia. }
  destruct (decide (p a6 ≠ all)) as [Hna|Hall].
  { apply Ok_inj in H as <-. rewrite decide_False by congruence.
    destruct (Hcount6 Hvfin) as (? & ? & ? & ? & ?). split_and!; done. }
  rewrite decide_True by (destruct (decide (p a6 = all)); [congruence|done]).
  apply bind_Ok in H as (a7 & H7 & H). apply Ok_inj in H as <-.
  pose proof H7 as H7'.
  apply deltas_phase in H7' as ((Hag7 & Es7 & Ep7') & Hz7);
    [|intros i I; rewrite Ei6; apply Hd4].
  set (a8 := add_to F_score _ _) in *.
  assert (agree init_s init_i init_t skel_a a7 a8) as Hag8.
  { unfold a8. agree_steps. }
  assert (valid_refs a6) as Hv6.
  { apply (valid_refs_init a6 a8); [|done]. etrans; [exact Hag7|exact Hag8]. }
  destruct (Hcount6 Hv6) as (Etp6 & Esc6 & Ecp6 & Elp6 & Edp6).
  assert (total_problems a7 = problems_and_issues a7
          ∧ score a7 = total_problems a7
          ∧ coverage_problems a7 = coverage_problems a6
          ∧ location_problems a7 = location_problems a6
          ∧ detection_problems a7 = 0
          ∧ length (interactions a7) = length (interactions a6)) as
    (Etp7 & Esc7 & Ecp7 & Elp7 & Edp7 & Elen7).
  { cut ((total_problems a7 - problems_and_issues a7
            = total_problems a6 - problems_and_issues a6
          ∧ score a7 - total_problems a7 = score a6 - total_problems a6
          ∧ coverage_problems a7 = coverage_problems a6
          ∧ location_problems a7 = location_problems a6
          ∧ detection_problems a7 = detection_problems a6)
         ∧ (agree init_s init_i init_t skel_a a6 a7 ∧ sets a7 = sets a6 ∧ p a7 = p a6)).
    { intros [(E1 & E2 & E3 & E4 & E5) _]. split_and!; [lia|lia|done|done|congruence|].
      destruct (agree_init_lists _ _ Hag7) as (_ & _ & E & _).
      apply (f_equal length) in E. by rewrite !length_fmap in E. }
    revert H7. apply (foldM_inv (λ c,
      (total_problems c - problems_and_issues c
         = total_problems a6 - problems_and_issues a6
       ∧ score c - total_problems c = score a6 - total_problems a6
       ∧ coverage_problems c = coverage_problems a6
       ∧ location_problems c = location_problems a6
       ∧ detection_problems c = detection_problems a6)
      ∧ (agree init_s init_i init_t skel_a a6 c ∧ sets c = sets a6 ∧ p c = p a6)));
      [|split; [done|split_and!; [reflexivity|done..]]].
    intros i c c' _ Hc. apply (foldM_inv (λ c,
      (total_problems c - problems_and_issues c
         = total_problems a6 - problems_and_issues a6
       ∧ score c - total_problems c = score a6 - total_problems a6
       ∧ coverage_problems c = coverage_problems a6
       ∧ location_problems c = location_problems a6
       ∧ detection_problems c = detection_problems a6)
      ∧ (agree init_s init_i init_t skel_a a6 c ∧ sets c = sets a6 ∧ p c = p a6)));
      [|done].
    intros k b b' _ [(E1 & E2 & E3 & E4 & E5) Hagb] Hk. split.
    - destruct (detection_charge _ _ _ _ _ Hv6 Hk (proj1 Hagb)) as (F1 & F2 & F3 & F4 & F5).
      split_and!; congruence.
    - by eapply deltas_step_agree. }
  assert (interactions a8 = interactions a7 ∧ sets a8 = sets a7) as [Ei8 Es8].
  { unfold a8. split; frame_steps. }
  assert (total_problems a8 = total_problems a7 + Z.of_nat (length (interactions a7))
          ∧ score a8 = score a7 + Z.of_nat (length (interactions a7))
          ∧ detection_problems a8
            = detection_problems a7 + Z.of_nat (length (interactions a7))
          ∧ coverage_problems a8 = coverage_problems a7
          ∧ location_problems a8 = location_problems a7
          ∧ sum_issues a8 = sum_issues a7) as (F1 & F2 & F3 & F4 & F5 & F6).
  { unfold a8. split_and!; reflexivity. }
  unfold problems_and_issues in *.
  rewrite F1, F2, F3, F4, F5, F6, Ei8, Es8, Es7, Elen7.
  split_and!; lia.
Qed.

(** ** Runs *)

Lemma balanced_trans a b c : balanced a b → balanced b c → balanced a c.
Proof.
  intros [H1 H2] [H3 H4]. split; [|congruence]. unfold same_refs in *. by etrans.
Qed.

Lemma update_array_row_balanced row keep a b :
  valid_refs a → update_array_row row keep a = Ok b → balanced a b.
Proof.
  unfold update_array_row. intros Hv H. apply bind_Ok in H as (ri & _ & H).
  by eapply update_array_balanced.
Qed.

Lemma run_balanced inp a0 cs g u a g' :
  Array_of_Parser inp = Ok a0 → do_calls cs a0 g = Ok (u, a, g') →
  balanced a0 a ∧ valid_refs a.
Proof.
  intros Hc Hrun. pose proof (WF_valid_refs _ _ (reached_initially _ _ Hc)) as Hv0.
  revert Hrun. apply (do_calls_inv (λ a, balanced a0 a ∧ valid_refs a)).
  - intros b perm [[Hs Hg] Hv]. split; [split|exact Hv].
    + unfold same_refs in *. agree_steps.
    + exact Hg.
  - intros b dc [[Hs Hg] Hv]. split; [split|exact Hv].
    + unfold same_refs in *. agree_steps.
    + exact Hg.
  - intros b row b' [Hb Hv] Hrow.
    pose proof (update_array_row_balanced _ _ _ _ Hv Hrow) as Hb'.
    split; [by eapply balanced_trans|]. eapply valid_refs_same; [exact Hv|apply Hb'].
  - split; [apply balanced_refl|done].
Qed.

Lemma same_refs_lengths a b :
  same_refs a b →
  length (interactions b) = length (interactions a) ∧ length (sets b) = length (sets a)
  ∧ total_problems b = total_problems a.
Proof.
  intros (Ha & _ & Hi & Ht). split_and!; [| |done].
  - by apply (same_length_lookup i_singles i_singles).
  - by apply (same_length_lookup t_singles t_singles).
Qed.

(** X3. After the constructor and any run of [add_random_row] and
    [add_row], [total_problems] is still what the constructor counted, the
    problems and issues of the new Array; and [score] is the sum of the
    problems and issues that are left (the three problem counters and the
    three issue counters of every Single), except in coverage-only mode,
    where it exceeds this sum by [t] times the number of Interactions. *)
Theorem score_follows_problems_and_issues inp a0 cs g u a g' :
  Array_of_Parser inp = Ok a0 →
  do_calls cs a0 g = Ok (u, a, g') →
  total_problems a = problems_and_issues a0
  ∧ score a
    = problems_and_issues a
      + (if decide (in_p inp = c_only)
         then Z.of_nat (in_t inp) * Z.of_nat (length (interactions a)) else 0).
Proof.
  intros Hc Hrun. destruct (run_balanced _ _ _ _ _ _ _ Hc Hrun) as [[Hs Hg] _].
  destruct (same_refs_lengths _ _ Hs) as (Ei & _ & Et).
  destruct (Array_of_Parser_counters _ _ Hc) as (Etp & Esc & _).
  split; [congruence|]. unfold surplus in Hg. rewrite Ei.
  destruct (decide (in_p inp = c_only)) as [Hp|Hp].
  - pose proof (Array_of_Parser_score_c_only _ _ Hc Hp). lia.
  - specialize (Esc Hp). lia.
Qed.

(** X4. One call of [update_array] on a reachable Array, for any row and
    any set of Interactions, kept or not: [total_problems] does not change,
    and [score] changes by exactly as much as the problems and issues
    do. *)
Theorem update_array_moves_score_with_issues inp a row ri keep b :
  reached inp a →
  update_array row ri keep a = Ok b →
  total_problems b = total_problems a
  ∧ score b - score a = problems_and_issues b - problems_and_issues a.
Proof.
  intros Hr H. pose proof (WF_valid_refs _ _ Hr) as Hv.
  destruct (update_array_balanced _ _ _ _ _ Hv H) as [Hs Hg].
  destruct (same_refs_lengths _ _ Hs) as (_ & _ & Et). split; [done|].
  unfold surplus in Hg. lia.
Qed.

Lemma score_on_small_all_after_two_calls :
  Array_of_Parser small_all_parser = Ok (built small_all_parser)
  ∧ do_calls [Random; Random] (built small_all_parser) rng_steps
    = Ok ((), small_all_after_two_calls,
          run_rng (do_calls [Random; Random]) (built small_all_parser) rng_steps)
  ∧ total_problems small_all_after_two_calls
    = problems_and_issues (built small_all_parser)
  ∧ score small_all_after_two_calls
    = problems_and_issues small_all_after_two_calls
      + (if decide (in_p small_all_parser = c_only)
         then Z.of_nat (in_t small_all_parser)
              * Z.of_nat (length (interactions small_all_after_two_calls))
         else 0).
Proof.
  assert (Array_of_Parser small_all_parser = Ok (built small_all_parser)) as H1.
  { vm_compute. reflexivity. }
  assert (do_calls [Random; Random] (built small_all_parser) rng_steps
          = Ok ((), small_all_after_two_calls,
                run_rng (do_calls [Random; Random]) (built small_all_parser) rng_steps))
    as H2.
  { vm_compute. reflexivity. }
  exact (conj H1 (conj H2 (score_follows_problems_and_issues _ _ _ _ _ _ _ H1 H2))).
Defined.


Lemma lookahead_score_on_S3 :
  reached S3_parser S3_one_row
  ∧ update_array second_row (interactions_of S3_one_row second_row) false S3_one_row
    = Ok S3_second_row_tried
  ∧ total_problems S3_second_row_tried = total_problems S3_one_row
  ∧ score S3_second_row_tried - score S3_one_row
    = problems_and_issues S3_second_row_tried - problems_and_issues S3_one_row.
Proof.
  assert (reached S3_parser S3_one_row) as H1.
  { exists (built S3_parser), [Random], {| tape := λ _, 0%nat; pos := 0 |}, (),
      {| tape := λ _, 0%nat; pos := 3 |}.
    split; vm_compute; reflexivity. }
  assert (update_array second_row (interactions_of S3_one_row second_row) false S3_one_row
    = Ok S3_second_row_tried) as H2.
  { vm_compute. reflexivity. }
  exact (conj H1 (conj H2
    (update_array_moves_score_with_issues S3_parser S3_one_row second_row
       (interactions_of S3_one_row second_row) false S3_second_row_tried H1 H2))).
Defined.


(** * What each part of [update_array] leaves alone *)

Lemma coverage_update_beside i a0 a a' :
  coverage_update i a = Ok a' → beside_coverage a0 a → beside_coverage a0 a'.
Proof.
  unfold coverage_update, beside_coverage. intros H H0. inv_Ok H.
  destruct (is_covered x); inv_Ok H; [done|]. agree_steps.
Qed.

Lemma detection_update_beside rs i a0 a a' :
  detection_update rs i a = Ok a' → beside_detection a0 a → beside_detection a0 a'.
Proof.
  unfold detection_update, beside_detection. intros H H0. inv_Ok H.
  destruct (is_detectable x); inv_Ok H; [done|].
  assert (agree but_d but_det (λ X : T, X) but_detection_a a0 x0) as H1.
  { agree_loop Hx0; [|agree_steps]. inv_Ok Hx0. agree_steps. }
  destruct (is_detectable x2); inv_Ok H; agree_steps.
Qed.

Lemma location_first_beside rs t1 a0 a a' :
  location_first rs t1 a = Ok a' → beside_location a0 a → beside_location a0 a'.
Proof.
  unfold location_first, beside_location. intros H H0. inv_Ok H.
  agree_loop H; [|agree_steps].
  inv_Ok H. destruct (decide _); inv_Ok H; agree_steps.
Qed.

Lemma location_solved_beside rs t1 a0 a a' :
  location_solved rs t1 a = Ok a' → beside_location a0 a → beside_location a0 a'.
Proof.
  unfold location_solved, beside_location. intros H H0. inv_Ok H.
  assert (agree but_l (λ I : Interaction, I) skel_t but_location_a a0 a1); [|agree_steps].
  change a1 with ((a1, g, z).1.1). revert Hx0.
  apply (foldM_inv (λ st, beside_location a0 st.1.1)); [|done].
  intros k [[c tmp] sv] [[c' tmp'] sv'] _ Hc Hk. cbn [fst snd] in *.
  unfold beside_location in *.
  destruct (decide (k ∈ rs)); inv_Ok Hk; [done|].
  destruct (decide (t1 ∈ _)); inv_Ok Hk.
  destruct (decide (size _ = 0%nat)); inv_Ok Hk; [|agree_steps].
  destruct (decide (_ = 0)); inv_Ok Hk. agree_steps.
Qed.

Lemma location_update_beside rs t1 a0 a a' :
  location_update rs t1 a = Ok a' → beside_location a0 a → beside_location a0 a'.
Proof.
  unfold location_update. intros H H0. inv_Ok H.
  destruct (is_locatable x); inv_Ok H; [done|].
  assert (beside_location a0 x0) as H1.
  { destruct (decide (size (t_rows x) = 1%nat));
      [by eapply location_first_beside|by eapply location_solved_beside]. }
  unfold beside_location in *.
  destruct (decide (size (location_conflicts x1) = 0%nat)); inv_Ok H; agree_steps.
Qed.

(** the loop over the T sets of the row *)
Lemma location_phase_beside rs ks a a' :
  foldM (location_update rs) ks a = Ok a' → beside_location a a'.
Proof.
  apply (foldM_inv (beside_location a)); [|reflexivity].
  intros k c c' _ Hc Hk. by eapply location_update_beside.
Qed.

(** *** What the frames say about lists and flags *)

Lemma agree_lists {XS XI XT XA} (vs : Single → XS) (vi : Interaction → XI) (vt : T → XT)
    (va : Array → XA) a b :
  agree vs vi vt va a b →
  va b = va a ∧ vi <$> interactions b = vi <$> interactions a
  ∧ vt <$> sets b = vt <$> sets a.
Proof.
  intros (Ha & _ & Hi & Ht). split_and!; [done| |]; by apply view_lookup_eq.
Qed.

Lemma fmap_view_eq {A B C} (f : A → B) (g : B → C) (l1 l2 : list A) :
  f <$> l1 = f <$> l2 → (g ∘ f) <$> l1 = (g ∘ f) <$> l2.
Proof. intros H. by rewrite !list_fmap_compose, H. Qed.

Lemma interactions_nil_iff {B} (f : Interaction → B) a b :
  f <$> interactions b = f <$> interactions a →
  interactions b ≠ [] ↔ interactions a ≠ [].
Proof.
  intros H. apply (f_equal length) in H. rewrite !length_fmap in H.
  destruct (interactions a), (interactions b); simpl in *; try lia; done.
Qed.


(** * Coverage: the flags, the counter and the rows *)

(** ** Counting flags *)

Lemma count_false_cons b l :
  count_false (b :: l) = ((if b then 0 else 1) + count_false l)%nat.
Proof.
  unfold count_false. rewrite filter_cons. destruct b; case_decide; simpl; congruence.
Qed.

Lemma count_false_raise (l : list bool) (i : nat) :
  l !! i = Some false →
  (count_false l = S (count_false (<[i := true]> l)))%nat.
Proof.
  revert i. induction l as [|b l IH]; intros [|i] Hi; simpl in *; try done.
  - injection Hi as ->. by rewrite !count_false_cons.
  - rewrite !count_false_cons, (IH i Hi). destruct b; lia.
Qed.

Lemma count_false_zero (l : list bool) :
  count_false l = 0%nat ↔ ∀ (i : nat) b, l !! i = Some b → b = true.
Proof.
  induction l as [|b l IH]; [by split|]. rewrite count_false_cons. split.
  - intros H [|i] b' Hi; simpl in Hi.
    + injection Hi as <-. destruct b; [done|lia].
    + apply IH in Hi; [done|]. destruct b; lia.
  - intros H. rewrite (H 0%nat b eq_refl). simpl. apply IH.
    intros i b' Hi. by apply (H (S i)).
Qed.

(** ** One Interaction becomes covered *)

Lemma fmap_alter_view {A B} (f : A → B) (g : A → A) (v : B) (l : list A) i :
  (∀ x, f (g x) = v) → is_Some (l !! i) → f <$> alter g i l = <[i := v]> (f <$> l).
Proof.
  intros Hg [x Hx]. apply list_eq. intros j. rewrite list_lookup_fmap.
  destruct (decide (j = i)) as [->|Hne].
  - rewrite list_lookup_alter_eq, list_lookup_insert_eq, Hx; [simpl; by rewrite Hg|].
    rewrite length_fmap. by eapply lookup_lt_Some.
  - by rewrite list_lookup_alter_ne, list_lookup_insert_ne, list_lookup_fmap.
Qed.

Lemma coverage_update_flags i a a' :
  coverage_update i a = Ok a' →
  is_Some (interactions a !! i)
  ∧ is_covered <$> interactions a' = <[i := true]> (is_covered <$> interactions a).
Proof.
  unfold coverage_update. intros H. inv_Ok H. split; [by eauto|].
  destruct (is_covered x) eqn:Hc; inv_Ok H.
  - symmetry. apply list_insert_id. by rewrite list_lookup_fmap, Hx, <- Hc.
  - assert (interactions (if decide (coverage_problems
        (add_to F_coverage_problems (-1) (add_to F_score (-1)
          (bump s_set_c_issues (-1) (i_singles x)
            (upd_interaction (i_set_is_covered true) i a)))) = 0)
      then upd F_is_covering (λ _, true) (add_to F_coverage_problems (-1)
        (add_to F_score (-1) (bump s_set_c_issues (-1) (i_singles x)
          (upd_interaction (i_set_is_covered true) i a))))
      else add_to F_coverage_problems (-1) (add_to F_score (-1)
        (bump s_set_c_issues (-1) (i_singles x)
          (upd_interaction (i_set_is_covered true) i a))))
      = interactions (upd_interaction (i_set_is_covered true) i a)) as ->
      by frame_steps.
    cbn [interactions upd upd_interaction]. apply fmap_alter_view; [done|by eauto].
Qed.

Lemma coverage_update_counter i a a' :
  coverage_update i a = Ok a' →
  ∃ I, interactions a !! i = Some I
    ∧ if is_covered I then a' = a
      else coverage_problems a' = coverage_problems a - 1
           ∧ is_covering a'
             = (if decide (coverage_problems a - 1 = 0) then true else is_covering a).
Proof.
  unfold coverage_update. intros H. inv_Ok H. exists x. split; [done|].
  destruct (is_covered x); inv_Ok H; [done|].
  set (b := bump s_set_c_issues (-1) (i_singles x)
              (upd_interaction (i_set_is_covered true) i a)).
  assert (coverage_problems b = coverage_problems a ∧ is_covering b = is_covering a)
    as [Ecp Eic].
  { unfold b. split; frame_steps. }
  change (coverage_problems (add_to F_coverage_problems (-1) (add_to F_score (-1) b)))
    with (coverage_problems b + -1).
  rewrite Ecp. replace (coverage_problems a + -1) with (coverage_problems a - 1) by lia.
  destruct (decide (coverage_problems a - 1 = 0)); cbn; rewrite ?Ecp, ?Eic; split; lia || done.
Qed.

Lemma coverage_update_count i a a' :
  coverage_update i a = Ok a' → cov_count a → cov_count a'.
Proof.
  intros H [Hc Hf]. destruct (coverage_update_flags _ _ _ H) as [_ Hfl].
  destruct (coverage_update_counter _ _ _ H) as (I & HI & Hcnt).
  destruct (is_covered I) eqn:HcI; [by subst|]. destruct Hcnt as [Ecp Eic].
  unfold cov_count, uncovered. rewrite Hfl, Ecp, Eic.
  assert (interactions a' ≠ [] ↔ interactions a ≠ []) as Hnil.
  { apply (f_equal length) in Hfl. rewrite length_insert, !length_fmap in Hfl.
    destruct (interactions a), (interactions a'); simpl in *; try lia; try done. }
  assert (interactions a ≠ []) as Hne.
  { intros E. by rewrite E in HI. }
  assert ((is_covered <$> interactions a) !! i = Some false) as Hi.
  { by rewrite list_lookup_fmap, HI, <- HcI. }
  pose proof (count_false_raise _ _ Hi) as Hraise. unfold uncovered in Hc.
  split; [lia|]. rewrite Hnil. destruct (decide _) as [Hz|Hz].
  - split; [intros _; split; [lia|done]|done].
  - split.
    + intros Ht. apply Hf in Ht as [? _]. lia.
    + intros [? _]. lia.
Qed.

(** ** The other parts leave the coverage state alone *)

Lemma cov_count_transfer a b :
  is_covered <$> interactions b = is_covered <$> interactions a →
  coverage_problems b = coverage_problems a → is_covering b = is_covering a →
  cov_count a → cov_count b.
Proof.
  intros Ei Ec Ef [Hc Hf]. unfold cov_count, uncovered. rewrite Ei, Ec, Ef.
  split; [done|]. by rewrite (interactions_nil_iff is_covered a b).
Qed.

Lemma same_books_cover a b :
  same_books a b →
  is_covered <$> interactions b = is_covered <$> interactions a
  ∧ coverage_problems b = coverage_problems a ∧ is_covering b = is_covering a.
Proof.
  intros H. destruct (agree_lists _ _ _ _ _ _ H) as (Ha & Hi & _). split_and!.
  - apply (f_equal (fmap (λ x : list (nat * nat) * bool * bool * gset nat * gmap nat Z,
      x.1.1.1.2))) in Hi.
    by rewrite <- !list_fmap_compose in Hi.
  - unfold book_a in Ha. congruence.
  - unfold book_a in Ha. congruence.
Qed.

Lemma beside_detection_cover a b :
  beside_detection a b →
  is_covered <$> interactions b = is_covered <$> interactions a
  ∧ coverage_problems b = coverage_problems a ∧ is_covering b = is_covering a.
Proof.
  intros H. destruct (agree_lists _ _ _ _ _ _ H) as (Ha & Hi & _). split_and!.
  - apply (f_equal (fmap (λ x : list (nat * nat) * gset nat * bool * gset nat,
      x.1.2))) in Hi.
    by rewrite <- !list_fmap_compose in Hi.
  - unfold but_detection_a in Ha. congruence.
  - unfold but_detection_a in Ha. congruence.
Qed.

Lemma beside_location_cover a b :
  beside_location a b →
  is_covered <$> interactions b = is_covered <$> interactions a
  ∧ coverage_problems b = coverage_problems a ∧ is_covering b = is_covering a.
Proof.
  intros H. destruct (agree_lists _ _ _ _ _ _ H) as (Ha & Hi & _). split_and!.
  - apply (f_equal (fmap is_covered)) in Hi.
    by rewrite <- !list_fmap_compose in Hi.
  - unfold but_location_a in Ha. congruence.
  - unfold but_location_a in Ha. congruence.
Qed.

(** ** One call of [update_array] *)

(** what the second and third loops do to the coverage flags: the
    Interactions of the row are covered, the others are as before *)
Lemma counting_cover ri rs a b :
  counting_phases ri rs a = Ok b → cov_count a →
  cov_count b
  ∧ ∀ j, is_covered <$> interactions b !! j
         = (λ I, if decide (j ∈ ri) then true else is_covered I) <$> interactions a !! j.
Proof.
  unfold counting_phases. intros H Hc. apply bind_Ok in H as (a1 & H1 & H).
  assert (cov_count a1
          ∧ ∀ j, (is_covered <$> interactions a1) !! j
                 = (λ b : bool, if decide (j ∈ ri) then true else b)
                     <$> (is_covered <$> interactions a) !! j) as [Hc1 Hf1].
  { pose (P := λ (l : list nat) (c : Array),
      cov_count c
      ∧ ∀ j, (is_covered <$> interactions c) !! j
             = (λ b : bool, if decide (j ∈ l) then true else b)
                 <$> (is_covered <$> interactions a) !! j).
    cut (P (iter ri) a1).
    { intros [? Hj]. split; [done|]. intros j. rewrite Hj.
      destruct (_ !! j); [|done]. simpl.
      destruct (decide (j ∈ iter ri)) as [Hin|Hin]; rewrite elem_of_iter in Hin.
      - by rewrite decide_True.
      - by rewrite decide_False. }
    revert H1. apply (foldM_prefix P); unfold P; clear P.
    - intros l i c c' [Hcc Hfc] Hi. apply bind_Ok in Hi as (c1 & Hc1 & Hi).
      pose proof (coverage_update_count _ _ _ Hc1 Hcc) as Hcc1.
      destruct (coverage_update_flags _ _ _ Hc1) as [Hsome Hfl].
      assert (cov_count c'
              ∧ is_covered <$> interactions c' = is_covered <$> interactions c1)
        as [Hcc' Efl].
      { destruct (decide (p c1 = all)); inv_Ok Hi; [|done].
        eapply detection_update_beside in Hi; [|reflexivity].
        destruct (beside_detection_cover _ _ Hi) as (? & ? & ?).
        split; [by eapply cov_count_transfer|done]. }
      split; [done|]. intros j. rewrite Efl, Hfl.
      destruct (decide (j = i)) as [->|Hne].
      + rewrite list_lookup_insert_eq.
        2: { rewrite length_fmap. by apply lookup_lt_is_Some. }
        destruct Hsome as [I HI].
        assert (is_Some ((is_covered <$> interactions a) !! i)) as [b0 Hb0].
        { specialize (Hfc i). rewrite list_lookup_fmap, HI in Hfc. simpl in Hfc.
          destruct (_ !! i); [by eauto|done]. }
        rewrite Hb0. simpl. rewrite decide_True; [done|].
        apply elem_of_app. right. by left.
      + rewrite list_lookup_insert_ne by done. rewrite Hfc.
        destruct (_ !! j); [|done]. simpl.
        destruct (decide (j ∈ l)) as [Hin|Hin].
        * rewrite decide_True; [done|]. apply elem_of_app. by left.
        * rewrite decide_False; [done|]. intros [?|Hj]%elem_of_app; [done|].
          apply list_elem_of_singleton in Hj. done.
    - split; [done|]. intros j. destruct (_ !! j); [|done]. simpl.
      first [done | by rewrite decide_False by apply not_elem_of_nil]. }
  assert (beside_location a1 b) as Hb.
  { destruct (decide (p a1 ≠ c_only ∧ is_locating a1 = false)); inv_Ok H; [|reflexivity].
    by eapply location_phase_beside. }
  destruct (beside_location_cover _ _ Hb) as (Ei & Ec & Ef).
  split; [by eapply cov_count_transfer|].
  intros j. rewrite <- list_lookup_fmap, Ei, Hf1, !list_lookup_fmap.
  by destruct (interactions a !! j).
Qed.

Lemma update_array_cover row ri a b :
  update_array row ri true a = Ok b → cov_count a → cover_rows a →
  cov_count b ∧ cover_rows b.
Proof.
  intros H Hc Hr. pose proof (update_array_keep_spec _ _ _ _ H) as (_ & _ & _ & _ & Hrows).
  destruct Hrows as (_ & Hrows & _).
  unfold update_array in H. apply bind_Ok in H as ([a2 rs] & Hbody & H). inv_Ok H.
  rewrite update_array_body_unfold in Hbody. cbv zeta in Hbody.
  apply bind_Ok in Hbody as ([a1 rs1] & Hins & Hbody).
  apply bind_Ok in Hbody as (a3 & Hcount & Hbody). inv_Ok Hbody.
  apply insert_phase_spec in Hins as (Hbooks & _).
  destruct (same_books_cover _ _ Hbooks) as (Ei & Ec & Ef).
  assert (cov_count a1) as Hc1.
  { eapply cov_count_transfer; [exact Ei|exact Ec|exact Ef|]. exact Hc. }
  destruct (counting_cover _ _ _ _ Hcount Hc1) as [Hcb Hfl]. split; [done|].
  intros i I1 HI1. destruct (Hrows i I1 HI1) as (I0 & HI0 & Hx).
  specialize (Hfl i). rewrite HI1 in Hfl. simpl in Hfl.
  assert (interactions a1 !! i = Some (I0 : Interaction)
          ∨ ∃ I', interactions a1 !! i = Some I' ∧ is_covered I' = is_covered I0) as HI'.
  { right. apply (f_equal (.!! i)) in Ei. rewrite !list_lookup_fmap in Ei.
    cbn [interactions upd] in Ei. rewrite HI0 in Ei.
    destruct (interactions a1 !! i) as [I'|]; [|done]. exists I'. split; [done|].
    simpl in Ei. congruence. }
  destruct HI' as [HI'|(I' & HI' & EI')]; rewrite HI' in Hfl; simpl in Hfl;
    injection Hfl as Hfl.
  all: destruct (decide (i ∈ ri)) as [Hin|Hin].
  all: rewrite Hfl.
  - split; [intros _|done]. intros E.
    assert (S (num_tests a) ∈ i_rows I1) as Hn by (apply Hx; right; done).
    rewrite E in Hn. set_solver.
  - rewrite (Hr i I0 HI0). split; intros Hne E; apply Hne; apply set_eq; intros x;
      [rewrite <- E|rewrite <- E]; rewrite (Hx x); unfold member_after; naive_solver.
  - split; [intros _|done]. intros E.
    assert (S (num_tests a) ∈ i_rows I1) as Hn by (apply Hx; right; done).
    rewrite E in Hn. set_solver.
  - rewrite EI', (Hr i I0 HI0). split; intros Hne E; apply Hne; apply set_eq; intros x;
      [rewrite <- E|rewrite <- E]; rewrite (Hx x); unfold member_after; naive_solver.
Qed.

(** ** The flags after the constructor *)

Lemma build_t_way_interactions_flags t_cur start ss a a' :
  build_t_way_interactions t_cur start ss a = Ok a' → flags a' = flags a.
Proof.
  revert start ss a a'. induction t_cur as [|t' IH]; intros start ss a a' H; simpl in H.
  - inv_Ok H. frame_steps.
  - frame_loop H; [|done]. inv_Ok H. frame_loop H; [|done].
    apply IH in H. congruence.
Qed.

Lemma build_size_d_sets_flags d_cur start ss a a' :
  build_size_d_sets d_cur start ss a = Ok a' → flags a' = flags a.
Proof.
  revert start ss a a'. induction d_cur as [|d' IH]; intros start ss a a' H; simpl in H.
  - apply bind_Ok in H as ([X b] & HX & H). apply bind_Ok in H as (key & _ & H).
    apply Ok_inj in H as <-.
    apply new_T_spec in HX as (_ & _ & _ & _ & _ & ->). unfold flags. simpl.
    change (flags (for_each (upd_interaction (i_set_sets (union {[length (sets a)]}))) ss a)
            = flags a).
    frame_steps.
  - frame_loop H; [|done]. apply bind_Ok in H as (_ & _ & H).
    apply IH in H. congruence.
Qed.

Lemma Array_of_Parser_flags inp a :
  Array_of_Parser inp = Ok a → flags a = (false, false, false).
Proof.
  unfold Array_of_Parser. cbv zeta. intros H.
  apply bind_Ok in H as (a1 & H1 & H).
  assert (flags a1 = (false, false, false)) as E1.
  { apply build_factors_beside in H1. unfold beside_factors, flags in *. simpl in H1.
    congruence. }
  apply bind_Ok in H as (a2 & H2 & H).
  assert (flags a2 = (false, false, false)) as E2.
  { rewrite <- E1. by eapply build_t_way_interactions_flags. }
  set (a3 := add_to F_score _ _) in H.
  assert (flags a3 = (false, false, false)) as E3
    by (rewrite <- E2; unfold a3; frame_steps).
  destruct (decide (p a3 = c_only)); [by inv_Ok H|].
  apply bind_Ok in H as (a4 & H4 & H).
  assert (flags a4 = (false, false, false)) as E4.
  { rewrite <- E3. by eapply build_size_d_sets_flags. }
  set (a5 := for_each _ (sets a4) a4) in H.
  set (a6 := upd F_score _ _) in H.
  assert (flags a6 = (false, false, false)) as E6
    by (rewrite <- E4; unfold a6, a5; frame_steps).
  destruct (decide (p a6 ≠ all)); [by inv_Ok H|].
  apply bind_Ok in H as (a7 & H7 & H). inv_Ok H.
  assert (flags a7 = (false, false, false)) as E7.
  { rewrite <- E6. frame_loop H7; [|done]. frame_loop H7; [|done]. inv_Ok H7.
    destruct (decide _); inv_Ok H7; [done|]. frame_steps. }
  rewrite <- E7. frame_steps.
Qed.

(** ** Runs *)

Lemma run_cover inp a : reached inp a → cov_count a ∧ cover_rows a.
Proof.
  intros (a0 & cs & g & u & g' & Hc & Hrun).
  destruct (Array_of_Parser_counters _ _ Hc) as (_ & _ & Ecp & _).
  pose proof (Array_of_Parser_flags _ _ Hc) as Efl.
  unfold flags in Efl. injection Efl as Efl _ _.
  apply Array_of_Parser_initial in Hc as ([Hcore _] & _).
  destruct Hcore as (_ & _ & _ & _ & HI & _).
  revert Hrun. apply (do_calls_inv (λ a, cov_count a ∧ cover_rows a)).
  - intros b perm H. exact H.
  - intros b dc H. exact H.
  - intros b row b' [H1 H2] Hrow. unfold update_array_row in Hrow.
    apply bind_Ok in Hrow as (ri & _ & Hrow). by eapply update_array_cover.
  - split; [split|].
    + rewrite Ecp. f_equal. unfold uncovered.
      assert (∀ l : list Interaction, (∀ i I, l !! i = Some I → is_covered I = false) →
                count_false (is_covered <$> l) = length l) as Hall.
      { clear. induction l as [|I l IH]; intros H; [done|]. rewrite fmap_cons.
        rewrite count_false_cons, (H 0%nat I eq_refl), IH; [done|].
        intros i I' HI'. by apply (H (S i)). }
      symmetry. apply Hall. intros i I HI'. by destruct (HI i I HI') as (_ & ? & _).
    + rewrite Efl. split; [done|]. intros [E Hne]. rewrite Ecp in E.
      destruct (interactions a0); [done|]. simpl in E. lia.
    + intros i I HI'. destruct (HI i I HI') as (-> & -> & _). done.
Qed.

(** X5. In every reachable Array an Interaction is flagged as covered
    exactly when some committed row holds all its Singles;
    [coverage_problems] is the number of Interactions that are not covered;
    and [is_covering] is up exactly when there is at least one Interaction
    and every Interaction is in some row. *)
Theorem coverage_counts_uncovered inp a :
  reached inp a →
  (∀ i I, interactions a !! i = Some I → (is_covered I = true ↔ in_some_row a I))
  ∧ coverage_problems a = Z.of_nat (uncovered a)
  ∧ (is_covering a = true ↔
       interactions a ≠ [] ∧ ∀ i I, interactions a !! i = Some I → in_some_row a I).
Proof.
  intros Hr. destruct (run_cover _ _ Hr) as [[Hcount Hflag] Hrows].
  assert (∀ i I, interactions a !! i = Some I → (is_covered I = true ↔ in_some_row a I))
    as Hcov.
  { destruct (decide (in_t inp ≤ in_num_cols inp)%nat) as [Ht|Ht].
    - destruct Hr as (a0 & cs & g & u & g' & Hc & Hrun).
      destruct (run_rows_consistent _ _ _ _ _ _ _ Hc Ht Hrun) as (_ & _ & _ & _ & HI & _).
      intros i I Hi. rewrite (Hrows i I Hi). split.
      + intros Hne. apply set_choose_L in Hne as [x Hx].
        apply (HI i I Hi) in Hx as (k & row & Hk & _ & Hall).
        exists row. split; [apply list_elem_of_lookup; by exists k|done].
      + intros (row & [k Hk]%list_elem_of_lookup & Hall).
        assert ((in_num_rows inp + k + 1)%nat ∈ i_rows I) as Hx
          by (apply (HI i I Hi); by exists k, row).
        set_solver.
    - destruct (reached_built _ _ Hr) as [(Hcols & _ & _ & _ & _ & Hi & _) _].
      apply (f_equal length) in Hi. rewrite length_fmap, length_combos_all in Hi.
      rewrite esym_short in Hi by (rewrite length_levels_used; lia).
      destruct (interactions a); [|done]. intros i I Hi'. done. }
  split; [exact Hcov|]. split; [exact Hcount|].
  rewrite Hflag, Hcount. unfold uncovered.
  assert (Z.of_nat (count_false (is_covered <$> interactions a)) = 0
          ↔ count_false (is_covered <$> interactions a) = 0%nat) as -> by lia.
  rewrite count_false_zero. split.
  - intros [Hall Hne]. split; [done|]. intros i I Hi. apply (Hcov i I Hi).
    apply (Hall i). by rewrite list_lookup_fmap, Hi.
  - intros [Hne Hall]. split; [|done]. intros i b Hi.
    rewrite list_lookup_fmap in Hi. destruct (interactions a !! i) as [I|] eqn:EI; [|done].
    injection Hi as <-. apply (Hcov i I EI). by apply (Hall i).
Qed.

Lemma coverage_of_S1_after_two_calls :
  reached S1_parser S1_after_two_calls
  ∧ (∀ i I, interactions S1_after_two_calls !! i = Some I →
       (is_covered I = true ↔ in_some_row S1_after_two_calls I))
  ∧ coverage_problems S1_after_two_calls = Z.of_nat (uncovered S1_after_two_calls)
  ∧ (is_covering S1_after_two_calls = true ↔
       interactions S1_after_two_calls ≠ []
       ∧ ∀ i I, interactions S1_after_two_calls !! i = Some I →
           in_some_row S1_after_two_calls I).
Proof.
  assert (reached S1_parser S1_after_two_calls) as H.
  { exists (built S1_parser), two_calls, rng_steps, (),
      (run_rng (do_calls two_calls) (built S1_parser) rng_steps).
    split; vm_compute; reflexivity. }
  exact (conj H (coverage_counts_uncovered S1_parser S1_after_two_calls H)).
Defined.


(** * The two buffers of [add_row]: [dont_cares] and [permutation] *)

(** ** [update_array] leaves the parameters and the buffers alone *)

Lemma insert_row_config n i a rs a' rs' :
  insert_row n i (a, rs) = Ok (a', rs') → config a' = config a.
Proof. unfold insert_row. intros H. inv_Ok H. frame_steps. Qed.

Lemma coverage_update_config i a a' : coverage_update i a = Ok a' → config a' = config a.
Proof.
  unfold coverage_update. intros H. inv_Ok H.
  destruct (is_covered x); inv_Ok H; [done|]. frame_steps.
Qed.

Lemma detection_update_config rs i a a' :
  detection_update rs i a = Ok a' → config a' = config a.
Proof.
  unfold detection_update. intros H. inv_Ok H.
  destruct (is_detectable x); inv_Ok H; [done|].
  assert (config x0 = config a) as E0.
  { frame_loop Hx0; [|frame_steps]. inv_Ok Hx0. frame_steps. }
  destruct (is_detectable x2); inv_Ok H; rewrite <- E0; frame_steps.
Qed.

Lemma location_first_config rs t1 a a' :
  location_first rs t1 a = Ok a' → config a' = config a.
Proof.
  unfold location_first. intros H. inv_Ok H.
  frame_loop H; [|frame_steps]. inv_Ok H. destruct (decide _); inv_Ok H; frame_steps.
Qed.

Lemma location_solved_config rs t1 a a' :
  location_solved rs t1 a = Ok a' → config a' = config a.
Proof.
  unfold location_solved. intros H. inv_Ok H.
  assert (config a0 = config a) as E.
  { change a0 with ((a0, g, z).1.1). revert Hx0.
    apply (foldM_inv (λ st, config st.1.1 = config a)); [|done].
    intros t2 [[c tm] sv] [[c' tm'] sv'] _ Hc Hstep. cbn [fst] in *.
    destruct (decide (t2 ∈ rs)); inv_Ok Hstep; [done|].
    destruct (decide (t1 ∈ location_conflicts x0)); inv_Ok Hstep.
    destruct (decide (size (location_conflicts x1) = 0%nat)); inv_Ok Hstep.
    - destruct (decide _); inv_Ok Hstep. frame_steps.
    - frame_steps. }
  rewrite <- E. frame_steps.
Qed.

Lemma location_update_config rs t1 a a' :
  location_update rs t1 a = Ok a' → config a' = config a.
Proof.
  unfold location_update. intros H. inv_Ok H.
  destruct (is_locatable x); inv_Ok H; [done|].
  assert (config x0 = config a) as E.
  { destruct (decide _); [by eapply location_first_config|by eapply location_solved_config]. }
  destruct (decide (size (location_conflicts x1) = 0%nat)); inv_Ok H; [|done].
  rewrite <- E. frame_steps.
Qed.

Lemma roll_back_config ri rs a a' : roll_back ri rs a = Ok a' → config a' = config a.
Proof.
  unfold roll_back. intros H. inv_Ok H.
  assert (config x = config a) as E.
  { frame_loop Hx; [|done]. inv_Ok Hx. frame_steps. }
  rewrite <- E. frame_steps.
Qed.

Lemma update_array_config row ri keep a b :
  update_array row ri keep a = Ok b → config b = config a.
Proof.
  unfold update_array. intros H. apply bind_Ok in H as ([a2 rs] & Hbody & H).
  assert (config a2 = config a) as E.
  { rewrite update_array_body_unfold in Hbody. cbv zeta in Hbody.
    apply bind_Ok in Hbody as ([a1 rs1] & Hins & Hbody).
    apply bind_Ok in Hbody as (a3 & Hcount & Hbody). inv_Ok Hbody.
    assert (config a1 = config a) as E1.
    { change a1 with ((a1, rs).1). revert Hins.
      apply (foldM_inv (λ st, config st.1 = config a)); [|done].
      intros i [c q] [c' q'] _ Hc Hstep. cbn [fst] in *.
      apply insert_row_config in Hstep. congruence. }
    rewrite <- E1. unfold counting_phases in Hcount.
    apply bind_Ok in Hcount as (a4 & H4 & Hcount).
    assert (config a4 = config a1) as E4.
    { frame_loop H4; [|done]. apply bind_Ok in H4 as (c & Hc & H4).
      apply coverage_update_config in Hc.
      destruct (decide (p c = all)); inv_Ok H4; [|congruence].
      apply detection_update_config in H4. congruence. }
    rewrite <- E4.
    destruct (decide (p a4 ≠ c_only ∧ is_locating a4 = false)); inv_Ok Hcount; [|done].
    frame_loop Hcount; [|done]. apply location_update_config in Hcount. congruence. }
  destruct keep; inv_Ok H; [done|]. apply roll_back_config in H. congruence.
Qed.

Lemma update_array_row_config row keep a b :
  update_array_row row keep a = Ok b → config b = config a.
Proof.
  unfold update_array_row. intros H. apply bind_Ok in H as (ri & _ & H).
  by eapply update_array_config.
Qed.

Lemma Array_of_Parser_config inp a :
  Array_of_Parser inp = Ok a → config a = config (Array_init inp).
Proof.
  unfold Array_of_Parser. cbv zeta. intros H.
  apply bind_Ok in H as (a1 & H1 & H). apply build_factors_config in H1.
  apply bind_Ok in H as (a2 & H2 & H). apply build_t_way_interactions_config in H2.
  set (a3 := add_to F_score _ _) in H.
  assert (config a3 = config (Array_init inp)) as E3
    by (rewrite <- H1, <- H2; unfold a3; frame_steps).
  destruct (decide (p a3 = c_only)); [by inv_Ok H|].
  apply bind_Ok in H as (a4 & H4 & H). apply build_size_d_sets_config in H4.
  set (a5 := for_each _ (sets a4) a4) in H.
  set (a6 := upd F_score _ _) in H.
  assert (config a6 = config (Array_init inp)) as E6
    by (rewrite <- E3, <- H4; unfold a6, a5; frame_steps).
  destruct (decide (p a6 ≠ all)); [by inv_Ok H|].
  apply bind_Ok in H as (a7 & H7 & H). inv_Ok H.
  assert (config a7 = config a6) as E7.
  { frame_loop H7; [|done]. frame_loop H7; [|done]. inv_Ok H7.
    destruct (decide _); inv_Ok H7; [done|]. frame_steps. }
  rewrite <- E6, <- E7. frame_steps.
Qed.

(** ** The shuffle *)

Lemma swap_head_Permutation {A} (l : list A) j x y :
  l !! j = Some y → y :: <[j := x]> l ≡ₚ x :: l.
Proof.
  revert j. induction l as [|z l IH]; intros [|j] H; simplify_eq/=.
  - apply Permutation_swap.
  - rewrite (Permutation_swap z y), (IH j H). apply Permutation_swap.
Qed.

(** swapping two entries of a list permutes it *)
Lemma swap_Permutation {A} (l : list A) i j x y :
  l !! i = Some x → l !! j = Some y → <[i := y]> (<[j := x]> l) ≡ₚ l.
Proof.
  revert i j. induction l as [|z l IH]; intros [|i] [|j] Hi Hj; simplify_eq/=.
  - done.
  - by apply swap_head_Permutation.
  - by apply swap_head_Permutation.
  - f_equiv. by apply IH.
Qed.

Lemma M_bind_run {A B} (m : M A) (f : A → M B) a g x a1 g1 :
  m a g = Ok (x, a1, g1) → (y ← m; f y) a g = f x a1 g1.
Proof. intros H. unfold mbind, M_bind. by rewrite H. Qed.

Lemma rand_mod_run n a g :
  n ≠ 0%nat →
  rand_mod n a g = Ok ((tape g (pos g) `mod` n)%nat, a, {| tape := tape g; pos := S (pos g) |}).
Proof. intros Hn. unfold rand_mod. by rewrite decide_False. Qed.

(** the shuffle succeeds when [permutation] has an entry for every column;
    it draws once per column and swaps entries of [permutation] *)
Lemma shuffle_loop (k : nat) a g perm0 :
  permutation a = Some perm0 → (k ≤ length perm0)%nat →
  ∃ perm,
    forM (λ size _,
        rand_idx ← rand_mod size;
        perm ← reads (λ a, or_fail NullDeref (permutation a));
        temp ← lift (read_at perm (size - 1));
        x ← lift (read_at perm rand_idx);
        perm ← lift (write_at perm (size - 1) x);
        perm ← lift (write_at perm rand_idx temp);
        modify (upd F_permutation (λ _, Some perm)))
      (reverse (seq 1 k)) () a g
    = Ok ((), upd F_permutation (λ _, Some perm) a,
          {| tape := tape g; pos := pos g + k |})
    ∧ perm ≡ₚ perm0.
Proof.
  revert a g perm0. induction k as [|k IH]; intros a g perm0 Hp Hk.
  - exists perm0. split; [|done]. simpl. unfold mret, M_ret. f_equal. f_equal; [f_equal|].
    + rewrite <- Hp. apply upd_permutation_eta.
    + destruct g. simpl. f_equal. lia.
  - rewrite reverse_seq_S. cbn [forM].
    assert (is_Some (perm0 !! k)) as [temp Htemp] by (apply lookup_lt_is_Some; lia).
    assert (tape g (pos g) `mod` S k < length perm0)%nat as Hr.
    { pose proof (Nat.mod_upper_bound (tape g (pos g)) (S k)). lia. }
    assert (is_Some (perm0 !! (tape g (pos g) `mod` S k)%nat)) as [x Hx]
      by (by apply lookup_lt_is_Some).
    set (perm1 := <[(tape g (pos g) `mod` S k)%nat := temp]> (<[k := x]> perm0)).
    destruct (IH (upd F_permutation (λ _, Some perm1) a)
                {| tape := tape g; pos := S (pos g) |} perm1) as (perm & Hrun & Hperm).
    { done. }
    { unfold perm1. rewrite !length_insert. lia. }
    exists perm. split.
    + erewrite M_bind_run.
      * rewrite Hrun. f_equal. f_equal. simpl. f_equal. lia.
      * replace (1 + k)%nat with (S k) by lia.
        erewrite M_bind_run by (by apply rand_mod_run).
        erewrite M_bind_run by (apply reads_Ok; rewrite Hp; done).
        replace (S k - 1)%nat with k by lia.
        erewrite M_bind_run by (apply lift_Ok; unfold read_at; rewrite Htemp; done).
        erewrite M_bind_run by (apply lift_Ok; unfold read_at; rewrite Hx; done).
        erewrite M_bind_run
          by (apply lift_Ok; unfold write_at; rewrite decide_True by lia; done).
        erewrite M_bind_run
          by (apply lift_Ok; unfold write_at;
              rewrite decide_True by (rewrite length_insert; lia); done).
        reflexivity.
    + rewrite Hperm. unfold perm1. by apply swap_Permutation.
Qed.

Lemma shuffle_total a g perm0 :
  permutation a = Some perm0 → length perm0 = num_factors a →
  ∃ perm,
    shuffle a g = Ok ((), upd F_permutation (λ _, Some perm) a,
                      {| tape := tape g; pos := pos g + num_factors a |})
    ∧ perm ≡ₚ perm0.
Proof.
  intros Hp Hlen. unfold shuffle. unfold mbind at 1, M_bind at 1. unfold reads at 1.
  cbv beta iota. apply shuffle_loop; [done|lia].
Qed.

(** ** Runs *)

Lemma do_call_buffers c a g u a' g' perm0 :
  permutation a = Some perm0 → length perm0 = num_factors a →
  do_call c a g = Ok (u, a', g') →
  num_factors a' = num_factors a
  ∧ length <$> dont_cares a' = length <$> dont_cares a
  ∧ ((∀ tweak_row_i, c ≠ Greedy tweak_row_i) → dont_cares a' = dont_cares a)
  ∧ ∃ perm, permutation a' = Some perm ∧ perm ≡ₚ perm0.
Proof.
  intros Hp Hlen. destruct c as [|h row_addr|tw]; simpl; intros H.
  - unfold add_random_row in H. apply M_bind_Ok in H as (row & a1 & g1 & Hrow & H).
    apply read_only_get_random_row in Hrow as ->.
    apply M_bind_Ok in H as (b & a1 & g2 & Hb & H). apply reads_Ok in Hb as (Hb & -> & ->).
    apply modify_Ok in H as [-> _]. apply update_array_row_config in Hb.
    unfold config in Hb. injection Hb as _ _ _ Hn _ Hdc Hpm.
    split_and!; [done|by rewrite Hdc|done|]. exists perm0. split; [congruence|done].
  - unfold add_row in H. apply M_bind_Ok in H as (u0 & a1 & g1 & Hsh & H).
    destruct (shuffle_total a g perm0 Hp Hlen) as (perm & Hrun & Hperm).
    rewrite Hrun in Hsh. injection Hsh as _ <- <-.
    apply M_bind_Ok in H as ([row0 locked] & a1 & g2 & Hinit & H).
    assert (a1 = upd F_permutation (λ _, Some perm) a) as ->.
    { destruct h;
        apply M_bind_Ok in Hinit as (r & a2 & g3 & Hr & Hinit);
        first [ apply read_only_initialize_row_S in Hr as ->
              | apply read_only_initialize_row_T in Hr as ->
              | apply read_only_initialize_row_R in Hr as -> ];
        try destruct r; by apply mret_Ok in Hinit as (_ & -> & _). }
    apply M_bind_Ok in H as (row & a1 & g3 & Htw & H).
    apply read_only_tweak_row in Htw as ->.
    apply M_bind_Ok in H as (b & a1 & g4 & Hb & H). apply reads_Ok in Hb as (Hb & -> & ->).
    apply modify_Ok in H as [-> _]. apply update_array_row_config in Hb.
    unfold config in Hb. injection Hb as _ _ _ Hn _ Hdc Hpm.
    split_and!; [done|by rewrite Hdc|done|]. exists perm. done.
  - apply add_row_greedy_steps in H as (u0 & a1 & g1 & dc & row & Hsh & Edc & Hb).
    destruct (shuffle_total a g perm0 Hp Hlen) as (perm & Hrun & Hperm).
    rewrite Hrun in Hsh. injection Hsh as _ <- <-.
    apply update_array_row_config in Hb.
    unfold config in Hb. injection Hb as _ _ _ Hn _ Hdc Hpm.
    split_and!; [done|by rewrite Hdc|intros Hno; by destruct (Hno tw)|]. exists perm. done.
Qed.

Lemma run_buffers inp a :
  reached inp a →
  num_factors a = in_num_cols inp
  ∧ (∃ dc, dont_cares a = Some dc ∧ length dc = in_num_cols inp)
  ∧ ∃ perm, permutation a = Some perm ∧ perm ≡ₚ seq 0 (in_num_cols inp).
Proof.
  intros (a0 & cs & g & u & g' & Hc & Hrun).
  apply Array_of_Parser_config in Hc. unfold config in Hc. simpl in Hc.
  injection Hc as _ _ _ Hn _ Hdc Hpm.
  assert (∃ perm, permutation a0 = Some perm ∧ perm ≡ₚ seq 0 (in_num_cols inp)) as Hp
    by (by exists (seq 0 (in_num_cols inp))).
  assert (length <$> dont_cares a0 = Some (in_num_cols inp)) as Hl
    by (by rewrite Hdc; simpl; rewrite length_replicate).
  clear Hpm Hdc. revert Hrun. unfold do_calls. generalize () at 1 as u0.
  revert a0 g Hn Hl Hp.
  induction cs as [|c cs IH]; intros a0 g Hn Hl Hp u0 H; simpl in H.
  - apply mret_Ok in H as (_ & -> & _). split_and!; [done| |done].
    destruct (dont_cares a0) as [dc|]; [|done]. injection Hl as Hl. by exists dc.
  - apply M_bind_Ok in H as (u1 & a1 & g1 & Hc & H).
    destruct Hp as (perm0 & Hp & Hperm).
    eapply do_call_buffers in Hc as (Hn1 & Hdc1 & _ & perm & Hp1 & Hperm1); [|exact Hp|].
    + apply (IH a1 g1 (eq_trans Hn1 Hn)) with (u0 := u1); [congruence| |exact H].
      exists perm. split; [done|]. by rewrite Hperm1.
    + rewrite Hperm, length_seq. done.
Qed.

(** X6. In every reachable Array [permutation] lists every column exactly
    once and [dont_cares] has one tag for every column.  A call of
    [add_random_row], or of the [add_row] of [heuristics.cpp], leaves
    [dont_cares] as it is: the [add_row] of [array.cpp] is the only one
    that writes it. *)
Theorem buffers_of_add_row_stay_in_order inp a :
  reached inp a →
  (∃ dc, dont_cares a = Some dc ∧ length dc = in_num_cols inp)
  ∧ (∃ perm, permutation a = Some perm ∧ perm ≡ₚ seq 0 (in_num_cols inp))
  ∧ ∀ c g u a' g', do_call c a g = Ok (u, a', g') →
      (∀ tweak_row_i, c ≠ Greedy tweak_row_i) → dont_cares a' = dont_cares a.
Proof.
  intros H. destruct (run_buffers _ _ H) as (Hn & Hdc & perm & Hp & Hperm).
  split_and!; [done|by exists perm|].
  intros c g u a' g' Hc Hno.
  eapply do_call_buffers in Hc as (_ & _ & Hsame & _); [by apply Hsame|exact Hp|].
  by rewrite Hperm, length_seq.
Qed.

(** on S1, after a random row and six rows of the [add_row] of [array.cpp],
    which has tagged the last column *)
Lemma buffers_of_S1_after_greedy_calls :
  reached S1_parser S1_after_greedy_calls
  ∧ dont_cares S1_after_greedy_calls = Some [none; none; c_only]
  ∧ (∃ dc, dont_cares S1_after_greedy_calls = Some dc ∧ length dc = in_num_cols S1_parser)
  ∧ (∃ perm, permutation S1_after_greedy_calls = Some perm
             ∧ perm ≡ₚ seq 0 (in_num_cols S1_parser))
  ∧ ∀ c g u a' g', do_call c S1_after_greedy_calls g = Ok (u, a', g') →
      (∀ tweak_row_i, c ≠ Greedy tweak_row_i) →
      dont_cares a' = dont_cares S1_after_greedy_calls.
Proof.
  assert (reached S1_parser S1_after_greedy_calls) as H.
  { exists (built S1_parser), greedy_calls, rng_steps, (),
      (run_rng (do_calls greedy_calls) (built S1_parser) rng_steps).
    split; vm_compute; reflexivity. }
  assert (dont_cares S1_after_greedy_calls = Some [none; none; c_only]) as H'.
  { vm_compute. reflexivity. }
  exact (conj H (conj H'
    (buffers_of_add_row_stay_in_order S1_parser S1_after_greedy_calls H))).
Defined.

(** X7. On every reachable Array the shuffle that opens [add_row] succeeds:
    it draws one number for every column, leaves in [permutation] a list
    that holds every column exactly once, and changes nothing else. *)
Theorem shuffle_permutes_the_columns inp a g :
  reached inp a →
  ∃ perm,
    shuffle a g = Ok ((), upd F_permutation (λ _, Some perm) a,
                      {| tape := tape g; pos := pos g + in_num_cols inp |})
    ∧ perm ≡ₚ seq 0 (in_num_cols inp).
Proof.
  intros H. destruct (run_buffers _ _ H) as (Hn & _ & perm0 & Hp & Hperm).
  destruct (shuffle_total a g perm0 Hp) as (perm & Hrun & Hperm').
  { by rewrite Hperm, length_seq. }
  exists perm. rewrite Hrun, Hn. split; [done|]. by rewrite Hperm'.
Qed.

Lemma shuffle_of_S1_after_two_calls :
  reached S1_parser S1_after_two_calls
  ∧ ∃ perm,
      shuffle S1_after_two_calls rng_steps
      = Ok ((), upd F_permutation (λ _, Some perm) S1_after_two_calls,
            {| tape := tape rng_steps; pos := pos rng_steps + in_num_cols S1_parser |})
      ∧ perm ≡ₚ seq 0 (in_num_cols S1_parser).
Proof.
  assert (reached S1_parser S1_after_two_calls) as H.
  { exists (built S1_parser), two_calls, rng_steps, (),
      (run_rng (do_calls two_calls) (built S1_parser) rng_steps).
    split; vm_compute; reflexivity. }
  exact (conj H (shuffle_permutes_the_columns S1_parser S1_after_two_calls rng_steps H)).
Defined.


(** * The rows that are committed, and the random rows *)

(** what holds of the constructed Array and is kept by every committed row
    holds of every reachable Array *)
Lemma reached_ind inp (P : Array → Prop) :
  (∀ a perm, P a → P (upd F_permutation (λ _, perm) a)) →
  (∀ a dc, P a → P (upd F_dont_cares (λ _, dc) a)) →
  (∀ a row b, built_from inp a → WF a → P a → update_array_row row true a = Ok b → P b) →
  (∀ a0, Array_of_Parser inp = Ok a0 → P a0) →
  ∀ a, reached inp a → P a.
Proof.
  intros Hperm Hdc Hrow Hinit a (a0 & cs & g & u & g' & Hc & Hrun).
  pose proof (Array_of_Parser_built _ _ Hc) as Hb.
  pose proof (Hinit _ Hc) as HP.
  apply Array_of_Parser_initial in Hc as ([Hcore _] & _).
  assert (built_from inp a ∧ WF a ∧ P a) as (_ & _ & H); [|exact H].
  revert Hrun. apply (do_calls_inv (λ a, built_from inp a ∧ WF a ∧ P a)).
  - intros b perm (H1 & H2 & H3). split_and!; [exact H1|exact H2|by apply Hperm].
  - intros b dc (H1 & H2 & H3). split_and!; [exact H1|exact H2|by apply Hdc].
  - intros b row b' (H1 & H2 & H3) Hrow'. split_and!; [| |by eapply Hrow].
    + apply update_array_row_topology in Hrow' as [Ht Hs].
      by apply (built_from_topology inp b).
    + apply update_array_row_topology in Hrow' as [Ht Hs]. by apply (WF_topology b).
  - split_and!; [done|apply Hcore|done].
Qed.

(** a Single that exists has a value below the level of its column *)
Lemma get_single_in_level inp a s :
  built_from inp a → is_Some (get_single a s) →
  ∃ lv, in_levels_used inp !! s.1 = Some lv ∧ (s.2 < lv)%nat.
Proof.
  intros (_ & _ & Hshape & _) [S HS]. unfold get_single in HS.
  destruct (factors a !! s.1) as [F|] eqn:HF; [|done]. simpl in HS.
  apply lookup_lt_Some in HS.
  assert (shape a !! s.1 = Some (id F, level F, length (f_singles F))) as Hsh
    by (unfold shape; by rewrite list_lookup_fmap, HF).
  rewrite Hshape in Hsh. unfold shape_of in Hsh. rewrite list_lookup_imap in Hsh.
  destruct (in_levels_used inp !! s.1) as [lv|]; [|done]. simpl in Hsh.
  injection Hsh as _ _ E. exists lv. split; [done|]. by rewrite E.
Qed.

(** a row whose Interactions were all found is within the levels *)
Lemma found_row_within inp a row ri :
  built_from inp a → WF a → (1 ≤ in_t inp ≤ in_num_cols inp)%nat →
  build_row_interactions a row (t a) 0 [] ∅ = Ok ri →
  row_within (in_levels_used inp) row.
Proof.
  intros Hb (Hws & [Hwi1 Hwi2] & Hwt) Ht H.
  pose proof Hb as (Hcols & Hpar & _ & _ & _ & Hi & _).
  unfold params in Hpar. injection Hpar as _ Et _ En _.
  apply build_row_interactions_spec in H as (_ & Hfound & Hrow).
  intros c lv Hc.
  assert (c < num_factors a)%nat as Hcn.
  { apply lookup_lt_Some in Hc. unfold in_levels_used in Hc. rewrite length_take in Hc. lia. }
  destruct (column_in_some_combination (num_factors a) (t a) c) as (cs & Hcs & Hl & Hin);
    [lia|done|].
  set (K := (λ c, (c, default 0%nat (row !! c))) <$> cs).
  assert (K ∈ row_keys row (num_factors a) (t a) 0 []) as HK.
  { apply elem_of_row_keys. exists cs. by split_and!. }
  destruct (Hfound K HK) as [i Hi']. destruct (Hwi2 K i Hi') as (I & HI & E).
  destruct (Hwi1 i I HI) as (_ & _ & _ & Hvalid). rewrite Forall_forall in Hvalid.
  specialize (Hrow cs Hcs Hl). rewrite Forall_forall in Hrow.
  destruct (Hrow c Hin) as [v Hv]. exists v. split; [done|].
  assert ((c, v) ∈ i_singles I) as Hs.
  { rewrite E. unfold K. apply list_elem_of_fmap. exists c. split; [|done]. by rewrite Hv. }
  destruct (get_single_in_level inp a (c, v) Hb (Hvalid _ Hs)) as (lv' & Hlv' & Hlt).
  simpl in *. congruence.
Qed.

Lemma run_rows_within inp a :
  (in_t inp ≤ in_num_cols inp)%nat → reached inp a →
  Forall (row_within (in_levels_used inp)) (rows a).
Proof.
  intros Ht Hr.
  assert (1 ≤ in_t inp)%nat as Ht1.
  { destruct Hr as (a0 & _ & _ & _ & _ & Hc & _). by eapply Array_of_Parser_strength. }
  revert a Hr.
  apply (reached_ind inp (λ a, Forall (row_within (in_levels_used inp)) (rows a))).
  - intros b perm H. exact H.
  - intros b dc H. exact H.
  - intros b row b' Hb Hwf H Hrow. unfold update_array_row in Hrow.
    apply bind_Ok in Hrow as (ri & Hri & Hrow).
    apply update_array_keep_spec in Hrow as (_ & -> & _).
    apply Forall_app. split; [done|]. constructor; [|done].
    eapply found_row_within; [done|done|lia|done].
  - intros a0 Hc. apply Array_of_Parser_initial in Hc as ([(_ & -> & _) _] & _). done.
Qed.

(** X8. When the strength does not exceed the number of columns, every row
    of a reachable Array has, in every column, a value below the level of
    the column; so a call that would commit any other row fails. *)
Theorem committed_rows_are_within_levels inp a row :
  reached inp a → (in_t inp ≤ in_num_cols inp)%nat → row ∈ rows a →
  ∀ c lv, in_levels_used inp !! c = Some lv → ∃ v, row !! c = Some v ∧ (v < lv)%nat.
Proof.
  intros Hr Ht Hrow. pose proof (run_rows_within inp a Ht Hr) as H.
  rewrite Forall_forall in H. apply (H row Hrow).
Qed.

Lemma rows_of_S1_after_two_calls :
  reached S1_parser S1_after_two_calls
  ∧ (in_t S1_parser ≤ in_num_cols S1_parser)%nat
  ∧ [1; 0; 1]%nat ∈ rows S1_after_two_calls
  ∧ ∀ c lv, in_levels_used S1_parser !! c = Some lv →
      ∃ v, [1; 0; 1]%nat !! c = Some v ∧ (v < lv)%nat.
Proof.
  assert (reached S1_parser S1_after_two_calls) as H.
  { exists (built S1_parser), two_calls, rng_steps, (),
      (run_rng (do_calls two_calls) (built S1_parser) rng_steps).
    split; vm_compute; reflexivity. }
  assert (in_t S1_parser ≤ in_num_cols S1_parser)%nat as Ht by (vm_compute; lia).
  assert ([1; 0; 1]%nat ∈ rows S1_after_two_calls) as Hrow.
  { vm_compute. apply list_elem_of_here. }
  exact (conj H (conj Ht (conj Hrow
    (committed_rows_are_within_levels S1_parser S1_after_two_calls [1; 0; 1]%nat H Ht Hrow)))).
Defined.

(** ** Random rows *)

Lemma M_bind_Err {A B} (m : M A) (f : A → M B) a g e :
  m a g = Err e → (y ← m; f y) a g = Err e.
Proof. intros H. unfold mbind, M_bind. by rewrite H. Qed.

(** the loop of [get_random_row], from column [j] on *)
Lemma random_row_loop a (m j : nat) acc g :
  (j + m ≤ length (levels a))%nat →
  forM (λ i new_row, F ← factor_at i; v ← rand_mod (level F); mret (new_row ++ [v]))
    (seq j m) acc a g
  = if decide (Forall (λ lv, lv ≠ 0%nat) (take m (drop j (levels a))))
    then Ok (acc ++ imap (λ c lv, (tape g (pos g + c) `mod` lv)%nat)
                      (take m (drop j (levels a))), a, draws m g)
    else Err DivByZero.
Proof.
  revert j acc g. induction m as [|m IH]; intros j acc g Hm.
  - cbn [seq forM take]. rewrite decide_True by constructor.
    cbn [imap]. rewrite app_nil_r. unfold mret, M_ret, draws. destruct g. simpl.
    do 3 f_equal. lia.
  - cbn [seq forM].
    assert (is_Some (levels a !! j)) as [lv Hlv] by (apply lookup_lt_is_Some; lia).
    rewrite (drop_S _ lv j) by done. rewrite firstn_cons.
    unfold levels in Hlv. rewrite list_lookup_fmap in Hlv.
    destruct (factors a !! j) as [F|] eqn:HF; [|done]. injection Hlv as <-.
    destruct (decide (level F = 0%nat)) as [E0|E0].
    + rewrite decide_False by (intros H; by apply Forall_cons in H as [? _]).
      apply M_bind_Err. erewrite M_bind_run by (apply reads_Ok; by rewrite HF).
      apply M_bind_Err. unfold rand_mod. by rewrite decide_True.
    + erewrite M_bind_run.
      2:{ erewrite M_bind_run by (apply reads_Ok; by rewrite HF).
          erewrite M_bind_run by (by apply rand_mod_run). reflexivity. }
      rewrite IH by lia. cbn [tape pos].
      destruct (decide (Forall (λ lv, lv ≠ 0%nat) (take m (drop (S j) (levels a)))))
        as [Hall|Hall].
      * rewrite decide_True by (by constructor). f_equal. f_equal; [f_equal|].
        -- rewrite <- app_assoc. f_equal. cbn [imap app]. rewrite Nat.add_0_r. f_equal.
           apply imap_ext. intros c lv _. unfold compose.
           replace (pos g + S c)%nat with (S (pos g) + c)%nat by lia. done.
        -- unfold draws. cbn [tape pos]. f_equal. lia.
      * rewrite decide_False; [done|]. intros H. by apply Forall_cons in H as [_ ?].
Qed.

Lemma levels_built inp a : built_from inp a → levels a = in_levels_used inp.
Proof.
  intros (_ & _ & Hshape & _). by rewrite levels_shape, Hshape, levels_shape_of.
Qed.

Lemma get_random_row_run inp a g :
  built_from inp a →
  get_random_row a g
  = if decide (Forall (λ lv, lv ≠ 0%nat) (in_levels_used inp))
    then Ok (random_row (in_levels_used inp) g, a, draws (in_num_cols inp) g)
    else Err DivByZero.
Proof.
  intros Hb. pose proof (levels_built _ _ Hb) as Hlv.
  destruct Hb as (Hcols & Hpar & _). unfold params in Hpar. injection Hpar as _ _ _ En _.
  unfold get_random_row.
  rewrite (M_bind_run columns _ a g (seq 0 (num_factors a)) a g) by done.
  assert (length (levels a) = num_factors a) as Hlen
    by (rewrite Hlv, En; by apply length_levels_used).
  rewrite (random_row_loop a (num_factors a) 0 [] g) by lia.
  rewrite drop_0, <- Hlen, firstn_all, Hlen, Hlv, En. done.
Qed.

(** X9. On every reachable Array, [get_random_row] returns, for every
    column, the next draw of the generator modulo the level of the column,
    and leaves the Array alone; when a column has no level at all, the call
    stops on the division by zero instead.  [initialize_row_R] does the
    same. *)
Theorem random_rows_follow_the_draws inp a g :
  reached inp a →
  get_random_row a g
  = (if decide (Forall (λ lv, lv ≠ 0%nat) (in_levels_used inp))
     then Ok (random_row (in_levels_used inp) g, a, draws (in_num_cols inp) g)
     else Err DivByZero)
  ∧ initialize_row_R a g = get_random_row a g.
Proof.
  intros Hr. destruct (reached_built _ _ Hr) as [Hb _].
  split; [by apply get_random_row_run|done].
Qed.

Lemma random_row_on_S1_after_two_calls :
  reached S1_parser S1_after_two_calls
  ∧ get_random_row S1_after_two_calls rng_steps
    = (if decide (Forall (λ lv, lv ≠ 0%nat) (in_levels_used S1_parser))
       then Ok (random_row (in_levels_used S1_parser) rng_steps, S1_after_two_calls,
                draws (in_num_cols S1_parser) rng_steps)
       else Err DivByZero)
  ∧ initialize_row_R S1_after_two_calls rng_steps
    = get_random_row S1_after_two_calls rng_steps.
Proof.
  assert (reached S1_parser S1_after_two_calls) as H.
  { exists (built S1_parser), two_calls, rng_steps, (),
      (run_rng (do_calls two_calls) (built S1_parser) rng_steps).
    split; vm_compute; reflexivity. }
  exact (conj H (random_rows_follow_the_draws S1_parser S1_after_two_calls rng_steps H)).
Defined.


(** * What the coverage issues of a Single count *)

(** ** Coarser views *)

Lemma agree_coarser {XS XI XT XA YS YI YT YA : Type}
    (vs : Single → XS) (vi : Interaction → XI) (vt : T → XT) (va : Array → XA)
    (ws : Single → YS) (wi : Interaction → YI) (wt : T → YT) (wa : Array → YA)
    (fs : XS → YS) (fi : XI → YI) (ft : XT → YT) (fa : XA → YA) a b :
  (∀ S, ws S = fs (vs S)) → (∀ I, wi I = fi (vi I)) → (∀ X, wt X = ft (vt X)) →
  (∀ c, wa c = fa (va c)) →
  agree vs vi vt va a b → agree ws wi wt wa a b.
Proof.
  intros Es Ei Et Ea (H1 & H2 & H3 & H4). split_and!.
  - by rewrite !Ea, H1.
  - intros s. specialize (H2 s).
    destruct (get_single b s), (get_single a s); simpl in *; try done.
    rewrite !Es. congruence.
  - intros i. specialize (H3 i).
    destruct (interactions b !! i), (interactions a !! i); simpl in *; try done.
    rewrite !Ei. congruence.
  - intros k. specialize (H4 k).
    destruct (sets b !! k), (sets a !! k); simpl in *; try done.
    rewrite !Et. congruence.
Qed.

Lemma same_books_coverage a b : same_books a b → same_coverage a b.
Proof.
  apply (agree_coarser _ _ _ _ _ _ _ _
    (λ x : nat * nat * Z * Z * Z, x.1.1.2)
    (λ x : list (nat * nat) * bool * bool * gset nat * gmap nat Z, (x.1.1.1.1, x.1.1.1.2))
    (λ _, ()) (λ _, ())); done.
Qed.

Lemma beside_detection_coverage a b : beside_detection a b → same_coverage a b.
Proof.
  apply (agree_coarser _ _ _ _ _ _ _ _
    (λ x : nat * nat * gset nat * Z * Z, x.1.2)
    (λ x : list (nat * nat) * gset nat * bool * gset nat, (x.1.1.1, x.1.2))
    (λ _, ()) (λ _, ())); done.
Qed.

Lemma beside_location_coverage a b : beside_location a b → same_coverage a b.
Proof.
  apply (agree_coarser _ _ _ _ _ _ _ _
    (λ x : nat * nat * gset nat * Z * Z, x.1.2)
    cov_i (λ _, ()) (λ _, ())); done.
Qed.

Lemma c_issues_count_transfer a b : same_coverage a b → c_issues_count a → c_issues_count b.
Proof.
  intros Hab H s S' HS'. destruct (agree_single _ _ _ _ _ _ _ _ Hab HS') as (S & HS & ->).
  destruct (agree_lists _ _ _ _ _ _ Hab) as (_ & -> & _). by apply H.
Qed.

(** ** One Interaction becomes covered *)

Lemma bump_c_issues k ss a s :
  c_issues <$> get_single (bump s_set_c_issues k ss a) s
  = (λ S, c_issues S + k * Z.of_nat (occurrences s ss)) <$> get_single a s.
Proof.
  unfold bump.
  apply (for_each_prefix (λ l c,
    c_issues <$> get_single c s
    = (λ S, c_issues S + k * Z.of_nat (occurrences s l)) <$> get_single a s)).
  - intros l x c H.
    change (c_issues <$> get_single (upd_single (s_set_c_issues (λ y, y + k)) x c) s
            = (λ S, c_issues S + k * Z.of_nat (occurrences s (l ++ [x]))) <$> get_single a s).
    rewrite get_single_upd_single, occurrences_snoc.
    destruct (decide (x = s)) as [->|Hne].
    + destruct (get_single c s) as [S1|], (get_single a s) as [S0|]; try done.
      simpl in *. injection H as H. f_equal. destruct S1; simpl in *. lia.
    + rewrite H. destruct (get_single a s); [|done]. simpl. f_equal. lia.
  - destruct (get_single a s); [|done]. simpl. f_equal. unfold occurrences. simpl. lia.
Qed.

Lemma open_occurrences_cons s x l :
  open_occurrences s (x :: l)
  = ((if x.2 then 0 else occurrences s x.1) + open_occurrences s l)%nat.
Proof. done. Qed.

Lemma open_occurrences_snoc s l x :
  open_occurrences s (l ++ [x])
  = (open_occurrences s l + if x.2 then 0 else occurrences s x.1)%nat.
Proof.
  induction l as [|y l IH].
  - rewrite app_nil_l, open_occurrences_cons. unfold open_occurrences. simpl. lia.
  - rewrite <- app_comm_cons, !open_occurrences_cons, IH. lia.
Qed.

Lemma open_occurrences_cover s (l : list (list (nat * nat) * bool)) i ss :
  l !! i = Some (ss, false) →
  open_occurrences s l = (open_occurrences s (<[i := (ss, true)]> l) + occurrences s ss)%nat.
Proof.
  revert i. induction l as [|y l IH]; intros [|i] Hi; try done.
  - injection Hi as ->. change (<[0%nat := (ss, true)]> ((ss, false) :: l)) with ((ss, true) :: l).
    rewrite !open_occurrences_cons. simpl. lia.
  - change (<[S i := (ss, true)]> (y :: l)) with (y :: <[i := (ss, true)]> l).
    rewrite !open_occurrences_cons, (IH i Hi). lia.
Qed.

Lemma fmap_alter_at {A B} (f : A → B) (g : A → A) (l : list A) i x :
  l !! i = Some x → f <$> alter g i l = <[i := f (g x)]> (f <$> l).
Proof.
  intros Hx. apply list_eq. intros j. rewrite list_lookup_fmap.
  destruct (decide (j = i)) as [->|Hne].
  - rewrite list_lookup_alter_eq, list_lookup_insert_eq, Hx; [done|].
    rewrite length_fmap. by eapply lookup_lt_Some.
  - by rewrite list_lookup_alter_ne, list_lookup_insert_ne, list_lookup_fmap.
Qed.

Lemma coverage_update_c_issues i a a' :
  coverage_update i a = Ok a' → c_issues_count a → c_issues_count a'.
Proof.
  unfold coverage_update. intros H Hc. inv_Ok H. rename x into I.
  destruct (is_covered I) eqn:HcI; inv_Ok H; [done|].
  set (b := bump s_set_c_issues (-1) (i_singles I)
              (upd_interaction (i_set_is_covered true) i a)).
  set (a' := if decide _ then _ else _).
  assert (interactions a' = alter (i_set_is_covered true) i (interactions a)) as Ei.
  { change (interactions a' = interactions (upd_interaction (i_set_is_covered true) i a)).
    unfold a', b. frame_steps. }
  assert (∀ s, get_single a' s = get_single b s) as Eg.
  { intros s. unfold get_single.
    assert (factors a' = factors b) as ->; [|done]. unfold a'.
    destruct (decide _); reflexivity. }
  intros s S' HS'. rewrite Eg in HS'.
  pose proof (bump_c_issues (-1) (i_singles I)
                (upd_interaction (i_set_is_covered true) i a) s) as Hb.
  fold b in Hb. rewrite HS' in Hb.
  change (get_single (upd_interaction (i_set_is_covered true) i a) s)
    with (get_single a s) in Hb.
  destruct (get_single a s) as [S|] eqn:HS; [|done]. simpl in Hb. injection Hb as Hb.
  rewrite Hb, (Hc s S HS), Ei.
  rewrite (fmap_alter_at cov_i _ _ i I Hx).
  change (cov_i (i_set_is_covered true I)) with (i_singles I, true).
  rewrite (open_occurrences_cover s (cov_i <$> interactions a) i (i_singles I)); [lia|].
  rewrite list_lookup_fmap, Hx. unfold cov_i. simpl. by rewrite HcI.
Qed.

(** ** One call of [update_array] *)

Lemma counting_c_issues ri rs a b :
  counting_phases ri rs a = Ok b → c_issues_count a → c_issues_count b.
Proof.
  unfold counting_phases. intros H Hc. apply bind_Ok in H as (a1 & H1 & H).
  assert (c_issues_count a1) as Hc1.
  { revert H1. apply (foldM_inv c_issues_count); [|done].
    intros i c c' _ Hcc Hi. apply bind_Ok in Hi as (c1 & Hc1 & Hi).
    pose proof (coverage_update_c_issues _ _ _ Hc1 Hcc) as Hcc1.
    destruct (decide (p c1 = all)); inv_Ok Hi; [|done].
    eapply detection_update_beside in Hi; [|reflexivity].
    eapply c_issues_count_transfer; [|exact Hcc1]. by apply beside_detection_coverage. }
  destruct (decide (p a1 ≠ c_only ∧ is_locating a1 = false)); inv_Ok H; [|done].
  apply location_phase_beside in H.
  eapply c_issues_count_transfer; [|exact Hc1]. by apply beside_location_coverage.
Qed.

Lemma update_array_c_issues row ri a b :
  update_array row ri true a = Ok b → c_issues_count a → c_issues_count b.
Proof.
  intros H Hc.
  unfold update_array in H. apply bind_Ok in H as ([a2 rs] & Hbody & H). inv_Ok H.
  rewrite update_array_body_unfold in Hbody. cbv zeta in Hbody.
  apply bind_Ok in Hbody as ([a1 rs1] & Hins & Hbody).
  apply bind_Ok in Hbody as (a3 & Hcount & Hbody). inv_Ok Hbody.
  apply insert_phase_spec in Hins as (Hbooks & _).
  eapply counting_c_issues; [exact Hcount|].
  eapply c_issues_count_transfer; [by apply same_books_coverage|].
  intros s S HS. by apply Hc.
Qed.

(** ** The constructor *)

Lemma add_interaction_c_issues ss a :
  c_issues_count a → c_issues_count (add_interaction ss a).
Proof.
  intros Hc s S' HS'. rewrite add_interaction_interactions, fmap_app.
  change (cov_i <$> [mk_interaction ss]) with [(ss, false)].
  rewrite open_occurrences_snoc. cbn [fst snd].
  assert (c_issues <$> get_single (add_interaction ss a) s
          = (λ S, c_issues S + Z.of_nat (occurrences s ss)) <$> get_single a s) as E.
  { unfold add_interaction. cbv zeta.
    apply (for_each_prefix (λ l c,
      c_issues <$> get_single c s
      = (λ S, c_issues S + Z.of_nat (occurrences s l)) <$> get_single a s)).
    - intros l x c H.
      change (c_issues <$> get_single (upd_single (s_set_c_issues Z.succ) x c) s
              = (λ S, c_issues S + Z.of_nat (occurrences s (l ++ [x]))) <$> get_single a s).
      rewrite get_single_upd_single, occurrences_snoc.
      destruct (decide (x = s)) as [->|Hne].
      + destruct (get_single c s) as [S1|], (get_single a s) as [S0|]; try done.
        simpl in *. injection H as H. f_equal. destruct S1; simpl in *. lia.
      + rewrite H. destruct (get_single a s); [|done]. simpl. f_equal. lia.
    - change (c_issues <$> get_single a s
              = (λ S, c_issues S + Z.of_nat (occurrences s [])) <$> get_single a s).
      destruct (get_single a s); [|done]. simpl. f_equal. unfold occurrences. simpl. lia. }
  rewrite HS' in E. destruct (get_single a s) as [S|] eqn:HS; [|done].
  simpl in E. injection E as ->. rewrite (Hc s S HS). lia.
Qed.

Lemma fmap_alter_same {A B} (f : A → B) (g : A → A) (l : list A) i :
  (∀ x, f (g x) = f x) → f <$> alter g i l = f <$> l.
Proof.
  intros Hg. apply list_eq. intros j. rewrite !list_lookup_fmap.
  destruct (decide (j = i)) as [->|Hne].
  - rewrite list_lookup_alter_eq. destruct (l !! i); [|done]. simpl. by rewrite Hg.
  - by rewrite list_lookup_alter_ne.
Qed.

Lemma c_issues_count_lists a b :
  factors b = factors a → cov_i <$> interactions b = cov_i <$> interactions a →
  c_issues_count a → c_issues_count b.
Proof.
  intros Ef Ei H s S HS. rewrite Ei. apply H. unfold get_single in *. by rewrite <- Ef.
Qed.

Lemma build_size_d_sets_coverage d_cur start ss a a' :
  build_size_d_sets d_cur start ss a = Ok a' →
  factors a' = factors a ∧ cov_i <$> interactions a' = cov_i <$> interactions a.
Proof.
  revert start ss a a'. induction d_cur as [|d' IH]; intros start ss a a' H.
  - cbn [build_size_d_sets] in H.
    apply bind_Ok in H as ([X b] & HX & H). apply bind_Ok in H as (key & _ & H).
    apply Ok_inj in H as <-.
    apply new_T_spec in HX as (_ & _ & _ & _ & _ & ->).
    set (f := upd_interaction (i_set_sets (union {[length (sets a)]}))).
    change (factors (for_each f ss a) = factors a
            ∧ cov_i <$> interactions (for_each f ss a) = cov_i <$> interactions a).
    apply (for_each_inv (λ c, factors c = factors a
                              ∧ cov_i <$> interactions c = cov_i <$> interactions a));
      [|done].
    intros i c _ [E1 E2]. split; [exact E1|]. rewrite <- E2. unfold f.
    cbn [interactions upd upd_interaction]. by apply fmap_alter_same.
  - cbn [build_size_d_sets] in H. revert H.
    apply (foldM_inv (λ c, factors c = factors a
                           ∧ cov_i <$> interactions c = cov_i <$> interactions a)); [|done].
    intros i c c' _ [E1 E2] H. apply bind_Ok in H as (_ & _ & H).
    apply IH in H as [E1' E2']. split; congruence.
Qed.

Lemma Array_of_Parser_c_issues inp a : Array_of_Parser inp = Ok a → c_issues_count a.
Proof.
  unfold Array_of_Parser. cbv zeta. intros H.
  apply bind_Ok in H as (a1 & H1 & H).
  pose proof (build_factors_spec _ (Array_init inp) _ eq_refl H1) as Hbuilt.
  pose proof (build_factors_beside _ _ _ H1) as Hb1.
  assert (interactions a1 = []) as Ei.
  { unfold beside_factors, config in Hb1. simpl in Hb1. congruence. }
  assert (c_issues_count a1) as Hc1.
  { intros s S HS. destruct (get_single_built _ _ _ Hbuilt HS) as [-> _].
    by rewrite Ei. }
  apply bind_Ok in H as (a2 & H2 & H).
  destruct (factors_built_wf _ Hbuilt) as [Hwf Hnr].
  apply (build_t_way_interactions_closed _ _ _ _ _ Hwf Hnr) in H2.
  assert (c_issues_count a2) as Hc2.
  { rewrite H2. apply (for_each_inv c_issues_count); [|done].
    intros ss c _ Hc. by apply add_interaction_c_issues. }
  clear H2 H1 Hb1 Hwf Hnr Hbuilt Ei Hc1.
  set (a3 := add_to F_score _ _) in H.
  assert (c_issues_count a3) as Hc3.
  { eapply c_issues_count_transfer; [|exact Hc2]. unfold a3, same_coverage. agree_steps. }
  destruct (decide (p a3 = c_only)); [by inv_Ok H|].
  apply bind_Ok in H as (a4 & H4 & H).
  apply build_size_d_sets_coverage in H4 as [Ef4 Ei4].
  pose proof (c_issues_count_lists _ _ Ef4 Ei4 Hc3) as Hc4.
  set (a5 := for_each _ (sets a4) a4) in H.
  set (a6 := upd F_score _ _) in H.
  assert (c_issues_count a6) as Hc6.
  { eapply c_issues_count_transfer; [|exact Hc4]. unfold a6, a5, same_coverage. agree_steps. }
  destruct (decide (p a6 ≠ all)); [by inv_Ok H|].
  apply bind_Ok in H as (a7 & H7 & H). inv_Ok H.
  assert (same_coverage a6 a7) as H67.
  { unfold same_coverage. agree_loop H7; [|reflexivity]. agree_loop H7; [|done].
    inv_Ok H7. destruct (decide _); inv_Ok H7; [done|]. agree_steps. }
  eapply c_issues_count_transfer; [|exact Hc6].
  etrans; [exact H67|]. unfold same_coverage. agree_steps.
Qed.

(** ** Runs *)

Lemma occurrences_NoDup (s : nat * nat) l :
  NoDup l → occurrences s l = if decide (s ∈ l) then 1%nat else 0%nat.
Proof.
  unfold occurrences. induction 1 as [|x l Hx _ IH]; [done|].
  rewrite filter_cons. destruct (decide (x = s)) as [->|Hne].
  - rewrite decide_True by (by left). simpl. rewrite IH, decide_False; done.
  - rewrite IH. destruct (decide (s ∈ l)).
    + rewrite decide_True; [done|by right].
    + rewrite decide_False; [done|]. intros [?|?]%elem_of_cons; congruence.
Qed.

Lemma incr_from_NoDup start n cs : incr_from start n cs → NoDup cs.
Proof.
  revert start. induction cs as [|c cs IH]; intros start H; [constructor|].
  destruct H as [Hc Hcs]. constructor; [|by eapply IH].
  intros Hin. pose proof (incr_from_bound _ _ _ _ Hcs Hin). lia.
Qed.

Lemma open_occurrences_filter a s :
  (∀ i I, interactions a !! i = Some I → NoDup (i_singles I)) →
  open_occurrences s (cov_i <$> interactions a) = uncovered_with a s.
Proof.
  unfold uncovered_with. intros H.
  induction (interactions a) as [|I l IH]; [done|].
  rewrite fmap_cons, open_occurrences_cons, filter_cons, IH.
  2: { intros i I' HI'. by apply (H (S i)). }
  unfold cov_i at 1 2. cbn [fst snd].
  pose proof (H 0%nat I eq_refl) as Hnd.
  destruct (is_covered I).
  - rewrite decide_False; [done|]. by intros [? _].
  - rewrite (occurrences_NoDup _ _ Hnd). destruct (decide (s ∈ i_singles I)).
    + by rewrite decide_True.
    + rewrite decide_False; [done|]. by intros [_ ?].
Qed.

Lemma run_c_issues inp a : reached inp a → c_issues_count a.
Proof.
  apply (reached_ind inp c_issues_count).
  - intros b perm H. exact H.
  - intros b dc H. exact H.
  - intros b row b' _ _ H Hrow. unfold update_array_row in Hrow.
    apply bind_Ok in Hrow as (ri & _ & Hrow). by eapply update_array_c_issues.
  - apply Array_of_Parser_c_issues.
Qed.

(** X10. In every reachable Array the coverage issues of a Single count the
    Interactions that hold it and are not covered yet; so a Single has no
    coverage issue left exactly when every Interaction that holds it is
    covered. *)
Theorem c_issues_count_uncovered_interactions inp a s S :
  reached inp a → get_single a s = Some S →
  c_issues S = Z.of_nat (uncovered_with a s)
  ∧ (c_issues S = 0 ↔
       ∀ i I, interactions a !! i = Some I → s ∈ i_singles I → is_covered I = true).
Proof.
  intros Hr HS. pose proof (run_c_issues _ _ Hr s S HS) as Hc.
  destruct (reached_built _ _ Hr) as [_ (_ & [Hwi _] & _)].
  rewrite open_occurrences_filter in Hc.
  2: { intros i I HI. destruct (Hwi i I HI) as (_ & _ & Hincr & _).
       apply incr_from_NoDup in Hincr. by apply NoDup_fmap_1 in Hincr. }
  split; [done|]. rewrite Hc. unfold uncovered_with.
  assert (∀ n : nat, Z.of_nat n = 0 ↔ n = 0%nat) as -> by lia.
  rewrite length_zero_iff_nil. split.
  - intros Hnil i I HI Hs. destruct (is_covered I) eqn:E; [done|].
    assert (I ∈ filter (λ I, is_covered I = false ∧ s ∈ i_singles I) (interactions a)) as Hin.
    { apply list_elem_of_filter. split; [done|]. by eapply list_elem_of_lookup_2. }
    rewrite Hnil in Hin. by apply elem_of_nil in Hin.
  - intros Hall. apply nil_if_no_element. intros I [[Hc' Hs] Hin]%list_elem_of_filter.
    apply list_elem_of_lookup in Hin as [i HI]. rewrite (Hall i I HI Hs) in Hc'. done.
Qed.

Lemma c_issues_on_S1_after_two_calls :
  reached S1_parser S1_after_two_calls
  ∧ get_single S1_after_two_calls (0, 0)%nat
    = Some {| factor := 0; value := 0; s_rows := {[2%nat]}; c_issues := 2;
              l_issues := 0; d_issues := 0 |}
  ∧ 2 = Z.of_nat (uncovered_with S1_after_two_calls (0, 0)%nat)
  ∧ (2 = 0 ↔
       ∀ i I, interactions S1_after_two_calls !! i = Some I → (0, 0)%nat ∈ i_singles I →
              is_covered I = true).
Proof.
  assert (reached S1_parser S1_after_two_calls) as H.
  { exists (built S1_parser), two_calls, rng_steps, (),
      (run_rng (do_calls two_calls) (built S1_parser) rng_steps).
    split; vm_compute; reflexivity. }
  assert (get_single S1_after_two_calls (0, 0)%nat
          = Some {| factor := 0; value := 0; s_rows := {[2%nat]}; c_issues := 2;
                    l_issues := 0; d_issues := 0 |}) as HS.
  { vm_compute. reflexivity. }
  exact (conj H (conj HS
    (c_issues_count_uncovered_interactions S1_parser S1_after_two_calls (0, 0)%nat _ H HS))).
Defined.


(** * The scores that [print_stats] shows *)

(** ** The list of all Singles *)

Lemma bind_seq_lookup {A B} (l : list A) (h : nat → list B) (g : A → list B) :
  (∀ i x, l !! i = Some x → h i = g x) → (i ← seq 0 (length l); h i) = l ≫= g.
Proof.
  induction l as [|x l IH] using rev_ind; intros H; [done|].
  rewrite length_app, Nat.add_comm. cbn [length Nat.add]. rewrite seq_S, !bind_app.
  cbn [mbind list_bind]. rewrite !app_nil_r. f_equal.
  - apply IH. intros i y Hi. apply H. by apply lookup_app_l_Some.
  - apply H. by rewrite lookup_app_r, Nat.sub_diag.
Qed.

Lemma fmap_of_bind {A B C} (f : B → C) (h : A → list B) (l : list A) :
  f <$> (l ≫= h) = l ≫= (λ x, f <$> h x).
Proof.
  induction l as [|x l IH]; [done|]. cbn [mbind list_bind]. by rewrite fmap_app, IH.
Qed.

(** [singles] lists the pointers to the Singles of the Factors, Factor after
    Factor *)
Lemma singles_resolve inp a :
  built_from inp a → get_single a <$> singles a = Some <$> (F ← factors a; f_singles F).
Proof.
  intros Hb. pose proof (levels_built _ _ Hb) as Hlv.
  destruct Hb as (_ & _ & Hshape & -> & _). rewrite <- Hlv. unfold all_singles.
  rewrite fmap_of_bind.
  assert (length (levels a) = length (factors a)) as -> by (unfold levels; by rewrite length_fmap).
  rewrite (bind_seq_lookup (factors a) _ (λ F, Some <$> f_singles F)).
  - by rewrite fmap_of_bind.
  - intros c F HF.
    assert (levels a !! c = Some (level F)) as -> by (unfold levels; by rewrite list_lookup_fmap, HF).
    cbn [default]. unfold Datatypes.id.
    assert (length (f_singles F) = level F) as Hlen.
    { assert (shape a !! c = Some (id F, level F, length (f_singles F))) as Hsh
        by (unfold shape; by rewrite list_lookup_fmap, HF).
      rewrite Hshape in Hsh. unfold shape_of in Hsh. rewrite list_lookup_imap in Hsh.
      destruct (in_levels_used inp !! c); [|done]. simpl in Hsh. congruence. }
    apply list_eq. intros j. rewrite !list_lookup_fmap.
    destruct (decide (j < level F)%nat) as [Hj|Hj].
    + rewrite (lookup_seq_lt _ _ _ Hj). simpl. unfold get_single. simpl. rewrite HF. simpl.
      destruct (f_singles F !! j) eqn:E; [done|].
      apply lookup_ge_None in E. lia.
    + rewrite lookup_seq_ge by lia. simpl. rewrite lookup_ge_None_2 by lia. done.
Qed.

Lemma NoDup_all_singles lvls : NoDup (all_singles lvls).
Proof.
  unfold all_singles. apply NoDup_bind; [| |apply NoDup_seq].
  - intros c1 c2 s _ _ (v1 & -> & _)%list_elem_of_fmap (v2 & E & _)%list_elem_of_fmap.
    congruence.
  - intros c _. apply NoDup_fmap_2; [|apply NoDup_seq]. by intros ?? [= ->].
Qed.

Lemma elem_of_all_singles lvls s :
  s ∈ all_singles lvls ↔ ∃ lv, lvls !! s.1 = Some lv ∧ (s.2 < lv)%nat.
Proof.
  unfold all_singles. rewrite list_elem_of_bind. split.
  - intros (c & (v & -> & Hv%elem_of_seq)%list_elem_of_fmap & Hc%elem_of_seq). simpl.
    destruct (lvls !! c) as [lv|] eqn:E; simpl in *; [|lia]. exists lv. split; [done|lia].
  - intros (lv & Hlv & Hlt). exists s.1. split.
    + apply list_elem_of_fmap. exists s.2. split; [by destruct s|].
      apply elem_of_seq. rewrite Hlv. simpl. lia.
    + apply elem_of_seq. apply lookup_lt_Some in Hlv. lia.
Qed.

(** ** The loop of [print_stats] *)

Lemma print_stats_loop a ss (Ss : list Single) c0 l0 d0 :
  get_single a <$> ss = Some <$> Ss →
  foldM (λ s '(c_score, l_score, d_score),
      S ← single_at a s;
      Ok (c_score + c_issues S, l_score + l_issues S, d_score + d_issues S))
    ss (c0, l0, d0)
  = Ok (c0 + foldr Z.add 0 (c_issues <$> Ss), l0 + foldr Z.add 0 (l_issues <$> Ss),
        d0 + foldr Z.add 0 (d_issues <$> Ss)).
Proof.
  revert Ss c0 l0 d0. induction ss as [|s ss IH]; intros [|S Ss] c0 l0 d0 H; try done.
  - simpl. f_equal. f_equal; [f_equal|]; lia.
  - rewrite !fmap_cons in H. injection H as HS H. cbn [foldM].
    cbv beta iota.
    assert (single_at a s = Ok S) as -> by (unfold single_at; by rewrite HS).
    cbn [mbind result_bind].
    rewrite (IH Ss _ _ _ H). rewrite !fmap_cons. cbn [foldr].
    f_equal. f_equal; [f_equal|]; lia.
Qed.

(** ** Counting the coverage issues of all Singles *)

Lemma sum_nat_add {A} (f g : A → nat) (l : list A) :
  foldr Nat.add 0%nat ((λ x, f x + g x)%nat <$> l)
  = (foldr Nat.add 0%nat (f <$> l) + foldr Nat.add 0%nat (g <$> l))%nat.
Proof.
  induction l as [|x l IH]; [done|]. rewrite !fmap_cons. cbn [foldr]. rewrite IH. lia.
Qed.

Lemma sum_nat_zero {A} (l : list A) : foldr Nat.add 0%nat ((λ _, 0%nat) <$> l) = 0%nat.
Proof. induction l as [|x l IH]; [done|]. rewrite fmap_cons. cbn [foldr]. by rewrite IH. Qed.

Lemma sum_indicator (Ss : list (nat * nat)) s' :
  NoDup Ss → s' ∈ Ss →
  foldr Nat.add 0%nat ((λ s, if decide (s' = s) then 1%nat else 0%nat) <$> Ss) = 1%nat.
Proof.
  induction 1 as [|x Ss Hx Hnd IHs]; intros Hs'; [by apply elem_of_nil in Hs'|].
  rewrite fmap_cons. cbn [foldr]. destruct (decide (s' = x)) as [->|Hne].
  - assert (foldr Nat.add 0%nat
              ((λ s, if decide (x = s) then 1%nat else 0%nat) <$> Ss) = 0%nat) as ->; [|done].
    rewrite (list_fmap_ext _ (λ _, 0%nat) Ss); [apply sum_nat_zero|].
    intros i y Hy. rewrite decide_False; [done|]. intros ->.
    apply Hx. by eapply list_elem_of_lookup_2.
  - apply elem_of_cons in Hs' as [?|Hs']; [done|]. by rewrite IHs.
Qed.

(** a list without duplicates that holds every entry of [ss] holds as many
    entries of [ss], counted over its own entries, as [ss] is long *)
Lemma sum_occurrences (Ss ss : list (nat * nat)) :
  NoDup Ss → Forall (λ s, s ∈ Ss) ss →
  foldr Nat.add 0%nat ((λ s, occurrences s ss) <$> Ss) = length ss.
Proof.
  intros Hnd. induction 1 as [|s' ss Hs' _ IH].
  - unfold occurrences. simpl. apply sum_nat_zero.
  - cbn [length]. rewrite <- IH.
    assert (∀ s, occurrences s (s' :: ss)
                 = ((if decide (s' = s) then 1 else 0) + occurrences s ss)%nat) as E.
    { intros s. unfold occurrences. rewrite filter_cons. by destruct (decide (s' = s)). }
    rewrite (list_fmap_ext _ (λ s, (if decide (s' = s) then 1 else 0) + occurrences s ss)%nat
               Ss) by (intros; apply E).
    rewrite (sum_nat_add (λ s, if decide (s' = s) then 1%nat else 0%nat)).
    by rewrite sum_indicator.
Qed.

Lemma sum_open_occurrences (Ss : list (nat * nat)) (L : list (list (nat * nat) * bool)) n :
  NoDup Ss → Forall (λ x, length x.1 = n ∧ Forall (λ s, s ∈ Ss) x.1) L →
  foldr Nat.add 0%nat ((λ s, open_occurrences s L) <$> Ss)
  = (n * count_false (snd <$> L))%nat.
Proof.
  intros Hnd. induction 1 as [|x L [Hlen Hx] _ IH].
  - rewrite (list_fmap_ext _ (λ _, 0%nat) Ss) by done. rewrite sum_nat_zero.
    unfold count_false. simpl. lia.
  - rewrite fmap_cons, count_false_cons.
    rewrite (list_fmap_ext _ (λ s, (if x.2 then 0 else occurrences s x.1)
                                   + open_occurrences s L)%nat Ss)
      by (intros; apply open_occurrences_cons).
    rewrite (sum_nat_add (λ s, if x.2 then 0%nat else occurrences s x.1)), IH.
    destruct x as [ss [|]]; cbn [fst snd] in *.
    + rewrite sum_nat_zero. lia.
    + rewrite (sum_occurrences Ss ss Hnd Hx). lia.
Qed.

Lemma sum_Z_of_nat {A} (f : A → nat) (l : list A) :
  foldr Z.add 0 ((λ x, Z.of_nat (f x)) <$> l) = Z.of_nat (foldr Nat.add 0%nat (f <$> l)).
Proof.
  induction l as [|x l IH]; [done|]. rewrite !fmap_cons. cbn [foldr]. rewrite IH. lia.
Qed.

Lemma sum_issues_split a :
  sum_issues a = sum_over c_issues a + sum_over l_issues a + sum_over d_issues a.
Proof.
  unfold sum_issues, sum_over. induction (factors a ≫= f_singles) as [|S l IH]; [done|].
  rewrite !fmap_cons. cbn [foldr]. rewrite IH. lia.
Qed.

(** the coverage issues of all Singles add up to [t] for every Interaction
    that is not covered *)
Lemma sum_c_issues_uncovered inp a :
  reached inp a → sum_over c_issues a = Z.of_nat (in_t inp * uncovered a).
Proof.
  intros Hr. destruct (reached_built _ _ Hr) as [Hb (Hws & [Hwi _] & _)].
  pose proof (run_c_issues _ _ Hr) as Hc. pose proof (singles_resolve _ _ Hb) as Hres.
  pose proof Hb as (_ & Hpar & _ & Hs & _). unfold params in Hpar.
  injection Hpar as _ Et _ _ _.
  assert (c_issues <$> (F ← factors a; f_singles F)
          = (λ s, Z.of_nat (open_occurrences s (cov_i <$> interactions a))) <$> singles a)
    as E.
  { apply list_eq. intros j. apply (f_equal (.!! j)) in Hres.
    rewrite !list_lookup_fmap in Hres. rewrite !list_lookup_fmap.
    destruct (singles a !! j) as [s|], ((factors a ≫= f_singles) !! j) as [S|];
      simpl in *; try done.
    injection Hres as Hres. by rewrite (Hc s S Hres). }
  unfold sum_over. rewrite E, sum_Z_of_nat. f_equal.
  rewrite (sum_open_occurrences (singles a) (cov_i <$> interactions a) (in_t inp)).
  - unfold uncovered. by rewrite <- list_fmap_compose.
  - rewrite Hs. apply NoDup_all_singles.
  - apply Forall_fmap, Forall_forall. intros I [i HI]%list_elem_of_lookup.
    destruct (Hwi i I HI) as (_ & Hlen & _ & Hvalid). unfold cov_i. simpl.
    split; [congruence|]. eapply Forall_impl; [exact Hvalid|]. intros s Hsome. cbv beta.
    rewrite Hs. apply elem_of_all_singles. by eapply get_single_in_level.
Qed.

(** X11. On every reachable Array the verbose part of [print_stats] shows,
    as the coverage score, [t + 1] for every Interaction that is not
    covered; the location and the detection score are the problems left
    plus the issues of all Singles; and the three scores add up to the
    problems and issues that are left. *)
Theorem print_stats_shows_the_problems_left inp a :
  reached inp a →
  print_stats a
  = Ok (Z.of_nat ((in_t inp + 1) * uncovered a),
        location_problems a + sum_over l_issues a,
        detection_problems a + sum_over d_issues a)
  ∧ Z.of_nat ((in_t inp + 1) * uncovered a)
    + (location_problems a + sum_over l_issues a)
    + (detection_problems a + sum_over d_issues a)
    = problems_and_issues a.
Proof.
  intros Hr. destruct (reached_built _ _ Hr) as [Hb _].
  destruct (run_cover _ _ Hr) as [[Hcp _] _].
  pose proof (sum_c_issues_uncovered _ _ Hr) as Hsum.
  assert (Z.of_nat ((in_t inp + 1) * uncovered a)
          = coverage_problems a + sum_over c_issues a) as -> by lia.
  split.
  - unfold print_stats. by rewrite (print_stats_loop a _ _ _ _ _ (singles_resolve _ _ Hb)).
  - unfold problems_and_issues. rewrite sum_issues_split. lia.
Qed.

Lemma print_stats_on_S1_after_two_calls :
  reached S1_parser S1_after_two_calls
  ∧ print_stats S1_after_two_calls
    = Ok (Z.of_nat ((in_t S1_parser + 1) * uncovered S1_after_two_calls),
          location_problems S1_after_two_calls + sum_over l_issues S1_after_two_calls,
          detection_problems S1_after_two_calls + sum_over d_issues S1_after_two_calls)
  ∧ Z.of_nat ((in_t S1_parser + 1) * uncovered S1_after_two_calls)
    + (location_problems S1_after_two_calls + sum_over l_issues S1_after_two_calls)
    + (detection_problems S1_after_two_calls + sum_over d_issues S1_after_two_calls)
    = problems_and_issues S1_after_two_calls.
Proof.
  assert (reached S1_parser S1_after_two_calls) as H.
  { exists (built S1_parser), two_calls, rng_steps, (),
      (run_rng (do_calls two_calls) (built S1_parser) rng_steps).
    split; vm_compute; reflexivity. }
  exact (conj H (print_stats_shows_the_problems_left S1_parser S1_after_two_calls H)).
Defined.


(** * Detection: the flags and the counter *)

(** ** One Interaction is looked at *)

Lemma detection_update_counter rs i a a' :
  detection_update rs i a = Ok a' →
  ∃ I0 I', interactions a !! i = Some I0 ∧ interactions a' !! i = Some I'
    ∧ if is_detectable I0 then a' = a
      else if is_detectable I'
      then detection_problems a' = detection_problems a - 1
           ∧ is_detecting a'
             = (if decide (detection_problems a - 1 = 0) then true else is_detecting a)
      else detection_problems a' = detection_problems a
           ∧ is_detecting a' = is_detecting a.
Proof.
  unfold detection_update. intros H. inv_Ok H. rename x into I0. exists I0.
  destruct (is_detectable I0) eqn:Hd0; inv_Ok H.
  { by exists I0. }
  rename x into a1, x0 into I1, x1 into I2.
  assert (detection_problems a1 = detection_problems a ∧ is_detecting a1 = is_detecting a)
    as [E1 E1'].
  { split.
    - frame_loop Hx0; [|frame_steps]. inv_Ok Hx0. frame_steps.
    - frame_loop Hx0; [|frame_steps]. inv_Ok Hx0. frame_steps. }
  set (a2 := for_each _ (map_to_list (deltas I1)) a1) in *.
  assert (detection_problems a2 = detection_problems a ∧ is_detecting a2 = is_detecting a)
    as [E2 E2'].
  { rewrite <- E1, <- E1'. unfold a2. split; frame_steps. }
  destruct (is_detectable I2) eqn:Hd2; inv_Ok H.
  - exists I2. split; [done|]. split.
    + assert (interactions (if decide (detection_problems
          (add_to F_detection_problems (-1) (add_to F_score (-1) a2)) = 0)
        then upd F_is_detecting (λ _, true)
               (add_to F_detection_problems (-1) (add_to F_score (-1) a2))
        else add_to F_detection_problems (-1) (add_to F_score (-1) a2))
        = interactions a2) as -> by (destruct (decide _); reflexivity).
      done.
    + rewrite Hd2.
      change (detection_problems (add_to F_detection_problems (-1) (add_to F_score (-1) a2)))
        with (detection_problems a2 + -1).
      rewrite E2. replace (detection_problems a + -1) with (detection_problems a - 1) by lia.
      destruct (decide (detection_problems a - 1 = 0)); cbn; rewrite ?E2, ?E2'; split;
        lia || done.
  - exists I2. split; [done|]. split; [done|]. by rewrite Hd2.
Qed.

Lemma det_flags_insert rs i a a' I' :
  detection_update rs i a = Ok a' → interactions a' !! i = Some I' →
  is_detectable <$> interactions a'
  = <[i := is_detectable I']> (is_detectable <$> interactions a).
Proof.
  intros H HI'. apply detection_update_spec in H as (I0 & I'' & HI0 & HI'' & _ & _ & Hother).
  apply list_eq. intros j. destruct (decide (j = i)) as [->|Hne].
  - rewrite list_lookup_insert_eq.
    + by rewrite list_lookup_fmap, HI'.
    + rewrite length_fmap. by eapply lookup_lt_Some.
  - by rewrite list_lookup_insert_ne, !list_lookup_fmap, (Hother j Hne).
Qed.

Lemma detection_update_count rs i a a' :
  detection_update rs i a = Ok a' → det_count a → det_count a'.
Proof.
  intros H [Hc Hf]. destruct (detection_update_counter _ _ _ _ H) as (I0 & I' & HI0 & HI' & Hcnt).
  pose proof (det_flags_insert _ _ _ _ _ H HI') as Hfl.
  destruct (is_detectable I0) eqn:Hd0; [by subst|].
  assert ((is_detectable <$> interactions a) !! i = Some false) as Hi.
  { by rewrite list_lookup_fmap, HI0, <- Hd0. }
  assert (interactions a' ≠ [] ↔ interactions a ≠ []) as Hnil.
  { apply (f_equal length) in Hfl. rewrite length_insert, !length_fmap in Hfl.
    destruct (interactions a), (interactions a'); simpl in *; try lia; try done. }
  unfold det_count, undetected. rewrite Hfl.
  destruct (is_detectable I') eqn:Hd'; destruct Hcnt as [Ecp Eic]; rewrite Ecp, Eic.
  - assert (interactions a ≠ []) as Hne by (intros E; by rewrite E in HI0).
    pose proof (count_false_raise _ _ Hi) as Hraise. unfold undetected in Hc.
    split; [lia|]. rewrite Hnil. destruct (decide _) as [Hz|Hz].
    + split; [intros _; split; [lia|done]|done].
    + split.
      * intros Ht. apply Hf in Ht as [? _]. lia.
      * intros [? _]. lia.
  - rewrite list_insert_id by done. split; [done|]. by rewrite Hnil.
Qed.

(** ** The other parts leave the detection state alone *)

Lemma det_count_view a b : det_view b = det_view a → det_count a → det_count b.
Proof.
  unfold det_view. intros [= Ei Ec Ef] [Hc Hf]. unfold det_count, undetected.
  rewrite Ei, Ec, Ef. split; [done|]. by rewrite (interactions_nil_iff is_detectable a b).
Qed.

Lemma no_detection_view a b : det_view b = det_view a → no_detection a → no_detection b.
Proof.
  unfold det_view. intros [= Ei Ec Ef] (H1 & H2 & H3). split_and!; [congruence..|].
  intros i I HI. apply (f_equal (.!! i)) in Ei. rewrite !list_lookup_fmap, HI in Ei.
  destruct (interactions a !! i) as [I0|] eqn:HI0; [|done].
  injection Ei as ->. by eapply H3.
Qed.

Lemma same_books_det_view a b : same_books a b → det_view b = det_view a.
Proof.
  intros H. destruct (agree_lists _ _ _ _ _ _ H) as (Ha & Hi & _). unfold det_view.
  apply (f_equal (fmap (λ x : list (nat * nat) * bool * bool * gset nat * gmap nat Z,
    x.1.1.2))) in Hi.
  rewrite <- !list_fmap_compose in Hi. unfold book_a in Ha.
  f_equal; [f_equal|]; [exact Hi|congruence..].
Qed.

Lemma beside_coverage_det_view a b : beside_coverage a b → det_view b = det_view a.
Proof.
  intros H. destruct (agree_lists _ _ _ _ _ _ H) as (Ha & Hi & _). unfold det_view.
  apply (f_equal (fmap (λ x : list (nat * nat) * gset nat * bool * gset nat * gmap nat Z,
    x.1.1.2))) in Hi.
  rewrite <- !list_fmap_compose in Hi. unfold but_coverage_a in Ha.
  f_equal; [f_equal|]; [exact Hi|congruence..].
Qed.

Lemma beside_location_det_view a b : beside_location a b → det_view b = det_view a.
Proof.
  intros H. destruct (agree_lists _ _ _ _ _ _ H) as (Ha & Hi & _). unfold det_view.
  apply (f_equal (fmap is_detectable)) in Hi.
  rewrite <- !list_fmap_compose in Hi. unfold but_location_a in Ha.
  f_equal; [f_equal|]; [exact Hi|congruence..].
Qed.

Lemma beside_coverage_p a b : beside_coverage a b → p b = p a.
Proof.
  intros (Ha & _).
  assert (skel_a b = skel_a a) as Hs.
  { change ((but_coverage_a b).1.1.1.1.1 = (but_coverage_a a).1.1.1.1.1). by rewrite Ha. }
  by destruct (skel_a_params _ _ Hs).
Qed.

Lemma beside_detection_p a b : beside_detection a b → p b = p a.
Proof.
  intros (Ha & _).
  assert (skel_a b = skel_a a) as Hs.
  { change ((but_detection_a b).1.1.1.1.1 = (but_detection_a a).1.1.1.1.1). by rewrite Ha. }
  by destruct (skel_a_params _ _ Hs).
Qed.

Lemma same_books_p a b : same_books a b → p b = p a.
Proof.
  intros (Ha & _).
  assert (directory b = directory a) as Hs.
  { change ((book_a b).1.1.1.1.1.1.1.1 = (book_a a).1.1.1.1.1.1.1.1). by rewrite Ha. }
  by apply directory_inv in Hs as (_ & _ & _ & _ & ? & _).
Qed.

(** ** One call of [update_array] *)

Lemma counting_det_count ri rs a b :
  counting_phases ri rs a = Ok b →
  (p a = all → det_count a → det_count b)
  ∧ (p a ≠ all → no_detection a → no_detection b).
Proof.
  unfold counting_phases. intros H. apply bind_Ok in H as (a1 & H1 & H).
  assert (beside_location a1 b) as Hb.
  { destruct (decide (p a1 ≠ c_only ∧ is_locating a1 = false)); inv_Ok H; [|reflexivity].
    by eapply location_phase_beside. }
  apply beside_location_det_view in Hb.
  assert (p a1 = p a
          ∧ (p a = all → det_count a → det_count a1)
          ∧ (p a ≠ all → no_detection a → no_detection a1)) as (_ & Hall & Hnot).
  { revert H1. apply (foldM_inv (λ c, p c = p a
      ∧ (p a = all → det_count a → det_count c)
      ∧ (p a ≠ all → no_detection a → no_detection c))); [|done].
    intros i c c' _ (Ep & Hy & Hn) Hi. apply bind_Ok in Hi as (c1 & Hc1 & Hi).
    eapply coverage_update_beside in Hc1; [|reflexivity].
    pose proof (beside_coverage_det_view _ _ Hc1) as Ev.
    pose proof (beside_coverage_p _ _ Hc1) as Ep1.
    destruct (decide (p c1 = all)) as [Hp|Hp]; inv_Ok Hi.
    - split; [|split].
      + eapply detection_update_beside in Hi; [|reflexivity].
        apply beside_detection_p in Hi. congruence.
      + intros Ha Hd. eapply detection_update_count; [exact Hi|].
        eapply det_count_view; [exact Ev|]. by apply Hy.
      + intros Ha. congruence.
    - split; [congruence|]. split.
      + intros Ha. congruence.
      + intros Ha Hd. eapply no_detection_view; [exact Ev|]. by apply Hn. }
  split.
  - intros Ha Hd. eapply det_count_view; [exact Hb|]. by apply Hall.
  - intros Ha Hd. eapply no_detection_view; [exact Hb|]. by apply Hnot.
Qed.

Lemma update_array_det_count row ri a b :
  update_array row ri true a = Ok b →
  (p a = all → det_count a → det_count b)
  ∧ (p a ≠ all → no_detection a → no_detection b).
Proof.
  intros H.
  unfold update_array in H. apply bind_Ok in H as ([a2 rs] & Hbody & H). inv_Ok H.
  rewrite update_array_body_unfold in Hbody. cbv zeta in Hbody.
  apply bind_Ok in Hbody as ([a1 rs1] & Hins & Hbody).
  apply bind_Ok in Hbody as (a3 & Hcount & Hbody). inv_Ok Hbody.
  apply insert_phase_spec in Hins as (Hbooks & _).
  pose proof (same_books_det_view _ _ Hbooks) as Ev.
  pose proof (same_books_p _ _ Hbooks) as Ep. cbn [p upd] in Ep.
  destruct (counting_det_count _ _ _ _ Hcount) as [Hy Hn]. rewrite Ep in Hy, Hn. split.
  - intros Ha Hd. apply Hy; [done|]. eapply det_count_view; [exact Ev|]. exact Hd.
  - intros Ha Hd. apply Hn; [done|]. eapply no_detection_view; [exact Ev|]. exact Hd.
Qed.

(** ** Runs *)

Lemma all_false_count (l : list bool) :
  (∀ i b, l !! i = Some b → b = false) → count_false l = length l.
Proof.
  induction l as [|b l IH]; intros H; [done|].
  rewrite count_false_cons, (H 0%nat b eq_refl), IH; [done|].
  intros i b' Hi. by apply (H (S i)).
Qed.

Lemma Array_of_Parser_detection inp a :
  Array_of_Parser inp = Ok a →
  (in_p inp = all → det_count a) ∧ (in_p inp ≠ all → no_detection a).
Proof.
  intros Hc. destruct (Array_of_Parser_counters _ _ Hc) as (_ & _ & _ & _ & Edp).
  pose proof (Array_of_Parser_flags _ _ Hc) as Efl.
  unfold flags in Efl. injection Efl as _ _ Efl.
  apply Array_of_Parser_initial in Hc as ([Hcore _] & _).
  destruct Hcore as (_ & _ & _ & _ & HI & _).
  assert (∀ i I, interactions a !! i = Some I → is_detectable I = false) as Hd.
  { intros i I HI'. by destruct (HI i I HI') as (_ & _ & ?). }
  split; intros Hp.
  - rewrite decide_True in Edp by done. unfold det_count, undetected.
    rewrite all_false_count, length_fmap.
    2: { intros i b. rewrite list_lookup_fmap. destruct (interactions a !! i) eqn:E; [|done].
         intros [= <-]. by eapply Hd. }
    split; [done|]. rewrite Efl, Edp. split; [done|]. intros [E Hne].
    destruct (interactions a); [done|]. simpl in E. lia.
  - rewrite decide_False in Edp by done. by split_and!.
Qed.

Lemma run_detection inp a :
  reached inp a → (in_p inp = all → det_count a) ∧ (in_p inp ≠ all → no_detection a).
Proof.
  apply (reached_ind inp
    (λ a, (in_p inp = all → det_count a) ∧ (in_p inp ≠ all → no_detection a))).
  - intros b perm H. exact H.
  - intros b dc H. exact H.
  - intros b row b' Hb _ [Hy Hn] Hrow. unfold update_array_row in Hrow.
    apply bind_Ok in Hrow as (ri & _ & Hrow).
    destruct Hb as (_ & Hpar & _). unfold params in Hpar. injection Hpar as _ _ _ _ Ep.
    destruct (update_array_det_count _ _ _ _ Hrow) as [Hy' Hn']. rewrite Ep in Hy', Hn'.
    split; intros Hp; [apply Hy'|apply Hn']; auto.
  - apply Array_of_Parser_detection.
Qed.

(** X12. In every reachable Array built for all three properties,
    [detection_problems] is the number of Interactions that are not flagged
    as detectable, and [is_detecting] is up exactly when there is at least
    one Interaction and all are flagged.  In the other modes no Interaction
    is ever flagged, the counter stays at zero and the flag stays down. *)
Theorem detection_counts_undetected inp a :
  reached inp a →
  (in_p inp = all →
     detection_problems a = Z.of_nat (undetected a)
     ∧ (is_detecting a = true ↔
          interactions a ≠ []
          ∧ ∀ i I, interactions a !! i = Some I → is_detectable I = true))
  ∧ (in_p inp ≠ all →
       detection_problems a = 0 ∧ is_detecting a = false
       ∧ ∀ i I, interactions a !! i = Some I → is_detectable I = false).
Proof.
  intros Hr. destruct (run_detection _ _ Hr) as [Hy Hn]. split; [|exact Hn].
  intros Hp. destruct (Hy Hp) as [Hcount Hflag]. split; [exact Hcount|].
  rewrite Hflag, Hcount. unfold undetected.
  assert (Z.of_nat (count_false (is_detectable <$> interactions a)) = 0
          ↔ count_false (is_detectable <$> interactions a) = 0%nat) as -> by lia.
  rewrite count_false_zero. split.
  - intros [Hall Hne]. split; [done|]. intros i I Hi.
    apply (Hall i). by rewrite list_lookup_fmap, Hi.
  - intros [Hne Hall]. split; [|done]. intros i b Hi.
    rewrite list_lookup_fmap in Hi. destruct (interactions a !! i) as [I|] eqn:EI; [|done].
    injection Hi as <-. by apply (Hall i).
Qed.

Lemma detection_on_small_all_after_two_calls :
  reached small_all_parser small_all_after_two_calls
  ∧ (in_p small_all_parser = all →
       detection_problems small_all_after_two_calls
       = Z.of_nat (undetected small_all_after_two_calls)
       ∧ (is_detecting small_all_after_two_calls = true ↔
            interactions small_all_after_two_calls ≠ []
            ∧ ∀ i I, interactions small_all_after_two_calls !! i = Some I →
                is_detectable I = true))
  ∧ (in_p small_all_parser ≠ all →
       detection_problems small_all_after_two_calls = 0
       ∧ is_detecting small_all_after_two_calls = false
       ∧ ∀ i I, interactions small_all_after_two_calls !! i = Some I →
           is_detectable I = false).
Proof.
  assert (reached small_all_parser small_all_after_two_calls) as H.
  { exists (built small_all_parser), [Random; Random], rng_steps, (),
      (run_rng (do_calls [Random; Random]) (built small_all_parser) rng_steps).
    split; vm_compute; reflexivity. }
  exact (conj H (detection_counts_undetected small_all_parser small_all_after_two_calls H)).
Defined.


(** * Location: conflicts between T sets with the same rows *)

(** ** The conflicts and the rows, through one row *)

(** a set of the row that has the row alone *)
Lemma alone_in_row (n : nat) (r : gset nat) : n ∈ r → (size r = 1%nat ↔ r ∖ {[n]} = ∅).
Proof.
  intros Hn. split.
  - intros Hs. apply size_1_elem_of in Hs as [x Hx]. apply leibniz_equiv in Hx. subst r.
    apply elem_of_singleton in Hn as ->. apply set_eq. intros y.
    rewrite elem_of_difference, elem_of_singleton, elem_of_empty. tauto.
  - intros He. assert (r = {[n]}) as ->; [|apply size_singleton].
    apply set_eq. intros y. rewrite elem_of_singleton. split; [|by intros ->].
    intros Hy. destruct (decide (y = n)) as [|Hne]; [done|]. exfalso.
    assert (y ∈ r ∖ {[n]}) as Hin by (apply elem_of_difference; by rewrite elem_of_singleton).
    rewrite He in Hin. by apply elem_of_empty in Hin.
Qed.

Lemma not_more_than_one (n : nat) (r : gset nat) : n ∈ r → (¬ (1 < size r)%nat ↔ r ∖ {[n]} = ∅).
Proof.
  intros Hn. rewrite <- (alone_in_row n r Hn). split; [|lia].
  intros Hs. assert (size r ≠ 0%nat); [|lia]. intros E%size_empty_inv.
  apply leibniz_equiv in E. subst r. by apply elem_of_empty in Hn.
Qed.

Lemma eq_without (n : nat) (r r' : gset nat) : n ∈ r → n ∈ r' → r' ∖ {[n]} = r ∖ {[n]} → r' = r.
Proof.
  intros Hn Hn' E. apply set_eq. intros y. destruct (decide (y = n)) as [->|Hne]; [tauto|].
  assert (y ∈ r' ∖ {[n]} ↔ y ∈ r ∖ {[n]}) as Hy by (by rewrite E).
  rewrite !elem_of_difference, !elem_of_singleton in Hy. tauto.
Qed.

Section fits.
Context (n : nat) (R : gset nat) (rw : nat → option (gset nat)).
Hypothesis Hrow : ∀ k r, rw k = Some r → (n ∈ r ↔ k ∈ R).

Lemma loc_fits_step P lc lc' t1 :
  P ⊆ R → t1 ∈ R → t1 ∉ P →
  loc_fits n R P rw lc → loc_step R t1 rw lc lc' →
  loc_fits n R (P ∪ {[t1]}) rw lc'.
Proof using Hrow.
  intros HPR Ht1 HtP Hfit (C1 & f1 & r1 & Hl1 & Hr1 & Hstep).
  destruct (Hfit t1 C1 f1 r1 Hl1 Hr1) as [HC1 Hf1].
  pose proof (proj2 (Hrow t1 r1 Hr1) Ht1) as Hn1.
  assert (∀ k', k' ∈ C1 ↔ k' ≠ t1 ∧ r1 ∖ {[n]} ≠ ∅
                          ∧ ∃ r', rw k' = Some r' ∧ r' ∖ {[n]} = r1 ∖ {[n]}) as HC1'.
  { intros k'. rewrite HC1. split.
    - intros (? & r' & ? & [[? _]|(_ & ? & ? & _)]); [done|]. eauto.
    - intros (? & ? & r' & ? & ?). split; [done|]. exists r'. split; [done|]. right. done. }
  clear HC1.
  (* a T set outside [P] that conflicts with [t1] is among the conflicts of [t1] *)
  assert (∀ k C f r, k ≠ t1 → k ∉ P → lc k = Some (C, f) → rw k = Some r → t1 ∈ C →
            k ∈ C1 ∧ r ∖ {[n]} = r1 ∖ {[n]}) as Hback.
  { intros k C f r Hk HkP Hl Hr Hin. destruct (Hfit k C f r Hl Hr) as [HC _].
    apply HC in Hin as (_ & r' & Hr' & [[? _]|(_ & E & Hne & _)]); [done|].
    assert (r' = r1) as -> by congruence. split; [|done].
    apply HC1'. split; [done|]. split; [congruence|]. eauto. }
  (* the T sets that are left alone *)
  assert (∀ k C f r, k ≠ t1 → lc k = Some (C, f) → rw k = Some r →
            (k ∉ P → k ∉ R → t1 ∉ C) →
            (∀ k', k' ∈ C ↔
               k' ≠ k ∧ ∃ r', rw k' = Some r'
                 ∧ ((k ∈ P ∪ {[t1]} ∧ r' = r)
                    ∨ ((k ∉ P ∪ {[t1]}) ∧ r' ∖ {[n]} = r ∖ {[n]} ∧ r ∖ {[n]} ≠ ∅
                       ∧ (k ∉ R → k' ∉ (P ∪ {[t1]})))))
            ∧ (f = true ↔ C = ∅ ∧ (r ∖ {[n]} ≠ ∅ ∨ k ∈ P ∪ {[t1]}))) as Hsame.
  { intros k C f r Hk Hl Hr Hno. destruct (Hfit k C f r Hl Hr) as [HC Hf].
    assert (k ∈ P ∪ {[t1]} ↔ k ∈ P) as HkP.
    { rewrite elem_of_union, elem_of_singleton. tauto. }
    split.
    - intros k'. rewrite HC. setoid_rewrite HkP. split.
      + intros (? & r' & ? & [[? ?]|(HnP & ? & ? & Himp)]); (split; [done|]); exists r';
          (split; [done|]); [by left|]. right. split_and!; [done..|].
        intros HkR. rewrite elem_of_union, elem_of_singleton. intros [?| ->]; [by apply Himp|].
        apply (Hno HnP HkR). apply HC. split; [done|]. exists r'. split; [done|]. right. done.
      + intros (? & r' & ? & [[? ?]|(HnP & ? & ? & Himp)]); (split; [done|]); exists r';
          (split; [done|]); [by left|]. right. split_and!; [done..|].
        intros HkR HP. apply (Himp HkR). apply elem_of_union. by left.
    - by rewrite Hf, HkP. }
  intros k C f r Hl Hr.
  destruct f1.
  - (* [t1] is flagged already *)
    rewrite Hstep in Hl. destruct Hf1 as [Hf1 _]. destruct (Hf1 eq_refl) as [-> [Hne|?]]; [|done].
    destruct (decide (k = t1)) as [->|Hk].
    + assert (C = ∅ ∧ f = true ∧ r = r1) as (-> & -> & ->) by (split_and!; congruence).
      split.
      * intros k'. split; [by intros ?%elem_of_empty|].
        intros (Hk' & r' & Hr' & [[_ ->]|[HnP _]]).
        -- exfalso. apply (elem_of_empty (C:=gset nat) k'). apply HC1'. split_and!; eauto.
        -- exfalso. apply HnP. apply elem_of_union. right. by apply elem_of_singleton.
      * split; [|done]. intros _. split; [done|]. by left.
    + apply (Hsame k C f r Hk Hl Hr). intros HkP _ Hin.
      destruct (Hback k C f r Hk HkP Hl Hr Hin) as [Hin' _]. by apply elem_of_empty in Hin'.
  - destruct Hstep as (C1' & Hl1' & Hstep).
    assert (C1 ≠ ∅ → r1 ∖ {[n]} ≠ ∅) as Hne1.
    { intros HC. destruct (decide (r1 ∖ {[n]} = ∅)) as [E|]; [|done]. exfalso. apply HC.
      apply set_eq. intros y. rewrite HC1'. split; [|by intros ?%elem_of_empty].
      by intros (_ & ? & _). }
    destruct (decide (size r1 = 1%nat)) as [Hs|Hs]; destruct Hstep as [HC' Hother].
    + (* the first row of [t1] *)
      apply (alone_in_row n r1 Hn1) in Hs.
      destruct (decide (k = t1)) as [->|Hk].
      * assert (C = C1' ∧ f = bool_decide (C1' = ∅) ∧ r = r1) as (-> & -> & ->)
          by (split_and!; congruence).
        split.
        -- intros k'. rewrite HC'. split.
           ++ intros [Hin|(HkR & Hk' & r' & Hr' & Hsz)].
              { apply HC1' in Hin as (_ & ? & _). done. }
              split; [done|]. exists r'. split; [done|]. left.
              split; [apply elem_of_union; right; by apply elem_of_singleton|].
              pose proof (proj2 (Hrow k' r' Hr') HkR) as Hn'.
              apply (not_more_than_one n r' Hn') in Hsz. apply (eq_without n); congruence.
           ++ intros (Hk' & r' & Hr' & [[_ ->]|[HnP _]]).
              ** right. split_and!; [by apply (Hrow k' r1 Hr')|done|].
                 exists r1. split; [done|]. by apply (not_more_than_one n r1 Hn1).
              ** exfalso. apply HnP. apply elem_of_union. right. by apply elem_of_singleton.
        -- rewrite bool_decide_eq_true. split; [|by intros [? _]].
           intros ?. split; [done|]. right. apply elem_of_union. right.
           by apply elem_of_singleton.
      * rewrite (Hother k Hk) in Hl. apply (Hsame k C f r Hk Hl Hr). intros HkP _ Hin.
        destruct (Hback k C f r Hk HkP Hl Hr Hin) as [Hin' _].
        apply HC1' in Hin' as (_ & ? & _). done.
    + (* [t1] had rows before *)
      assert (r1 ∖ {[n]} ≠ ∅) as Hold.
      { intros E. apply Hs. by apply (alone_in_row n r1 Hn1). }
      destruct (decide (k = t1)) as [->|Hk].
      * assert (C = C1' ∧ f = bool_decide (C1' = ∅) ∧ r = r1) as (-> & -> & ->)
          by (split_and!; congruence).
        split.
        -- intros k'. rewrite HC', HC1'. split.
           ++ intros [(Hk' & _ & r' & Hr' & E) HkR]. split; [done|]. exists r'.
              split; [done|]. left.
              split; [apply elem_of_union; right; by apply elem_of_singleton|].
              apply (eq_without n); [done| |done]. by apply (Hrow k' r' Hr').
           ++ intros (Hk' & r' & Hr' & [[_ ->]|[HnP _]]).
              ** split; [|by apply (Hrow k' r1 Hr')]. split_and!; [done..|]. eauto.
              ** exfalso. apply HnP. apply elem_of_union. right. by apply elem_of_singleton.
        -- rewrite bool_decide_eq_true. split; [|by intros [? _]].
           intros ?. split; [done|]. by left.
      * rewrite (Hother k Hk) in Hl.
        destruct (decide (k ∈ C1 ∧ k ∉ R)) as [[HkC HkR]|Hnot].
        -- destruct (lc k) as [[C0 f0]|] eqn:Hl0; [|done]. simpl in Hl.
           injection Hl as <- <-.
           destruct (Hfit k C0 f0 r Hl0 Hr) as [HC0 Hf0].
           assert (k ∉ P) as HkP by (intros ?; apply HkR; by apply HPR).
           apply HC1' in HkC as (_ & _ & r' & Hr' & E).
           assert (r' = r) as -> by congruence.
           split.
           ++ intros k'. rewrite elem_of_difference, elem_of_singleton, HC0. split.
              ** intros [(Hk' & r' & Hr'' & [[? _]|(_ & E' & Hne & Himp)]) Hkt]; [done|].
                 split; [done|]. exists r'. split; [done|]. right. split_and!; [|done..|].
                 { rewrite elem_of_union, elem_of_singleton. intros [?| ->]; done. }
                 intros _. rewrite elem_of_union, elem_of_singleton.
                 intros [?| ->]; [by apply Himp|done].
              ** intros (Hk' & r' & Hr'' & [[HkP' _]|(_ & E' & Hne & Himp)]).
                 { exfalso. apply elem_of_union in HkP' as [?| ->%elem_of_singleton]; done. }
                 specialize (Himp HkR). rewrite elem_of_union, elem_of_singleton in Himp.
                 split; [|tauto]. split; [done|]. exists r'. split; [done|]. right.
                 split_and!; [done..|]. intros _. tauto.
           ++ rewrite bool_decide_eq_true. split; [|by intros [? _]].
              intros ?. split; [done|]. left. congruence.
        -- apply (Hsame k C f r Hk Hl Hr). intros HkP HkR Hin.
           destruct (Hback k C f r Hk HkP Hl Hr Hin) as [Hin' E]. by apply Hnot.
Qed.

(** before the loop: the conflicts and flags fit the rows without [n] *)
Lemma loc_fits_start lc :
  loc_final (λ k, (λ r, r ∖ {[n]}) <$> rw k) lc → loc_fits n R ∅ rw lc.
Proof.
  clear Hrow.
  intros Hfin k C f r Hl Hr. destruct (Hfin k C f (r ∖ {[n]}) Hl) as [HC Hf].
  { by rewrite Hr. }
  split.
  - intros k'. rewrite HC. split.
    + intros (? & ? & Hr'). split; [done|]. destruct (rw k') as [r'|] eqn:E; [|done].
      injection Hr' as Hr'. exists r'. split; [done|]. right.
      split_and!; [by intros ?%elem_of_empty|done..|]. by intros _ ?%elem_of_empty.
    + intros (? & r' & Hr' & [[?%elem_of_empty _]|(_ & E & ? & _)]); [done|].
      split_and!; [done..|]. rewrite Hr'. simpl. by rewrite E.
  - rewrite Hf. split.
    + intros [? ?]. split; [done|]. by left.
    + intros [? [?|?%elem_of_empty]]; done.
Qed.

(** after the loop *)
Lemma loc_fits_end lc : loc_fits n R R rw lc → loc_final rw lc.
Proof using Hrow.
  intros Hfit k C f r Hl Hr. destruct (Hfit k C f r Hl Hr) as [HC Hf].
  pose proof (Hrow k r Hr) as Hk.
  assert (n ∉ r → r ∖ {[n]} = r) as Hwo.
  { intros Hn. apply set_eq. intros y. rewrite elem_of_difference, elem_of_singleton.
    split; [tauto|]. intros Hy. split; [done|]. by intros ->. }
  assert (n ∈ r → r ≠ ∅) as Hne by (intros Hn ->; by apply elem_of_empty in Hn).
  split.
  - intros k'. rewrite HC. split.
    + intros (? & r' & Hr' & [[HkR ->]|(HkR & E & Hne' & Himp)]).
      * split_and!; [done| |done]. apply Hne. by apply Hk.
      * specialize (Himp HkR). pose proof (Hrow k' r' Hr') as Hk'.
        assert (n ∉ r) as Hn by tauto. assert (n ∉ r') as Hn' by tauto.
        rewrite (Hwo Hn) in E, Hne'. split_and!; [done..|].
        rewrite Hr'. f_equal. rewrite <- E. symmetry. apply set_eq. intros y.
        rewrite elem_of_difference, elem_of_singleton. split; [tauto|].
        intros Hy. split; [done|]. by intros ->.
    + intros (? & Hne' & Hr'). split; [done|]. exists r. split; [done|].
      destruct (decide (k ∈ R)) as [HkR|HkR]; [by left|]. right.
      assert (n ∉ r) as Hn by tauto. rewrite (Hwo Hn). split_and!; [done..|].
      intros _ Hk'R. apply Hn. by apply (Hrow k' r Hr').
  - rewrite Hf. destruct (decide (k ∈ R)) as [HkR|HkR].
    + split; [intros [? _]; split; [done|apply Hne; tauto]|]. intros [? _]. split; [done|].
      by right.
    + assert (n ∉ r) as Hn by tauto. rewrite (Hwo Hn). split.
      * intros [? [?|?]]; done.
      * intros [? ?]. split; [done|]. by left.
Qed.

(** when every T set is flagged already, nothing has to be done *)
Lemma loc_final_grow lc :
  (∀ k C f, lc k = Some (C, f) → f = true) →
  loc_final (λ k, (λ r, r ∖ {[n]}) <$> rw k) lc → loc_final rw lc.
Proof.
  clear Hrow.
  intros Hall Hfin k C f r Hl Hr. destruct (Hfin k C f (r ∖ {[n]}) Hl) as [HC Hf].
  { by rewrite Hr. }
  pose proof (Hall k C f Hl) as ->. destruct (proj1 Hf eq_refl) as [-> Hne].
  assert (r ≠ ∅) as Hne'.
  { intros ->. apply Hne. apply set_eq. intros y.
    rewrite elem_of_difference. split; [by intros [? _]|by intros ?%elem_of_empty]. }
  split; [|done]. intros k'. split; [by intros ?%elem_of_empty|].
  intros (Hk' & _ & Hr'). apply (HC k'). split_and!; [done..|]. by rewrite Hr'.
Qed.
End fits.


(** * Location: what the third loop of [update_array] does *)

(** ** Reading the T sets after a step *)

Lemma sets_bump set k ss a : sets (bump set k ss a) = sets a.
Proof. unfold bump. frame_steps. Qed.

Lemma sets_upd_T f i a k :
  sets (upd_T f i a) !! k = if decide (i = k) then f <$> sets a !! k else sets a !! k.
Proof. apply (get_T_upd_T f i k a). Qed.

(** ** The first row of a T set *)

Lemma location_first_effect rs t1 a a' :
  location_first rs t1 a = Ok a' →
  ∃ T1 T1', sets a !! t1 = Some T1 ∧ sets a' !! t1 = Some T1'
    ∧ is_locatable T1' = is_locatable T1
    ∧ (∀ k', k' ∈ location_conflicts T1' ↔
         k' ∈ location_conflicts T1
         ∨ (k' ∈ rs ∧ k' ≠ t1
            ∧ ∃ X, sets a !! k' = Some X ∧ ¬ (1 < size (t_rows X))%nat))
    ∧ (∀ k, k ≠ t1 → sets a' !! k = sets a !! k)
    ∧ location_problems a' = location_problems a ∧ is_locating a' = is_locating a.
Proof.
  unfold location_first. intros H. inv_Ok H. rename x into T1. exists T1.
  set (a0 := bump s_set_l_issues (- Z.of_nat (length (sets a))) (t_singles T1) a) in H.
  assert (sets a0 = sets a) as E0 by apply sets_bump.
  assert (location_problems a0 = location_problems a ∧ is_locating a0 = is_locating a)
    as [E0' E0''] by (unfold a0, bump; split; frame_steps).
  pose (Q := λ (l : list nat) (c : Array),
    location_problems c = location_problems a ∧ is_locating c = is_locating a
    ∧ (∀ k, k ≠ t1 → sets c !! k = sets a !! k)
    ∧ ∃ T1', sets c !! t1 = Some T1' ∧ is_locatable T1' = is_locatable T1
        ∧ t_rows T1' = t_rows T1
        ∧ ∀ k', k' ∈ location_conflicts T1' ↔
            k' ∈ location_conflicts T1
            ∨ (k' ∈ l ∧ k' ≠ t1
               ∧ ∃ X, sets a !! k' = Some X ∧ ¬ (1 < size (t_rows X))%nat)).
  assert (Q (iter rs) a') as (H1 & H2 & H3 & T1' & H4 & H5 & _ & H6).
  { revert H. apply (foldM_prefix Q); unfold Q; clear Q.
    - intros l t2 c c' (Hlp & Hil & Hother & T1c & HT1c & Hfl & Hrw & Hmem) Hstep.
      inv_Ok Hstep. rename x into T2.
      assert (∃ X, sets a !! t2 = Some X ∧ t_rows X = t_rows T2) as (X2 & HX2 & Erw).
      { destruct (decide (t2 = t1)) as [->|Hne].
        - exists T1. split; [done|]. congruence.
        - exists T2. split; [|done]. by rewrite <- (Hother t2 Hne). }
      destruct (decide (t1 = t2 ∨ (1 < size (t_rows T2))%nat)) as [Hskip|Hadd]; inv_Ok Hstep.
      + split_and!; [done..|]. exists T1c. split_and!; [done..|].
        intros k'. rewrite Hmem. split.
        * intros [?|(Hin & ? & ?)]; [by left|]. right. split_and!; [|done..].
          apply elem_of_app. by left.
        * intros [?|(Hin & Hk' & X & HX & Hsz)]; [by left|].
          apply elem_of_app in Hin as [Hin|Hin]; [right; by eauto|].
          apply list_elem_of_singleton in Hin as ->.
          destruct Hskip as [<-|Hbig]; [done|]. exfalso. apply Hsz.
          assert (X = X2) as -> by congruence. by rewrite Erw.
      + assert (t1 ≠ t2 ∧ ¬ (1 < size (t_rows T2))%nat) as [Hne Hsz] by tauto.
        split_and!.
        * rewrite <- Hlp. unfold bump. frame_steps.
        * rewrite <- Hil. unfold bump. frame_steps.
        * intros k Hk. rewrite sets_bump, sets_upd_T, decide_False by done. by apply Hother.
        * exists (t_set_location_conflicts (union {[t2]}) T1c).
          rewrite sets_bump, sets_upd_T, decide_True, HT1c by done.
          split_and!; [done..|]. intros k'. cbn [location_conflicts t_set_location_conflicts].
          rewrite elem_of_union, elem_of_singleton, Hmem. split.
          -- intros [->|[?|(Hin & ? & ?)]].
             ++ right. split_and!; [apply elem_of_app; right; by left|done|].
                exists X2. split; [done|]. by rewrite Erw.
             ++ by left.
             ++ right. split_and!; [|done..]. apply elem_of_app. by left.
          -- intros [?|(Hin & Hk' & X & HX & Hsz')]; [right; by left|].
             apply elem_of_app in Hin as [Hin|Hin]; [right; right; by eauto|].
             apply list_elem_of_singleton in Hin as ->. by left.
    - split_and!; [done|done| |].
      + intros k _. by rewrite E0.
      + exists T1. rewrite E0. split_and!; [done..|]. intros k'. split; [by left|].
        intros [?|(Hin & _)]; [done|]. by apply elem_of_nil in Hin. }
  exists T1'. split_and!; [done|done|done| |done|done|done].
  intros k'. rewrite H6. by setoid_rewrite elem_of_iter.
Qed.

(** ** A T set that had rows before *)

Lemma locs_of_upd_T f i a k :
  locs_of (upd_T f i a) k
  = if decide (i = k) then (loc_t ∘ f) <$> sets a !! k else locs_of a k.
Proof.
  unfold locs_of. rewrite sets_upd_T. case_decide; [|done]. by rewrite option_fmap_compose.
Qed.

Lemma flags_upd_conflicts g i a :
  is_locatable <$> sets (upd_T (t_set_location_conflicts g) i a) = is_locatable <$> sets a.
Proof. unfold upd_T. cbn [sets upd]. by apply fmap_alter_same. Qed.

Lemma flags_upd_flag i a :
  is_Some (sets a !! i) →
  is_locatable <$> sets (upd_T (t_set_is_locatable true) i a)
  = <[i := true]> (is_locatable <$> sets a).
Proof. intros H. unfold upd_T. cbn [sets upd]. by apply fmap_alter_view. Qed.

Lemma loc_surplus_sets a b :
  sets b = sets a → location_problems b = location_problems a → loc_surplus b = loc_surplus a.
Proof. unfold loc_surplus. by intros -> ->. Qed.

Lemma size_zero_empty (C : gset nat) : size C = 0%nat ↔ C = ∅.
Proof.
  split; [|intros ->; apply size_empty]. intros H%size_empty_inv. by apply leibniz_equiv.
Qed.

Lemma location_solved_effect rs t1 a a' :
  t1 ∈ rs →
  (∀ k C, locs_of a k = Some (C, true) → C = ∅) →
  location_solved rs t1 a = Ok a' →
  ∃ C1 f1 C1', locs_of a t1 = Some (C1, f1) ∧ locs_of a' t1 = Some (C1', f1)
    ∧ (∀ k', k' ∈ C1' ↔ k' ∈ C1 ∧ k' ∈ rs)
    ∧ (∀ k, k ≠ t1 →
         locs_of a' k
         = if decide (k ∈ C1 ∧ k ∉ rs)
           then (λ x : gset nat * bool,
                   (x.1 ∖ {[t1]}, bool_decide (x.1 ∖ {[t1]} = ∅))) <$> locs_of a k
           else locs_of a k)
    ∧ loc_surplus a' = loc_surplus a ∧ is_locating a' = is_locating a.
Proof.
  intros Ht1 Hflag. unfold location_solved. intros H. inv_Ok H. rename x into T1.
  rename a0 into c, g into temp, z into solved.
  exists (location_conflicts T1), (is_locatable T1).
  assert (locs_of a t1 = Some (location_conflicts T1, is_locatable T1)) as Hl1
    by (unfold locs_of; by rewrite Hx).
  pose (Q := λ (l : list nat) (st : Array * gset nat * Z),
    (∀ k', k' ∈ st.1.2 ↔ k' ∈ location_conflicts T1 ∧ ¬ (k' ∈ l ∧ k' ∉ rs))
    ∧ (∀ k, locs_of st.1.1 k
            = if decide (k ∈ l ∧ k ∉ rs)
              then (λ x : gset nat * bool,
                      (x.1 ∖ {[t1]}, bool_decide (x.1 ∖ {[t1]} = ∅))) <$> locs_of a k
              else locs_of a k)
    ∧ loc_surplus st.1.1 = loc_surplus a ∧ is_locating st.1.1 = is_locating a).
  assert (Q (iter (location_conflicts T1)) (c, temp, solved)) as (Htemp & Hlocs & Hsur & Hil).
  { revert Hx0. apply (foldM_split Q); unfold Q; clear Q.
    - intros l1 t2 l2 [[c0 tmp0] sv0] [[c1 tmp1] sv1] E (Htmp & Hlc & Hs & Hi) Hstep.
      cbn [fst snd] in *.
      assert (t2 ∉ l1) as Hfresh.
      { pose proof (NoDup_iter (location_conflicts T1)) as Hnd. rewrite E in Hnd.
        apply NoDup_app in Hnd as (_ & Hnd & _). intros Hin. apply (Hnd t2 Hin). by left. }
      destruct (decide (t2 ∈ rs)) as [Hin|Hout]; inv_Ok Hstep.
      + split_and!; [| |done|done].
        * intros k'. rewrite Htmp. rewrite elem_of_app, list_elem_of_singleton.
          split; intros [? Hn]; (split; [done|]); intros [Hk' ?]; apply Hn.
          -- destruct Hk' as [?| ->]; done.
          -- split; [by left|done].
        * intros k. rewrite Hlc. destruct (decide (k ∈ l1 ∧ k ∉ rs)) as [[? ?]|Hn].
          -- rewrite decide_True; [done|]. split; [apply elem_of_app; by left|done].
          -- rewrite decide_False; [done|]. rewrite elem_of_app, list_elem_of_singleton.
             intros [[?| ->] ?]; [by apply Hn|done].
      + rename x into T2, Hx0 into HT2.
        destruct (decide (t1 ∈ location_conflicts T2)) as [HtC|]; inv_Ok Hstep.
        rename x into T2', Hx0 into HT2'.
        assert (locs_of a t2 = Some (location_conflicts T2, is_locatable T2)) as Hl2.
        { rewrite <- (decide_False (P := t2 ∈ l1 ∧ t2 ∉ rs)
            ((λ x : gset nat * bool, (x.1 ∖ {[t1]}, bool_decide (x.1 ∖ {[t1]} = ∅)))
               <$> locs_of a t2) (locs_of a t2)) by tauto.
          rewrite <- Hlc. unfold locs_of. by rewrite HT2. }
        assert (is_locatable T2 = false) as Hf2.
        { destruct (is_locatable T2) eqn:Ef; [|done]. apply Hflag in Hl2.
          rewrite Hl2 in HtC. by apply elem_of_empty in HtC. }
        set (c0' := bump s_set_l_issues (-1) (t_singles T2)
                      (upd_T (t_set_location_conflicts (λ c, c ∖ {[t1]})) t2 c0)) in *.
        assert (∀ k, locs_of c0' k
                     = if decide (t2 = k)
                       then Some (location_conflicts T2 ∖ {[t1]}, false)
                       else locs_of c0 k) as Hlc0'.
        { intros k. unfold locs_of at 1, c0'. rewrite sets_bump.
          change (loc_t <$> sets (upd_T ?f t2 c0) !! k) with (locs_of (upd_T f t2 c0) k).
          rewrite locs_of_upd_T. destruct (decide (t2 = k)) as [<-|Hk]; [|done]. rewrite HT2. simpl.
          unfold loc_t. simpl. by rewrite Hf2. }
        assert (is_locatable <$> sets c0' = is_locatable <$> sets c0) as Hfl0'.
        { unfold c0'. rewrite sets_bump. apply flags_upd_conflicts. }
        assert (location_problems c0' = location_problems c0
                ∧ is_locating c0' = is_locating c0) as [Hlp0' Hil0'].
        { unfold c0', bump. split; frame_steps. }
        assert (location_conflicts T2' = location_conflicts T2 ∖ {[t1]}) as EC2'.
        { pose proof (Hlc0' t2) as E2. rewrite decide_True in E2 by done.
          unfold locs_of in E2. rewrite HT2' in E2. simpl in E2. unfold loc_t in E2.
          congruence. }
        assert (∀ (c2 : Array) (fl : bool),
                  (∀ k, locs_of c2 k
                        = if decide (t2 = k)
                          then Some (location_conflicts T2 ∖ {[t1]}, fl)
                          else locs_of c0 k) →
                  fl = bool_decide (location_conflicts T2 ∖ {[t1]} = ∅) →
                  ∀ k, locs_of c2 k
                       = if decide (k ∈ l1 ++ [t2] ∧ k ∉ rs)
                         then (λ x : gset nat * bool,
                                 (x.1 ∖ {[t1]}, bool_decide (x.1 ∖ {[t1]} = ∅)))
                                <$> locs_of a k
                         else locs_of a k) as Hnew.
        { intros c2 fl Hc2 Efl k. rewrite Hc2. destruct (decide (t2 = k)) as [<-|Hne].
          - rewrite decide_True by (split; [apply elem_of_app; right; by left|done]).
            rewrite Hl2. simpl. by rewrite Efl.
          - rewrite Hlc. destruct (decide (k ∈ l1 ∧ k ∉ rs)) as [[? ?]|Hn].
            + rewrite decide_True; [done|]. split; [apply elem_of_app; by left|done].
            + rewrite decide_False; [done|]. rewrite elem_of_app, list_elem_of_singleton.
              intros [[?| ->] ?]; [by apply Hn|done]. }
        assert (∀ k', k' ∈ tmp0 ∖ {[t2]} ↔
                  k' ∈ location_conflicts T1 ∧ ¬ (k' ∈ l1 ++ [t2] ∧ k' ∉ rs)) as Htmp'.
        { intros k'. rewrite elem_of_difference, elem_of_singleton, Htmp.
          rewrite elem_of_app, list_elem_of_singleton. split.
          - intros [[? Hn] Hne]. split; [done|]. intros [[?| ->] ?]; [by apply Hn|done].
          - intros [? Hn]. split; [split; [done|]|].
            + intros [? ?]. apply Hn. split; [by left|done].
            + intros ->. apply Hn. split; [by right|done]. }
        destruct (decide (size (location_conflicts T2') = 0%nat)) as [Hz|Hnz]; inv_Ok Hstep.
        * destruct (decide (location_problems _ = 0)); inv_Ok Hstep.
          rewrite EC2' in Hz. apply size_zero_empty in Hz.
          split_and!; [done| | |].
          -- apply (Hnew _ true); [|by rewrite bool_decide_eq_true_2].
             intros k.
             change (locs_of (add_to F_location_problems (-1) (add_to F_score (-1)
                       (upd_T (t_set_is_locatable true) t2 c0'))) k)
               with (locs_of (upd_T (t_set_is_locatable true) t2 c0') k).
             rewrite locs_of_upd_T. pose proof (Hlc0' k) as Ek.
             destruct (decide (t2 = k)) as [<-|Hne]; [|done].
             unfold locs_of in Ek. destruct (sets c0' !! t2) as [Xc|]; [|done].
             simpl in *. unfold loc_t in *. simpl. congruence.
          -- rewrite <- Hs. unfold loc_surplus.
             change (sets (add_to F_location_problems (-1) (add_to F_score (-1)
                       (upd_T (t_set_is_locatable true) t2 c0'))))
               with (sets (upd_T (t_set_is_locatable true) t2 c0')).
             change (location_problems (add_to F_location_problems (-1) (add_to F_score (-1)
                       (upd_T (t_set_is_locatable true) t2 c0'))))
               with (location_problems c0' + -1).
             rewrite flags_upd_flag by eauto. rewrite Hlp0', <- Hfl0'.
             assert ((is_locatable <$> sets c0') !! t2 = Some false) as Hi2.
             { rewrite list_lookup_fmap, HT2'. simpl. f_equal.
               pose proof (Hlc0' t2) as E2. rewrite decide_True in E2 by done.
               unfold locs_of in E2. rewrite HT2' in E2. simpl in E2. unfold loc_t in E2.
               congruence. }
             rewrite (count_false_raise _ _ Hi2). lia.
          -- rewrite <- Hi, <- Hil0'. done.
        * split_and!; [done| | |].
          -- apply (Hnew _ false); [done|]. symmetry. apply bool_decide_eq_false_2.
             rewrite <- EC2'. intros E0. apply Hnz. by apply size_zero_empty.
          -- rewrite <- Hs. unfold loc_surplus. by rewrite Hfl0', Hlp0'.
          -- by rewrite Hil0'.
    - cbn [fst snd]. split_and!; [|done..].
      intros k'. split; [|by intros [? _]]. intros ?. split; [done|].
      intros [Hin _]. by apply elem_of_nil in Hin. }
  cbn [fst snd] in *.
  set (c' := bump s_set_l_issues (- solved) (t_singles T1) c).
  assert (∀ k, locs_of c' k = locs_of c k) as Hc'.
  { intros k. unfold locs_of, c'. by rewrite sets_bump. }
  assert (locs_of c t1 = Some (location_conflicts T1, is_locatable T1)) as Hc1.
  { rewrite Hlocs, decide_False by tauto. done. }
  exists temp. split_and!.
  - done.
  - rewrite locs_of_upd_T, decide_True by done. pose proof Hc1 as E. rewrite <- Hc' in E.
    unfold locs_of in E. destruct (sets c' !! t1) as [Xc|]; [|done]. simpl in *.
    unfold loc_t in *. simpl. congruence.
  - intros k'. rewrite Htemp, elem_of_iter. split.
    + intros [? Hn]. split; [done|]. destruct (decide (k' ∈ rs)); [done|]. exfalso. by apply Hn.
    + intros [? ?]. split; [done|]. by intros [_ ?].
  - intros k Hk. rewrite locs_of_upd_T, decide_False by done. rewrite Hc', Hlocs.
    destruct (decide (k ∈ location_conflicts T1 ∧ k ∉ rs)) as [[? ?]|Hn].
    + rewrite decide_True; [done|]. by rewrite elem_of_iter.
    + rewrite decide_False; [done|]. by rewrite elem_of_iter.
  - rewrite <- Hsur. unfold loc_surplus. rewrite flags_upd_conflicts.
    unfold c'. rewrite sets_bump.
    assert (location_problems (upd_T (t_set_location_conflicts (λ _, temp)) t1
              (bump s_set_l_issues (- solved) (t_singles T1) c)) = location_problems c) as ->
      by (unfold bump; frame_steps).
    done.
  - rewrite <- Hil. unfold c', bump. frame_steps.
Qed.

(** ** One T set of the row *)

Lemma count_false_pos (l : list bool) (i : nat) :
  l !! i = Some false → (0 < count_false l)%nat.
Proof. intros H. rewrite (count_false_raise _ _ H). lia. Qed.

Lemma flag_of_locs a k C f :
  locs_of a k = Some (C, f) → (is_locatable <$> sets a) !! k = Some f.
Proof.
  unfold locs_of. rewrite list_lookup_fmap. destruct (sets a !! k); [|done].
  simpl. unfold loc_t. congruence.
Qed.

Lemma location_update_effect rs t1 a a' rw :
  t1 ∈ rs →
  (∀ k, rows_of a k = rw k) →
  (∀ k C, locs_of a k = Some (C, true) → C = ∅) →
  location_update rs t1 a = Ok a' →
  loc_step rs t1 rw (locs_of a) (locs_of a')
  ∧ (loc_surplus a = 0 →
     (is_locating a = true ↔ location_problems a = 0 ∧ sets a ≠ []) →
     loc_surplus a' = 0
     ∧ (is_locating a' = true ↔ location_problems a' = 0 ∧ sets a' ≠ [])).
Proof.
  intros Ht1 Hrw Hflag. unfold location_update. intros H. inv_Ok H. rename x into T1.
  assert (locs_of a t1 = Some (location_conflicts T1, is_locatable T1)) as Hl1
    by (unfold locs_of; by rewrite Hx).
  assert (rw t1 = Some (t_rows T1)) as Hr1
    by (rewrite <- Hrw; unfold rows_of; by rewrite Hx).
  destruct (is_locatable T1) eqn:Ef1.
  { inv_Ok H. split; [|done]. exists (location_conflicts T1), true, (t_rows T1).
    by split_and!. }
  inv_Ok H. rename x into b, x0 into T1b.
  assert (∃ C1', locs_of b t1 = Some (C1', false)
    ∧ (if decide (size (t_rows T1) = 1%nat)
       then (∀ k', k' ∈ C1' ↔ k' ∈ location_conflicts T1
               ∨ (k' ∈ rs ∧ k' ≠ t1 ∧ ∃ r', rw k' = Some r' ∧ ¬ (1 < size r')%nat))
            ∧ ∀ k, k ≠ t1 → locs_of b k = locs_of a k
       else (∀ k', k' ∈ C1' ↔ k' ∈ location_conflicts T1 ∧ k' ∈ rs)
            ∧ ∀ k, k ≠ t1 →
                locs_of b k
                = if decide (k ∈ location_conflicts T1 ∧ k ∉ rs)
                  then (λ x : gset nat * bool,
                          (x.1 ∖ {[t1]}, bool_decide (x.1 ∖ {[t1]} = ∅))) <$> locs_of a k
                  else locs_of a k)
    ∧ loc_surplus b = loc_surplus a ∧ is_locating b = is_locating a)
    as (C1' & Hb1 & Hchar & Hsur & Hil).
  { destruct (decide (size (t_rows T1) = 1%nat)) as [Hone|Hmore].
    - apply location_first_effect in Hx0
        as (T1x & T1' & E1 & E1' & Ef & HC & Hoth & Hlp & Hil).
      assert (T1x = T1) as -> by congruence.
      exists (location_conflicts T1'). split_and!.
      + unfold locs_of. rewrite E1'. simpl. unfold loc_t. by rewrite Ef, Ef1.
      + intros k'. rewrite HC. split; (intros [?|(? & ? & Hex)]; [by left|right]);
          (split_and!; [done..|]).
        * destruct Hex as (X & HX & ?). exists (t_rows X). split; [|done].
          rewrite <- Hrw. unfold rows_of. by rewrite HX.
        * destruct Hex as (r' & Hr' & ?). rewrite <- Hrw in Hr'. unfold rows_of in Hr'.
          destruct (sets a !! k') as [X|]; [|done]. injection Hr' as <-. by exists X.
      + intros k Hk. unfold locs_of. by rewrite Hoth.
      + unfold loc_surplus. rewrite Hlp.
        assert (is_locatable <$> sets b = is_locatable <$> sets a) as ->; [|done].
        apply view_lookup_eq. intros k.
        destruct (decide (k = t1)) as [->|Hk]; [|by rewrite Hoth].
        rewrite E1, E1'. simpl. by rewrite Ef.
      + done.
    - apply location_solved_effect in Hx0
        as (C1 & f1 & C1' & E1 & E1' & HC & Hoth & Hs & Hil); [|done..].
      assert (C1 = location_conflicts T1 ∧ f1 = false) as [-> ->] by (split; congruence).
      exists C1'. by split_and!. }
  assert (location_conflicts T1b = C1' ∧ is_locatable T1b = false) as [<- Efb].
  { unfold locs_of in Hb1. rewrite Hx1 in Hb1. simpl in Hb1. unfold loc_t in Hb1.
    split; congruence. }
  assert (∀ k, locs_of a' k
               = if decide (t1 = k) then Some ((location_conflicts T1b), bool_decide ((location_conflicts T1b) = ∅)) else locs_of b k)
    as Hla'.
  { intros k. destruct (decide (size (location_conflicts T1b) = 0%nat)) as [Hz|Hnz]; inv_Ok H.
    - apply size_zero_empty in Hz.
      assert (locs_of (if decide (location_problems (add_to F_location_problems (-1)
                (add_to F_score (-1) (upd_T (t_set_is_locatable true) t1 b))) = 0)
              then upd F_is_locating (λ _, true) (add_to F_location_problems (-1)
                (add_to F_score (-1) (upd_T (t_set_is_locatable true) t1 b)))
              else add_to F_location_problems (-1)
                (add_to F_score (-1) (upd_T (t_set_is_locatable true) t1 b))) k
              = locs_of (upd_T (t_set_is_locatable true) t1 b) k) as ->
        by (destruct (decide (location_problems _ = 0)); reflexivity).
      rewrite locs_of_upd_T. destruct (decide (t1 = k)) as [<-|Hk]; [|done].
      rewrite Hx1. simpl. unfold loc_t. simpl. by rewrite bool_decide_eq_true_2.
    - destruct (decide (t1 = k)) as [<-|Hk]; [|done]. rewrite Hb1.
      rewrite bool_decide_eq_false_2; [done|]. intros E. apply Hnz. by apply size_zero_empty. }
  split.
  - exists (location_conflicts T1), false, (t_rows T1). split_and!; [done..|].
    exists (location_conflicts T1b). split; [by rewrite Hla', decide_True|].
    destruct (decide (size (t_rows T1) = 1%nat)); destruct Hchar as [HC Hoth];
      (split; [done|]); intros k Hk; rewrite Hla', decide_False by done; by apply Hoth.
  - intros Hs0 HK.
    assert (sets a ≠ []) as Hne by (intros E; by rewrite E in Hx).
    assert (0 < location_problems a) as Hpos.
    { pose proof (count_false_pos _ _ (flag_of_locs _ _ _ _ Hl1)) as Hc.
      unfold loc_surplus in Hs0. lia. }
    assert (is_locating a = false) as Hila.
    { destruct (is_locating a); [|done]. destruct HK as [HK _]. specialize (HK eq_refl). lia. }
    assert (0 < location_problems b) as Hposb.
    { pose proof (count_false_pos _ _ (flag_of_locs _ _ _ _ Hb1)) as Hc.
      unfold loc_surplus in Hsur, Hs0. lia. }
    assert (sets b ≠ []) as Hneb by (intros E; by rewrite E in Hx1).
    destruct (decide (size (location_conflicts T1b) = 0%nat)) as [Hz|Hnz]; inv_Ok H.
    + set (b' := add_to F_location_problems (-1)
                   (add_to F_score (-1) (upd_T (t_set_is_locatable true) t1 b))).
      assert (location_problems b' = location_problems b - 1) as Elp by (unfold b'; simpl; lia).
      assert (sets b' = sets (upd_T (t_set_is_locatable true) t1 b)) as Ese by done.
      assert (is_locating b' = is_locating b) as Eil by (unfold b'; frame_steps).
      assert (loc_surplus b' = 0) as Hs'.
      { unfold loc_surplus. rewrite Elp, Ese, flags_upd_flag by eauto.
        pose proof (count_false_raise _ _ (flag_of_locs _ _ _ _ Hb1)) as Hc.
        unfold loc_surplus in Hsur, Hs0. lia. }
      assert (sets b' ≠ []) as Hne'.
      { rewrite Ese. intros E. apply (f_equal length) in E. unfold upd_T in E.
        cbn [sets upd] in E. rewrite length_alter in E. destruct (sets b); done. }
      destruct (decide (location_problems b' = 0)) as [Hz'|Hnz'].
      * split; [done|]. split; [done|]. by intros _.
      * split; [done|]. rewrite Eil, Hil, Hila. split; [done|]. by intros [? _].
    + split; [lia|]. rewrite Hil, Hila. split; [done|]. intros [? _]. lia.
Qed.

(** ** The T sets of the row, one after the other *)

Lemma rows_of_beside a c k : beside_location a c → rows_of c k = rows_of a k.
Proof.
  intros (_ & _ & _ & Ht). specialize (Ht k). unfold rows_of.
  destruct (sets c !! k), (sets a !! k); simpl in *; try done.
  unfold skel_t in Ht. congruence.
Qed.

Lemma rows_of_locs_of a k C f : locs_of a k = Some (C, f) → is_Some (rows_of a k).
Proof. unfold locs_of, rows_of. destruct (sets a !! k); [by eexists|done]. Qed.

Lemma location_loop n rs a b :
  (∀ k r, rows_of a k = Some r → (n ∈ r ↔ k ∈ rs)) →
  loc_final (λ k, (λ r, r ∖ {[n]}) <$> rows_of a k) (locs_of a) →
  loc_surplus a = 0 →
  (is_locating a = true ↔ location_problems a = 0 ∧ sets a ≠ []) →
  foldM (location_update rs) (iter rs) a = Ok b →
  loc_final (rows_of a) (locs_of b) ∧ loc_surplus b = 0
  ∧ (is_locating b = true ↔ location_problems b = 0 ∧ sets b ≠ []).
Proof.
  intros Hrow Hfin Hs HK Hloop.
  pose (Q := λ (l : list nat) (c : Array),
    loc_fits n rs (list_to_set l) (rows_of a) (locs_of c) ∧ loc_surplus c = 0
    ∧ (is_locating c = true ↔ location_problems c = 0 ∧ sets c ≠ [])
    ∧ beside_location a c).
  assert (Q (iter rs) b) as (Hfit & Hs' & HK' & _).
  { revert Hloop. apply (foldM_split Q); unfold Q; clear Q.
    - intros l1 t1 l2 c c' E (Hfit & Hsc & HKc & Hbe) Hstep.
      assert (t1 ∈ rs) as Ht1.
      { apply elem_of_iter. rewrite E. apply elem_of_app. right. by left. }
      assert (t1 ∉ l1) as Hfresh.
      { pose proof (NoDup_iter rs) as Hnd. rewrite E in Hnd.
        apply NoDup_app in Hnd as (_ & Hnd & _). intros Hin. apply (Hnd t1 Hin). by left. }
      assert (∀ k C, locs_of c k = Some (C, true) → C = ∅) as Hflag.
      { intros k C Hl. destruct (rows_of_locs_of _ _ _ _ Hl) as [r Hr].
        rewrite (rows_of_beside _ _ _ Hbe) in Hr.
        destruct (Hfit k C true r Hl Hr) as [_ Hf]. by destruct (proj1 Hf eq_refl). }
      destruct (location_update_effect rs t1 c c' (rows_of a) Ht1
                  (λ k, rows_of_beside _ _ k Hbe) Hflag Hstep) as [Hst Hkeep].
      destruct (Hkeep Hsc HKc) as [Hsc' HKc']. split_and!; [|done|done|].
      + replace (list_to_set (l1 ++ [t1]) : gset nat) with (list_to_set l1 ∪ {[t1]} : gset nat).
        2: { apply set_eq. intros k.
             rewrite elem_of_union, !elem_of_list_to_set, elem_of_app, elem_of_singleton.
             by rewrite list_elem_of_singleton. }
        eapply (loc_fits_step n rs (rows_of a) Hrow); [| | |exact Hfit|exact Hst].
        * intros k Hk. apply elem_of_list_to_set in Hk. apply elem_of_iter. rewrite E.
          apply elem_of_app. by left.
        * done.
        * by rewrite elem_of_list_to_set.
      + by eapply location_update_beside.
    - split_and!; [|done|done|reflexivity]. simpl. by apply loc_fits_start. }
  split_and!; [|done|done].
  apply (loc_fits_end n rs (rows_of a) Hrow).
  replace rs with (list_to_set (iter rs) : gset nat) at 2; [done|].
  apply set_eq. intros k. by rewrite elem_of_list_to_set, elem_of_iter.
Qed.

(** ** The other loops leave the location state alone *)

Lemma beside_coverage_loc a b :
  beside_coverage a b →
  sets b = sets a ∧ location_problems b = location_problems a
  ∧ is_locating b = is_locating a.
Proof.
  intros Hb. destruct (agree_lists _ _ _ _ _ _ Hb) as (Ha & _ & Ht).
  rewrite !list_fmap_id in Ht. split_and!; [done| |].
  - change ((but_coverage_a b).1.1.1.2 = (but_coverage_a a).1.1.1.2). by rewrite Ha.
  - change ((but_coverage_a b).1.2 = (but_coverage_a a).1.2). by rewrite Ha.
Qed.

Lemma beside_detection_loc a b :
  beside_detection a b →
  sets b = sets a ∧ location_problems b = location_problems a
  ∧ is_locating b = is_locating a.
Proof.
  intros Hb. destruct (agree_lists _ _ _ _ _ _ Hb) as (Ha & _ & Ht).
  rewrite !list_fmap_id in Ht. split_and!; [done| |].
  - change ((but_detection_a b).1.1.2 = (but_detection_a a).1.1.2). by rewrite Ha.
  - change ((but_detection_a b).2 = (but_detection_a a).2). by rewrite Ha.
Qed.

Lemma same_books_loc a b :
  same_books a b →
  loc_t <$> sets b = loc_t <$> sets a ∧ location_problems b = location_problems a
  ∧ is_locating b = is_locating a.
Proof.
  intros Hb. destruct (agree_lists _ _ _ _ _ _ Hb) as (Ha & _ & Ht). split_and!.
  - apply (f_equal (fmap (λ x : list nat * list SingleP * gset nat * bool, (x.1.2, x.2))))
      in Ht.
    by rewrite <- !list_fmap_compose in Ht.
  - change ((book_a b).1.1.1.1.1.2 = (book_a a).1.1.1.1.1.2). by rewrite Ha.
  - change ((book_a b).1.2 = (book_a a).1.2). by rewrite Ha.
Qed.

Lemma counting_loop_location rs l a b :
  foldM (λ i a,
      a ← coverage_update i a;
      if decide (p a = all) then detection_update rs i a else Ok a) l a = Ok b →
  sets b = sets a ∧ location_problems b = location_problems a
  ∧ is_locating b = is_locating a ∧ p b = p a.
Proof.
  apply (foldM_inv (λ c, sets c = sets a ∧ location_problems c = location_problems a
                         ∧ is_locating c = is_locating a ∧ p c = p a)); [|done].
  intros i c c' _ (E1 & E2 & E3 & E4) Hi. apply bind_Ok in Hi as (c1 & Hc1 & Hi).
  eapply coverage_update_beside in Hc1; [|reflexivity].
  pose proof (beside_coverage_p _ _ Hc1) as Ep1.
  destruct (beside_coverage_loc _ _ Hc1) as (F1 & F2 & F3).
  destruct (decide (p c1 = all)) as [Hp|Hp]; inv_Ok Hi.
  - eapply detection_update_beside in Hi; [|reflexivity].
    pose proof (beside_detection_p _ _ Hi) as Ep2.
    destruct (beside_detection_loc _ _ Hi) as (G1 & G2 & G3).
    split_and!; congruence.
  - split_and!; congruence.
Qed.

(** ** One call of [update_array] *)

Lemma loc_final_ext rw rw' lc lc' :
  (∀ k, rw k = rw' k) → (∀ k, lc k = lc' k) → loc_final rw lc → loc_final rw' lc'.
Proof.
  intros Hr Hl H k C f r. rewrite <- Hl, <- Hr. intros H1 H2.
  destruct (H k C f r H1 H2) as [HC Hf]. split; [|done].
  intros k'. rewrite <- Hr. apply HC.
Qed.

Lemma locs_of_lists a b k : loc_t <$> sets b = loc_t <$> sets a → locs_of b k = locs_of a k.
Proof. intros E. unfold locs_of. by rewrite <- !list_lookup_fmap, E. Qed.

Lemma rows_of_skeleton a b k : same_skeleton a b → rows_of b k = rows_of a k.
Proof.
  intros (_ & _ & _ & Ht). specialize (Ht k). unfold rows_of.
  destruct (sets b !! k), (sets a !! k); simpl in *; try done.
  unfold skel_t in Ht. congruence.
Qed.

Lemma flags_of_locs a b :
  loc_t <$> sets b = loc_t <$> sets a → is_locatable <$> sets b = is_locatable <$> sets a.
Proof.
  intros E. apply (f_equal (fmap snd)) in E. by rewrite <- !list_fmap_compose in E.
Qed.

Lemma nil_of_locs a b : loc_t <$> sets b = loc_t <$> sets a → sets b = [] ↔ sets a = [].
Proof.
  intros E. apply (f_equal length) in E. rewrite !length_fmap in E.
  destruct (sets a), (sets b); simpl in *; try lia; done.
Qed.

Lemma update_array_location row ri a b :
  (p a = c_only → sets a = []) →
  (∀ k r, rows_of a k = Some r → ∀ x, x ∈ r → (x ≤ num_tests a)%nat) →
  loc_inv a →
  update_array row ri true a = Ok b →
  loc_inv b ∧ (∀ k r, rows_of b k = Some r → ∀ x, x ∈ r → (x ≤ num_tests b)%nat).
Proof.
  intros Hc Hbound (Hfin & Hsur & HK) H.
  unfold update_array in H. apply bind_Ok in H as ([a3 rs0] & Hbody & H). inv_Ok H.
  rewrite update_array_body_unfold in Hbody. cbv zeta in Hbody.
  apply bind_Ok in Hbody as ([a1 rs] & Hins & Hbody).
  apply bind_Ok in Hbody as (a3 & Hcount & Hbody). inv_Ok Hbody. rename rs0 into rs.
  set (a0 := upd F_num_tests S (upd F_rows (λ l, l ++ [row]) a)) in *.
  set (n := num_tests a0) in *.
  assert (n = S (num_tests a)) as En by done.
  destruct (insert_phase_rows _ _ _ _ _ Hins) as [Ent _].
  apply insert_phase_spec in Hins as (Hbooks & _ & _ & (_ & _ & Hrc)).
  destruct (same_books_loc _ _ Hbooks) as (El1 & Elp1 & Eil1).
  pose proof (same_books_p _ _ Hbooks) as Ep1.
  change (sets a0) with (sets a) in *. change (location_problems a0) with (location_problems a) in *.
  change (is_locating a0) with (is_locating a) in *. change (p a0) with (p a) in *.
  pose proof (counting_phases_skeleton _ _ _ _ Hcount) as Hskel.
  assert (num_tests b = n) as Enb.
  { destruct Hskel as (Ha & _). apply skel_a_inv in Ha as (_ & -> & _). done. }
  assert (∀ k r1, rows_of a1 k = Some r1 →
            ∃ r0, rows_of a k = Some r0 ∧ r0 = r1 ∖ {[n]} ∧ (n ∈ r1 ↔ k ∈ rs)
              ∧ ∀ x, x ∈ r1 → (x ≤ n)%nat) as Hrows.
  { intros k r1 Hr1. unfold rows_of in Hr1.
    destruct (sets a1 !! k) as [X1|] eqn:EX1; [|done]. injection Hr1 as <-.
    destruct (Hrc k X1 EX1) as (X0 & EX0 & Hmem). change (sets a0) with (sets a) in EX0.
    unfold member_after in Hmem. exists (t_rows X0).
    assert (∀ x, x ∈ t_rows X0 → (x ≤ num_tests a)%nat) as Hb0.
    { apply (Hbound k). unfold rows_of. by rewrite EX0. }
    split_and!.
    - unfold rows_of. by rewrite EX0.
    - apply set_eq. intros x. rewrite elem_of_difference, elem_of_singleton, Hmem. split.
      + intros Hx. split; [by left|]. apply Hb0 in Hx. lia.
      + intros [[?|[? _]] ?]; done.
    - rewrite Hmem. split.
      + intros [Hx|[_ ?]]; [|done]. apply Hb0 in Hx. lia.
      + intros ?. by right.
    - intros x. rewrite Hmem. intros [Hx|[-> _]]; [|lia]. apply Hb0 in Hx. lia. }
  assert (∀ k, rows_of a k = (λ r, r ∖ {[n]}) <$> rows_of a1 k) as Hback.
  { intros k. destruct (rows_of a1 k) as [r1|] eqn:E1.
    - destruct (Hrows k r1 E1) as (r0 & -> & -> & _). done.
    - simpl. unfold rows_of in *. pose proof (locs_of_lists _ _ k El1) as El.
      unfold locs_of in El. destruct (sets a1 !! k); [done|]. by destruct (sets a !! k). }
  assert (∀ k r, rows_of b k = Some r → ∀ x, x ∈ r → (x ≤ num_tests b)%nat) as Hbound'.
  { intros k r Hr. rewrite (rows_of_skeleton _ _ k Hskel) in Hr.
    destruct (Hrows k r Hr) as (_ & _ & _ & _ & Hle). by rewrite Enb. }
  split; [|done].
  unfold counting_phases in Hcount. apply bind_Ok in Hcount as (a2 & Hloop & Hloc).
  destruct (counting_loop_location _ _ _ _ Hloop) as (Es2 & Elp2 & Eil2 & Ep2).
  assert (∀ k, rows_of a2 k = rows_of a1 k) as Er2 by (intros k; unfold rows_of; by rewrite Es2).
  assert (loc_t <$> sets a2 = loc_t <$> sets a) as El2 by (by rewrite Es2).
  assert (loc_final (λ k, (λ r, r ∖ {[n]}) <$> rows_of a2 k) (locs_of a2)) as Hfin2.
  { eapply loc_final_ext; [| |exact Hfin].
    - intros k. by rewrite Er2, Hback.
    - intros k. symmetry. by apply locs_of_lists. }
  assert (loc_surplus a2 = 0) as Hsur2.
  { unfold loc_surplus in *. rewrite (flags_of_locs _ _ El2). lia. }
  assert (is_locating a2 = true ↔ location_problems a2 = 0 ∧ sets a2 ≠ []) as HK2.
  { rewrite Eil2, Eil1, Elp2, Elp1, HK, (nil_of_locs _ _ El2). done. }
  destruct (decide (p a2 ≠ c_only ∧ is_locating a2 = false)) as [[Hp Hil]|Hskip].
  - pose proof (location_phase_beside _ _ _ _ Hloc) as Hbe.
    destruct (location_loop n rs a2 b) as (Hf & Hs & HKb); [|done..|].
    { intros k r Hr. rewrite Er2 in Hr. by destruct (Hrows k r Hr) as (_ & _ & _ & ? & _). }
    split_and!; [|done|done].
    eapply loc_final_ext; [| |exact Hf]; [|done].
    intros k. symmetry. by apply rows_of_beside.
  - inv_Ok Hloc. split_and!; [|done|done].
    destruct (decide (p b = c_only)) as [Hpc|Hpc].
    + assert (sets b = []) as Eb.
      { apply (nil_of_locs _ _ El2). apply Hc. congruence. }
      intros k C f r Hl. unfold locs_of in Hl. by rewrite Eb in Hl.
    + assert (is_locating b = true) as Hil by (destruct (is_locating b); [done|tauto]).
      apply (loc_final_grow n); [|done].
      intros k C f Hl. apply flag_of_locs in Hl.
      destruct (proj1 HK2 Hil) as [Hz _]. unfold loc_surplus in Hsur2.
      assert (count_false (is_locatable <$> sets b) = 0%nat) as Hcz by lia.
      by apply (proj1 (count_false_zero _) Hcz k f).
Qed.

(** ** Runs *)

Lemma Array_of_Parser_location inp a :
  Array_of_Parser inp = Ok a →
  loc_inv a ∧ (∀ k r, rows_of a k = Some r → ∀ x, x ∈ r → (x ≤ num_tests a)%nat).
Proof.
  intros Hc. destruct (Array_of_Parser_counters _ _ Hc) as (_ & _ & _ & Elp & _).
  pose proof (Array_of_Parser_flags _ _ Hc) as Efl.
  unfold flags in Efl. injection Efl as _ Eil _.
  destruct (Array_of_Parser_built _ _ Hc) as (_ & _ & _ & _ & _ & _ & Hsets).
  apply Array_of_Parser_initial in Hc as ([Hcore _] & _).
  destruct Hcore as (_ & _ & _ & _ & _ & HT).
  assert (in_p inp = c_only → sets a = []) as Hnone.
  { intros Hp. rewrite decide_True in Hsets by done. by apply fmap_nil_inv in Hsets. }
  split; [split_and!|].
  - intros k C f r Hl Hr. unfold locs_of in Hl. unfold rows_of in Hr.
    destruct (sets a !! k) as [X|] eqn:EX; [|done]. destruct (HT k X EX) as (E1 & E2 & E3).
    simpl in *. unfold loc_t in Hl. rewrite E2, E3 in Hl. rewrite E1 in Hr.
    injection Hl as <- <-. injection Hr as <-. split.
    + intros k'. split; [by intros ?%elem_of_empty|]. by intros (_ & ? & _).
    + split; [done|]. by intros [_ ?].
  - unfold loc_surplus. rewrite Elp. destruct (decide (in_p inp = c_only)) as [Hp|Hp].
    + by rewrite (Hnone Hp).
    + rewrite all_false_count, length_fmap; [lia|].
      intros i b. rewrite list_lookup_fmap. destruct (sets a !! i) as [X|] eqn:EX; [|done].
      intros [= <-]. by destruct (HT i X EX) as (_ & _ & ?).
  - rewrite Eil, Elp. split; [done|]. intros [Hz Hne]. exfalso.
    destruct (decide (in_p inp = c_only)) as [Hp|Hp]; [by apply Hne, Hnone|].
    destruct (sets a); [done|]. simpl in Hz. lia.
  - intros k r Hr x Hx. unfold rows_of in Hr.
    destruct (sets a !! k) as [X|] eqn:EX; [|done]. destruct (HT k X EX) as (E1 & _).
    injection Hr as <-. rewrite E1 in Hx. by apply elem_of_empty in Hx.
Qed.

Lemma run_location inp a : reached inp a → loc_inv a.
Proof.
  intros H.
  cut (loc_inv a ∧ (∀ k r, rows_of a k = Some r → ∀ x, x ∈ r → (x ≤ num_tests a)%nat)).
  { by intros [? _]. }
  revert a H. apply (reached_ind inp
    (λ a, loc_inv a
          ∧ (∀ k r, rows_of a k = Some r → ∀ x, x ∈ r → (x ≤ num_tests a)%nat))).
  - intros b perm H. exact H.
  - intros b dc H. exact H.
  - intros b row b' Hb _ [Hinv Hbound] Hrow. unfold update_array_row in Hrow.
    apply bind_Ok in Hrow as (ri & _ & Hrow).
    destruct Hb as (_ & Hpar & _ & _ & _ & _ & Hsets).
    unfold params in Hpar. injection Hpar as _ _ _ _ Ep.
    apply (update_array_location row ri b b'); [|done..].
    intros Hp. rewrite decide_True in Hsets by congruence. by apply fmap_nil_inv in Hsets.
  - apply Array_of_Parser_location.
Qed.

(** X13. The location state follows the rows of the T sets. After the
    constructor and any run of [add_random_row] and [add_row]: the
    [location_conflicts] of a T set are the other T sets that have exactly
    the same rows, provided it has a row at all; a T set is flagged
    [is_locatable] exactly when it has a row and no conflicts;
    [location_problems] is the number of T sets that are not flagged; and
    [is_locating] is set exactly when there are T sets and
    [location_problems] is 0. *)
Theorem location_state_follows_rows inp a :
  reached inp a →
  (∀ k X, sets a !! k = Some X →
     (∀ k', k' ∈ location_conflicts X ↔
        k' ≠ k ∧ t_rows X ≠ ∅ ∧ ∃ X', sets a !! k' = Some X' ∧ t_rows X' = t_rows X)
     ∧ (is_locatable X = true ↔ location_conflicts X = ∅ ∧ t_rows X ≠ ∅))
  ∧ location_problems a = Z.of_nat (count_false (is_locatable <$> sets a))
  ∧ (is_locating a = true ↔ location_problems a = 0 ∧ sets a ≠ []).
Proof.
  intros H. destruct (run_location _ _ H) as (Hfin & Hsur & HK). split_and!;
    [|unfold loc_surplus in Hsur; lia|done].
  intros k X HX.
  destruct (Hfin k (location_conflicts X) (is_locatable X) (t_rows X)) as [HC Hf].
  { unfold locs_of. by rewrite HX. }
  { unfold rows_of. by rewrite HX. }
  split; [|done]. intros k'. rewrite HC. unfold rows_of. split.
  - intros (? & ? & Hr). split_and!; [done..|].
    destruct (sets a !! k') as [X'|]; [|done]. injection Hr as Hr. by exists X'.
  - intros (? & ? & X' & HX' & E). rewrite HX'. simpl. split_and!; [done..|]. by rewrite E.
Qed.

Lemma location_of_pairs_after_two_calls :
  reached pairs_parser pairs_after_two_calls
  ∧ (∀ k X, sets pairs_after_two_calls !! k = Some X →
       (∀ k', k' ∈ location_conflicts X ↔
          k' ≠ k ∧ t_rows X ≠ ∅
          ∧ ∃ X', sets pairs_after_two_calls !! k' = Some X' ∧ t_rows X' = t_rows X)
       ∧ (is_locatable X = true ↔ location_conflicts X = ∅ ∧ t_rows X ≠ ∅))
  ∧ location_problems pairs_after_two_calls
    = Z.of_nat (count_false (is_locatable <$> sets pairs_after_two_calls))
  ∧ (is_locating pairs_after_two_calls = true ↔
       location_problems pairs_after_two_calls = 0 ∧ sets pairs_after_two_calls ≠ []).
Proof.
  assert (reached pairs_parser pairs_after_two_calls) as H.
  { exists (built pairs_parser), [Random; Random], rng_steps, (),
      (run_rng (do_calls [Random; Random]) (built pairs_parser) rng_steps).
    split; vm_compute; reflexivity. }
  exact (conj H (location_state_follows_rows pairs_parser pairs_after_two_calls H)).
Defined.




